(** * Geohash codec: a shallow embedding of [geohash.go] and its properties

    The Go package encodes a (latitude, longitude) pair as a 12-character
    base-32 string by mapping each coordinate to a 32-bit fraction,
    interleaving the two fractions into a 64-bit key and printing the top
    60 bits of the key, and decodes such strings back.  It also parses
    coordinates, validates hashes, computes the bounding box of a circle,
    estimates the hash length that a search radius requires and measures
    the great-circle distance of two points.  The functions [encode] and
    [decode] of the command [geohash] are embedded as well.

    Data is modelled the way the program has it:
    - [uint32], [uint64] and [int] are integers of [Z] with the wrap-around
      written out ([wrap32], [wrap64], [wrap_int]);
    - [float64] is the IEEE-754 binary64 format as specified by the
      Standard Library's [SpecFloat] at precision 53 and [emax] 1024;
    - a Go [string] is a sequence of bytes (here [string], whose characters
      are 8-bit [ascii] values); [range] over a string decodes UTF-8. *)

From Stdlib Require Import ZArith Lia List String Ascii Bool QArith Qabs Qpower Qround Lqa.
From Stdlib Require Import SpecFloat.
Import ListNotations.

Local Open Scope Z_scope.

(** ** Machine integers *)

Module Int.

Definition wrap32 (x : Z) : Z := x mod 2 ^ 32.
Definition wrap64 (x : Z) : Z := x mod 2 ^ 64.

(** Go's [int] on 64-bit targets: two's complement on 64 bits. *)
Definition wrap_int (x : Z) : Z := (x + 2 ^ 63) mod 2 ^ 64 - 2 ^ 63.

(** [x << n] on a [uint64] and on a [uint32]. *)
Definition shl64 (x n : Z) : Z := wrap64 (Z.shiftl x n).
Definition shl32 (x n : Z) : Z := wrap32 (Z.shiftl x n).

Definition is_uint32 (x : Z) : Prop := 0 <= x < 2 ^ 32.
Definition is_uint64 (x : Z) : Prop := 0 <= x < 2 ^ 64.

(** [for i := lo; i < lo + n; i++ { s = body i s }] *)
Fixpoint for_loop {S : Type} (n : nat) (i : Z) (body : Z -> S -> S) (s : S) : S :=
  match n with
  | O => s
  | Datatypes.S n' => for_loop n' (i + 1) body (body i s)
  end.

End Int.

(** ** Binary64 floating point *)

Module F64.

Definition prec : Z := 53.
Definition emax : Z := 1024.

Definition f64 : Type := spec_float.

Definition add : f64 -> f64 -> f64 := SFadd prec emax.
Definition sub : f64 -> f64 -> f64 := SFsub prec emax.
Definition mul : f64 -> f64 -> f64 := SFmul prec emax.
Definition div : f64 -> f64 -> f64 := SFdiv prec emax.
Definition ltb : f64 -> f64 -> bool := SFltb.
Definition eqb : f64 -> f64 -> bool := SFeqb.
Definition valid : f64 -> bool := valid_binary prec emax.

(** An integer constant or an integer-to-float conversion, rounded to
    nearest even (exact below [2^53]). *)
Definition of_Z (z : Z) : f64 := binary_normalize prec emax z 0 false.

(** The decimal constant [n / 10^k], rounded to nearest even: the
    quotient of two exactly representable integers, correctly rounded. *)
Definition of_decimal (n : Z) (k : Z) : f64 := div (of_Z n) (of_Z (10 ^ k)).

(** The signed mantissa of a finite number. *)
Definition smant (s : bool) (m : positive) : Z := cond_Zopp s (Zpos m).

(** [math.Floor]. *)
Definition floor (x : f64) : f64 :=
  match x with
  | S754_finite s m e =>
      if 0 <=? e then x
      else match Z.shiftr (smant s m) (- e) with
           | Z0 => S754_zero s
           | z => of_Z z
           end
  | _ => x
  end.

(** Truncation towards zero of a finite number, as an integer. *)
Definition trunc (x : f64) : option Z :=
  match x with
  | S754_zero _ => Some 0
  | S754_finite s m e =>
      Some (if 0 <=? e then smant s m * 2 ^ e
            else cond_Zopp s (Z.shiftr (Zpos m) (- e)))
  | _ => None
  end.

(** The conversion [uint32(x)] of a [float64].  The Go compiler on 64-bit
    targets converts to a 64-bit signed integer and keeps the low 32 bits;
    when the truncated value does not fit 64 bits (or [x] is not a number)
    the hardware conversion yields [0x8000000000000000], whose low 32 bits
    are zero. *)
Definition to_uint32 (x : f64) : Z :=
  match trunc x with
  | Some z => if (- 2 ^ 63 <=? z) && (z <? 2 ^ 63) then Int.wrap32 z else 0
  | None => 0
  end.

(** The exact rational value of a finite number (0 for the others). *)
Definition to_Q (x : f64) : Q :=
  match x with
  | S754_finite s m e => (inject_Z (smant s m) * Qpower 2 e)%Q
  | _ => 0%Q
  end.

Definition is_finite (x : f64) : bool :=
  match x with
  | S754_zero _ | S754_finite _ _ _ => true
  | _ => false
  end.

(** The unary minus. *)
Definition opp : f64 -> f64 := SFopp.

(** [math.Sqrt], correctly rounded. *)
Definition sqrt : f64 -> f64 := SFsqrt prec emax.

(** A constant quotient [n / d] of two integers, which the compiler
    evaluates exactly and rounds once, to nearest even. *)
Definition of_ratio (n d : positive) : f64 :=
  div (S754_finite false n 0) (S754_finite false d 0).

End F64.

Import F64.

(** ** Strings and runes *)

Module Str.

Definition byte_of (c : ascii) : Z := Z.of_N (N_of_ascii c).
Definition ascii_of (b : Z) : ascii := ascii_of_N (Z.to_N b).

Definition rune : Type := Z.
Definition RuneError : rune := 65533.

(** First-byte classes of UTF-8: the length of the sequence and the range
    accepted for the second byte. *)
Definition lead (s0 : Z) : option (Z * Z * Z) :=
  if (194 <=? s0) && (s0 <=? 223) then Some (2, 128, 191)
  else if s0 =? 224 then Some (3, 160, 191)
  else if (225 <=? s0) && (s0 <=? 236) then Some (3, 128, 191)
  else if s0 =? 237 then Some (3, 128, 159)
  else if (238 <=? s0) && (s0 <=? 239) then Some (3, 128, 191)
  else if s0 =? 240 then Some (4, 144, 191)
  else if (241 <=? s0) && (s0 <=? 243) then Some (4, 128, 191)
  else if s0 =? 244 then Some (4, 128, 143)
  else None.

Definition outside (lo hi b : Z) : bool := (b <? lo) || (hi <? b).

(** The rune at the start of a string and its width in bytes; an invalid
    sequence gives [RuneError] and width 1. *)
Definition decodeRune (s : string) : rune * nat :=
  match s with
  | EmptyString => (RuneError, 0%nat)
  | String c0 t0 =>
      let s0 := byte_of c0 in
      if s0 <? 128 then (s0, 1%nat)
      else
        match lead s0, t0 with
        | Some (sz, lo, hi), String c1 t1 =>
            let s1 := byte_of c1 in
            if outside lo hi s1 then (RuneError, 1%nat)
            else if sz =? 2
                 then (Z.lor (Z.shiftl (Z.land s0 31) 6) (Z.land s1 63), 2%nat)
            else
              match t1 with
              | String c2 t2 =>
                  let s2 := byte_of c2 in
                  if outside 128 191 s2 then (RuneError, 1%nat)
                  else if sz =? 3
                       then (Z.lor (Z.lor (Z.shiftl (Z.land s0 15) 12)
                                          (Z.shiftl (Z.land s1 63) 6))
                                   (Z.land s2 63), 3%nat)
                  else
                    match t2 with
                    | String c3 _ =>
                        let s3 := byte_of c3 in
                        if outside 128 191 s3 then (RuneError, 1%nat)
                        else (Z.lor (Z.lor (Z.lor (Z.shiftl (Z.land s0 7) 18)
                                                  (Z.shiftl (Z.land s1 63) 12))
                                           (Z.shiftl (Z.land s2 63) 6))
                                    (Z.land s3 63), 4%nat)
                    | EmptyString => (RuneError, 1%nat)
                    end
              | EmptyString => (RuneError, 1%nat)
              end
        | _, _ => (RuneError, 1%nat)
        end
  end.

(** [for i, c := range s]: the byte index and the rune of every iteration.
    [skip] counts the continuation bytes of the rune being stepped over. *)
Fixpoint range_from (s : string) (i : Z) (skip : nat) : list (Z * rune) :=
  match s with
  | EmptyString => []
  | String _ s' =>
      match skip with
      | S k => range_from s' (i + 1) k
      | O => (i, fst (decodeRune s)) :: range_from s' (i + 1) (Nat.pred (snd (decodeRune s)))
      end
  end.

Definition range (s : string) : list (Z * rune) := range_from s 0 0.

Definition str1 (b : Z) : string := String (ascii_of b) EmptyString.

(** The conversion [string(c)] of a rune: its UTF-8 encoding, and the
    encoding of [RuneError] for a value that is not a code point. *)
Definition string_of_rune (c : rune) : string :=
  if (0 <=? c) && (c <? 128) then str1 c
  else if (128 <=? c) && (c <? 2048) then
    str1 (Z.lor 192 (Z.shiftr c 6)) ++ str1 (Z.lor 128 (Z.land c 63))
  else if ((2048 <=? c) && (c <? 55296)) || ((57344 <=? c) && (c <? 65536)) then
    str1 (Z.lor 224 (Z.shiftr c 12)) ++ str1 (Z.lor 128 (Z.land (Z.shiftr c 6) 63))
      ++ str1 (Z.lor 128 (Z.land c 63))
  else if (65536 <=? c) && (c <? 1114112) then
    str1 (Z.lor 240 (Z.shiftr c 18)) ++ str1 (Z.lor 128 (Z.land (Z.shiftr c 12) 63))
      ++ str1 (Z.lor 128 (Z.land (Z.shiftr c 6) 63)) ++ str1 (Z.lor 128 (Z.land c 63))
  else str1 239 ++ str1 191 ++ str1 189.

(** [strings.Index]: the byte index of the first occurrence of [sub] in
    [s], or -1. *)
Fixpoint index_from (s sub : string) (i : Z) : Z :=
  if prefix sub s then i
  else match s with
       | EmptyString => -1
       | String _ s' => index_from s' sub (i + 1)
       end.

Definition Index (s sub : string) : Z := index_from s sub 0.

(** [strings.Split(s, ",")] for the one-byte separator [sep]. *)
Fixpoint split_acc (sep : ascii) (s : string) (cur : string) : list string :=
  match s with
  | EmptyString => [cur]
  | String c s' =>
      if Ascii.eqb c sep then cur :: split_acc sep s' EmptyString
      else split_acc sep s' (cur ++ String c EmptyString)
  end.

Definition Split (s : string) (sep : ascii) : list string := split_acc sep s EmptyString.

End Str.

Import Str.

(** ** The package [geohash] *)

Module Geohash.

(** *** Constants *)

Definition minLat : f64 := of_Z (-90).
Definition maxLat : f64 := of_Z 90.
Definition minLong : f64 := of_Z (-180).
Definition maxLong : f64 := of_Z 180.

(** The constant expressions [maxLat - minLat] and [maxLong - minLong]
    are evaluated exactly by the compiler. *)
Definition latSpan : f64 := of_Z 180.
Definition longSpan : f64 := of_Z 360.
Definition two32 : f64 := of_Z (2 ^ 32).

Definition alphabet : string := "0123456789bcdefghjkmnpqrstuvwxyz".

Definition mercatorMax : f64 := of_decimal 2003773 2.
Definition lenOfADegreeOfLat : f64 := of_decimal 1111 1.
Definition lenOfADegreeOfLng : f64 := of_decimal 111320 3.
Definition maxLength : Z := 12.

(** *** ParseCoordinate

    [strings.TrimSpace] and [strconv.ParseFloat] belong to Go's standard
    library; the function is modelled over them. *)

Inductive coord_error (E : Type) : Type :=
| FormatError : coord_error E
| FloatError : E -> coord_error E
| LatRangeError : coord_error E
| LongRangeError : coord_error E.
Arguments FormatError {E}.
Arguments FloatError {E} _.
Arguments LatRangeError {E}.
Arguments LongRangeError {E}.

Section Parse.
Variable E : Type.
Variable TrimSpace : string -> string.
Variable ParseFloat : string -> f64 * option E.

(** The three named results [(lat, lng, err)]. *)
Definition ParseCoordinate (coords : string) : f64 * f64 * option (coord_error E) :=
  let zero := S754_zero false in
  match Split coords "," with
  | [latStr; longStr] =>
      let (lat, err) := ParseFloat (TrimSpace latStr) in
      match err with
      | Some e => (lat, zero, Some (FloatError e))
      | None =>
          let (lng, err) := ParseFloat (TrimSpace longStr) in
          match err with
          | Some e => (lat, lng, Some (FloatError e))
          | None =>
              if ltb lat minLat || ltb maxLat lat
              then (lat, lng, Some LatRangeError)
              else if ltb lng minLong || ltb maxLong lng
                   then (lat, lng, Some LongRangeError)
                   else (lat, lng, None)
          end
      end
  | _ => (zero, zero, Some FormatError)
  end.
End Parse.

(** *** Encode *)

Definition mapTo32Bits (value : f64) : Z :=
  to_uint32 (floor (mul two32 value)).

Definition interleave_body (lat32 lng32 : Z) (i : Z) (result : Z) : Z :=
  let result := Z.lor result (Int.shl64 (Z.land lat32 (Int.shl64 1 i)) i) in
  Z.lor result (Int.shl64 (Z.land lng32 (Int.shl64 1 i)) (i + 1)).

Definition interleave32Bits (lat32 lng32 : Z) : Z :=
  Int.for_loop 32 0 (interleave_body lat32 lng32) 0.

(** [alphabet[chunk]] panics when the index is out of range: [None]. *)
Fixpoint uint64ToBase32_loop (n : nat) (value : Z) (result : string) : option string :=
  match n with
  | O => Some result
  | S n' =>
      let chunk := Z.shiftr value (64 - 5) in
      match String.get (Z.to_nat chunk) alphabet with
      | Some c => uint64ToBase32_loop n' (Int.shl64 value 5) (result ++ String c EmptyString)
      | None => None
      end
  end.

Definition uint64ToBase32 (value : Z) : option string :=
  uint64ToBase32_loop 12 value EmptyString.

Definition geohashInt (lat lng : f64) : Z :=
  let lat32 := mapTo32Bits (div (sub lat minLat) latSpan) in
  let long32 := mapTo32Bits (div (sub lng minLong) longSpan) in
  interleave32Bits lat32 long32.

Definition Encode (lat lng : f64) : option string :=
  uint64ToBase32 (geohashInt lat lng).

(** *** ParseGeohash and Decode *)

Inductive hash_error : Type :=
| InvalidCharacter (c : rune) (i : Z).

Fixpoint ParseGeohash_loop (its : list (Z * rune)) : option hash_error :=
  match its with
  | [] => None
  | (i, c) :: rest =>
      let index := Index alphabet (string_of_rune c) in
      if index =? -1 then Some (InvalidCharacter c i)
      else ParseGeohash_loop rest
  end.

Definition ParseGeohash (hash : string) : option hash_error :=
  ParseGeohash_loop (range hash).

Definition Base32ToUint64_body (result : Z) (ic : Z * rune) : Z :=
  let index := Index alphabet (string_of_rune (snd ic)) in
  Z.lor (Int.shl64 result 5) (Int.wrap64 index).

Definition Base32ToUint64 (hash : string) : Z :=
  let result := fold_left Base32ToUint64_body (range hash) 0 in
  Int.shl64 result (64 - 5 * maxLength).

Definition DeInterleave_body (value : Z) (i : Z) (acc : Z * Z) : Z * Z :=
  let (lat32, lng32) := acc in
  let lat32 := Z.lor lat32 (Int.shl32 (Int.wrap32 (Z.land (Z.shiftr value (i * 2)) 1)) i) in
  let lng32 := Z.lor lng32 (Int.shl32 (Int.wrap32 (Z.land (Z.shiftr value (i * 2 + 1)) 1)) i) in
  (lat32, lng32).

Definition DeInterleave64Bits (value : Z) : Z * Z :=
  Int.for_loop 32 0 (DeInterleave_body value) (0, 0).

Definition unmapLat (lat32 : Z) : f64 :=
  add (mul (div (of_Z lat32) two32) latSpan) minLat.

Definition unmapLong (lng32 : Z) : f64 :=
  add (mul (div (of_Z lng32) two32) longSpan) minLong.

Definition Decode (hash : string) : f64 * f64 :=
  let value := Base32ToUint64 hash in
  let (lat32, lng32) := DeInterleave64Bits value in
  (unmapLat lat32, unmapLong lng32).

(** *** BoundingBox

    [math.Cos] and [math.Pi] come from Go's standard library.  The file
    holds two variants of the function, which differ in the order of the
    four results. *)

Section Geometry.
Variable Cos : f64 -> f64.
Variable Pi : f64.

Definition deltaLat (r : f64) : f64 := div r lenOfADegreeOfLat.

Definition deltaLng (lat r : f64) : f64 :=
  let kmInLongitudeDegree := mul lenOfADegreeOfLng (Cos (mul (div lat (of_Z 180)) Pi)) in
  div r kmInLongitudeDegree.

(** The package's [BoundingBox] (first variant). *)
Definition BoundingBox (lat lng r : f64) : f64 * f64 * f64 * f64 :=
  let minLat := sub lat (deltaLat r) in
  let maxLat := add lat (deltaLat r) in
  let minLng := sub lng (deltaLng lat r) in
  let maxLng := add lng (deltaLng lat r) in
  (minLat, minLng, maxLat, maxLng).

(** The second variant of [BoundingBox] bundled with the package. *)
Definition BoundingBox' (lat lng r : f64) : f64 * f64 * f64 * f64 :=
  let minLat := sub lat (deltaLat r) in
  let maxLat := add lat (deltaLat r) in
  let minLng := sub lng (deltaLng lat r) in
  let maxLng := add lng (deltaLng lat r) in
  (minLat, maxLat, minLng, maxLng).
End Geometry.

(** *** EstimateLengthRequired

    The loop [for r < mercatorMax { r *= 2; p += 2 }] runs on fuel:
    [None] when the fuel runs out before the loop exits. *)

Fixpoint estimate_loop (fuel : nat) (r : f64) (p : Z) : option (f64 * Z) :=
  match fuel with
  | O => None
  | S fuel' =>
      if ltb r mercatorMax
      then estimate_loop fuel' (mul r (of_Z 2)) (Int.wrap_int (p + 2))
      else Some (r, p)
  end.

Definition clamp (l : Z) : Z :=
  let l := if l <? 1 then 1 else l in
  if maxLength <? l then maxLength else l.

Definition EstimateLengthRequired (fuel : nat) (r : f64) : option Z :=
  if eqb r (of_Z 0) then Some maxLength
  else match estimate_loop fuel r 0 with
       | Some (_, p) => Some (clamp (Z.quot p 5))
       | None => None
       end.

(** *** Distance

    [math.Sin], [math.Cos] and [math.Atan2] come from Go's standard
    library.  Every operation is rounded on its own. *)

Definition earthRadius : f64 := of_Z 6371.

(** [math.Pi / 180.0] is a constant expression: the quotient of the
    constant [math.Pi] by 180 is evaluated exactly and rounded once. *)
Definition radiansPerDegree : f64 :=
  of_ratio 314159265358979323846264338327950288419716939937510582097494459
           (180 * 10 ^ 62).

Definition degreesToRadians (degrees : f64) : f64 := mul degrees radiansPerDegree.

Section Haversine.
Variables Sin Cos : f64 -> f64.
Variable Atan2 : f64 -> f64 -> f64.

Definition Distance (lat1 lng1 lat2 lng2 : f64) : f64 :=
  let lat1Rad := degreesToRadians lat1 in
  let lng1Rad := degreesToRadians lng1 in
  let lat2Rad := degreesToRadians lat2 in
  let lng2Rad := degreesToRadians lng2 in
  let dLat := sub lat2Rad lat1Rad in
  let dLng := sub lng2Rad lng1Rad in
  let a := add (mul (Sin (div dLat (of_Z 2))) (Sin (div dLat (of_Z 2))))
               (mul (mul (mul (Cos lat1Rad) (Cos lat2Rad)) (Sin (div dLng (of_Z 2))))
                    (Sin (div dLng (of_Z 2)))) in
  let c := mul (of_Z 2) (Atan2 (sqrt a) (sqrt (sub (of_Z 1) a))) in
  let distance := mul earthRadius c in
  distance.
End Haversine.

End Geohash.

Import Geohash.

(** ** The command [geohash] (package [main]) *)

Module Main.

Section Cli.
Variable E : Type.
Variable TrimSpace : string -> string.
Variable ParseFloat : string -> f64 * option E.

(** [encode]; the result is [None] when [geohash.Encode] panics. *)
Definition encode (coords : string) : option (string * option (coord_error E)) :=
  match ParseCoordinate E TrimSpace ParseFloat coords with
  | (_, _, Some err) => Some (EmptyString, Some err)
  | (lat, lng, None) =>
      match Encode lat lng with
      | Some hash => Some (hash, None)
      | None => None
      end
  end.
End Cli.

(** [decode], with its three named results. *)
Definition decode (hash : string) : f64 * f64 * option hash_error :=
  match ParseGeohash hash with
  | Some err => (S754_zero false, S754_zero false, Some err)
  | None => let (lat, lng) := Decode hash in (lat, lng, None)
  end.

End Main.

(** * Notions used by the statements *)

Module Notions.
Import Int.

(** ** Base-32 strings *)

Definition in_alphabetb (c : ascii) : bool :=
  existsb (Ascii.eqb c) (list_ascii_of_string alphabet).

Definition in_alphabet (c : ascii) : Prop := in_alphabetb c = true.

Definition alphabet_char (chunk : Z) : ascii :=
  match String.get (Z.to_nat chunk) alphabet with
  | Some c => c
  | None => Ascii.zero
  end.

(** The characters written by [n] iterations of the loop of
    [uint64ToBase32]. *)
Fixpoint chunks_string (n : nat) (value : Z) : string :=
  match n with
  | O => EmptyString
  | S n' => String (alphabet_char (Z.shiftr value (64 - 5)))
                   (chunks_string n' (shl64 value 5))
  end.

(** The accumulator of [Base32ToUint64] holds the top [5 * t] bits of the
    key [V] after [t] characters. *)
Definition top_bits (V t r : Z) : Prop :=
  forall k, 0 <= k -> Z.testbit r k = (k <? 5 * t) && Z.testbit V (k + 64 - 5 * t).

(** The test of the loops of [ParseGeohash] and [Base32ToUint64]. *)
Definition rune_index (c : rune) : Z := Index alphabet (string_of_rune c).

Definition rune_ok (c : rune) : Prop := rune_index c <> -1.

(** The digit that a character of the alphabet stands for. *)
Definition digit_of (c : ascii) : Z := rune_index (byte_of c).

(** The number of bytes of a string equal to [c]. *)
Fixpoint count_byte (c : ascii) (s : string) : nat :=
  match s with
  | EmptyString => O
  | String a s' => if Ascii.eqb a c then S (count_byte c s') else count_byte c s'
  end.

Definition chars (s : string) : list ascii := list_ascii_of_string s.

Definition digits (hash : string) : list Z := map (fun ic => rune_index (snd ic)) (range hash).

(** The base-32 number written by a list of digits, most significant
    digit first. *)
Definition base32_value (ds : list Z) : Z := fold_left (fun acc d => acc * 32 + d) ds 0.

(** ** Rounding in binary64 *)

Definition emin : Z := SpecFloat.emin prec emax.

(** The last step of [binary_round_aux]: a sign, a mantissa and an
    exponent packed into a number. *)
Definition pack (sx : bool) (M e : Z) : f64 :=
  match M with
  | Z0 => S754_zero sx
  | Zpos m => if e <=? emax - prec then S754_finite sx m e else S754_infinity sx
  | Zneg _ => S754_nan
  end.

(** A mantissa that rounded up to [2^53] moves to the next binade. *)
Definition renorm (M e : Z) : Z * Z :=
  if M =? 2 ^ 53 then (2 ^ 52, e + 1) else (M, e).

Definition inexact (lx : location) (mx n : Z) : Prop :=
  lx <> loc_Exact \/ mx mod 2 ^ n <> 0.

Definition pow2 (e : Z) : Q := Qpower 2 e.

(** The rational [m * 2^e]. *)
Definition dy (m e : Z) : Q := (inject_Z m * pow2 e)%Q.

(** [r] is a finite, valid number that lies between the floating-point
    neighbours of the exact value [t]: no representable number separates
    [r] from [t]. *)
Definition Faithful (r : f64) (t : Q) : Prop :=
  is_finite r = true /\ valid r = true
  /\ forall F c, Z.abs F < 2 ^ 53 -> emin <= c ->
       ((dy F c <= t)%Q -> (dy F c <= to_Q r)%Q)
       /\ ((t <= dy F c)%Q -> (to_Q r <= dy F c)%Q).

Definition signed (sx : bool) (t : Q) : Q := if sx then (- t)%Q else t.

(** The place of the exact value [t] in the interval from [mx * 2^ex] to
    [(mx + 1) * 2^ex], as a location records it. *)
Definition located (lx : location) (mx ex : Z) (t : Q) : Prop :=
  match lx with
  | loc_Exact => (t == dy mx ex)%Q
  | loc_Inexact Lt => (t < dy (2 * mx + 1) (ex - 1))%Q
  | loc_Inexact Eq => (t == dy (2 * mx + 1) (ex - 1))%Q
  | loc_Inexact Gt => (dy (2 * mx + 1) (ex - 1) < t)%Q
  end.

(** No representable number is closer to [t] than [r]. *)
Definition Closest (r : f64) (t : Q) : Prop :=
  forall F c, Z.abs F < 2 ^ 53 -> emin <= c ->
    (Qabs (to_Q r - t) <= Qabs (dy F c - t))%Q.

(** Operands of moderate size: below [2^400] and, for [large], at least
    [2^-400] in magnitude. *)
Definition small (x : f64) : Prop := (Qabs (to_Q x) < pow2 400)%Q.

Definition large (x : f64) : Prop := (pow2 (- 400) <= Qabs (to_Q x))%Q.

(** A negative number stays negative, or becomes minus infinity, when
    doubled. *)
Definition negative (r : f64) : Prop :=
  match r with
  | S754_finite true _ _ | S754_infinity true | S754_zero true => True
  | _ => False
  end.

(** ** Grids and steps *)

(** [L] is the half-width of a coordinate range: 90 for latitudes and 180
    for longitudes.  [grid L K] is the coordinate whose exact 32-bit
    fraction is [K], and [scaled L x] the product [2^32 * ((x - (-L)) / 2L)]
    as [Encode] computes it. *)
Definition grid (L K : Z) : Q := (dy (2 * L * K) (- 32) - inject_Z L)%Q.

Definition scaled (L : Z) (x : f64) : f64 :=
  mul two32 (div (sub x (of_Z (- L))) (of_Z (2 * L))).

(** The width of one step of the 32-bit grid over a range. *)
Definition quantum (range : Z) : Q := (inject_Z range / inject_Z (2 ^ 32))%Q.

Definition times_pow2 (x : Q) (i : nat) : Q := (x * inject_Z (2 ^ Z.of_nat i))%Q.

(** ** Inputs of the examples *)

(** The coordinates of the known vector, as the compiler rounds the
    decimal literals [21.0278] and [105.8342]. *)
Definition lat_hanoi : f64 := of_decimal 210278 4.

Definition lng_hanoi : f64 := of_decimal 1058342 4.

(** [math.Pi] as a [float64]. *)
Definition pi64 : f64 := S754_finite false 7074237752028440 (-51).

(** ** Radii *)

(** The radii on which the loop terminates: zeros, positive numbers, plus
    infinity and NaN. *)
Definition nonnegative_input (r : f64) : Prop :=
  match r with
  | S754_finite true _ _ | S754_infinity true => False
  | _ => True
  end.

End Notions.

Import Notions.

(** ** A sample reader of decimal literals *)

Module ParseSample.

(** A reader of plain decimal literals and of the literal [NaN], and an
    ASCII [TrimSpace], used to instantiate the library functions on
    concrete inputs.  [strconv.ParseFloat] reads more (exponents,
    hexadecimal digits, infinities), which this reader refuses. *)

Definition is_space (c : ascii) : bool :=
  let b := byte_of c in (b =? 32) || ((9 <=? b) && (b <=? 13)).

Fixpoint trim_left (s : string) : string :=
  match s with
  | String c s' => if is_space c then trim_left s' else s
  | EmptyString => EmptyString
  end.

Fixpoint trim_right (s : string) : string :=
  match s with
  | EmptyString => EmptyString
  | String c s' =>
      match trim_right s' with
      | EmptyString => if is_space c then EmptyString else String c EmptyString
      | t => String c t
      end
  end.

Definition TrimSpace (s : string) : string := trim_right (trim_left s).

Fixpoint digits_val (s : string) (acc : Z) : option Z :=
  match s with
  | EmptyString => Some acc
  | String c s' =>
      let b := byte_of c in
      if (48 <=? b) && (b <=? 57) then digits_val s' (acc * 10 + (b - 48)) else None
  end.

Definition unsigned_decimal (s : string) : option f64 :=
  match Split s "." with
  | [i] => match i, digits_val i 0 with
           | String _ _, Some n => Some (of_Z n)
           | _, _ => None
           end
  | [i; f] =>
      match digits_val i 0, digits_val f 0 with
      | Some n, Some m =>
          let k := Z.of_nat (String.length f) in
          if (String.length i + String.length f =? 0)%nat then None
          else Some (of_decimal (n * 10 ^ k + m) k)
      | _, _ => None
      end
  | _ => None
  end.

(** [strconv.ParseFloat] reads the three letters [NaN], in upper or lower
    case and without a sign, as a NaN, and reports no error. *)
Definition is_nan_literal (s : string) : bool :=
  match s with
  | String a (String b (String c EmptyString)) =>
      let lower x := Z.lor (byte_of x) 32 in
      (lower a =? 110) && (lower b =? 97) && (lower c =? 110)
  | _ => false
  end.

Definition ParseFloat (s : string) : f64 * option unit :=
  if is_nan_literal s then (S754_nan, None)
  else
    match s with
    | String "-" s' =>
        match unsigned_decimal s' with
        | Some x => (SFopp x, None)
        | None => (S754_zero false, Some tt)
        end
    | _ =>
        match unsigned_decimal s with
        | Some x => (x, None)
        | None => (S754_zero false, Some tt)
        end
    end.

End ParseSample.

(** * Properties *)

(** ** Bits of machine integers *)

Module IntFacts.
Import Int.

Lemma testbit_wrap64 (x k : Z) :
  Z.testbit (wrap64 x) k = (k <? 64) && Z.testbit x k.
Proof. unfold wrap64. apply Z.testbit_mod_pow2. lia. Qed.

Lemma testbit_wrap32 (x k : Z) :
  Z.testbit (wrap32 x) k = (k <? 32) && Z.testbit x k.
Proof. unfold wrap32. apply Z.testbit_mod_pow2. lia. Qed.

Lemma testbit_shl64 (x n k : Z) :
  0 <= k -> Z.testbit (shl64 x n) k = (k <? 64) && Z.testbit x (k - n).
Proof.
  intros Hk. unfold shl64. rewrite testbit_wrap64, Z.shiftl_spec by assumption.
  reflexivity.
Qed.

Lemma testbit_shl32 (x n k : Z) :
  0 <= k -> Z.testbit (shl32 x n) k = (k <? 32) && Z.testbit x (k - n).
Proof.
  intros Hk. unfold shl32. rewrite testbit_wrap32, Z.shiftl_spec by assumption.
  reflexivity.
Qed.

Lemma testbit_one (k : Z) : Z.testbit 1 k = (k =? 0).
Proof.
  destruct (Z.eqb_spec k 0) as [->|Hk]; [reflexivity|].
  destruct (Z.lt_ge_cases k 0).
  - apply Z.testbit_neg_r; assumption.
  - change 1 with (2 ^ 0). rewrite Z.pow2_bits_eqb by lia.
    apply Z.eqb_neq. lia.
Qed.

Lemma wrap64_range (x : Z) : is_uint64 (wrap64 x).
Proof. unfold is_uint64, wrap64. apply Z.mod_pos_bound. reflexivity. Qed.

Lemma wrap32_range (x : Z) : is_uint32 (wrap32 x).
Proof. unfold is_uint32, wrap32. apply Z.mod_pos_bound. reflexivity. Qed.

Lemma testbit_high (w x k : Z) :
  0 <= w -> 0 <= x < 2 ^ w -> w <= k -> Z.testbit x k = false.
Proof.
  intros Hw Hx Hk.
  destruct (Z.eq_dec x 0) as [->|Hnz]; [apply Z.testbit_0_l|].
  apply Z.bits_above_log2; [lia|].
  apply Z.lt_le_trans with w; [|assumption].
  apply Z.log2_lt_pow2; lia.
Qed.

(** A non-negative integer all of whose bits lie below [w] is below [2^w]. *)
Lemma bits_bound (w x : Z) :
  0 <= w -> 0 <= x -> (forall k, w <= k -> Z.testbit x k = false) -> x < 2 ^ w.
Proof.
  intros Hw Hx Hbits.
  destruct (Z.eq_dec x 0) as [->|Hnz]; [apply Z.pow_pos_nonneg; lia|].
  apply Z.log2_lt_pow2; [lia|].
  destruct (Z.lt_ge_cases (Z.log2 x) w) as [|Hge]; [assumption|].
  specialize (Hbits _ Hge). rewrite Z.bit_log2 in Hbits by lia. discriminate.
Qed.

Lemma for_loop_succ {S : Type} (n : nat) (i : Z) (body : Z -> S -> S) (s : S) :
  for_loop (Datatypes.S n) i body s = body (i + Z.of_nat n) (for_loop n i body s).
Proof.
  revert i s. induction n as [|n IH]; intros i s.
  - simpl. rewrite Z.add_0_r. reflexivity.
  - change (for_loop (Datatypes.S (Datatypes.S n)) i body s)
      with (for_loop (Datatypes.S n) (i + 1) body (body i s)).
    rewrite IH, (Nat2Z.inj_succ n). simpl for_loop.
    replace (i + 1 + Z.of_nat n) with (i + Z.succ (Z.of_nat n)) by lia.
    reflexivity.
Qed.

End IntFacts.

(** ** Interleaving *)

Module InterleaveFacts.
Import Int IntFacts.

Lemma shl64_one (i : Z) : 0 <= i < 64 -> shl64 1 i = 2 ^ i.
Proof.
  intros Hi. unfold shl64, wrap64. rewrite Z.shiftl_1_l.
  apply Z.mod_small. split; [apply Z.pow_nonneg; lia|].
  apply Z.pow_lt_mono_r; lia.
Qed.

(** The bit selected by [x & (1 << i)], moved up by [n]. *)
Lemma testbit_select_shl (x i n k : Z) :
  0 <= i < 64 -> 0 <= n -> 0 <= k ->
  Z.testbit (shl64 (Z.land x (shl64 1 i)) n) k
  = (k <? 64) && (k =? i + n) && Z.testbit x i.
Proof.
  intros Hi Hn Hk.
  rewrite testbit_shl64, shl64_one, Z.land_spec, Z.pow2_bits_eqb by lia.
  destruct (Z.eqb_spec i (k - n)) as [->|Hne].
  - replace (k =? k - n + n) with true by (symmetry; apply Z.eqb_eq; lia).
    rewrite !andb_true_r. reflexivity.
  - replace (k =? i + n) with false by (symmetry; apply Z.eqb_neq; lia).
    rewrite !andb_false_r. reflexivity.
Qed.

Lemma interleave_body_bits (a b i r k : Z) :
  0 <= i < 32 -> 0 <= k ->
  Z.testbit (interleave_body a b i r) k
  = Z.testbit r k || ((k =? 2 * i) && Z.testbit a i)
    || ((k =? 2 * i + 1) && Z.testbit b i).
Proof.
  intros Hi Hk. unfold interleave_body.
  rewrite !Z.lor_spec, !testbit_select_shl by lia.
  replace (i + i) with (2 * i) by lia.
  replace (i + (i + 1)) with (2 * i + 1) by lia.
  destruct (Z.eqb_spec k (2 * i)); destruct (Z.eqb_spec k (2 * i + 1));
    destruct (Z.ltb_spec k 64); try lia;
    rewrite ?andb_true_l, ?andb_false_l, ?andb_false_r, ?orb_false_r; reflexivity.
Qed.

(** The key after the first [n] iterations of the loop. *)
Lemma interleave_loop_bits (a b : Z) (n : nat) (k : Z) :
  (n <= 32)%nat -> 0 <= k ->
  Z.testbit (for_loop n 0 (interleave_body a b) 0) k
  = (k / 2 <? Z.of_nat n) && Z.testbit (if Z.even k then a else b) (k / 2).
Proof.
  intros Hn Hk. induction n as [|n IH].
  - simpl for_loop. rewrite Z.testbit_0_l.
    replace (k / 2 <? Z.of_nat 0) with false; [reflexivity|].
    symmetry. apply Z.ltb_ge. simpl. apply Z.div_pos; lia.
  - rewrite for_loop_succ, interleave_body_bits, IH by lia.
    rewrite Z.add_0_l, Nat2Z.inj_succ.
    pose proof (Zdiv2_odd_eqn k) as Hdiv. rewrite Z.div2_div in Hdiv.
    rewrite <- Z.negb_even in Hdiv.
    destruct (Z.even k); simpl negb in Hdiv; cbv iota in Hdiv;
      destruct (Z.eqb_spec k (2 * Z.of_nat n));
      destruct (Z.eqb_spec k (2 * Z.of_nat n + 1));
      destruct (Z.ltb_spec (k / 2) (Z.of_nat n));
      destruct (Z.ltb_spec (k / 2) (Z.succ (Z.of_nat n))); try lia;
      rewrite ?andb_true_l, ?andb_false_l, ?orb_false_r, ?orb_false_l, ?orb_true_l;
      try reflexivity;
      try (replace (k / 2) with (Z.of_nat n) by lia; reflexivity);
      try (rewrite orb_true_r; reflexivity).
Qed.

Lemma interleave_bits (a b k : Z) :
  0 <= k ->
  Z.testbit (interleave32Bits a b) k
  = (k <? 64) && Z.testbit (if Z.even k then a else b) (k / 2).
Proof.
  intros Hk. unfold interleave32Bits. rewrite interleave_loop_bits by lia.
  f_equal. change (Z.of_nat 32) with 32.
  destruct (Z.ltb_spec (k / 2) 32); destruct (Z.ltb_spec k 64); try reflexivity.
  - assert (32 <= k / 2) by (apply Z.div_le_lower_bound; lia). lia.
  - assert (k / 2 < 32) by (apply Z.div_lt_upper_bound; lia). lia.
Qed.

Lemma interleave_nonneg (a b : Z) (n : nat) :
  0 <= a -> 0 <= b -> 0 <= for_loop n 0 (interleave_body a b) 0.
Proof.
  intros Ha Hb. induction n as [|n IH]; [simpl; lia|].
  rewrite for_loop_succ. unfold interleave_body.
  apply Z.lor_nonneg; split; [apply Z.lor_nonneg; split; [exact IH|]|];
    apply (wrap64_range (Z.shiftl _ _)).
Qed.

Lemma interleave_range (a b : Z) :
  0 <= a -> 0 <= b -> is_uint64 (interleave32Bits a b).
Proof.
  intros Ha Hb. split; [apply interleave_nonneg; assumption|].
  apply bits_bound; [lia|apply interleave_nonneg; assumption|].
  intros k Hk. rewrite interleave_bits by lia.
  replace (k <? 64) with false by (symmetry; apply Z.ltb_ge; lia).
  reflexivity.
Qed.

End InterleaveFacts.

Module DeInterleaveFacts.
Import Int IntFacts.

(** The bit [(value >> j) & 1], converted to [uint32] and moved up by [i]. *)
Lemma testbit_pick_shl (v j i k : Z) :
  0 <= j -> 0 <= i < 32 -> 0 <= k ->
  Z.testbit (shl32 (wrap32 (Z.land (Z.shiftr v j) 1)) i) k
  = (k =? i) && Z.testbit v j.
Proof.
  intros Hj Hi Hk.
  rewrite testbit_shl32, testbit_wrap32, Z.land_spec, testbit_one by lia.
  destruct (Z.eqb_spec (k - i) 0) as [E|E].
  - replace (k =? i) with true by (symmetry; apply Z.eqb_eq; lia).
    rewrite E, Z.shiftr_spec by lia.
    replace (k <? 32) with true by (symmetry; apply Z.ltb_lt; lia).
    simpl. rewrite andb_true_r. reflexivity.
  - replace (k =? i) with false by (symmetry; apply Z.eqb_neq; lia).
    rewrite !andb_false_r. reflexivity.
Qed.

Lemma DeInterleave_body_bits (v i lat32 lng32 k : Z) :
  0 <= i < 32 -> 0 <= k ->
  Z.testbit (fst (DeInterleave_body v i (lat32, lng32))) k
  = Z.testbit lat32 k || ((k =? i) && Z.testbit v (2 * i))
  /\ Z.testbit (snd (DeInterleave_body v i (lat32, lng32))) k
     = Z.testbit lng32 k || ((k =? i) && Z.testbit v (2 * i + 1)).
Proof.
  intros Hi Hk. unfold DeInterleave_body. simpl fst. simpl snd.
  rewrite !Z.lor_spec, !testbit_pick_shl by lia.
  replace (i * 2) with (2 * i) by lia. split; reflexivity.
Qed.

Lemma DeInterleave_loop_bits (v : Z) (n : nat) (k : Z) :
  (n <= 32)%nat -> 0 <= k ->
  Z.testbit (fst (for_loop n 0 (DeInterleave_body v) (0, 0))) k
  = (k <? Z.of_nat n) && Z.testbit v (2 * k)
  /\ Z.testbit (snd (for_loop n 0 (DeInterleave_body v) (0, 0))) k
     = (k <? Z.of_nat n) && Z.testbit v (2 * k + 1).
Proof.
  intros Hn Hk. induction n as [|n IH].
  - simpl for_loop. simpl fst. simpl snd. rewrite Z.testbit_0_l.
    replace (k <? Z.of_nat 0) with false by (symmetry; apply Z.ltb_ge; simpl; lia).
    split; reflexivity.
  - rewrite for_loop_succ.
    destruct (for_loop n 0 (DeInterleave_body v) (0, 0)) as [lat32 lng32].
    simpl fst in IH. simpl snd in IH. destruct IH as [IHa IHb]; [lia|].
    rewrite Z.add_0_l.
    destruct (DeInterleave_body_bits v (Z.of_nat n) lat32 lng32 k) as [Ha Hb];
      [lia|lia|].
    rewrite Ha, Hb, IHa, IHb, Nat2Z.inj_succ.
    destruct (Z.eqb_spec k (Z.of_nat n)) as [->|Hne].
    + replace (Z.of_nat n <? Z.of_nat n) with false by (symmetry; apply Z.ltb_ge; lia).
      replace (Z.of_nat n <? Z.succ (Z.of_nat n)) with true
        by (symmetry; apply Z.ltb_lt; lia).
      split; reflexivity.
    + rewrite !andb_false_l, !orb_false_r.
      destruct (Z.ltb_spec k (Z.of_nat n)); destruct (Z.ltb_spec k (Z.succ (Z.of_nat n)));
        try lia; split; reflexivity.
Qed.

Lemma DeInterleave_nonneg (v : Z) (n : nat) :
  0 <= fst (for_loop n 0 (DeInterleave_body v) (0, 0))
  /\ 0 <= snd (for_loop n 0 (DeInterleave_body v) (0, 0)).
Proof.
  induction n as [|n IH]; [simpl; lia|].
  rewrite for_loop_succ.
  destruct (for_loop n 0 (DeInterleave_body v) (0, 0)) as [lat32 lng32].
  simpl in IH. unfold DeInterleave_body. simpl fst. simpl snd.
  split; apply Z.lor_nonneg; (split; [tauto|apply (wrap32_range (Z.shiftl _ _))]).
Qed.

(** The latitude fraction takes the even bits of the key and the
    longitude fraction the odd bits. *)
Lemma DeInterleave_bits (v k : Z) :
  0 <= k ->
  Z.testbit (fst (DeInterleave64Bits v)) k = (k <? 32) && Z.testbit v (2 * k)
  /\ Z.testbit (snd (DeInterleave64Bits v)) k = (k <? 32) && Z.testbit v (2 * k + 1).
Proof.
  intros Hk. unfold DeInterleave64Bits.
  apply (DeInterleave_loop_bits v 32 k); [lia|assumption].
Qed.

Lemma DeInterleave_range (v : Z) :
  is_uint32 (fst (DeInterleave64Bits v)) /\ is_uint32 (snd (DeInterleave64Bits v)).
Proof.
  destruct (DeInterleave_nonneg v 32) as [Ha Hb].
  fold (DeInterleave64Bits v) in Ha, Hb.
  split; (split; [assumption|]); (apply bits_bound; [lia|assumption|]);
    intros k Hk; destruct (DeInterleave_bits v k) as [Ea Eb]; try lia;
    rewrite ?Ea, ?Eb;
    replace (k <? 32) with false by (symmetry; apply Z.ltb_ge; lia); reflexivity.
Qed.

(** Two non-negative integers with the same bits are equal. *)
Lemma bits_eq (x y : Z) :
  (forall k, 0 <= k -> Z.testbit x k = Z.testbit y k) -> x = y.
Proof. apply Z.bits_inj'. Qed.

Lemma DeInterleave_interleave (a b : Z) :
  is_uint32 a -> is_uint32 b ->
  DeInterleave64Bits (interleave32Bits a b) = (a, b).
Proof.
  intros Ha Hb.
  rewrite (surjective_pairing (DeInterleave64Bits _)).
  f_equal; apply bits_eq; intros k Hk;
    destruct (DeInterleave_bits (interleave32Bits a b) k) as [Ea Eb]; try assumption;
    rewrite ?Ea, ?Eb, InterleaveFacts.interleave_bits by lia.
  - rewrite Z.even_mul. simpl Z.even. simpl orb. cbv iota.
    replace (2 * k / 2) with k by (symmetry; rewrite Z.mul_comm; apply Z.div_mul; lia).
    destruct (Z.ltb_spec k 32) as [Hlt|Hge].
    + replace (2 * k <? 64) with true by (symmetry; apply Z.ltb_lt; lia). reflexivity.
    + simpl. symmetry. apply (testbit_high 32); [lia|exact Ha|assumption].
  - replace (Z.even (2 * k + 1)) with false
      by (rewrite (Z.add_comm (2 * k) 1), Z.even_add_mul_2; reflexivity).
    replace ((2 * k + 1) / 2) with k
      by (apply Z.div_unique with 1; lia).
    destruct (Z.ltb_spec k 32) as [Hlt|Hge].
    + replace (2 * k + 1 <? 64) with true by (symmetry; apply Z.ltb_lt; lia). reflexivity.
    + simpl. symmetry. apply (testbit_high 32); [lia|exact Hb|assumption].
Qed.

End DeInterleaveFacts.

(** ** The base-32 codec *)

Module Base32Facts.
Import Int IntFacts.

Lemma alphabet_get (n : nat) :
  (n < 32)%nat ->
  exists c, String.get n alphabet = Some c /\ in_alphabet c /\ byte_of c < 128
            /\ Index alphabet (string_of_rune (byte_of c)) = Z.of_nat n.
Proof.
  intros Hn.
  do 32 (destruct n as [|n];
         [eexists; split; [reflexivity|]; split; [|split]; vm_compute; reflexivity|]).
  lia.
Qed.

Lemma chunk_bound (v : Z) : is_uint64 v -> 0 <= Z.shiftr v (64 - 5) < 32.
Proof.
  intros [Hlo Hhi]. rewrite Z.shiftr_div_pow2 by lia. split.
  - apply Z.div_pos; [assumption|reflexivity].
  - apply Z.div_lt_upper_bound; [reflexivity|exact Hhi].
Qed.

Lemma alphabet_char_spec (chunk : Z) :
  0 <= chunk < 32 ->
  String.get (Z.to_nat chunk) alphabet = Some (alphabet_char chunk)
  /\ in_alphabet (alphabet_char chunk) /\ byte_of (alphabet_char chunk) < 128
  /\ Index alphabet (string_of_rune (byte_of (alphabet_char chunk))) = chunk.
Proof.
  intros Hc. destruct (alphabet_get (Z.to_nat chunk)) as (c & Hget & Hin & Hb & Hi); [lia|].
  unfold alphabet_char. rewrite Hget. repeat split; try assumption.
  rewrite Hi. lia.
Qed.

Lemma append_assoc (s1 s2 s3 : string) : ((s1 ++ s2) ++ s3 = s1 ++ (s2 ++ s3))%string.
Proof. induction s1 as [|c s1 IH]; simpl; [reflexivity|rewrite IH; reflexivity]. Qed.

Lemma uint64ToBase32_loop_spec (n : nat) (v : Z) (res : string) :
  is_uint64 v ->
  uint64ToBase32_loop n v res = Some (res ++ chunks_string n v)%string.
Proof.
  revert v res. induction n as [|n IH]; intros v res Hv.
  - simpl. f_equal. induction res as [|c r IHr]; simpl; [reflexivity|].
    f_equal. exact IHr.
  - cbn [uint64ToBase32_loop chunks_string].
    destruct (alphabet_char_spec (Z.shiftr v (64 - 5)) (chunk_bound v Hv)) as (Hget & _).
    rewrite Hget, IH by apply wrap64_range.
    rewrite append_assoc. reflexivity.
Qed.

Lemma uint64ToBase32_spec (v : Z) :
  is_uint64 v -> uint64ToBase32 v = Some (chunks_string 12 v).
Proof. intros Hv. unfold uint64ToBase32. rewrite uint64ToBase32_loop_spec; auto. Qed.

Lemma chunks_string_length (n : nat) (v : Z) : String.length (chunks_string n v) = n.
Proof.
  revert v. induction n as [|n IH]; intros v; cbn [chunks_string String.length];
    [|rewrite IH]; reflexivity.
Qed.

Lemma chunks_string_alphabet (n : nat) (v : Z) :
  is_uint64 v -> Forall in_alphabet (list_ascii_of_string (chunks_string n v)).
Proof.
  revert v. induction n as [|n IH]; intros v Hv;
    cbn [chunks_string list_ascii_of_string]; constructor.
  - apply alphabet_char_spec, chunk_bound, Hv.
  - apply IH, wrap64_range.
Qed.

(** *** Reading the characters back *)

Lemma testbit_shl64_all (x n k : Z) :
  0 <= n -> Z.testbit (shl64 x n) k = (k <? 64) && Z.testbit x (k - n).
Proof.
  intros Hn. destruct (Z.lt_ge_cases k 0) as [Hneg|Hpos].
  - rewrite !Z.testbit_neg_r by lia. rewrite andb_false_r. reflexivity.
  - apply testbit_shl64. assumption.
Qed.

Lemma shl64_shl64 (x a b : Z) :
  0 <= a -> 0 <= b -> shl64 (shl64 x a) b = shl64 x (a + b).
Proof.
  intros Ha Hb. apply Z.bits_inj'. intros k Hk.
  rewrite !testbit_shl64_all by lia.
  replace (k - (a + b)) with (k - b - a) by lia.
  destruct (Z.ltb_spec k 64); destruct (Z.ltb_spec (k - b) 64);
    try lia; reflexivity.
Qed.

Lemma shl64_0 (x : Z) : is_uint64 x -> shl64 x 0 = x.
Proof. intros Hx. unfold shl64, wrap64. rewrite Z.shiftl_0_r. apply Z.mod_small, Hx. Qed.

(** An ASCII byte is a rune of width 1. *)
Lemma range_from_ascii (c : ascii) (s : string) (i : Z) :
  byte_of c < 128 ->
  range_from (String c s) i 0 = (i, byte_of c) :: range_from s (i + 1) 0.
Proof.
  intros Hc. cbn [range_from decodeRune].
  replace (byte_of c <? 128) with true by (symmetry; apply Z.ltb_lt; exact Hc).
  reflexivity.
Qed.

Lemma chunk_bits (V t k : Z) :
  0 <= t -> 0 <= k ->
  Z.testbit (Z.shiftr (shl64 V (5 * t)) (64 - 5)) k
  = (k <? 5) && Z.testbit V (k + 59 - 5 * t).
Proof.
  intros Ht Hk. rewrite Z.shiftr_spec, testbit_shl64_all by lia.
  replace (k + (64 - 5) - 5 * t) with (k + 59 - 5 * t) by lia.
  destruct (Z.ltb_spec (k + (64 - 5)) 64); destruct (Z.ltb_spec k 5);
    try lia; reflexivity.
Qed.

Lemma Base32ToUint64_body_top (V t r i : Z) :
  is_uint64 V -> 0 <= t < 12 -> top_bits V t r ->
  let c := alphabet_char (Z.shiftr (shl64 V (5 * t)) (64 - 5)) in
  top_bits V (t + 1) (Base32ToUint64_body r (i, byte_of c)).
Proof.
  intros HV Ht Hr c k Hk. unfold Base32ToUint64_body. cbn [snd].
  assert (Hchunk : 0 <= Z.shiftr (shl64 V (5 * t)) (64 - 5) < 32)
    by apply chunk_bound, wrap64_range.
  destruct (alphabet_char_spec _ Hchunk) as (_ & _ & _ & Hidx).
  fold c in Hidx. rewrite Hidx.
  rewrite Z.lor_spec, testbit_shl64_all, testbit_wrap64, chunk_bits by lia.
  replace (k + 64 - 5 * (t + 1)) with (k + 59 - 5 * t) by lia.
  destruct (Z.lt_ge_cases k 5) as [Hlow|Hhigh].
  - rewrite (Z.testbit_neg_r r) by lia.
    replace (k <? 64) with true by (symmetry; apply Z.ltb_lt; lia).
    replace (k <? 5) with true by (symmetry; apply Z.ltb_lt; lia).
    replace (k <? 5 * (t + 1)) with true by (symmetry; apply Z.ltb_lt; lia).
    reflexivity.
  - rewrite Hr by lia.
    replace (k <? 5) with false by (symmetry; apply Z.ltb_ge; lia).
    replace (k - 5 + 64 - 5 * t) with (k + 59 - 5 * t) by lia.
    rewrite andb_false_l, andb_false_r, orb_false_r.
    destruct (Z.ltb_spec k 64); destruct (Z.ltb_spec (k - 5) (5 * t));
      destruct (Z.ltb_spec k (5 * (t + 1))); try lia; reflexivity.
Qed.

Lemma fold_chunks_top (V : Z) (n : nat) (t r i : Z) :
  is_uint64 V -> 0 <= t -> t + Z.of_nat n <= 12 -> top_bits V t r ->
  top_bits V (t + Z.of_nat n)
    (fold_left Base32ToUint64_body
       (range_from (chunks_string n (shl64 V (5 * t))) i 0) r).
Proof.
  intros HV. revert t r i. induction n as [|n IH]; intros t r i Ht Hn Hr.
  - cbn [chunks_string range_from fold_left]. rewrite Z.add_0_r. exact Hr.
  - cbn [chunks_string].
    assert (Hchunk : 0 <= Z.shiftr (shl64 V (5 * t)) (64 - 5) < 32)
      by apply chunk_bound, wrap64_range.
    destruct (alphabet_char_spec _ Hchunk) as (_ & _ & Hascii & _).
    rewrite range_from_ascii by exact Hascii. cbn [fold_left].
    rewrite shl64_shl64 by lia.
    replace (5 * t + 5) with (5 * (t + 1)) by lia.
    replace (t + Z.of_nat (S n)) with (t + 1 + Z.of_nat n) by lia.
    apply IH; [lia|lia|].
    apply Base32ToUint64_body_top; [assumption|lia|assumption].
Qed.

(** Reading back the 12 characters written for a key gives the key with
    its low 4 bits cleared. *)
Lemma Base32ToUint64_chunks (V : Z) :
  is_uint64 V -> Base32ToUint64 (chunks_string 12 V) = 16 * (V / 16).
Proof.
  intros HV. unfold Base32ToUint64, range.
  assert (Htop : top_bits V 12
            (fold_left Base32ToUint64_body (range_from (chunks_string 12 V) 0 0) 0)).
  { rewrite <- (shl64_0 V HV) at 2.
    apply (fold_chunks_top V 12 0 0 0); [assumption|lia|simpl; lia|].
    intros k Hk. rewrite Z.testbit_0_l.
    replace (k <? 5 * 0) with false by (symmetry; apply Z.ltb_ge; lia).
    reflexivity. }
  apply Z.bits_inj'. intros k Hk.
  rewrite testbit_shl64_all by (unfold maxLength; lia).
  change (64 - 5 * maxLength) with 4.
  change 16 with (2 ^ 4). rewrite (Z.mul_comm (2 ^ 4)), Z.mul_pow2_bits by lia.
  destruct (Z.lt_ge_cases k 4) as [Hlow|Hhigh].
  - rewrite !Z.testbit_neg_r by lia. rewrite andb_false_r. reflexivity.
  - rewrite Htop, Z.div_pow2_bits by lia.
    replace (k - 4 + 64 - 5 * 12) with k by lia.
    replace (k - 4 + 4) with k by lia.
    destruct (Z.ltb_spec k 64) as [H64|H64].
    + replace (k - 4 <? 5 * 12) with true by (symmetry; apply Z.ltb_lt; lia).
      reflexivity.
    + symmetry. apply (testbit_high 64); [lia|exact HV|assumption].
Qed.

End Base32Facts.

(** ** Validation of geohash strings *)

Module ParseFacts.
Import Int IntFacts Base32Facts.

Lemma in_alphabet_cases (c : ascii) :
  in_alphabet c -> byte_of c < 128 /\ 0 <= rune_index (byte_of c) < 32.
Proof.
  unfold in_alphabet, in_alphabetb. cbn [alphabet list_ascii_of_string existsb].
  intros H.
  repeat (apply orb_true_iff in H; destruct H as [H|H];
          [apply Ascii.eqb_eq in H; subst c; vm_compute; intuition congruence|]).
  discriminate H.
Qed.

Lemma in_alphabet_ok (c : ascii) : in_alphabet c -> rune_ok (byte_of c).
Proof. intros H. apply in_alphabet_cases in H. unfold rune_ok. lia. Qed.

(** A string of alphabet characters is iterated byte by byte. *)
Lemma range_from_alphabet (s : string) (i : Z) :
  Forall in_alphabet (chars s) ->
  range_from s i 0
  = combine (map (fun k => i + Z.of_nat k) (seq 0 (String.length s)))
            (map byte_of (chars s)).
Proof.
  revert i. induction s as [|c s IH]; intros i Hall; [reflexivity|].
  inversion Hall as [|c' l' Hc Hs]; subst.
  rewrite range_from_ascii by (apply in_alphabet_cases; exact Hc).
  cbn [String.length seq map chars list_ascii_of_string combine].
  rewrite Z.add_0_r. f_equal. rewrite IH by exact Hs.
  rewrite <- seq_shift, map_map. f_equal.
  apply map_ext. intros k. lia.
Qed.

Lemma ParseGeohash_loop_ok (its : list (Z * rune)) :
  Forall (fun ic => rune_ok (snd ic)) its -> ParseGeohash_loop its = None.
Proof.
  induction 1 as [|[i c] its Hc _ IH]; [reflexivity|].
  cbn [ParseGeohash_loop]. cbn [snd] in Hc. unfold rune_ok, rune_index in Hc.
  replace (Index alphabet (string_of_rune c) =? -1) with false
    by (symmetry; apply Z.eqb_neq; exact Hc).
  exact IH.
Qed.

(** The loop stops at the first iteration whose rune fails the test. *)
Lemma ParseGeohash_loop_first (its : list (Z * rune)) :
  (ParseGeohash_loop its = None /\ Forall (fun ic => rune_ok (snd ic)) its)
  \/ exists l1 i c l2,
       its = l1 ++ (i, c) :: l2
       /\ Forall (fun ic => rune_ok (snd ic)) l1
       /\ ~ rune_ok c
       /\ ParseGeohash_loop its = Some (InvalidCharacter c i).
Proof.
  induction its as [|[i c] its IH]; [left; split; [reflexivity|constructor]|].
  cbn [ParseGeohash_loop].
  destruct (Z.eqb_spec (Index alphabet (string_of_rune c)) (-1)) as [Hbad|Hgood].
  - right. exists [], i, c, its. repeat split; [constructor|].
    intros Hok. apply Hok. exact Hbad.
  - destruct IH as [[Hnone Hall]|(l1 & j & d & l2 & Heq & Hall & Hd & Herr)].
    + left. split; [exact Hnone|constructor; [exact Hgood|exact Hall]].
    + right. exists ((i, c) :: l1), j, d, l2. subst its.
      repeat split; [constructor; [exact Hgood|exact Hall]|exact Hd|exact Herr].
Qed.

Lemma range_alphabet_ok (s : string) (i : Z) :
  Forall in_alphabet (chars s) ->
  Forall (fun ic => rune_ok (snd ic)) (range_from s i 0).
Proof.
  revert i. induction s as [|c s IH]; intros i Hall; [constructor|].
  inversion Hall as [|c' l' Hc Hs]; subst.
  rewrite range_from_ascii by (apply in_alphabet_cases; exact Hc).
  constructor; [apply in_alphabet_ok; exact Hc|apply IH; exact Hs].
Qed.

(** *** The value accumulated by [Base32ToUint64] *)

Lemma index_from_bound (s sub : string) (i : Z) :
  sub <> EmptyString ->
  index_from s sub i = -1 \/ i <= index_from s sub i < i + Z.of_nat (String.length s).
Proof.
  intros Hsub. revert i. induction s as [|c s IH]; intros i.
  - cbn [index_from]. destruct sub; [congruence|]. left. reflexivity.
  - cbn [index_from]. destruct (prefix sub (String c s)).
    + right. cbn [String.length]. lia.
    + destruct (IH (i + 1)) as [H|H]; [left; exact H|right].
      cbn [String.length]. lia.
Qed.

Lemma string_of_rune_nonempty (c : rune) : string_of_rune c <> EmptyString.
Proof.
  unfold string_of_rune, str1.
  repeat match goal with |- context [if ?b then _ else _] => destruct b end;
    discriminate.
Qed.

Lemma rune_index_bound (c : rune) : rune_ok c -> 0 <= rune_index c < 32.
Proof.
  unfold rune_ok, rune_index, Index. intros Hok.
  destruct (index_from_bound alphabet (string_of_rune c) 0 (string_of_rune_nonempty c))
    as [H|H]; [contradiction|].
  change (Z.of_nat (String.length alphabet)) with 32 in H. lia.
Qed.

Lemma lor_shl64_digit (r d : Z) :
  0 <= d < 32 -> Z.lor (shl64 r 5) (wrap64 d) = wrap64 (r * 32 + d).
Proof.
  intros Hd. unfold shl64, wrap64 at 2 3.
  rewrite (Z.mod_small d) by lia.
  rewrite Z.shiftl_mul_pow2 by lia. change (2 ^ 5) with 32.
  assert (Hland : Z.land (wrap64 (r * 32)) d = 0).
  { apply Z.bits_inj'. intros k Hk.
    rewrite Z.land_spec, testbit_wrap64, Z.testbit_0_l.
    destruct (Z.lt_ge_cases k 5) as [Hlow|Hhigh].
    - change 32 with (2 ^ 5). rewrite Z.mul_pow2_bits_low by lia.
      rewrite andb_false_r. reflexivity.
    - rewrite (testbit_high 5 d k) by (try lia; change (2 ^ 5) with 32; lia).
      apply andb_false_r. }
  rewrite <- Z.lxor_lor, <- Z.add_nocarry_lxor by exact Hland.
  unfold wrap64.
  assert (Hmul : (r * 32) mod 2 ^ 64 = 32 * (r mod 2 ^ 59)).
  { change (2 ^ 64) with (32 * 2 ^ 59). rewrite (Z.mul_comm r 32).
    apply Z.mul_mod_distr_l; lia. }
  rewrite <- (Z.add_mod_idemp_l (r * 32)) by lia.
  rewrite Hmul. symmetry. apply Z.mod_small.
  pose proof (Z.mod_pos_bound r (2 ^ 59) eq_refl) as Hb.
  change (2 ^ 64) with (32 * 2 ^ 59). lia.
Qed.

Lemma fold_body_value (its : list (Z * rune)) (r v : Z) :
  Forall (fun ic => rune_ok (snd ic)) its -> r = wrap64 v ->
  fold_left Base32ToUint64_body its r
  = wrap64 (fold_left (fun acc d => acc * 32 + d)
                      (map (fun ic => rune_index (snd ic)) its) v).
Proof.
  intros Hall. revert r v. induction Hall as [|[i c] its Hc _ IH]; intros r v Hr.
  - exact Hr.
  - cbn [fold_left map snd]. apply IH.
    unfold Base32ToUint64_body. cbn [snd]. fold (rune_index c).
    rewrite lor_shl64_digit by (apply rune_index_bound; exact Hc).
    subst r. unfold wrap64.
    rewrite <- (Z.add_mod_idemp_l (v mod 2 ^ 64 * 32)), Z.mul_mod_idemp_l,
      Z.add_mod_idemp_l by lia.
    reflexivity.
Qed.

End ParseFacts.

(** ** Binary64 arithmetic

    The operations of [SpecFloat] round through [binary_round_aux].  The
    lemmas below bound its result between the two floating-point
    neighbours of the exact value, which is all the claims need: an
    operation whose exact result is representable returns it, and a
    result never crosses a representable number. *)

Module F64Facts.

Local Open Scope Z_scope.

Lemma emin_value : emin = -1074.
Proof. reflexivity. Qed.

Lemma fexp_value (e : Z) : fexp prec emax e = Z.max (e - 53) (-1074).
Proof. reflexivity. Qed.

(** *** Number of digits *)

Lemma digits2_pos_bounds (p : positive) :
  2 ^ (Zpos (digits2_pos p) - 1) <= Zpos p < 2 ^ Zpos (digits2_pos p).
Proof.
  induction p as [p IH|p IH|]; cbn [digits2_pos].
  - rewrite Pos2Z.inj_succ, (Pos2Z.inj_xI p).
    replace (Z.succ (Zpos (digits2_pos p)) - 1) with (Z.succ (Zpos (digits2_pos p) - 1)) by lia.
    rewrite !Z.pow_succ_r by lia.
    generalize dependent (2 ^ (Zpos (digits2_pos p) - 1)).
    generalize (2 ^ Zpos (digits2_pos p)). intros; lia.
  - rewrite Pos2Z.inj_succ, (Pos2Z.inj_xO p).
    replace (Z.succ (Zpos (digits2_pos p)) - 1) with (Z.succ (Zpos (digits2_pos p) - 1)) by lia.
    rewrite !Z.pow_succ_r by lia.
    generalize dependent (2 ^ (Zpos (digits2_pos p) - 1)).
    generalize (2 ^ Zpos (digits2_pos p)). intros; lia.
  - split; [discriminate|reflexivity].
Qed.

Lemma Zdigits2_bounds (m : Z) :
  0 < m -> 0 < Zdigits2 m /\ 2 ^ (Zdigits2 m - 1) <= m < 2 ^ Zdigits2 m.
Proof.
  destruct m as [|p|p]; try lia. intros _. cbn [Zdigits2].
  split; [lia|apply digits2_pos_bounds].
Qed.

Lemma Zdigits2_le (m d : Z) : 0 < m -> 0 <= d -> m < 2 ^ d -> Zdigits2 m <= d.
Proof.
  intros Hm Hd Hlt. destruct (Zdigits2_bounds m Hm) as [Hpos [Hlo _]].
  destruct (Z.le_gt_cases (Zdigits2 m) d) as [|Hgt]; [assumption|exfalso].
  assert (2 ^ d <= 2 ^ (Zdigits2 m - 1)) by (apply Z.pow_le_mono_r; lia). lia.
Qed.

Lemma Zdigits2_ge (m d : Z) : 0 < m -> 2 ^ (d - 1) <= m -> d <= Zdigits2 m.
Proof.
  intros Hm Hge. destruct (Zdigits2_bounds m Hm) as [Hpos [_ Hhi]].
  destruct (Z.le_gt_cases d (Zdigits2 m)) as [|Hgt]; [assumption|exfalso].
  assert (2 ^ Zdigits2 m <= 2 ^ (d - 1)) by (apply Z.pow_le_mono_r; lia). lia.
Qed.

Lemma Zdigits2_unique (m d : Z) :
  0 < d -> 2 ^ (d - 1) <= m < 2 ^ d -> Zdigits2 m = d.
Proof.
  intros Hd [Hlo Hhi].
  assert (Hm : 0 < m) by (pose proof (Z.pow_pos_nonneg 2 (d - 1)); lia).
  pose proof (Zdigits2_le m d Hm). pose proof (Zdigits2_ge m d Hm). lia.
Qed.

Lemma Zdigits2_mul_pow2 (m n : Z) :
  0 < m -> 0 <= n -> Zdigits2 (m * 2 ^ n) = Zdigits2 m + n.
Proof.
  intros Hm Hn. destruct (Zdigits2_bounds m Hm) as [Hpos [Hlo Hhi]].
  assert (H2n : 0 < 2 ^ n) by (apply Z.pow_pos_nonneg; lia).
  apply Zdigits2_unique; [lia|].
  replace (Zdigits2 m + n - 1) with (Zdigits2 m - 1 + n) by lia.
  rewrite !Z.pow_add_r by lia. nia.
Qed.

Lemma Zdigits2_div_pow2 (m n : Z) :
  0 < m -> 0 <= n < Zdigits2 m -> Zdigits2 (m / 2 ^ n) = Zdigits2 m - n.
Proof.
  intros Hm Hn. destruct (Zdigits2_bounds m Hm) as [Hpos [Hlo Hhi]].
  assert (H2n : 0 < 2 ^ n) by (apply Z.pow_pos_nonneg; lia).
  apply Zdigits2_unique; [lia|]. split.
  - apply Z.div_le_lower_bound; [assumption|].
    rewrite <- Z.pow_add_r by lia.
    replace (n + (Zdigits2 m - n - 1)) with (Zdigits2 m - 1) by lia. assumption.
  - apply Z.div_lt_upper_bound; [assumption|].
    rewrite <- Z.pow_add_r by lia.
    replace (n + (Zdigits2 m - n)) with (Zdigits2 m) by lia. assumption.
Qed.

(** *** Right shifts with round and sticky bits *)

Lemma iter_pos_nat {A : Type} (f : A -> A) (p : positive) (x : A) :
  iter_pos f p x = Nat.iter (Pos.to_nat p) f x.
Proof.
  revert x. induction p as [p IH|p IH|]; intros x; cbn [iter_pos].
  - rewrite !IH, Pos2Nat.inj_xI.
    replace (S (2 * Pos.to_nat p)) with (Pos.to_nat p + (Pos.to_nat p + 1))%nat by lia.
    rewrite !Nat.iter_add. reflexivity.
  - rewrite !IH, Pos2Nat.inj_xO.
    replace (2 * Pos.to_nat p)%nat with (Pos.to_nat p + Pos.to_nat p)%nat by lia.
    rewrite Nat.iter_add. reflexivity.
  - reflexivity.
Qed.

Lemma shr_1_spec (m : Z) (r s : bool) :
  0 <= m ->
  shr_1 (Build_shr_record m r s) = Build_shr_record (m / 2) (Z.odd m) (r || s).
Proof.
  intros Hm. destruct m as [|p|p]; [reflexivity| |lia].
  destruct p as [p|p|]; cbn [shr_1].
  - f_equal. rewrite (Pos2Z.inj_xI p). apply Z.div_unique with 1; lia.
  - f_equal. rewrite (Pos2Z.inj_xO p). apply Z.div_unique with 0; lia.
  - reflexivity.
Qed.

(** The state after [n] shifts: the quotient, and round and sticky bits
    that are set only if something non-zero was shifted out or the
    location was inexact to begin with. *)
Lemma shr_iter_spec (n : nat) (m : Z) (r s : bool) :
  0 <= m ->
  let mrs := Nat.iter n shr_1 (Build_shr_record m r s) in
  shr_m mrs = m / 2 ^ Z.of_nat n
  /\ (shr_r mrs || shr_s mrs = true -> r || s = true \/ m mod 2 ^ Z.of_nat n <> 0).
Proof.
  intros Hm. induction n as [|n IH].
  - cbn [Nat.iter shr_m shr_r shr_s]. rewrite Z.pow_0_r, Z.div_1_r.
    split; [reflexivity|intros H; left; exact H].
  - cbn zeta in IH |- *. rewrite Nat.iter_succ.
    destruct (Nat.iter n shr_1 (Build_shr_record m r s)) as [m' r' s'].
    cbn [shr_m shr_r shr_s] in IH. destruct IH as [IHm IHrs]. subst m'.
    assert (H2n : 0 < 2 ^ Z.of_nat n) by (apply Z.pow_pos_nonneg; lia).
    rewrite shr_1_spec by (apply Z.div_pos; lia).
    cbn [shr_m shr_r shr_s].
    rewrite Nat2Z.inj_succ, Z.pow_succ_r by lia. split.
    + rewrite Z.div_div by lia. f_equal. lia.
    + intros H.
      destruct (Z.odd (m / 2 ^ Z.of_nat n)) eqn:Hodd.
      * right. intros Hmod. apply Z.mod_divide in Hmod; [|lia].
        destruct Hmod as [q Hq]. rewrite Hq in Hodd.
        replace (q * (2 * 2 ^ Z.of_nat n)) with (q * 2 * 2 ^ Z.of_nat n) in Hodd by lia.
        rewrite Z.div_mul, Z.odd_mul in Hodd by lia.
        rewrite andb_false_r in Hodd. discriminate Hodd.
      * cbn [orb] in H. destruct (IHrs H) as [Hrs|Hmod]; [left; exact Hrs|right].
        intros Hmod'. apply Hmod.
        apply Z.mod_divide; [lia|].
        apply Z.divide_trans with (2 * 2 ^ Z.of_nat n);
          [exists 2; lia|apply Z.mod_divide; lia].
Qed.

(** *** The rounding step *)

Lemma shr_record_of_loc_spec (m : Z) (l : location) :
  exists r s, shr_record_of_loc m l = Build_shr_record m r s
              /\ (r || s = true -> l <> loc_Exact).
Proof.
  destruct l as [|[]]; cbn [shr_record_of_loc]; eexists; eexists;
    (split; [reflexivity|]); cbn [orb]; intros H; discriminate.
Qed.

Lemma shr_fexp_spec (mx ex : Z) (lx : location) :
  0 < mx ->
  let n := fexp prec emax (Zdigits2 mx + ex) - ex in
  0 <= n ->
  let mrs := fst (shr_fexp prec emax mx ex lx) in
  snd (shr_fexp prec emax mx ex lx) = ex + n
  /\ shr_m mrs = mx / 2 ^ n
  /\ (shr_r mrs || shr_s mrs = true -> inexact lx mx n).
Proof.
  intros Hmx n Hn. unfold shr_fexp, shr. fold n.
  destruct (shr_record_of_loc_spec mx lx) as (r & s & Hrec & Hrs). rewrite Hrec.
  destruct n as [|p|p] eqn:En; [| |lia].
  - cbn [fst snd shr_m shr_r shr_s]. rewrite Z.pow_0_r, Z.div_1_r.
    repeat split; [lia|]. intros H. left. apply Hrs, H.
  - cbn [fst snd]. rewrite iter_pos_nat.
    destruct (shr_iter_spec (Pos.to_nat p) mx r s) as [Hm Hinex]; [lia|].
    rewrite positive_nat_Z in Hm, Hinex.
    repeat split; [exact Hm|]. intros H.
    destruct (Hinex H) as [H1|H1]; [left; apply Hrs, H1|right; exact H1].
Qed.

Lemma round_nearest_even_spec (mrs : shr_record) :
  let M := round_nearest_even (shr_m mrs) (loc_of_shr_record mrs) in
  M = shr_m mrs \/ (M = shr_m mrs + 1 /\ shr_r mrs || shr_s mrs = true).
Proof.
  destruct mrs as [m [] []]; cbn [round_nearest_even loc_of_shr_record shr_m shr_r shr_s orb];
    try destruct (Z.even m); auto.
Qed.

(** The second shift of [binary_round_aux] only acts on a mantissa that
    rounded up to [2^53]. *)
Lemma shr_fexp_renorm (M e : Z) :
  0 <= M <= 2 ^ 53 -> emin <= e ->
  let res := shr_fexp prec emax M e loc_Exact in
  (shr_m (fst res), snd res) = renorm M e.
Proof.
  intros HM He. unfold renorm.
  destruct (Z.eqb_spec M (2 ^ 53)) as [->|Hne].
  - unfold shr_fexp, shr.
    replace (fexp prec emax (Zdigits2 (2 ^ 53) + e) - e) with 1.
    + reflexivity.
    + change (Zdigits2 (2 ^ 53)) with 54. rewrite fexp_value.
      rewrite emin_value in He. lia.
  - unfold shr_fexp, shr.
    assert (Hn : fexp prec emax (Zdigits2 M + e) - e <= 0).
    { rewrite fexp_value. rewrite emin_value in He.
      destruct (Z.eq_dec M 0) as [->|Hnz]; [cbn [Zdigits2]; lia|].
      assert (Zdigits2 M <= 53) by (apply Zdigits2_le; lia). lia. }
    destruct (fexp prec emax (Zdigits2 M + e) - e) as [|p|p]; [reflexivity|lia|reflexivity].
Qed.

Lemma binary_round_aux_spec (sx : bool) (mx ex : Z) (lx : location) :
  0 < mx ->
  let e1 := fexp prec emax (Zdigits2 mx + ex) in
  ex <= e1 ->
  let q := mx / 2 ^ (e1 - ex) in
  q < 2 ^ 53 /\ (e1 = emin \/ 2 ^ 52 <= q)
  /\ exists M,
       (M = q \/ (M = q + 1 /\ inexact lx mx (e1 - ex)))
       /\ binary_round_aux prec emax sx mx ex lx
          = pack sx (fst (renorm M e1)) (snd (renorm M e1)).
Proof.
  intros Hmx e1 He q.
  destruct (Zdigits2_bounds mx Hmx) as [Hd [Hlo Hhi]].
  assert (He1 : emin <= e1) by (unfold e1; rewrite fexp_value, emin_value; lia).
  assert (H2n : 0 < 2 ^ (e1 - ex)) by (apply Z.pow_pos_nonneg; lia).
  assert (Hq0 : 0 <= q) by (apply Z.div_pos; lia).
  assert (Hq : q < 2 ^ 53).
  { apply Z.div_lt_upper_bound; [assumption|].
    rewrite <- Z.pow_add_r by lia.
    apply Z.lt_le_trans with (2 ^ Zdigits2 mx); [assumption|].
    apply Z.pow_le_mono_r; [lia|]. unfold e1. rewrite fexp_value. lia. }
  split; [exact Hq|]. split.
  { destruct (Z.eq_dec e1 emin) as [|Hne]; [left; assumption|right].
    assert (E : e1 = Zdigits2 mx + ex - 53)
      by (unfold e1 in *; rewrite fexp_value, emin_value in *; lia).
    apply Z.div_le_lower_bound; [assumption|].
    rewrite <- Z.pow_add_r by lia.
    replace (e1 - ex + 52) with (Zdigits2 mx - 1) by lia. assumption. }
  destruct (shr_fexp_spec mx ex lx Hmx) as (He' & Hm & Hinex); [fold e1; lia|].
  fold e1 in He', Hm, Hinex.
  unfold binary_round_aux.
  destruct (shr_fexp prec emax mx ex lx) as [mrs' e'].
  cbn [fst snd] in He', Hm, Hinex.
  replace (ex + (e1 - ex)) with e1 in He' by lia. subst e'.
  pose proof (round_nearest_even_spec mrs') as HM. cbn zeta in HM.
  set (M := round_nearest_even (shr_m mrs') (loc_of_shr_record mrs')) in *.
  fold q in Hm. rewrite Hm in HM.
  assert (HMr : 0 <= M <= 2 ^ 53) by (destruct HM as [->|[-> _]]; lia).
  pose proof (shr_fexp_renorm M e1 HMr He1) as Hre. cbn zeta in Hre.
  destruct (shr_fexp prec emax M e1 loc_Exact) as [mrs'' e''].
  cbn [fst snd] in Hre.
  exists M. split.
  - destruct HM as [HM|[HM Hrs]]; [left; exact HM|right].
    split; [exact HM|apply Hinex, Hrs].
  - rewrite <- Hre. reflexivity.
Qed.

(** *** Dyadic rationals *)

Lemma pow2_pos (e : Z) : (0 < pow2 e)%Q.
Proof. apply Qpower_0_lt. reflexivity. Qed.

Lemma pow2_add (a b : Z) : (pow2 (a + b) == pow2 a * pow2 b)%Q.
Proof. apply Qpower_plus. intros H. discriminate H. Qed.

Lemma pow2_Z (e : Z) : 0 <= e -> (pow2 e == inject_Z (2 ^ e))%Q.
Proof. intros He. unfold pow2. rewrite Zpower_Qpower by assumption. reflexivity. Qed.

Lemma dy_shift (m e n : Z) : 0 <= n -> (dy (m * 2 ^ n) e == dy m (e + n))%Q.
Proof.
  intros Hn. unfold dy. rewrite inject_Z_mult, pow2_add, (pow2_Z n) by assumption.
  ring.
Qed.

Lemma dy_le (a b e : Z) : (dy a e <= dy b e)%Q <-> a <= b.
Proof.
  unfold dy. rewrite Zle_Qle. apply Qmult_le_r, pow2_pos.
Qed.

Lemma dy_lt (a b e : Z) : (dy a e < dy b e)%Q <-> a < b.
Proof.
  unfold dy. rewrite Zlt_Qlt. apply Qmult_lt_r, pow2_pos.
Qed.

Lemma dy_opp (m e : Z) : (dy (- m) e == - dy m e)%Q.
Proof. unfold dy. rewrite inject_Z_opp. ring. Qed.

Lemma dy_0 (e : Z) : (dy 0 e == 0)%Q.
Proof. unfold dy. ring. Qed.

Lemma dy_add (a b e : Z) : (dy (a + b) e == dy a e + dy b e)%Q.
Proof. unfold dy. rewrite inject_Z_plus. ring. Qed.

Lemma dy_mul (a b e f : Z) : (dy (a * b) (e + f) == dy a e * dy b f)%Q.
Proof. unfold dy. rewrite inject_Z_mult, pow2_add. ring. Qed.

Lemma dy_Z (m : Z) : (dy m 0 == inject_Z m)%Q.
Proof. unfold dy, pow2. cbn [Qpower]. ring. Qed.

Lemma to_Q_finite (s : bool) (m : positive) (e : Z) :
  to_Q (S754_finite s m e) = dy (smant s m) e.
Proof. reflexivity. Qed.

(** Comparison of two dyadic rationals with different exponents. *)
Lemma dy_align (m e c : Z) : c <= e -> (dy m e == dy (m * 2 ^ (e - c)) c)%Q.
Proof.
  intros Hc. rewrite dy_shift by lia. replace (c + (e - c)) with e by lia. reflexivity.
Qed.

(** *** Faithful rounding *)

Lemma Faithful_exact (r : f64) (t : Q) (F c : Z) :
  Faithful r t -> Z.abs F < 2 ^ 53 -> emin <= c -> (t == dy F c)%Q ->
  (to_Q r == t)%Q.
Proof.
  intros (_ & _ & Hbr) HF Hc Ht. destruct (Hbr F c HF Hc) as [Hlo Hhi].
  rewrite Ht. apply Qle_antisym; [apply Hhi|apply Hlo]; rewrite Ht; apply Qle_refl.
Qed.

Lemma Faithful_ext (r : f64) (t t' : Q) : (t == t')%Q -> Faithful r t -> Faithful r t'.
Proof.
  intros Ht (Hf & Hv & Hbr). repeat split; try assumption;
    destruct (Hbr F c) as [Hlo Hhi]; try assumption; rewrite <- Ht; assumption.
Qed.

(** The magnitude bracket of the rounding step. *)
Lemma pack_bracket (q M e1 : Z) (t : Q) (F c : Z) :
  0 <= q -> (e1 = emin \/ 2 ^ 52 <= q) ->
  (M = q \/ (M = q + 1 /\ (dy q e1 < t)%Q)) ->
  (dy q e1 <= t)%Q -> (t < dy (q + 1) e1)%Q ->
  0 <= F < 2 ^ 53 -> emin <= c ->
  ((dy F c <= t)%Q -> (dy F c <= dy M e1)%Q)
  /\ ((t <= dy F c)%Q -> (dy M e1 <= dy F c)%Q).
Proof.
  intros Hq Hnorm HM Hlo Hhi HF Hc.
  destruct (Z.le_gt_cases e1 c) as [Hle|Hgt].
  - assert (H2 : 0 < 2 ^ (c - e1)) by (apply Z.pow_pos_nonneg; lia).
    rewrite (dy_align F c e1 Hle). split; intros Ht.
    + apply dy_le.
      assert (F * 2 ^ (c - e1) < q + 1)
        by (apply (dy_lt _ _ e1); eapply Qle_lt_trans; eassumption).
      destruct HM as [->|[-> _]]; lia.
    + apply dy_le. destruct HM as [->|[-> Hin]].
      * apply (dy_le _ _ e1). eapply Qle_trans; eassumption.
      * assert (q < F * 2 ^ (c - e1))
          by (apply (dy_lt _ _ e1); eapply Qlt_le_trans; eassumption).
        lia.
  - assert (H52 : 2 ^ 52 <= q) by (destruct Hnorm; [lia|assumption]).
    assert (H2 : 2 <= 2 ^ (e1 - c)).
    { change 2 with (2 ^ 1) at 1. apply Z.pow_le_mono_r; lia. }
    assert (Hlt : (dy F c < dy q e1)%Q).
    { rewrite (dy_align q e1 c) by lia. apply dy_lt.
      change (2 ^ 53) with (2 ^ 52 * 2) in HF. nia. }
    assert (HqM : (dy q e1 <= dy M e1)%Q)
      by (apply dy_le; destruct HM as [->|[-> _]]; lia).
    split; intros Ht.
    + apply Qlt_le_weak. eapply Qlt_le_trans; eassumption.
    + exfalso. apply (Qlt_irrefl t).
      eapply Qle_lt_trans; [exact Ht|]. eapply Qlt_le_trans; eassumption.
Qed.

Lemma pack_value (sx : bool) (M e1 : Z) :
  0 <= M -> e1 + 1 <= emax - prec ->
  (to_Q (pack sx (fst (renorm M e1)) (snd (renorm M e1))) == dy (cond_Zopp sx M) e1)%Q.
Proof.
  intros HM He. unfold renorm.
  destruct (Z.eqb_spec M (2 ^ 53)) as [->|Hne]; cbn [fst snd].
  - unfold pack. change (2 ^ 52) with (Zpos (2 ^ 52)%positive).
    replace (e1 + 1 <=? emax - prec) with true by (symmetry; apply Z.leb_le; lia).
    rewrite to_Q_finite. unfold smant.
    replace (cond_Zopp sx (Zpos (2 ^ 52))) with (cond_Zopp sx 1 * 2 ^ 52)
      by (destruct sx; reflexivity).
    replace (cond_Zopp sx (2 ^ 53)) with (cond_Zopp sx 1 * 2 ^ 52 * 2 ^ 1)
      by (destruct sx; reflexivity).
    rewrite (dy_shift _ e1 1) by lia. reflexivity.
  - destruct M as [|m|m]; [|cbn [pack]|lia].
    + cbn [pack to_Q]. destruct sx; cbn [cond_Zopp]; rewrite ?Z.opp_0, dy_0; reflexivity.
    + replace (e1 <=? emax - prec) with true by (symmetry; apply Z.leb_le; lia).
      reflexivity.
Qed.

Lemma pack_valid (sx : bool) (M e1 : Z) :
  0 <= M <= 2 ^ 53 -> emin <= e1 -> (e1 = emin \/ 2 ^ 52 <= M) ->
  valid (pack sx (fst (renorm M e1)) (snd (renorm M e1))) = true.
Proof.
  intros HM He Hnorm. unfold renorm.
  destruct (Z.eqb_spec M (2 ^ 53)) as [->|Hne]; cbn [fst snd].
  - unfold pack. change (2 ^ 52) with (Zpos (2 ^ 52)%positive).
    destruct (Z.leb_spec (e1 + 1) (emax - prec)) as [Hle|Hgt]; [|reflexivity].
    unfold valid, valid_binary, bounded, canonical_mantissa.
    apply andb_true_intro. split; [|apply Z.leb_le; assumption].
    apply Z.eqb_eq. change (Zpos (digits2_pos (2 ^ 52))) with 53.
    rewrite fexp_value. rewrite emin_value in He. lia.
  - destruct M as [|m|m]; [reflexivity| |lia]. cbn [pack].
    destruct (Z.leb_spec e1 (emax - prec)) as [Hle|Hgt]; [|reflexivity].
    unfold valid, valid_binary, bounded, canonical_mantissa.
    apply andb_true_intro. split; [|apply Z.leb_le; assumption].
    apply Z.eqb_eq. change (Zpos (digits2_pos m)) with (Zdigits2 (Zpos m)).
    rewrite fexp_value. rewrite emin_value in *.
    assert (Zdigits2 (Zpos m) <= 53) by (apply Zdigits2_le; lia).
    destruct Hnorm as [->|H52]; [lia|].
    assert (53 <= Zdigits2 (Zpos m)) by (apply Zdigits2_ge; [lia|exact H52]). lia.
Qed.

Lemma pack_finite (sx : bool) (M e1 : Z) :
  0 <= M -> e1 + 1 <= emax - prec ->
  is_finite (pack sx (fst (renorm M e1)) (snd (renorm M e1))) = true.
Proof.
  intros HM He. unfold renorm.
  destruct (Z.eqb_spec M (2 ^ 53)) as [->|Hne]; cbn [fst snd].
  - unfold pack. change (2 ^ 52) with (Zpos (2 ^ 52)%positive).
    replace (e1 + 1 <=? emax - prec) with true by (symmetry; apply Z.leb_le; lia).
    reflexivity.
  - destruct M as [|m|m]; [reflexivity| |lia]. cbn [pack].
    replace (e1 <=? emax - prec) with true by (symmetry; apply Z.leb_le; lia).
    reflexivity.
Qed.

Lemma signed_bracket (v t : Q) :
  (0 <= v)%Q -> (0 < t)%Q ->
  (forall F c, 0 <= F < 2 ^ 53 -> emin <= c ->
     ((dy F c <= t)%Q -> (dy F c <= v)%Q) /\ ((t <= dy F c)%Q -> (v <= dy F c)%Q)) ->
  forall sx F c, Z.abs F < 2 ^ 53 -> emin <= c ->
    ((dy F c <= signed sx t)%Q -> (dy F c <= signed sx v)%Q)
    /\ ((signed sx t <= dy F c)%Q -> (signed sx v <= dy F c)%Q).
Proof.
  intros Hv Ht Hbr sx F c HF Hc.
  destruct (Z.le_gt_cases 0 F) as [Hpos|Hneg].
  - destruct (Hbr F c) as [Hlo Hhi]; [lia|assumption|].
    assert (H0 : (0 <= dy F c)%Q) by (rewrite <- (dy_0 c); apply dy_le; exact Hpos).
    destruct sx; unfold signed; split; intros H.
    + assert (F = 0).
      { destruct (Z.eq_dec F 0) as [|Hnz]; [assumption|exfalso].
        assert ((0 < dy F c)%Q) by (rewrite <- (dy_0 c); apply dy_lt; lia). lra. }
      subst F. rewrite dy_0 in *. lra.
    + lra.
    + apply Hlo, H.
    + apply Hhi, H.
  - destruct (Hbr (- F) c) as [Hlo Hhi]; [lia|assumption|].
    assert (H0 : (dy F c < 0)%Q) by (rewrite <- (dy_0 c); apply dy_lt; exact Hneg).
    rewrite dy_opp in Hlo, Hhi.
    destruct sx; unfold signed; split; intros H.
    + assert ((v <= - dy F c)%Q) by (apply Hhi; lra). lra.
    + assert ((- dy F c <= v)%Q) by (apply Hlo; lra). lra.
    + lra.
    + lra.
Qed.

Lemma cond_Zopp_signed (sx : bool) (M e : Z) :
  (dy (cond_Zopp sx M) e == signed sx (dy M e))%Q.
Proof. destruct sx; cbn [cond_Zopp signed]; [apply dy_opp|reflexivity]. Qed.

(** [binary_round_aux] rounds faithfully: [t] is the exact magnitude, which
    the mantissa [mx], the exponent [ex] and the location [lx] describe. *)
Lemma round_aux_faithful (sx : bool) (mx ex : Z) (lx : location) (t : Q) :
  0 < mx ->
  ex <= fexp prec emax (Zdigits2 mx + ex) ->
  fexp prec emax (Zdigits2 mx + ex) + 1 <= emax - prec ->
  (dy mx ex <= t)%Q -> (t < dy (mx + 1) ex)%Q ->
  (lx <> loc_Exact -> (dy mx ex < t)%Q) ->
  Faithful (binary_round_aux prec emax sx mx ex lx) (signed sx t).
Proof.
  intros Hmx He Hov Hlo Hhi Hlx.
  destruct (binary_round_aux_spec sx mx ex lx Hmx He) as (Hq & Hnorm & M & HM & Heq).
  set (e1 := fexp prec emax (Zdigits2 mx + ex)) in *.
  set (q := mx / 2 ^ (e1 - ex)) in *.
  assert (He1 : emin <= e1) by (unfold e1; rewrite fexp_value, emin_value; lia).
  assert (H2n : 0 < 2 ^ (e1 - ex)) by (apply Z.pow_pos_nonneg; lia).
  assert (Hq0 : 0 <= q) by (apply Z.div_pos; lia).
  assert (Hdm : q * 2 ^ (e1 - ex) <= mx < (q + 1) * 2 ^ (e1 - ex)).
  { pose proof (Z.div_mod mx (2 ^ (e1 - ex))) as Hdm.
    pose proof (Z.mod_pos_bound mx (2 ^ (e1 - ex)) H2n). fold q in Hdm. nia. }
  assert (HM0 : 0 <= M <= 2 ^ 53) by (destruct HM as [->|[-> _]]; lia).
  assert (Hqlo : (dy q e1 <= t)%Q).
  { rewrite (dy_align q e1 ex He). eapply Qle_trans; [|exact Hlo]. apply dy_le. lia. }
  assert (Hqhi : (t < dy (q + 1) e1)%Q).
  { rewrite (dy_align (q + 1) e1 ex He). eapply Qlt_le_trans; [exact Hhi|].
    apply dy_le. lia. }
  assert (HM' : M = q \/ (M = q + 1 /\ (dy q e1 < t)%Q)).
  { destruct HM as [HM|[HM Hin]]; [left; exact HM|right; split; [exact HM|]].
    destruct Hin as [Hin|Hin].
    - eapply Qle_lt_trans; [|apply Hlx, Hin].
      rewrite (dy_align q e1 ex He). apply dy_le. lia.
    - eapply Qlt_le_trans; [|exact Hlo].
      rewrite (dy_align q e1 ex He). apply dy_lt.
      pose proof (Z.div_mod mx (2 ^ (e1 - ex))) as Hdm'.
      pose proof (Z.mod_pos_bound mx (2 ^ (e1 - ex)) H2n). fold q in Hdm'. nia. }
  rewrite Heq. split; [apply pack_finite; lia|]. split.
  - apply pack_valid; [lia|assumption|].
    destruct Hnorm as [Hn|Hn]; [left; exact Hn|right].
    destruct HM as [->|[-> _]]; lia.
  - intros F c HF Hc. rewrite pack_value, cond_Zopp_signed by lia.
    apply signed_bracket; try assumption.
    + rewrite <- (dy_0 e1). apply dy_le. lia.
    + eapply Qlt_le_trans; [|exact Hlo]. rewrite <- (dy_0 ex). apply dy_lt. exact Hmx.
    + intros F' c' HF' Hc'. apply (pack_bracket q M e1 t F' c'); assumption.
Qed.

(** *** Magnitudes *)

Lemma pow2_le (a b : Z) : a <= b -> (pow2 a <= pow2 b)%Q.
Proof.
  intros Hab. replace b with (a + (b - a)) by lia.
  rewrite pow2_add, (pow2_Z (b - a)) by lia.
  assert (H1 : (1 <= inject_Z (2 ^ (b - a)))%Q).
  { change 1%Q with (inject_Z 1). rewrite <- Zle_Qle.
    pose proof (Z.pow_pos_nonneg 2 (b - a)). lia. }
  pose proof (pow2_pos a). nra.
Qed.

Lemma dy_pow2 (k e : Z) : 0 <= k -> (dy (2 ^ k) e == pow2 (e + k))%Q.
Proof.
  intros Hk. unfold dy. rewrite pow2_add, (pow2_Z k) by assumption. ring.
Qed.

Lemma Qabs_finite (s : bool) (m : positive) (e : Z) :
  (Qabs (to_Q (S754_finite s m e)) == dy (Zpos m) e)%Q.
Proof.
  rewrite to_Q_finite. unfold smant.
  assert (H0 : (0 < dy (Zpos m) e)%Q) by (rewrite <- (dy_0 e); apply dy_lt; lia).
  destruct s; cbn [cond_Zopp].
  - change (Zneg m) with (- Zpos m). rewrite dy_opp, Qabs_opp.
    apply Qabs_pos. lra.
  - apply Qabs_pos. lra.
Qed.

Lemma mag_small (s : bool) (m : positive) (e : Z) :
  small (S754_finite s m e) -> Zdigits2 (Zpos m) + e <= 400.
Proof.
  unfold small. rewrite Qabs_finite. intros H.
  destruct (Zdigits2_bounds (Zpos m)) as [Hd [Hlo _]]; [lia|].
  destruct (Z.le_gt_cases (Zdigits2 (Zpos m) + e) 400) as [|Hgt]; [assumption|exfalso].
  assert (H1 : (pow2 400 <= dy (Zpos m) e)%Q).
  { eapply Qle_trans; [apply (pow2_le 400 (e + (Zdigits2 (Zpos m) - 1))); lia|].
    rewrite <- dy_pow2 by lia. apply dy_le. exact Hlo. }
  lra.
Qed.

Lemma mag_large (s : bool) (m : positive) (e : Z) :
  large (S754_finite s m e) -> - 400 < Zdigits2 (Zpos m) + e.
Proof.
  unfold large. rewrite Qabs_finite. intros H.
  destruct (Zdigits2_bounds (Zpos m)) as [Hd [_ Hhi]]; [lia|].
  destruct (Z.lt_ge_cases (- 400) (Zdigits2 (Zpos m) + e)) as [|Hle]; [assumption|exfalso].
  assert (H1 : (dy (Zpos m) e < pow2 (- 400))%Q).
  { eapply Qlt_le_trans; [|apply (pow2_le (e + Zdigits2 (Zpos m)) (- 400)); lia].
    rewrite <- dy_pow2 by lia. apply dy_lt. exact Hhi. }
  lra.
Qed.

Lemma valid_finite (s : bool) (m : positive) (e : Z) :
  valid (S754_finite s m e) = true ->
  e = fexp prec emax (Zdigits2 (Zpos m) + e) /\ Zdigits2 (Zpos m) <= 53 /\ emin <= e
  /\ (e = emin \/ Zdigits2 (Zpos m) = 53).
Proof.
  unfold valid, valid_binary, bounded, canonical_mantissa.
  intros H. apply andb_prop in H. destruct H as [Hc _].
  apply Z.eqb_eq in Hc. change (Zpos (digits2_pos m)) with (Zdigits2 (Zpos m)) in Hc.
  rewrite fexp_value in *. rewrite emin_value. lia.
Qed.

Lemma Faithful_refl (r : f64) :
  is_finite r = true -> valid r = true -> Faithful r (to_Q r).
Proof. intros Hf Hv. repeat split; auto. Qed.

(** *** Rounding an integer mantissa: [binary_round] and [binary_normalize] *)

Lemma iter_xO (m d : positive) : Zpos (Pos.iter xO m d) = Zpos m * 2 ^ Zpos d.
Proof.
  induction d as [|d IH] using Pos.peano_ind.
  - cbn [Pos.iter]. rewrite (Pos2Z.inj_xO m). change (2 ^ 1) with 2. lia.
  - rewrite Pos.iter_succ, Pos2Z.inj_succ, Z.pow_succ_r by lia.
    rewrite (Pos2Z.inj_xO (Pos.iter xO m d)), IH. lia.
Qed.

Lemma shl_align_spec (mx : positive) (ex ex' : Z) :
  let mz := fst (shl_align mx ex ex') in
  let ez := snd (shl_align mx ex ex') in
  ez <= ex /\ ez <= ex' /\ (ez = ex \/ ez = ex') /\ Zpos mz = Zpos mx * 2 ^ (ex - ez).
Proof.
  unfold shl_align. destruct (ex' - ex) as [|d|d] eqn:Ed; cbn [fst snd].
  - rewrite Z.sub_diag, Z.pow_0_r. lia.
  - rewrite Z.sub_diag, Z.pow_0_r. lia.
  - rewrite iter_xO. replace (ex - ex') with (Zpos d) by lia. lia.
Qed.

Lemma binary_round_faithful (sx : bool) (mx : positive) (ex : Z) :
  Zdigits2 (Zpos mx) + ex <= 1000 ->
  Faithful (binary_round prec emax sx mx ex) (signed sx (dy (Zpos mx) ex)).
Proof.
  intros Hmag. unfold binary_round.
  pose proof (shl_align_spec mx ex (fexp prec emax (Zpos (digits2_pos mx) + ex))) as Hal.
  destruct (shl_align mx ex (fexp prec emax (Zpos (digits2_pos mx) + ex))) as [mz ez].
  cbn [fst snd] in Hal. destruct Hal as (Hle & Hle' & Hor & Hmz).
  change (Zpos (digits2_pos mx)) with (Zdigits2 (Zpos mx)) in *.
  assert (Hd : Zdigits2 (Zpos mz) + ez = Zdigits2 (Zpos mx) + ex).
  { rewrite Hmz, Zdigits2_mul_pow2 by lia. lia. }
  assert (Hval : (dy (Zpos mx) ex == dy (Zpos mz) ez)%Q).
  { rewrite Hmz. apply dy_align. exact Hle. }
  apply Faithful_ext with (signed sx (dy (Zpos mz) ez));
    [unfold signed; destruct sx; rewrite Hval; reflexivity|].
  apply round_aux_faithful.
  - lia.
  - rewrite Hd. exact Hle'.
  - rewrite Hd, fexp_value. unfold emax, prec. lia.
  - apply Qle_refl.
  - apply dy_lt. lia.
  - intros H. contradiction H. reflexivity.
Qed.

Lemma binary_normalize_faithful (S e : Z) :
  Zdigits2 S + e <= 1000 ->
  Faithful (binary_normalize prec emax S e false) (dy S e).
Proof.
  intros Hmag. destruct S as [|p|p]; cbn [binary_normalize].
  - apply Faithful_ext with (to_Q (S754_zero false));
      [cbn [to_Q]; rewrite dy_0; reflexivity|].
    apply Faithful_refl; reflexivity.
  - apply (binary_round_faithful false p e Hmag).
  - apply Faithful_ext with (signed true (dy (Zpos p) e)).
    + cbn [signed]. change (Zneg p) with (- Zpos p). rewrite dy_opp. reflexivity.
    + apply (binary_round_faithful true p e Hmag).
Qed.

Lemma of_Z_faithful (z : Z) :
  Z.abs z < 2 ^ 53 -> Faithful (of_Z z) (inject_Z z) /\ (to_Q (of_Z z) == inject_Z z)%Q.
Proof.
  intros Hz.
  assert (HF : Faithful (of_Z z) (inject_Z z)).
  { apply Faithful_ext with (dy z 0); [apply dy_Z|].
    apply binary_normalize_faithful.
    destruct (Z.eq_dec z 0) as [->|Hnz]; [cbn; lia|].
    assert (Zdigits2 z = Zdigits2 (Z.abs z)) by (destruct z; reflexivity).
    assert (Zdigits2 (Z.abs z) <= 53) by (apply Zdigits2_le; lia). lia. }
  split; [exact HF|].
  apply (Faithful_exact _ _ z 0 HF Hz); [rewrite emin_value; lia|].
  symmetry. apply dy_Z.
Qed.

(** *** Addition and subtraction *)

Lemma Zdigits2_abs_le (S k : Z) : 0 <= k -> Z.abs S < 2 ^ k -> Zdigits2 S <= k.
Proof.
  intros Hk HS. destruct (Z.eq_dec S 0) as [->|Hnz]; [cbn; lia|].
  replace (Zdigits2 S) with (Zdigits2 (Z.abs S)) by (destruct S; reflexivity).
  apply Zdigits2_le; lia.
Qed.

(** The mantissa of an operand aligned to the smaller exponent. *)
Lemma aligned_mantissa (s : bool) (m : positive) (e ez : Z) :
  ez <= e -> small (S754_finite s m e) ->
  let a := cond_Zopp s (Zpos (fst (shl_align m e ez))) in
  (dy a ez == to_Q (S754_finite s m e))%Q /\ Z.abs a < 2 ^ (400 - ez) /\ 0 < 400 - ez.
Proof.
  intros Hez Hsmall a.
  pose proof (shl_align_spec m e ez) as Hal. cbn zeta in Hal.
  destruct Hal as (H1 & H2 & H3 & Hm).
  assert (E : snd (shl_align m e ez) = ez) by lia. rewrite E in Hm.
  apply mag_small in Hsmall.
  destruct (Zdigits2_bounds (Zpos m)) as [Hd [_ Hhi]]; [lia|].
  assert (Habs : Z.abs a = Zpos m * 2 ^ (e - ez)).
  { unfold a. rewrite Hm. destruct s; cbn [cond_Zopp]; lia. }
  split; [|split; [|lia]].
  - rewrite to_Q_finite. unfold a, smant. rewrite Hm.
    replace (cond_Zopp s (Zpos m * 2 ^ (e - ez))) with (cond_Zopp s (Zpos m) * 2 ^ (e - ez))
      by (destruct s; cbn [cond_Zopp]; lia).
    symmetry. apply dy_align. exact Hez.
  - rewrite Habs.
    apply Z.lt_le_trans with (2 ^ Zdigits2 (Zpos m) * 2 ^ (e - ez)).
    + apply Z.mul_lt_mono_pos_r; [apply Z.pow_pos_nonneg; lia|exact Hhi].
    + rewrite <- Z.pow_add_r by lia. apply Z.pow_le_mono_r; lia.
Qed.

Lemma normalize_sum_faithful (a b ez : Z) (ta tb : Q) :
  (dy a ez == ta)%Q -> (dy b ez == tb)%Q ->
  0 < 400 - ez -> Z.abs a < 2 ^ (400 - ez) -> Z.abs b < 2 ^ (400 - ez) ->
  Faithful (binary_normalize prec emax (a + b) ez false) (ta + tb)
  /\ Faithful (binary_normalize prec emax (a - b) ez false) (ta - tb).
Proof.
  intros Ha Hb Hez Habs Hbbs.
  assert (Hpow : 2 ^ (401 - ez) = 2 * 2 ^ (400 - ez)).
  { replace (401 - ez) with (Z.succ (400 - ez)) by lia. apply Z.pow_succ_r. lia. }
  split.
  - apply Faithful_ext with (dy (a + b) ez); [rewrite dy_add, Ha, Hb; reflexivity|].
    apply binary_normalize_faithful.
    assert (Zdigits2 (a + b) <= 401 - ez) by (apply Zdigits2_abs_le; lia). lia.
  - apply Faithful_ext with (dy (a - b) ez).
    + unfold Z.sub. rewrite dy_add, dy_opp, Ha, Hb. reflexivity.
    + apply binary_normalize_faithful.
      assert (Zdigits2 (a - b) <= 401 - ez) by (apply Zdigits2_abs_le; lia). lia.
Qed.

Lemma to_Q_zero (s : bool) : to_Q (S754_zero s) = 0%Q.
Proof. reflexivity. Qed.

Lemma add_faithful (x y : f64) :
  is_finite x = true -> is_finite y = true -> valid x = true -> valid y = true ->
  small x -> small y -> Faithful (add x y) (to_Q x + to_Q y).
Proof.
  intros Hfx Hfy Hvx Hvy Hsx Hsy.
  destruct x as [sx| |  |sx mx ex]; try discriminate Hfx;
    destruct y as [sy| | |sy my ey]; try discriminate Hfy.
  - apply Faithful_ext with 0%Q; [rewrite !to_Q_zero; ring|].
    unfold add, SFadd.
    destruct sx, sy; apply (Faithful_refl (S754_zero _)); reflexivity.
  - apply Faithful_ext with (to_Q (S754_finite sy my ey)); [rewrite to_Q_zero; ring|].
    apply Faithful_refl; assumption.
  - apply Faithful_ext with (to_Q (S754_finite sx mx ex)); [rewrite to_Q_zero; ring|].
    apply Faithful_refl; assumption.
  - unfold add, SFadd.
    destruct (aligned_mantissa sx mx ex (Z.min ex ey)) as (Ha & Habs & Hez); [lia|assumption|].
    destruct (aligned_mantissa sy my ey (Z.min ex ey)) as (Hb & Hbbs & _); [lia|assumption|].
    apply (normalize_sum_faithful _ _ _ _ _ Ha Hb Hez Habs Hbbs).
Qed.

Lemma sub_faithful (x y : f64) :
  is_finite x = true -> is_finite y = true -> valid x = true -> valid y = true ->
  small x -> small y -> Faithful (sub x y) (to_Q x - to_Q y).
Proof.
  intros Hfx Hfy Hvx Hvy Hsx Hsy.
  destruct x as [sx| |  |sx mx ex]; try discriminate Hfx;
    destruct y as [sy| | |sy my ey]; try discriminate Hfy.
  - apply Faithful_ext with 0%Q; [rewrite !to_Q_zero; ring|].
    unfold sub, SFsub.
    destruct sx, sy; apply (Faithful_refl (S754_zero _)); reflexivity.
  - apply Faithful_ext with (to_Q (S754_finite (negb sy) my ey)).
    + rewrite to_Q_zero, !to_Q_finite. unfold smant.
      destruct sy; cbn [negb cond_Zopp].
      * change (Zneg my) with (- Zpos my). rewrite dy_opp. ring.
      * change (Zneg my) with (- Zpos my). rewrite dy_opp. ring.
    + apply Faithful_refl; [reflexivity|exact Hvy].
  - apply Faithful_ext with (to_Q (S754_finite sx mx ex)); [rewrite to_Q_zero; ring|].
    apply Faithful_refl; assumption.
  - unfold sub, SFsub.
    destruct (aligned_mantissa sx mx ex (Z.min ex ey)) as (Ha & Habs & Hez); [lia|assumption|].
    destruct (aligned_mantissa sy my ey (Z.min ex ey)) as (Hb & Hbbs & _); [lia|assumption|].
    apply (normalize_sum_faithful _ _ _ _ _ Ha Hb Hez Habs Hbbs).
Qed.

(** *** Multiplication *)

Lemma smant_mul (sx sy : bool) (mx my : positive) (ex ey : Z) :
  (signed (xorb sx sy) (dy (Zpos (mx * my)) (ex + ey))
   == to_Q (S754_finite sx mx ex) * to_Q (S754_finite sy my ey))%Q.
Proof.
  rewrite !to_Q_finite. unfold smant.
  destruct sx, sy; cbn [xorb signed cond_Zopp];
    rewrite Pos2Z.inj_mul, dy_mul;
    repeat match goal with |- context [Zneg ?p] => change (Zneg p) with (- Zpos p) end;
    rewrite ?dy_opp; ring.
Qed.

Lemma mul_faithful (x y : f64) :
  is_finite x = true -> is_finite y = true -> valid x = true -> valid y = true ->
  small x -> small y -> Faithful (mul x y) (to_Q x * to_Q y).
Proof.
  intros Hfx Hfy Hvx Hvy Hsx Hsy.
  destruct x as [sx| |  |sx mx ex]; try discriminate Hfx;
    destruct y as [sy| | |sy my ey]; try discriminate Hfy.
  1-3: apply Faithful_ext with (to_Q (S754_zero (xorb sx sy)));
    [rewrite !to_Q_zero; ring|apply Faithful_refl; reflexivity].
  unfold mul, SFmul.
  apply Faithful_ext with (signed (xorb sx sy) (dy (Zpos (mx * my)) (ex + ey)));
    [apply smant_mul|].
  apply valid_finite in Hvx, Hvy. apply mag_small in Hsx, Hsy.
  destruct (Zdigits2_bounds (Zpos mx)) as [Hdx [Hxlo Hxhi]]; [lia|].
  destruct (Zdigits2_bounds (Zpos my)) as [Hdy [Hylo Hyhi]]; [lia|].
  assert (Hplo : Zdigits2 (Zpos mx) + Zdigits2 (Zpos my) - 1 <= Zdigits2 (Zpos (mx * my))).
  { apply Zdigits2_ge; [lia|]. rewrite Pos2Z.inj_mul.
    replace (Zdigits2 (Zpos mx) + Zdigits2 (Zpos my) - 1 - 1)
      with ((Zdigits2 (Zpos mx) - 1) + (Zdigits2 (Zpos my) - 1)) by lia.
    rewrite Z.pow_add_r by lia.
    apply Z.mul_le_mono_nonneg; try assumption; apply Z.pow_nonneg; lia. }
  assert (Hphi : Zdigits2 (Zpos (mx * my)) <= Zdigits2 (Zpos mx) + Zdigits2 (Zpos my)).
  { apply Zdigits2_le; [lia|lia|]. rewrite Pos2Z.inj_mul, Z.pow_add_r by lia.
    apply Z.mul_lt_mono_nonneg; lia. }
  rewrite fexp_value, emin_value in *.
  apply round_aux_faithful.
  - lia.
  - rewrite fexp_value. lia.
  - rewrite fexp_value. unfold emax, prec. lia.
  - apply Qle_refl.
  - apply dy_lt. lia.
  - intros H. contradiction H. reflexivity.
Qed.

(** *** Division *)

Lemma new_location_exact (n k : Z) : new_location n k = loc_Exact -> k = 0.
Proof.
  unfold new_location, new_location_even, new_location_odd.
  destruct (Z.even n); destruct (Z.eqb_spec k 0); auto; discriminate.
Qed.

Lemma smant_div (sx sy : bool) (mx my : positive) (ex ey : Z) :
  (signed (xorb sx sy) (dy (Zpos mx) ex / dy (Zpos my) ey)
   == to_Q (S754_finite sx mx ex) / to_Q (S754_finite sy my ey))%Q.
Proof.
  assert (Hy : ~ (dy (Zpos my) ey == 0)%Q).
  { assert ((0 < dy (Zpos my) ey)%Q) by (rewrite <- (dy_0 ey); apply dy_lt; lia). lra. }
  rewrite !to_Q_finite. unfold smant.
  destruct sx, sy; cbn [xorb signed cond_Zopp];
    repeat match goal with |- context [Zneg ?p] => change (Zneg p) with (- Zpos p) end;
    rewrite ?dy_opp; field; try assumption.
Qed.

Lemma div_zero (s sy : bool) (my : positive) (ey : Z) :
  div (S754_zero s) (S754_finite sy my ey) = S754_zero (xorb s sy).
Proof. reflexivity. Qed.

Lemma div_faithful (sx sy : bool) (mx my : positive) (ex ey : Z) :
  let x := S754_finite sx mx ex in
  let y := S754_finite sy my ey in
  small x -> large x -> small y -> large y ->
  Faithful (div x y) (to_Q x / to_Q y).
Proof.
  intros x y Hsx Hlx Hsy Hly.
  apply mag_small in Hsx, Hsy. apply mag_large in Hlx, Hly.
  destruct (Zdigits2_bounds (Zpos mx)) as [Hdx [Hxlo Hxhi]]; [lia|].
  destruct (Zdigits2_bounds (Zpos my)) as [Hdy [Hylo Hyhi]]; [lia|].
  apply Faithful_ext with (signed (xorb sx sy) (dy (Zpos mx) ex / dy (Zpos my) ey));
    [apply smant_div|].
  unfold div, x, y, SFdiv, SFdiv_core_binary.
  set (d1 := Zdigits2 (Zpos mx)) in *. set (d2 := Zdigits2 (Zpos my)) in *.
  set (e' := Z.min (fexp prec emax (d1 + ex - (d2 + ey))) (ex - ey)).
  assert (He' : e' = Z.min (d1 + ex - (d2 + ey) - 53) (ex - ey))
    by (unfold e'; rewrite fexp_value; lia).
  set (s := ex - ey - e').
  assert (Hs : 0 <= s /\ 53 - d1 + d2 <= s) by (unfold s; lia).
  set (m' := match s with Z0 => Zpos mx | Zpos _ => Z.shiftl (Zpos mx) s | Zneg _ => 0 end).
  assert (Hm' : m' = Zpos mx * 2 ^ s).
  { unfold m'. destruct s as [|p|p] eqn:Es; [rewrite Z.pow_0_r; lia| |lia].
    apply Z.shiftl_mul_pow2. lia. }
  pose proof (Z_div_mod m' (Zpos my) eq_refl) as Hdm.
  destruct (Z.div_eucl m' (Zpos my)) as [q r]. destruct Hdm as [Hdm Hr].
  assert (H2s : 0 < 2 ^ s) by (apply Z.pow_pos_nonneg; lia).
  assert (Hm'lo : 2 ^ (52 + d2) <= m').
  { rewrite Hm'. apply Z.le_trans with (2 ^ (d1 - 1) * 2 ^ s).
    - rewrite <- Z.pow_add_r by lia. apply Z.pow_le_mono_r; lia.
    - apply Z.mul_le_mono_nonneg_r; lia. }
  assert (Hm'hi : m' < 2 ^ (d1 + s)).
  { rewrite Hm', Z.pow_add_r by lia. apply Z.mul_lt_mono_pos_r; assumption. }
  assert (Hq52 : 2 ^ 52 <= q).
  { assert (H : 2 ^ 52 * 2 ^ d2 <= m') by (rewrite <- Z.pow_add_r by lia; exact Hm'lo).
    assert (H52 : 0 < 2 ^ 52) by reflexivity. nia. }
  assert (Hqhi : q < 2 ^ (d1 + s - d2 + 1)).
  { assert (H : m' < 2 ^ (d1 + s - d2 + 1) * 2 ^ (d2 - 1)).
    { rewrite <- Z.pow_add_r by lia. replace (d1 + s - d2 + 1 + (d2 - 1)) with (d1 + s) by lia.
      exact Hm'hi. }
    assert (0 < 2 ^ (d1 + s - d2 + 1)) by (apply Z.pow_pos_nonneg; lia).
    assert (0 < 2 ^ (d2 - 1)) by (apply Z.pow_pos_nonneg; lia).
    nia. }
  assert (Hq0 : 0 < q) by (assert (0 < 2 ^ 52) by reflexivity; lia).
  assert (Hdq1 : 53 <= Zdigits2 q) by (apply Zdigits2_ge; [lia|exact Hq52]).
  assert (Hdq2 : Zdigits2 q <= d1 + s - d2 + 1) by (apply Zdigits2_le; lia).
  assert (HY : (0 < dy (Zpos my) ey)%Q) by (rewrite <- (dy_0 ey); apply dy_lt; lia).
  assert (HX : (dy (Zpos mx) ex == dy m' (e' + ey))%Q).
  { rewrite Hm', dy_shift by lia. replace (e' + ey + s) with ex by (unfold s; lia).
    reflexivity. }
  apply round_aux_faithful.
  - exact Hq0.
  - rewrite fexp_value. lia.
  - rewrite fexp_value. unfold emax, prec. lia.
  - apply Qle_shift_div_l; [exact HY|].
    rewrite <- dy_mul, HX. apply dy_le. nia.
  - apply Qlt_shift_div_r; [exact HY|].
    rewrite <- dy_mul, HX. apply dy_lt. nia.
  - intros Hloc.
    assert (Hr0 : r <> 0) by (intros ->; apply Hloc; unfold new_location,
      new_location_even, new_location_odd; destruct (Z.even (Zpos my)); reflexivity).
    apply Qlt_shift_div_l; [exact HY|].
    rewrite <- dy_mul, HX. apply dy_lt. nia.
Qed.

(** *** Representable values and conversions to integers *)

Lemma dy_inj (a b e : Z) : (dy a e == dy b e)%Q -> a = b.
Proof.
  intros H. apply Z.le_antisymm; apply (dy_le _ _ e); rewrite H; apply Qle_refl.
Qed.

(** The value of a valid finite number is [F * 2^c] with [|F| < 2^53]. *)
Lemma valid_representable (r : f64) :
  is_finite r = true -> valid r = true ->
  exists F c, Z.abs F < 2 ^ 53 /\ emin <= c /\ (to_Q r == dy F c)%Q.
Proof.
  intros Hf Hv. destruct r as [s| | |s m e]; try discriminate Hf.
  - exists 0, 0. rewrite emin_value, dy_0.
    split; [reflexivity|split; [lia|reflexivity]].
  - apply valid_finite in Hv. destruct Hv as (_ & Hd & He & _).
    exists (smant s m), e. split; [|split; [exact He|reflexivity]].
    destruct (Zdigits2_bounds (Zpos m)) as [_ [_ Hhi]]; [lia|].
    assert (Zpos m < 2 ^ 53).
    { eapply Z.lt_le_trans; [exact Hhi|]. apply Z.pow_le_mono_r; lia. }
    unfold smant. destruct s; cbn [cond_Zopp]; lia.
Qed.

Lemma Faithful_small (r : f64) (t : Q) (B : Z) :
  Faithful r t -> 0 <= B < 2 ^ 53 -> (- inject_Z B <= t <= inject_Z B)%Q ->
  (- inject_Z B <= to_Q r <= inject_Z B)%Q.
Proof.
  intros (_ & _ & Hbr) HB [Hlo Hhi].
  destruct (Hbr B 0) as [_ H1]; [lia|rewrite emin_value; lia|].
  destruct (Hbr (- B) 0) as [H2 _]; [lia|rewrite emin_value; lia|].
  rewrite dy_Z in H1. rewrite dy_opp, dy_Z in H2. split; [apply H2, Hlo|apply H1, Hhi].
Qed.

Lemma bounded_small (r : f64) (B : Z) :
  0 <= B < 2 ^ 53 -> (- inject_Z B <= to_Q r <= inject_Z B)%Q -> small r.
Proof.
  intros HB [Hlo Hhi]. unfold small.
  assert (H1 : (Qabs (to_Q r) <= inject_Z B)%Q) by (apply Qabs_Qle_condition; split; assumption).
  eapply Qle_lt_trans; [exact H1|].
  eapply Qlt_le_trans; [|apply (pow2_le 53 400); lia].
  rewrite (pow2_Z 53) by lia. rewrite <- Zlt_Qlt. lia.
Qed.

Lemma trunc_exact (r : f64) (z : Z) :
  is_finite r = true -> (to_Q r == inject_Z z)%Q -> trunc r = Some z.
Proof.
  intros Hf Hz. destruct r as [s| | |s m e]; try discriminate Hf.
  - cbn [trunc]. f_equal. rewrite to_Q_zero in Hz.
    symmetry. apply inject_Z_injective. symmetry. exact Hz.
  - cbn [trunc]. f_equal. rewrite to_Q_finite in Hz.
    destruct (Z.leb_spec 0 e) as [He|He].
    + apply (dy_inj _ _ 0). rewrite dy_shift, Z.add_0_l, dy_Z by assumption. exact Hz.
    + assert (Hm : smant s m = z * 2 ^ (- e)).
      { apply (dy_inj _ _ e). rewrite Hz, <- dy_Z, (dy_align z 0 e) by lia.
        rewrite Z.sub_0_l. reflexivity. }
      assert (H2 : 0 < 2 ^ (- e)) by (apply Z.pow_pos_nonneg; lia).
      rewrite Z.shiftr_div_pow2 by lia.
      unfold smant in Hm. destruct s; cbn [cond_Zopp] in Hm |- *.
      * replace (Zpos m) with (- z * 2 ^ (- e)) by lia.
        rewrite Z.div_mul by lia. lia.
      * rewrite Hm, Z.div_mul by lia. reflexivity.
Qed.

(** [math.Floor] followed by the truncating conversion, on a non-negative
    number: the integer part. *)
Lemma trunc_floor (w : f64) :
  is_finite w = true -> valid w = true -> (0 <= to_Q w)%Q ->
  exists k, trunc (floor w) = Some k /\ 0 <= k
            /\ (inject_Z k <= to_Q w)%Q /\ (to_Q w < inject_Z (k + 1))%Q.
Proof.
  intros Hf Hv Hpos. destruct w as [s| | |s m e]; try discriminate Hf.
  - exists 0. cbn [floor trunc]. rewrite to_Q_zero.
    split; [reflexivity|split; [lia|split; [apply Qle_refl|reflexivity]]].
  - assert (Hs : s = false).
    { destruct s; [exfalso|reflexivity]. rewrite to_Q_finite in Hpos.
      assert ((dy (smant true m) e < 0)%Q) by (rewrite <- (dy_0 e); apply dy_lt; cbn; lia).
      lra. }
    subst s. rewrite to_Q_finite. unfold smant. cbn [cond_Zopp].
    cbn [floor]. destruct (Z.leb_spec 0 e) as [He|He].
    + exists (Zpos m * 2 ^ e). cbn [trunc].
      replace (0 <=? e) with true by (symmetry; apply Z.leb_le; exact He).
      assert (H2 : 0 < 2 ^ e) by (apply Z.pow_pos_nonneg; lia).
      assert (E : (dy (Zpos m) e == inject_Z (Zpos m * 2 ^ e))%Q).
      { rewrite <- dy_Z, dy_shift by assumption. rewrite Z.add_0_l. reflexivity. }
      rewrite E.
      split; [reflexivity|]. split; [lia|]. split; [apply Qle_refl|].
      rewrite <- Zlt_Qlt. lia.
    + unfold smant. cbn [cond_Zopp]. rewrite Z.shiftr_div_pow2 by lia.
      set (z := Zpos m / 2 ^ (- e)).
      assert (H2 : 0 < 2 ^ (- e)) by (apply Z.pow_pos_nonneg; lia).
      assert (Hz : z * 2 ^ (- e) <= Zpos m < (z + 1) * 2 ^ (- e)).
      { pose proof (Z.div_mod (Zpos m) (2 ^ (- e))) as Hdm.
        pose proof (Z.mod_pos_bound (Zpos m) (2 ^ (- e)) H2). fold z in Hdm. nia. }
      assert (Hz0 : 0 <= z) by (apply Z.div_pos; lia).
      exists z.
      assert (Hbr : (inject_Z z <= dy (Zpos m) e)%Q /\ (dy (Zpos m) e < inject_Z (z + 1))%Q).
      { rewrite <- !dy_Z, (dy_align z 0 e), (dy_align (z + 1) 0 e), Z.sub_0_l by lia.
        split; [apply dy_le|apply dy_lt]; lia. }
      split; [|split; [exact Hz0|exact Hbr]].
      apply valid_finite in Hv. destruct Hv as (_ & Hd & _).
      destruct (Zdigits2_bounds (Zpos m)) as [_ [_ Hhi]]; [lia|].
      assert (Hm53 : Zpos m < 2 ^ 53).
      { eapply Z.lt_le_trans; [exact Hhi|]. apply Z.pow_le_mono_r; lia. }
      assert (Hzm : z <= Zpos m) by nia.
      destruct z as [|p|p] eqn:Ez; [reflexivity| |lia].
      destruct (of_Z_faithful (Zpos p)) as [(Hfin & _) Hval]; [lia|].
      apply trunc_exact; assumption.
Qed.

(** *** Integer constants *)

Lemma of_Z_facts (z : Z) :
  0 < Z.abs z < 2 ^ 53 ->
  is_finite (of_Z z) = true /\ valid (of_Z z) = true
  /\ (to_Q (of_Z z) == inject_Z z)%Q /\ small (of_Z z) /\ large (of_Z z)
  /\ exists s m e, of_Z z = S754_finite s m e.
Proof.
  intros Hz. destruct (of_Z_faithful z) as [(Hfin & Hval & _) HQ]; [lia|].
  assert (Habs : (Qabs (to_Q (of_Z z)) == inject_Z (Z.abs z))%Q).
  { rewrite HQ. unfold Qabs, inject_Z. reflexivity. }
  split; [exact Hfin|]. split; [exact Hval|]. split; [exact HQ|]. split; [|split].
  - unfold small. rewrite Habs.
    eapply Qlt_le_trans; [|apply (pow2_le 53 400); lia].
    rewrite (pow2_Z 53) by lia. rewrite <- Zlt_Qlt. lia.
  - unfold large. rewrite Habs.
    eapply Qle_trans; [apply (pow2_le (- 400) 0); lia|].
    change (pow2 0) with (inject_Z 1). rewrite <- Zle_Qle. lia.
  - destruct (of_Z z) as [s| | |s m e]; try discriminate Hfin.
    + exfalso. rewrite to_Q_zero in HQ.
      assert (z = 0) by (symmetry; apply inject_Z_injective; exact HQ). lia.
    + eauto.
Qed.

Lemma pow2_neg_le_1 (k : Z) : 0 <= k -> (pow2 (- k) <= 1)%Q.
Proof. intros Hk. apply (pow2_le (- k) 0). lia. Qed.

(** A valid number of magnitude at least 64 is a multiple of [2^-46]. *)
Lemma valid_grid (x : f64) :
  is_finite x = true -> valid x = true -> (inject_Z 64 <= Qabs (to_Q x))%Q ->
  exists S, (to_Q x == dy S (- 46))%Q.
Proof.
  intros Hf Hv H64. destruct x as [s| | |s m e]; try discriminate Hf.
  - exists 0. rewrite dy_0. reflexivity.
  - rewrite Qabs_finite in H64. apply valid_finite in Hv.
    destruct Hv as (Hfe & Hd & He & _). rewrite fexp_value in Hfe.
    destruct (Zdigits2_bounds (Zpos m)) as [Hdp [_ Hhi]]; [lia|].
    assert (Hmag : 6 < Zdigits2 (Zpos m) + e).
    { destruct (Z.lt_ge_cases 6 (Zdigits2 (Zpos m) + e)) as [|Hle]; [assumption|exfalso].
      assert (H1 : (dy (Zpos m) e < pow2 6)%Q).
      { eapply Qlt_le_trans; [|apply (pow2_le (e + Zdigits2 (Zpos m)) 6); lia].
        rewrite <- dy_pow2 by lia. apply dy_lt. exact Hhi. }
      change (pow2 6) with (inject_Z 64) in H1. lra. }
    exists (smant s m * 2 ^ (e + 46)). rewrite to_Q_finite.
    rewrite (dy_align (smant s m) e (- 46)) by lia.
    replace (e - - 46) with (e + 46) by lia. reflexivity.
Qed.

(** *** The 32-bit fraction of a coordinate

    [L] is the half-width of the coordinate range: 90 for latitudes and
    180 for longitudes.  The fraction computed for [x] is
    [floor (2^32 * ((x - (-L)) / 2L))]. *)

Section Fraction.

Variable L : Z.
Hypothesis HL : 65 <= L <= 2 ^ 19.

Lemma L_bounds : 0 < Z.abs (- L) < 2 ^ 53 /\ 0 < Z.abs (2 * L) < 2 ^ 53.
Proof. change (2 ^ 19) with 524288 in HL. change (2 ^ 53) with 9007199254740992. lia. Qed.

Lemma shifted_positive (x : f64) :
  is_finite x = true -> valid x = true ->
  (0 < to_Q x + inject_Z L)%Q -> (pow2 (- 46) <= to_Q x + inject_Z L)%Q.
Proof.
  intros Hf Hv Hpos.
  destruct (Qlt_le_dec (to_Q x) (inject_Z (- L + 1))) as [Hlt|Hge].
  - destruct (valid_grid x Hf Hv) as [S HS].
    + assert (H64 : (inject_Z (- L + 1) <= - inject_Z 64)%Q).
      { rewrite <- inject_Z_opp, <- Zle_Qle. lia. }
      change (inject_Z 64) with 64%Q in *.
      assert (Hneg : (to_Q x <= 0)%Q) by lra.
      rewrite (Qabs_neg _ Hneg). lra.
    + assert (HLg : (inject_Z L == dy (L * 2 ^ 46) (- 46))%Q).
      { rewrite <- dy_Z. apply (dy_align L 0 (- 46)). lia. }
      assert (Hsum : (to_Q x + inject_Z L == dy (S + L * 2 ^ 46) (- 46))%Q)
        by (rewrite dy_add, <- HS, <- HLg; reflexivity).
      rewrite Hsum in *.
      assert (0 < S + L * 2 ^ 46) by (apply (dy_lt _ _ (- 46)); rewrite dy_0; exact Hpos).
      assert (H1 : (dy 1 (- 46) == pow2 (- 46))%Q) by (unfold dy; ring).
      rewrite <- H1. apply dy_le. lia.
  - eapply Qle_trans; [apply (pow2_neg_le_1 46); lia|].
    rewrite inject_Z_plus, inject_Z_opp in Hge. change (inject_Z 1) with 1%Q in Hge. lra.
Qed.

Lemma grid_scale (K : Z) :
  (dy (2 * L * K) (- 32) == inject_Z (2 * L) * dy K (- 32))%Q.
Proof. unfold dy. rewrite inject_Z_mult. ring. Qed.

Lemma fraction_bracket (x : f64) :
  is_finite x = true -> valid x = true ->
  (- inject_Z L <= to_Q x <= inject_Z L)%Q ->
  exists k, trunc (floor (scaled L x)) = Some k /\ 0 <= k
    /\ (inject_Z k
        <= inject_Z (2 ^ 32) * to_Q (div (sub x (of_Z (- L))) (of_Z (2 * L))))%Q
    /\ forall K, 0 <= K <= 2 ^ 32 ->
         ((grid L K <= to_Q x)%Q -> K <= k)
         /\ ((to_Q x <= grid L K)%Q -> k <= K)
         /\ ((to_Q x <= grid L K)%Q ->
             (to_Q (div (sub x (of_Z (- L))) (of_Z (2 * L))) <= dy K (- 32))%Q).
Proof.
  intros Hf Hv [Hxlo Hxhi].
  destruct L_bounds as [HmL H2L].
  destruct (of_Z_facts (- L) HmL) as (Hlof & Hlov & HloQ & Hlos & _).
  destruct (of_Z_facts (2 * L) H2L) as (Hspf & Hspv & HspQ & Hsps & Hspl & ssp & msp & esp & Esp).
  destruct (of_Z_facts (2 ^ 32)) as (Htf & Htv & HtQ & Hts & _); [split; reflexivity|].
  fold two32 in Htf, Htv, HtQ, Hts.
  assert (H2Lpos : (0 < inject_Z (2 * L))%Q)
    by (change 0%Q with (inject_Z 0); rewrite <- Zlt_Qlt; lia).
  assert (HL53 : 0 <= L < 2 ^ 53)
    by (change (2 ^ 19) with 524288 in HL; change (2 ^ 53) with 9007199254740992; lia).
  assert (Hxs : small x) by (apply (bounded_small x L HL53); split; assumption).
  (* the shifted coordinate *)
  assert (Hy : Faithful (sub x (of_Z (- L))) (to_Q x + inject_Z L)).
  { apply Faithful_ext with (to_Q x - to_Q (of_Z (- L)))%Q.
    - rewrite HloQ, inject_Z_opp. ring.
    - apply sub_faithful; assumption. }
  set (y := sub x (of_Z (- L))) in *.
  assert (Hyb : (0 <= to_Q y <= inject_Z (2 * L))%Q).
  { destruct Hy as (_ & _ & Hbr).
    destruct (Hbr 0 0) as [H0 _]; [reflexivity|rewrite emin_value; lia|].
    destruct (Hbr (2 * L) 0) as [_ H1]; [lia|rewrite emin_value; lia|].
    rewrite dy_0 in H0. rewrite dy_Z in H1.
    split; [apply H0; lra|apply H1]. rewrite inject_Z_mult. change (inject_Z 2) with 2%Q. lra. }
  assert (HK53 : forall K, 0 <= K <= 2 ^ 32 -> Z.abs (2 * L * K) < 2 ^ 53 /\ Z.abs K < 2 ^ 53).
  { intros K HK. change (2 ^ 19) with 524288 in HL. change (2 ^ 32) with 4294967296 in HK.
    change (2 ^ 53) with 9007199254740992. nia. }
  assert (Hemin : emin <= - 32) by (rewrite emin_value; lia).
  assert (Hyf : is_finite y = true) by apply Hy.
  assert (Hyv : valid y = true) by apply Hy.
  unfold scaled. fold y. rewrite Esp in *.
  destruct y as [sy| | |sy my ey] eqn:Ey; try discriminate Hyf.
  - (* the shifted coordinate is zero *)
    exists 0. rewrite div_zero.
    replace (mul two32 (S754_zero (xorb sy ssp))) with (S754_zero (xorb sy ssp)) by reflexivity.
    split; [reflexivity|]. split; [lia|].
    split; [rewrite to_Q_zero; change (inject_Z 0) with 0%Q; lra|].
    intros K HK. split; [|split; [lia|]].
    2: { intros _. rewrite to_Q_zero, <- (dy_0 (- 32)). apply dy_le. lia. }
    intros Hg. destruct (HK53 K HK) as [HK1 _].
    destruct Hy as (_ & _ & Hbr). destruct (Hbr (2 * L * K) (- 32) HK1 Hemin) as [Hlo _].
    rewrite to_Q_zero in Hlo.
    assert (H0 : (dy (2 * L * K) (- 32) <= dy 0 (- 32))%Q).
    { rewrite dy_0. apply Hlo. unfold grid in Hg. lra. }
    apply dy_le in H0. nia.
  - (* the shifted coordinate is positive *)
    assert (Hypos : (0 < to_Q (S754_finite sy my ey))%Q).
    { destruct sy.
      - exfalso. destruct Hyb as [Hyb _]. rewrite to_Q_finite in Hyb.
        assert ((dy (smant true my) ey < 0)%Q)
          by (rewrite <- (dy_0 ey); apply dy_lt; cbn; lia).
        lra.
      - rewrite to_Q_finite, <- (dy_0 ey). apply dy_lt. cbn. lia. }
    assert (Htpos : (0 < to_Q x + inject_Z L)%Q).
    { destruct (Qlt_le_dec 0 (to_Q x + inject_Z L)) as [|Hle]; [assumption|exfalso].
      destruct Hy as (_ & _ & Hbr).
      destruct (Hbr 0 0) as [_ H0]; [reflexivity|rewrite emin_value; lia|].
      rewrite dy_0 in H0. specialize (H0 Hle). lra. }
    assert (Hyl : large (S754_finite sy my ey)).
    { unfold large. rewrite (Qabs_pos _ (Qlt_le_weak _ _ Hypos)).
      eapply Qle_trans; [apply (pow2_le (- 400) (- 46)); lia|].
      destruct Hy as (_ & _ & Hbr).
      destruct (Hbr 1 (- 46)) as [H1 _]; [reflexivity|rewrite emin_value; lia|].
      assert (E1 : (dy 1 (- 46) == pow2 (- 46))%Q) by (unfold dy; ring).
      rewrite E1 in H1. apply H1. apply shifted_positive; assumption. }
    assert (Hys : small (S754_finite sy my ey)).
    { apply (bounded_small _ (2 * L)); [lia|]. split; [|apply Hyb].
      rewrite <- inject_Z_opp.
      eapply Qle_trans; [|apply Hyb]. change 0%Q with (inject_Z 0).
      rewrite <- Zle_Qle. lia. }
    assert (Hv' : Faithful (div (S754_finite sy my ey) (S754_finite ssp msp esp))
                    (to_Q (S754_finite sy my ey) / inject_Z (2 * L))).
    { apply Faithful_ext with (to_Q (S754_finite sy my ey) / to_Q (S754_finite ssp msp esp))%Q.
      - rewrite HspQ. reflexivity.
      - apply div_faithful; assumption. }
    set (v := div (S754_finite sy my ey) (S754_finite ssp msp esp)) in *.
    set (ty := to_Q (S754_finite sy my ey)) in *.
    assert (Hvb : (0 <= to_Q v <= 1)%Q).
    { destruct Hv' as (_ & _ & Hbr).
      destruct (Hbr 0 0) as [H0 _]; [reflexivity|rewrite emin_value; lia|].
      destruct (Hbr 1 0) as [_ H1]; [reflexivity|rewrite emin_value; lia|].
      rewrite dy_0 in H0. rewrite dy_Z in H1. change (inject_Z 1) with 1%Q in H1.
      split.
      - apply H0. apply Qle_shift_div_l; [exact H2Lpos|]. lra.
      - apply H1. apply Qle_shift_div_r; [exact H2Lpos|]. lra. }
    assert (Hvf : is_finite v = true) by apply Hv'.
    assert (Hvv : valid v = true) by apply Hv'.
    assert (Hvs : small v).
    { apply (bounded_small v 1); [split; [lia|reflexivity]|].
      change (inject_Z 1) with 1%Q. lra. }
    pose proof (mul_faithful two32 v Htf Hvf Htv Hvv Hts Hvs) as Hp.
    assert (HpQ : (to_Q (mul two32 v) == inject_Z (2 ^ 32) * to_Q v)%Q).
    { destruct (valid_representable v Hvf Hvv) as (F & c & HF & Hc & HvQ).
      rewrite <- HtQ.
      apply (Faithful_exact _ _ F (c + 32) Hp HF); [lia|].
      rewrite HtQ, HvQ, <- (pow2_Z 32) by lia. unfold dy. rewrite pow2_add. ring. }
    set (p := mul two32 v) in *.
    destruct (trunc_floor p) as (k & Hk & Hk0 & Hklo & Hkhi);
      [apply Hp|apply Hp|rewrite HpQ; change (inject_Z (2 ^ 32)) with (4294967296%Q); lra|].
    exists k. split; [exact Hk|]. split; [exact Hk0|].
    split; [rewrite <- HpQ; exact Hklo|].
    intros K HK. destruct (HK53 K HK) as [HK1 HK2].
    assert (E32 : (inject_Z (2 ^ 32) * dy K (- 32) == inject_Z K)%Q).
    { rewrite <- (pow2_Z 32) by lia. unfold dy.
      assert (Hpp : (pow2 32 * pow2 (- 32) == 1)%Q) by (rewrite <- pow2_add; reflexivity).
      rewrite <- (Qmult_1_r (inject_Z K)) at 2. rewrite <- Hpp. ring. }
    assert (H32pos : (0 < inject_Z (2 ^ 32))%Q) by reflexivity.
    assert (Hupper : (to_Q x <= grid L K)%Q -> (to_Q v <= dy K (- 32))%Q).
    { intros Hg. unfold grid in Hg.
      assert (H1 : (ty <= dy (2 * L * K) (- 32))%Q).
      { destruct Hy as (_ & _ & Hbr).
        destruct (Hbr (2 * L * K) (- 32) HK1 Hemin) as [_ Hhi]. apply Hhi. lra. }
      destruct Hv' as (_ & _ & Hbr).
      destruct (Hbr K (- 32) HK2 Hemin) as [_ Hhi]. apply Hhi.
      apply Qle_shift_div_r; [exact H2Lpos|]. rewrite grid_scale in H1. lra. }
    split; [|split; [|exact Hupper]]; intros Hg.
    + unfold grid in Hg.
      assert (H1 : (dy (2 * L * K) (- 32) <= ty)%Q).
      { destruct Hy as (_ & _ & Hbr).
        destruct (Hbr (2 * L * K) (- 32) HK1 Hemin) as [Hlo _]. apply Hlo. lra. }
      assert (H2 : (dy K (- 32) <= to_Q v)%Q).
      { destruct Hv' as (_ & _ & Hbr).
        destruct (Hbr K (- 32) HK2 Hemin) as [Hlo _]. apply Hlo.
        apply Qle_shift_div_l; [exact H2Lpos|]. rewrite grid_scale in H1. lra. }
      assert (H3 : (inject_Z K <= to_Q p)%Q).
      { rewrite HpQ, <- E32. apply Qmult_le_l; assumption. }
      assert (H4 : (inject_Z K < inject_Z (k + 1))%Q) by lra.
      rewrite <- Zlt_Qlt in H4. lia.
    + pose proof (Hupper Hg) as H2.
      assert (H3 : (to_Q p <= inject_Z K)%Q).
      { rewrite HpQ, <- E32. apply Qmult_le_l; assumption. }
      assert (H4 : (inject_Z k <= inject_Z K)%Q) by lra.
      rewrite <- Zle_Qle in H4. exact H4.
Qed.

(** The inverse mapping is exact on every 32-bit fraction. *)
Lemma unmap_regular (D : Z) :
  0 <= D < 2 ^ 32 ->
  let x := add (mul (div (of_Z D) two32) (of_Z (2 * L))) (of_Z (- L)) in
  is_finite x = true /\ valid x = true /\ (to_Q x == grid L D)%Q.
Proof.
  intros HD x. subst x.
  destruct L_bounds as [HmL H2L].
  destruct (of_Z_facts (- L) HmL) as (Hlof & Hlov & HloQ & Hlos & _).
  destruct (of_Z_facts (2 * L) H2L) as (Hspf & Hspv & HspQ & Hsps & _).
  destruct (of_Z_facts (2 ^ 32)) as (Htf & Htv & HtQ & Hts & Htl & st & mt & et & Et);
    [split; reflexivity|].
  fold two32 in Htf, Htv, HtQ, Hts, Htl, Et.
  assert (Hemin : emin <= - 32) by (rewrite emin_value; lia).
  assert (HD53 : Z.abs D < 2 ^ 53 /\ Z.abs (2 * L * D) < 2 ^ 53
                 /\ Z.abs (2 * L * D - L * 2 ^ 32) < 2 ^ 53).
  { change (2 ^ 19) with 524288 in HL. change (2 ^ 32) with 4294967296 in *.
    change (2 ^ 53) with 9007199254740992. nia. }
  destruct HD53 as (HD1 & HD2 & HD3).
  assert (E32 : (inject_Z (2 ^ 32) * pow2 (- 32) == 1)%Q).
  { rewrite <- (pow2_Z 32), <- pow2_add by lia. reflexivity. }
  (* the fraction divided by 2^32 *)
  assert (Hx2 : is_finite (div (of_Z D) two32) = true /\ valid (div (of_Z D) two32) = true
                /\ (to_Q (div (of_Z D) two32) == dy D (- 32))%Q).
  { destruct (Z.eq_dec D 0) as [->|Hnz].
    - rewrite Et. change (of_Z 0) with (S754_zero false). rewrite div_zero, dy_0.
      split; [reflexivity|split; reflexivity].
    - destruct (of_Z_facts D) as (_ & _ & HDQ & HDs & HDl & sd & md & ed & Ed); [lia|].
      rewrite Ed, Et in *.
      pose proof (div_faithful sd st md mt ed et HDs HDl Hts Htl) as Hdiv.
      cbn zeta in Hdiv. split; [apply Hdiv|split; [apply Hdiv|]].
      assert (Ht : (to_Q (S754_finite sd md ed) / to_Q (S754_finite st mt et)
                    == dy D (- 32))%Q).
      { rewrite HDQ, HtQ. unfold dy.
        assert (Hinv : (/ inject_Z (2 ^ 32) == pow2 (- 32))%Q).
        { apply (Qmult_inj_l _ _ (inject_Z (2 ^ 32))); [intros H; discriminate H|].
          rewrite E32. field. intros H; discriminate H. }
        unfold Qdiv. rewrite Hinv. reflexivity. }
      rewrite <- Ht. apply (Faithful_exact _ _ D (- 32) Hdiv HD1 Hemin Ht). }
  destruct Hx2 as (Hx2f & Hx2v & Hx2Q).
  set (x2 := div (of_Z D) two32) in *.
  assert (Hx2b : (0 <= dy D (- 32) <= 1)%Q).
  { split.
    - rewrite <- (dy_0 (- 32)). apply dy_le. lia.
    - assert (H1 : (dy (2 ^ 32) (- 32) == 1)%Q) by (unfold dy; exact E32).
      rewrite <- H1. apply dy_le. lia. }
  assert (Hx2s : small x2).
  { apply (bounded_small x2 1); [split; [lia|reflexivity]|].
    rewrite Hx2Q. change (inject_Z 1) with 1%Q. lra. }
  (* times the width of the range *)
  pose proof (mul_faithful x2 (of_Z (2 * L)) Hx2f Hspf Hx2v Hspv Hx2s Hsps) as Hmul.
  assert (Hx3Q : (to_Q (mul x2 (of_Z (2 * L))) == dy (2 * L * D) (- 32))%Q).
  { apply Qeq_trans with (to_Q x2 * to_Q (of_Z (2 * L)))%Q.
    - apply (Faithful_exact _ _ (2 * L * D) (- 32) Hmul HD2 Hemin).
      rewrite Hx2Q, HspQ, grid_scale. ring.
    - rewrite Hx2Q, HspQ, grid_scale. ring. }
  set (x3 := mul x2 (of_Z (2 * L))) in *.
  assert (H2Lpos : (0 < inject_Z (2 * L))%Q)
    by (change 0%Q with (inject_Z 0); rewrite <- Zlt_Qlt; lia).
  assert (Hx3s : small x3).
  { apply (bounded_small x3 (2 * L)); [lia|].
    rewrite Hx3Q, grid_scale. split; nra. }
  (* plus the lower end of the range *)
  pose proof (add_faithful x3 (of_Z (- L)) (proj1 Hmul) Hlof (proj1 (proj2 Hmul)) Hlov
                Hx3s Hlos) as Hadd.
  assert (Hg : (grid L D == to_Q x3 + to_Q (of_Z (- L)))%Q).
  { unfold grid. rewrite Hx3Q, HloQ, inject_Z_opp. ring. }
  split; [apply Hadd|]. split; [apply Hadd|].
  rewrite Hg.
  apply (Faithful_exact _ _ (2 * L * D - L * 2 ^ 32) (- 32) Hadd HD3 Hemin).
  rewrite Hx3Q, HloQ, inject_Z_opp.
  unfold Z.sub. rewrite dy_add, dy_opp.
  assert (HL32 : (dy (L * 2 ^ 32) (- 32) == inject_Z L)%Q).
  { unfold dy. rewrite inject_Z_mult.
    rewrite <- (Qmult_1_r (inject_Z L)) at 2. rewrite <- E32. ring. }
  rewrite HL32. ring.
Qed.

Lemma unmap_exact (D : Z) :
  0 <= D < 2 ^ 32 ->
  (to_Q (add (mul (div (of_Z D) two32) (of_Z (2 * L))) (of_Z (- L))) == grid L D)%Q.
Proof. intros HD. apply (unmap_regular D HD). Qed.

End Fraction.

(** *** Comparison of positive numbers *)

Lemma valid_mantissa_bounds (s : bool) (m : positive) (e : Z) :
  valid (S754_finite s m e) = true ->
  Zpos m < 2 ^ 53 /\ emin <= e /\ (emin < e -> 2 ^ 52 <= Zpos m).
Proof.
  intros Hv. apply valid_finite in Hv. destruct Hv as (_ & Hd & He & Hn).
  destruct (Zdigits2_bounds (Zpos m)) as [_ [Hlo Hhi]]; [lia|].
  split; [|split; [exact He|]].
  - eapply Z.lt_le_trans; [exact Hhi|]. apply Z.pow_le_mono_r; lia.
  - intros Hgt. destruct Hn as [Hn|Hn]; [lia|]. rewrite Hn in Hlo. exact Hlo.
Qed.

Lemma lower_exponent_smaller (m1 m2 : positive) (e1 e2 : Z) :
  valid (S754_finite false m1 e1) = true -> valid (S754_finite false m2 e2) = true ->
  e1 < e2 -> (dy (Zpos m1) e1 < dy (Zpos m2) e2)%Q.
Proof.
  intros H1 H2 He.
  apply valid_mantissa_bounds in H1, H2.
  destruct H1 as (Hm1 & He1 & _). destruct H2 as (_ & _ & Hm2).
  rewrite (dy_align (Zpos m2) e2 e1) by lia. apply dy_lt.
  assert (2 <= 2 ^ (e2 - e1)).
  { change 2 with (2 ^ 1) at 1. apply Z.pow_le_mono_r; lia. }
  assert (2 ^ 52 <= Zpos m2) by (apply Hm2; lia).
  change (2 ^ 53) with (2 ^ 52 * 2) in Hm1. nia.
Qed.

Lemma ltb_pos_spec (m1 m2 : positive) (e1 e2 : Z) :
  let x := S754_finite false m1 e1 in
  let y := S754_finite false m2 e2 in
  valid x = true -> valid y = true ->
  (ltb x y = true <-> (to_Q x < to_Q y)%Q).
Proof.
  intros x y Hx Hy. unfold x, y, ltb, SFltb, SFcompare. rewrite !to_Q_finite.
  unfold smant. cbn [cond_Zopp].
  destruct (Z.compare_spec e1 e2) as [->|Hlt|Hgt].
  - rewrite dy_lt. change (Pos.compare_cont Eq m1 m2) with (Pos.compare m1 m2).
    destruct (Pos.compare_spec m1 m2) as [->|H|H]; split; intros H'; try reflexivity;
      try discriminate; lia.
  - split; [intros _|reflexivity]. apply lower_exponent_smaller; assumption.
  - split; [discriminate|intros H]. exfalso.
    pose proof (lower_exponent_smaller m2 m1 e2 e1 Hy Hx Hgt). lra.
Qed.

(** *** Doubling *)

Lemma two_value : of_Z 2 = S754_finite false 4503599627370496 (- 51).
Proof. vm_compute. reflexivity. Qed.

Lemma mul_round_pre (mx my : positive) (ex ey : Z) (sx sy : bool) :
  valid (S754_finite sx mx ex) = true -> valid (S754_finite sy my ey) = true ->
  ex + ey <= fexp prec emax (Zdigits2 (Zpos (mx * my)) + (ex + ey)).
Proof.
  intros Hvx Hvy. apply valid_finite in Hvx, Hvy.
  destruct (Zdigits2_bounds (Zpos mx)) as [Hdx [Hxlo Hxhi]]; [lia|].
  destruct (Zdigits2_bounds (Zpos my)) as [Hdy [Hylo Hyhi]]; [lia|].
  assert (Hplo : Zdigits2 (Zpos mx) + Zdigits2 (Zpos my) - 1 <= Zdigits2 (Zpos (mx * my))).
  { apply Zdigits2_ge; [lia|]. rewrite Pos2Z.inj_mul.
    replace (Zdigits2 (Zpos mx) + Zdigits2 (Zpos my) - 1 - 1)
      with ((Zdigits2 (Zpos mx) - 1) + (Zdigits2 (Zpos my) - 1)) by lia.
    rewrite Z.pow_add_r by lia.
    apply Z.mul_le_mono_nonneg; try assumption; apply Z.pow_nonneg; lia. }
  rewrite fexp_value, emin_value in *. lia.
Qed.

Lemma pack_negative (M e : Z) : 0 <= M -> negative (pack true M e).
Proof.
  intros HM. destruct M as [|m|m]; [exact I| |lia]. cbn [pack].
  destruct (e <=? emax - prec); exact I.
Qed.

Lemma double_negative (r : f64) :
  negative r -> valid r = true ->
  negative (mul r (of_Z 2)) /\ valid (mul r (of_Z 2)) = true.
Proof.
  intros Hn Hv. rewrite two_value.
  destruct r as [[]|[]| |[] m e]; try contradiction Hn; try (split; [exact I|reflexivity]).
  unfold mul, SFmul. cbn [xorb].
  pose proof (mul_round_pre m 4503599627370496 e (- 51) true false Hv eq_refl) as Hpre.
  destruct (binary_round_aux_spec true (Zpos (m * 4503599627370496)) (e + - 51) loc_Exact)
    as (Hq & Hnorm & M & HM & Heq); [lia|exact Hpre|].
  set (e1 := fexp prec emax (Zdigits2 (Zpos (m * 4503599627370496)) + (e + - 51))) in *.
  set (q := Zpos (m * 4503599627370496) / 2 ^ (e1 - (e + - 51))) in *.
  assert (Hq0 : 0 <= q) by (apply Z.div_pos; [lia|apply Z.pow_pos_nonneg; lia]).
  assert (HM0 : 0 <= M <= 2 ^ 53) by (destruct HM as [->|[-> _]]; lia).
  rewrite Heq. split.
  - apply pack_negative. unfold renorm.
    destruct (M =? 2 ^ 53); cbn [fst]; [apply Z.pow_nonneg; lia|lia].
  - apply pack_valid; [exact HM0|unfold e1; rewrite fexp_value, emin_value; lia|].
    destruct Hnorm as [Hn'|Hn']; [left; exact Hn'|right].
    destruct HM as [->|[-> _]]; lia.
Qed.

End F64Facts.

(** ** The round trip of the two fractions *)

Module RoundTripFacts.
Import Int IntFacts Base32Facts F64Facts.

Lemma clear_low_bits (x n k : Z) :
  0 <= n -> 0 <= k ->
  Z.testbit (2 ^ n * (x / 2 ^ n)) k = (n <=? k) && Z.testbit x k.
Proof.
  intros Hn Hk. rewrite (Z.mul_comm (2 ^ n)), Z.mul_pow2_bits by lia.
  destruct (Z.leb_spec n k) as [Hle|Hlt].
  - rewrite Z.div_pow2_bits by lia. replace (k - n + n) with k by lia. reflexivity.
  - apply Z.testbit_neg_r. lia.
Qed.

Lemma clear_low_4 (x k : Z) :
  0 <= k -> Z.testbit (16 * (x / 16)) k = (4 <=? k) && Z.testbit x k.
Proof. intros Hk. apply (clear_low_bits x 4 k); lia. Qed.

Lemma clear_low_2 (x k : Z) :
  0 <= k -> Z.testbit (4 * (x / 4)) k = (2 <=? k) && Z.testbit x k.
Proof. intros Hk. apply (clear_low_bits x 2 k); lia. Qed.

(** What is left of the fractions after the key lost its low 4 bits. *)
Lemma DeInterleave_truncated (a b : Z) :
  is_uint32 a -> is_uint32 b ->
  DeInterleave64Bits (16 * (interleave32Bits a b / 16)) = (4 * (a / 4), 4 * (b / 4)).
Proof.
  intros Ha Hb. rewrite (surjective_pairing (DeInterleave64Bits _)).
  f_equal; apply Z.bits_inj'; intros k Hk;
    destruct (DeInterleaveFacts.DeInterleave_bits (16 * (interleave32Bits a b / 16)) k)
      as [Ea Eb]; try assumption; rewrite ?Ea, ?Eb;
    rewrite clear_low_4, clear_low_2, InterleaveFacts.interleave_bits by lia.
  - replace (Z.even (2 * k)) with true by (rewrite Z.even_mul; reflexivity).
    replace (2 * k / 2) with k by (symmetry; rewrite Z.mul_comm; apply Z.div_mul; lia).
    destruct (Z.ltb_spec k 32) as [Hlt|Hge].
    + replace (2 * k <? 64) with true by (symmetry; apply Z.ltb_lt; lia).
      destruct (Z.leb_spec 4 (2 * k)); destruct (Z.leb_spec 2 k); try lia; reflexivity.
    + rewrite (testbit_high 32 a k) by (try lia; exact Ha).
      rewrite !andb_false_r. reflexivity.
  - replace (Z.even (2 * k + 1)) with false
      by (rewrite (Z.add_comm (2 * k) 1), Z.even_add_mul_2; reflexivity).
    replace ((2 * k + 1) / 2) with k by (apply Z.div_unique with 1; lia).
    destruct (Z.ltb_spec k 32) as [Hlt|Hge].
    + replace (2 * k + 1 <? 64) with true by (symmetry; apply Z.ltb_lt; lia).
      destruct (Z.leb_spec 4 (2 * k + 1)); destruct (Z.leb_spec 2 k); try lia; reflexivity.
    + rewrite (testbit_high 32 b k) by (try lia; exact Hb).
      rewrite !andb_false_r. reflexivity.
Qed.

Lemma roundtrip_fractions (a b : Z) :
  is_uint32 a -> is_uint32 b ->
  exists s, uint64ToBase32 (interleave32Bits a b) = Some s
            /\ DeInterleave64Bits (Base32ToUint64 s) = (4 * (a / 4), 4 * (b / 4)).
Proof.
  intros Ha Hb.
  assert (Hkey : is_uint64 (interleave32Bits a b))
    by (apply InterleaveFacts.interleave_range; [apply Ha|apply Hb]).
  exists (chunks_string 12 (interleave32Bits a b)). split.
  - apply uint64ToBase32_spec, Hkey.
  - rewrite Base32ToUint64_chunks by exact Hkey.
    apply DeInterleave_truncated; assumption.
Qed.

Lemma grid_step (L K n : Z) :
  (grid L (K + n) == grid L K + inject_Z n * quantum (2 * L))%Q.
Proof.
  unfold grid, quantum, dy.
  assert (Hinv : (/ inject_Z (2 ^ 32) == pow2 (- 32))%Q).
  { apply (Qmult_inj_l _ _ (inject_Z (2 ^ 32))); [intros H; discriminate H|].
    rewrite <- (pow2_Z 32) at 3 by lia. rewrite <- pow2_add.
    change (pow2 (32 + - 32)) with 1%Q. field. intros H; discriminate H. }
  unfold Qdiv. rewrite Hinv, !inject_Z_mult, inject_Z_plus. ring.
Qed.

(** A coordinate and the grid point of its fraction with the two low bits
    cleared are less than 4 steps apart. *)
Lemma quantum_pos (range : Z) : 0 < range -> (0 < quantum range)%Q.
Proof.
  intros Hr. unfold quantum. apply Qlt_shift_div_l; [reflexivity|].
  rewrite Qmult_0_l. change 0%Q with (inject_Z 0). rewrite <- Zlt_Qlt. exact Hr.
Qed.

Lemma truncated_fraction_bound (L : Z) (x : f64) (k : Z) :
  0 < L -> 0 <= k < 2 ^ 32 -> (grid L 0 <= to_Q x)%Q ->
  (forall K, 0 <= K <= 2 ^ 32 ->
     ((grid L K <= to_Q x)%Q -> K <= k) /\ ((to_Q x <= grid L K)%Q -> k <= K)) ->
  (Qabs (grid L (4 * (k / 4)) - to_Q x) < 4 * quantum (2 * L))%Q.
Proof.
  intros HL Hk Hx Hbr.
  pose proof (quantum_pos (2 * L)) as Hq.
  pose proof (Z.mod_pos_bound k 4 eq_refl) as Hmod.
  assert (Hdm : k = 4 * (k / 4) + k mod 4) by (apply Z.div_mod; lia).
  set (D := 4 * (k / 4)) in *.
  assert (HD : k - 3 <= D <= k) by lia.
  assert (HD4 : D + 4 <= 2 ^ 32).
  { change (2 ^ 32) with (4 * 1073741824) in *. unfold D. lia. }
  assert (Hup : (to_Q x < grid L (D + 4))%Q).
  { destruct (Qlt_le_dec (to_Q x) (grid L (D + 4))) as [|Hge]; [assumption|exfalso].
    destruct (Hbr (D + 4)) as [H1 _]; [lia|]. specialize (H1 Hge). lia. }
  assert (Hlo : (grid L (D - 4) < to_Q x)%Q \/ D = 0).
  { destruct (Z.eq_dec D 0) as [|Hnz]; [right; assumption|left].
    destruct (Qlt_le_dec (grid L (D - 4)) (to_Q x)) as [|Hle]; [assumption|exfalso].
    destruct (Hbr (D - 4)) as [_ H1]; [unfold D in *; lia|]. specialize (H1 Hle). lia. }
  rewrite grid_step in Hup. change (inject_Z 4) with 4%Q in Hup.
  apply Qabs_Qlt_condition. split.
  - lra.
  - destruct Hlo as [Hlo|H0].
    + unfold Z.sub in Hlo. rewrite grid_step in Hlo.
      rewrite inject_Z_opp in Hlo. change (inject_Z 4) with 4%Q in Hlo. lra.
    + rewrite H0. assert ((0 < quantum (2 * L))%Q) by (apply Hq; lia). lra.
Qed.

(** One coordinate through [Encode] and [Decode]. *)
Lemma coordinate_roundtrip (L : Z) (x : f64) :
  65 <= L <= 2 ^ 19 ->
  is_finite x = true -> valid x = true ->
  (- inject_Z L <= to_Q x <= inject_Z L)%Q ->
  (to_Q (div (sub x (of_Z (- L))) (of_Z (2 * L))) < 1)%Q ->
  let k := mapTo32Bits (div (sub x (of_Z (- L))) (of_Z (2 * L))) in
  is_uint32 k
  /\ (Qabs (to_Q (add (mul (div (of_Z (4 * (k / 4))) two32) (of_Z (2 * L))) (of_Z (- L)))
            - to_Q x) < 4 * quantum (2 * L))%Q.
Proof.
  intros HL Hf Hv Hx Hfrac k.
  destruct (fraction_bracket L HL x Hf Hv Hx) as (k0 & Htr & Hk0 & Hk0v & Hbr).
  assert (Hk32 : k0 < 2 ^ 32).
  { rewrite Zlt_Qlt. eapply Qle_lt_trans; [exact Hk0v|].
    change (inject_Z (2 ^ 32)) with (4294967296%Q) in *. lra. }
  assert (Ek : k = k0).
  { unfold k, mapTo32Bits, to_uint32. unfold scaled in Htr. rewrite Htr.
    replace ((- 2 ^ 63 <=? k0) && (k0 <? 2 ^ 63)) with true.
    - apply Z.mod_small. lia.
    - symmetry. apply andb_true_intro. split; [apply Z.leb_le|apply Z.ltb_lt].
      + change (- 2 ^ 63) with (- 9223372036854775808). lia.
      + change (2 ^ 32) with 4294967296 in Hk32. change (2 ^ 63) with 9223372036854775808.
        lia. }
  rewrite Ek. split; [split; assumption|].
  assert (HD : 0 <= 4 * (k0 / 4) < 2 ^ 32).
  { assert (Hdm : k0 = 4 * (k0 / 4) + k0 mod 4) by (apply Z.div_mod; lia).
    pose proof (Z.mod_pos_bound k0 4 eq_refl). lia. }
  rewrite (unmap_exact L HL _ HD).
  apply truncated_fraction_bound; [lia|lia| |].
  - unfold grid. rewrite Z.mul_0_r, dy_0. lra.
  - intros K HK. destruct (Hbr K HK) as (Hlo & Hhi & _). split; assumption.
Qed.

(** Below the last step of the grid the fraction passed to [mapTo32Bits]
    is below 1. *)
Lemma fraction_below_one (L : Z) (x : f64) :
  65 <= L <= 2 ^ 19 ->
  is_finite x = true -> valid x = true ->
  (- inject_Z L <= to_Q x <= inject_Z L - quantum (2 * L))%Q ->
  (to_Q (div (sub x (of_Z (- L))) (of_Z (2 * L))) < 1)%Q.
Proof.
  intros HL Hf Hv [Hlo Hhi].
  assert (Hq : (0 < quantum (2 * L))%Q) by (apply quantum_pos; lia).
  destruct (fraction_bracket L HL x Hf Hv) as (k & _ & _ & _ & Hbr); [split; lra|].
  destruct (Hbr (2 ^ 32 - 1)) as (_ & _ & Hup); [split; [discriminate|discriminate]|].
  assert (Htop : (grid L (2 ^ 32) == inject_Z L)%Q).
  { unfold grid, dy. rewrite !inject_Z_mult, <- (pow2_Z 32) by lia.
    assert (Hpp : (pow2 32 * pow2 (- 32) == 1)%Q) by (rewrite <- pow2_add; reflexivity).
    setoid_replace (inject_Z 2 * inject_Z L * pow2 32 * pow2 (- 32))%Q
      with (inject_Z 2 * inject_Z L * (pow2 32 * pow2 (- 32)))%Q by ring.
    rewrite Hpp. change (inject_Z 2) with 2%Q. ring. }
  assert (Hg : (grid L (2 ^ 32 - 1) == inject_Z L - quantum (2 * L))%Q).
  { unfold Z.sub. rewrite grid_step, Htop, inject_Z_opp.
    change (inject_Z 1) with 1%Q. ring. }
  eapply Qle_lt_trans; [apply Hup; rewrite Hg; exact Hhi|].
  assert (H1 : (dy (2 ^ 32) (- 32) == 1)%Q).
  { unfold dy. rewrite <- (pow2_Z 32), <- pow2_add by lia. reflexivity. }
  rewrite <- H1. apply dy_lt. lia.
Qed.

End RoundTripFacts.

(** ** The loop of EstimateLengthRequired *)

Module EstimateFacts.
Import Int F64Facts.

Lemma mercator_value : mercatorMax = S754_finite false 5507929282308997 (- 38).
Proof. vm_compute. reflexivity. Qed.

Lemma mercator_below : (to_Q mercatorMax < inject_Z (2 ^ 15))%Q.
Proof. vm_compute. reflexivity. Qed.

Lemma ltb_negative (r : f64) : negative r -> ltb r mercatorMax = true.
Proof.
  intros Hn. rewrite mercator_value.
  destruct r as [[]|[]| |[] m e]; try contradiction Hn; reflexivity.
Qed.

(** On a negative radius the loop never exits. *)
Lemma loop_negative (fuel : nat) (r : f64) (p : Z) :
  negative r -> valid r = true -> estimate_loop fuel r p = None.
Proof.
  revert r p. induction fuel as [|fuel IH]; intros r p Hn Hv; [reflexivity|].
  cbn [estimate_loop]. rewrite (ltb_negative r Hn).
  destruct (double_negative r Hn Hv) as [Hn' Hv']. apply IH; assumption.
Qed.

Lemma wrap_int_small (p : Z) : - 2 ^ 62 <= p < 2 ^ 62 -> wrap_int p = p.
Proof.
  intros Hp. unfold wrap_int.
  change (2 ^ 62) with 4611686018427387904 in Hp.
  change (2 ^ 63) with 9223372036854775808.
  change (2 ^ 64) with 18446744073709551616.
  rewrite Z.mod_small by lia. lia.
Qed.

(** Doubling a positive radius below [mercatorMax] is exact. *)
Lemma double_positive (m : positive) (e : Z) :
  let r := S754_finite false m e in
  valid r = true -> (to_Q r < to_Q mercatorMax)%Q ->
  (to_Q (mul r (of_Z 2)) == 2 * to_Q r)%Q
  /\ valid (mul r (of_Z 2)) = true
  /\ exists m' e', mul r (of_Z 2) = S754_finite false m' e'.
Proof.
  intros r Hv Hlt.
  assert (Hpos : (0 < to_Q r)%Q).
  { unfold r. rewrite to_Q_finite, <- (dy_0 e). apply dy_lt. cbn. lia. }
  pose proof mercator_below as HM. change (inject_Z (2 ^ 15)) with 32768%Q in HM.
  assert (Hs : small r).
  { apply (bounded_small r 32768); [split; [lia|reflexivity]|].
    change (inject_Z 32768) with 32768%Q. lra. }
  destruct (of_Z_facts 2) as (H2f & H2v & H2Q & H2s & _); [split; reflexivity|].
  change (inject_Z 2) with 2%Q in H2Q.
  pose proof (mul_faithful r (of_Z 2) eq_refl H2f Hv H2v Hs H2s) as Hmul.
  assert (HQ : (to_Q (mul r (of_Z 2)) == 2 * to_Q r)%Q).
  { destruct (valid_representable r eq_refl Hv) as (F & c & HF & Hc & HrQ).
    apply Qeq_trans with (to_Q r * to_Q (of_Z 2))%Q; [|rewrite H2Q; ring].
    apply (Faithful_exact _ _ F (c + 1) Hmul HF); [lia|].
    rewrite H2Q, HrQ. unfold dy. rewrite pow2_add. change (pow2 1) with 2%Q. ring. }
  split; [exact HQ|]. split; [apply Hmul|].
  destruct Hmul as (Hfin & _ & _).
  destruct (mul r (of_Z 2)) as [s'| | |s' m' e']; try discriminate Hfin.
  - exfalso. rewrite to_Q_zero in HQ. lra.
  - destruct s'; [exfalso|eauto].
    rewrite to_Q_finite in HQ.
    assert ((dy (smant true m') e' < 0)%Q) by (rewrite <- (dy_0 e'); apply dy_lt; cbn; lia).
    lra.
Qed.

Lemma times_pow2_succ (x : Q) (i : nat) :
  (times_pow2 x (S i) == times_pow2 (2 * x) i)%Q.
Proof.
  unfold times_pow2. rewrite Nat2Z.inj_succ, Z.pow_succ_r by lia.
  rewrite inject_Z_mult. change (inject_Z 2) with 2%Q. ring.
Qed.

Lemma ltb_mercator (m : positive) (e : Z) :
  valid (S754_finite false m e) = true ->
  (ltb (S754_finite false m e) mercatorMax = true
   <-> (to_Q (S754_finite false m e) < to_Q mercatorMax)%Q).
Proof.
  intros Hv. rewrite mercator_value.
  apply (ltb_pos_spec m 5507929282308997 e (- 38) Hv eq_refl).
Qed.

Lemma estimate_loop_succ (fuel : nat) (r : f64) (p : Z) :
  estimate_loop (S fuel) r p
  = if ltb r mercatorMax
    then estimate_loop fuel (mul r (of_Z 2)) (wrap_int (p + 2))
    else Some (r, p).
Proof. reflexivity. Qed.

(** The loop exits after [steps] doublings, the least number that brings
    the radius to [mercatorMax]; the counter has then advanced by
    [2 * steps]. *)
Lemma loop_steps (n : nat) (m : positive) (e : Z) (p : Z) :
  valid (S754_finite false m e) = true ->
  (pow2 (15 - Z.of_nat n) <= to_Q (S754_finite false m e))%Q ->
  0 <= p -> p + 2 * Z.of_nat n < 2 ^ 62 ->
  exists (steps : nat) (r' : f64),
    (steps <= n)%nat
    /\ estimate_loop (S n) (S754_finite false m e) p = Some (r', p + 2 * Z.of_nat steps)
    /\ (forall i, (i < steps)%nat ->
          (times_pow2 (to_Q (S754_finite false m e)) i < to_Q mercatorMax)%Q)
    /\ (to_Q mercatorMax <= times_pow2 (to_Q (S754_finite false m e)) steps)%Q.
Proof.
  revert m e p. induction n as [|n IH]; intros m e p Hv Hlow Hp Hpn;
    rewrite estimate_loop_succ;
    destruct (ltb (S754_finite false m e) mercatorMax) eqn:E.
  - exfalso. apply (ltb_mercator m e Hv) in E.
    pose proof mercator_below as HM. change (inject_Z (2 ^ 15)) with (pow2 15) in HM.
    change (15 - Z.of_nat 0) with 15 in Hlow. lra.
  - exists 0%nat, (S754_finite false m e).
    split; [lia|]. split; [f_equal; f_equal; lia|]. split; [intros i Hi; lia|].
    unfold times_pow2. change (inject_Z (2 ^ Z.of_nat 0)) with 1%Q.
    destruct (Qlt_le_dec (to_Q (S754_finite false m e)) (to_Q mercatorMax)) as [Hlt|Hge];
      [|lra].
    apply (ltb_mercator m e Hv) in Hlt. rewrite Hlt in E. discriminate E.
  - apply (ltb_mercator m e Hv) in E.
    destruct (double_positive m e Hv E) as (HQ & Hv' & m' & e' & Er').
    cbn zeta in HQ, Hv', Er'. rewrite Er' in *.
    destruct (IH m' e' (p + 2)) as (steps & r'' & Hst & Hloop & Hbelow & Habove).
    + exact Hv'.
    + rewrite HQ.
      replace (15 - Z.of_nat n) with (1 + (15 - Z.of_nat (S n))) by lia.
      rewrite pow2_add. change (pow2 1) with 2%Q.
      pose proof (pow2_pos (15 - Z.of_nat (S n))). lra.
    + lia.
    + lia.
    + exists (S steps), r''. split; [lia|]. split; [|split].
      * rewrite wrap_int_small by lia. rewrite Hloop. f_equal. f_equal. lia.
      * intros [|i] Hi.
        -- unfold times_pow2. change (inject_Z (2 ^ Z.of_nat 0)) with 1%Q. lra.
        -- rewrite times_pow2_succ. unfold times_pow2 in *. rewrite <- HQ.
           apply Hbelow. lia.
      * rewrite times_pow2_succ. unfold times_pow2 in *. rewrite <- HQ. exact Habove.
  - exists 0%nat, (S754_finite false m e).
    split; [lia|]. split; [f_equal; f_equal; lia|]. split; [intros i Hi; lia|].
    unfold times_pow2. change (inject_Z (2 ^ Z.of_nat 0)) with 1%Q.
    destruct (Qlt_le_dec (to_Q (S754_finite false m e)) (to_Q mercatorMax)) as [Hlt|Hge];
      [|lra].
    apply (ltb_mercator m e Hv) in Hlt. rewrite Hlt in E. discriminate E.
Qed.

Lemma loop_fuel_mono (fuel : nat) (r : f64) (p : Z) (res : f64 * Z) :
  estimate_loop fuel r p = Some res -> estimate_loop (S fuel) r p = Some res.
Proof.
  revert r p. induction fuel as [|fuel IH]; intros r p H; [discriminate H|].
  rewrite estimate_loop_succ in H |- *.
  destruct (ltb r mercatorMax); [apply IH, H|exact H].
Qed.

Lemma loop_fuel_ge (fuel fuel' : nat) (r : f64) (p : Z) (res : f64 * Z) :
  (fuel <= fuel')%nat ->
  estimate_loop fuel r p = Some res -> estimate_loop fuel' r p = Some res.
Proof.
  intros Hle H. induction Hle as [|fuel' _ IH]; [exact H|].
  apply loop_fuel_mono, IH.
Qed.

(** A positive valid number is at least [2^-1074]. *)
Lemma positive_lower (m : positive) (e : Z) :
  valid (S754_finite false m e) = true ->
  (pow2 (- 1074) <= to_Q (S754_finite false m e))%Q.
Proof.
  intros Hv. apply valid_mantissa_bounds in Hv. destruct Hv as (_ & He & _).
  rewrite emin_value in He. rewrite to_Q_finite. unfold smant. cbn [cond_Zopp].
  eapply Qle_trans; [apply (pow2_le (- 1074) e); lia|].
  assert (H1 : (dy 1 e == pow2 e)%Q) by (unfold dy; ring).
  rewrite <- H1. apply dy_le. lia.
Qed.

End EstimateFacts.

(** ** Splitting at a separator *)

Module SplitFacts.
Import Base32Facts.

Lemma append_nil_r (s : string) : (s ++ "")%string = s.
Proof. induction s as [|c s IH]; [reflexivity|]. cbn. rewrite IH. reflexivity. Qed.

Lemma split_acc_length (sep : ascii) (s cur : string) :
  List.length (split_acc sep s cur) = S (count_byte sep s).
Proof.
  revert cur. induction s as [|c s IH]; intros cur; [reflexivity|].
  cbn [split_acc count_byte]. destruct (Ascii.eqb c sep).
  - cbn [List.length]. rewrite IH. reflexivity.
  - apply IH.
Qed.

Lemma split_acc_none (sep : ascii) (s cur : string) :
  count_byte sep s = O -> split_acc sep s cur = [(cur ++ s)%string].
Proof.
  revert cur. induction s as [|c s IH]; intros cur H.
  - cbn. rewrite append_nil_r. reflexivity.
  - cbn [split_acc count_byte] in *. destruct (Ascii.eqb c sep); [discriminate H|].
    rewrite IH by exact H. rewrite append_assoc. reflexivity.
Qed.

Lemma split_acc_first (sep : ascii) (a b cur : string) :
  count_byte sep a = O ->
  split_acc sep (a ++ String sep b) cur = (cur ++ a)%string :: split_acc sep b EmptyString.
Proof.
  revert cur. induction a as [|c a IH]; intros cur H.
  - cbn [append split_acc]. rewrite Ascii.eqb_refl, append_nil_r. reflexivity.
  - cbn [append split_acc count_byte] in *. destruct (Ascii.eqb c sep); [discriminate H|].
    rewrite IH by exact H. rewrite append_assoc. reflexivity.
Qed.

(** A string with a separator splits at the first one. *)
Lemma first_separator (sep : ascii) (s : string) :
  count_byte sep s <> O ->
  exists a b, s = (a ++ String sep b)%string /\ count_byte sep a = O
              /\ count_byte sep s = S (count_byte sep b).
Proof.
  induction s as [|c s IH]; intros H; [contradiction H; reflexivity|].
  cbn [count_byte] in *. destruct (Ascii.eqb_spec c sep) as [->|Hne].
  - exists EmptyString, s. split; [reflexivity|]. split; reflexivity.
  - destruct (IH H) as (a & b & -> & Ha & Hb).
    exists (String c a), b. split; [reflexivity|]. split; [|exact Hb].
    cbn [count_byte]. destruct (Ascii.eqb_spec c sep) as [E|_]; [contradiction|exact Ha].
Qed.

Lemma Split_one (sep : ascii) (s : string) :
  count_byte sep s = 1%nat ->
  exists a b, s = (a ++ String sep b)%string
              /\ count_byte sep a = O /\ count_byte sep b = O
              /\ Split s sep = [a; b].
Proof.
  intros H. destruct (first_separator sep s) as (a & b & -> & Ha & Hb); [lia|].
  assert (Hb0 : count_byte sep b = O) by lia.
  exists a, b. split; [reflexivity|]. split; [exact Ha|]. split; [exact Hb0|].
  unfold Split. rewrite split_acc_first by exact Ha.
  rewrite split_acc_none by exact Hb0. reflexivity.
Qed.

End SplitFacts.

(** ** Order on keys and interleaving *)

Module OrderFacts.
Import Int IntFacts.

Lemma testbit_half (x j : Z) : 0 <= j -> Z.testbit (x / 2) j = Z.testbit x (j + 1).
Proof. intros Hj. rewrite Z.div2_bits by lia. reflexivity. Qed.

Lemma half_parts (x : Z) : x = 2 * (x / 2) + Z.b2z (Z.testbit x 0).
Proof. rewrite Z.bit0_mod. apply Z.div_mod. lia. Qed.

Lemma half_range (n : nat) (x : Z) :
  0 <= x < 2 ^ Z.of_nat (S n) -> 0 <= x / 2 < 2 ^ Z.of_nat n.
Proof.
  intros Hx. rewrite Nat2Z.inj_succ, Z.pow_succ_r in Hx by lia.
  split; [apply Z.div_pos; lia|apply Z.div_lt_upper_bound; lia].
Qed.

(** Two numbers compare as their bits at the highest position where they
    differ. *)
Lemma lt_highest_bit (n : nat) (x y : Z) :
  0 <= x < 2 ^ Z.of_nat n -> 0 <= y < 2 ^ Z.of_nat n ->
  (x < y <-> exists k, 0 <= k /\ Z.testbit x k = false /\ Z.testbit y k = true
                       /\ forall j, k < j -> Z.testbit x j = Z.testbit y j).
Proof.
  revert x y. induction n as [|n IH]; intros x y Hx Hy.
  - change (2 ^ Z.of_nat 0) with 1 in *. assert (x = 0) by lia. assert (y = 0) by lia.
    subst. split; [lia|]. intros (k & _ & _ & H & _). rewrite Z.bits_0 in H. discriminate H.
  - pose proof (half_range n x Hx) as Hx'. pose proof (half_range n y Hy) as Hy'.
    pose proof (half_parts x) as Ex. pose proof (half_parts y) as Ey.
    specialize (IH (x / 2) (y / 2) Hx' Hy'). split.
    + intros Hlt. destruct (Z.lt_ge_cases (x / 2) (y / 2)) as [Hh|Hh].
      * apply IH in Hh. destruct Hh as (k & Hk & Hxk & Hyk & Hhigh).
        exists (k + 1). rewrite <- !testbit_half by lia.
        split; [lia|]. split; [exact Hxk|]. split; [exact Hyk|].
        intros j Hj. replace j with (j - 1 + 1) by lia.
        rewrite <- !testbit_half by lia. apply Hhigh. lia.
      * assert (Heq : x / 2 = y / 2).
        { destruct (Z.testbit x 0), (Z.testbit y 0); cbn [Z.b2z] in *; lia. }
        exists 0. split; [lia|].
        destruct (Z.testbit x 0), (Z.testbit y 0); cbn [Z.b2z] in *; try lia.
        split; [reflexivity|]. split; [reflexivity|].
        intros j Hj. replace j with (j - 1 + 1) by lia.
        rewrite <- !testbit_half by lia. rewrite Heq. reflexivity.
    + intros (k & Hk & Hxk & Hyk & Hhigh).
      destruct (Z.eq_dec k 0) as [->|Hnz].
      * assert (Heq : x / 2 = y / 2).
        { apply DeInterleaveFacts.bits_eq. intros j Hj. rewrite !testbit_half by lia.
          apply Hhigh. lia. }
        rewrite Hxk, Hyk in *. cbn [Z.b2z] in *. lia.
      * assert (Hh : x / 2 < y / 2).
        { apply IH. exists (k - 1). rewrite !testbit_half by lia.
          replace (k - 1 + 1) with k by lia.
          split; [lia|]. split; [exact Hxk|]. split; [exact Hyk|].
          intros j Hj. rewrite !testbit_half by lia. apply Hhigh. lia. }
        destruct (Z.testbit x 0), (Z.testbit y 0); cbn [Z.b2z] in *; lia.
Qed.

Lemma interleave_lt_lat (a a' b : Z) :
  is_uint32 a -> is_uint32 a' -> is_uint32 b -> a < a' ->
  interleave32Bits a b < interleave32Bits a' b.
Proof.
  intros Ha Ha' Hb Hlt.
  apply (lt_highest_bit 32 a a' Ha Ha') in Hlt.
  destruct Hlt as (k & Hk & Hak & Ha'k & Hhigh).
  assert (Hk32 : k < 32).
  { destruct (Z.lt_ge_cases k 32) as [H|H]; [exact H|].
    rewrite (testbit_high 32 a' k) in Ha'k by (try exact Ha'; lia). discriminate Ha'k. }
  apply (lt_highest_bit 64);
    [apply InterleaveFacts.interleave_range; [apply Ha|apply Hb]
    |apply InterleaveFacts.interleave_range; [apply Ha'|apply Hb]|].
  exists (2 * k). rewrite !InterleaveFacts.interleave_bits by lia.
  replace (Z.even (2 * k)) with true by (rewrite Z.even_mul; reflexivity).
  replace (2 * k / 2) with k by (symmetry; rewrite Z.mul_comm; apply Z.div_mul; lia).
  replace (2 * k <? 64) with true by (symmetry; apply Z.ltb_lt; lia).
  split; [lia|]. split; [exact Hak|]. split; [exact Ha'k|].
  intros j Hj. rewrite !InterleaveFacts.interleave_bits by lia.
  destruct (Z.even j) eqn:He; [|reflexivity].
  f_equal. apply Hhigh.
  apply Z.even_spec in He. destruct He as [m ->].
  replace (2 * m / 2) with m by (symmetry; rewrite Z.mul_comm; apply Z.div_mul; lia). lia.
Qed.

Lemma interleave_lt_lng (a b b' : Z) :
  is_uint32 a -> is_uint32 b -> is_uint32 b' -> b < b' ->
  interleave32Bits a b < interleave32Bits a b'.
Proof.
  intros Ha Hb Hb' Hlt.
  apply (lt_highest_bit 32 b b' Hb Hb') in Hlt.
  destruct Hlt as (k & Hk & Hbk & Hb'k & Hhigh).
  assert (Hk32 : k < 32).
  { destruct (Z.lt_ge_cases k 32) as [H|H]; [exact H|].
    rewrite (testbit_high 32 b' k) in Hb'k by (try exact Hb'; lia). discriminate Hb'k. }
  apply (lt_highest_bit 64);
    [apply InterleaveFacts.interleave_range; [apply Ha|apply Hb]
    |apply InterleaveFacts.interleave_range; [apply Ha|apply Hb']|].
  exists (2 * k + 1). rewrite !InterleaveFacts.interleave_bits by lia.
  replace (Z.even (2 * k + 1)) with false
    by (rewrite (Z.add_comm (2 * k) 1), Z.even_add_mul_2; reflexivity).
  replace ((2 * k + 1) / 2) with k by (apply Z.div_unique with 1; lia).
  replace (2 * k + 1 <? 64) with true by (symmetry; apply Z.ltb_lt; lia).
  split; [lia|]. split; [exact Hbk|]. split; [exact Hb'k|].
  intros j Hj. rewrite !InterleaveFacts.interleave_bits by lia.
  destruct (Z.even j) eqn:He; [reflexivity|].
  f_equal. apply Hhigh.
  assert (Ho : Z.odd j = true) by (rewrite <- Z.negb_even, He; reflexivity).
  apply Z.odd_spec in Ho. destruct Ho as [m ->].
  replace ((2 * m + 1) / 2) with m by (apply Z.div_unique with 1; lia). lia.
Qed.

Lemma interleave_le (a a' b b' : Z) :
  is_uint32 a -> is_uint32 a' -> is_uint32 b -> is_uint32 b' ->
  a <= a' -> b <= b' ->
  interleave32Bits a b <= interleave32Bits a' b'.
Proof.
  intros Ha Ha' Hb Hb' Hle1 Hle2.
  assert (H1 : interleave32Bits a b <= interleave32Bits a' b).
  { destruct (Z.eq_dec a a') as [->|Hne]; [lia|].
    apply Z.lt_le_incl, interleave_lt_lat; try assumption. lia. }
  assert (H2 : interleave32Bits a' b <= interleave32Bits a' b').
  { destruct (Z.eq_dec b b') as [->|Hne]; [lia|].
    apply Z.lt_le_incl, interleave_lt_lng; try assumption. lia. }
  lia.
Qed.

Lemma interleave_DeInterleave (v : Z) :
  is_uint64 v ->
  interleave32Bits (fst (DeInterleave64Bits v)) (snd (DeInterleave64Bits v)) = v.
Proof.
  intros Hv. apply DeInterleaveFacts.bits_eq. intros k Hk.
  rewrite InterleaveFacts.interleave_bits by lia.
  destruct (Z.ltb_spec k 64) as [Hlt|Hge].
  - assert (Hh : 0 <= k / 2 < 32)
      by (split; [apply Z.div_pos; lia|apply Z.div_lt_upper_bound; lia]).
    destruct (DeInterleaveFacts.DeInterleave_bits v (k / 2) (proj1 Hh)) as [Hlat Hlng].
    replace (k / 2 <? 32) with true in * by (symmetry; apply Z.ltb_lt; lia).
    cbn [andb] in *.
    destruct (Z.even k) eqn:He.
    + rewrite Hlat. f_equal. apply Z.even_spec in He. destruct He as [m ->].
      replace (2 * m / 2) with m by (symmetry; rewrite Z.mul_comm; apply Z.div_mul; lia).
      reflexivity.
    + rewrite Hlng. f_equal.
      assert (Ho : Z.odd k = true) by (rewrite <- Z.negb_even, He; reflexivity).
      apply Z.odd_spec in Ho. destruct Ho as [m ->].
      replace ((2 * m + 1) / 2) with m by (apply Z.div_unique with 1; lia).
      reflexivity.
  - cbn [andb]. symmetry. apply (testbit_high 64); [lia|exact Hv|exact Hge].
Qed.

End OrderFacts.

(** ** Strings read and written in base 32 *)

Module CodecFacts.
Import Int IntFacts Base32Facts ParseFacts.

(** *** The digits of a string over the alphabet *)

Lemma digits_from_alphabet (s : string) (i : Z) :
  Forall in_alphabet (chars s) ->
  map (fun ic => rune_index (snd ic)) (range_from s i 0) = map digit_of (chars s).
Proof.
  revert i. induction s as [|c s IH]; intros i Hall; [reflexivity|].
  inversion Hall as [|c' l' Hc Hs]; subst.
  rewrite range_from_ascii by (apply in_alphabet_cases; exact Hc).
  cbn [map snd chars list_ascii_of_string]. f_equal. apply IH. exact Hs.
Qed.

Lemma digits_alphabet (s : string) :
  Forall in_alphabet (chars s) -> digits s = map digit_of (chars s).
Proof. apply digits_from_alphabet. Qed.

Lemma alphabet_check (s : string) :
  forallb in_alphabetb (chars s) = true -> Forall in_alphabet (chars s).
Proof.
  intros H. apply Forall_forall. intros c Hc.
  apply (proj1 (forallb_forall in_alphabetb (chars s)) H c Hc).
Qed.

Lemma chars_app (p s : string) : chars (p ++ s) = (chars p ++ chars s)%list.
Proof. induction p as [|c p IH]; [reflexivity|]. cbn. f_equal. exact IH. Qed.

Lemma chars_length (s : string) : List.length (chars s) = String.length s.
Proof. induction s as [|c s IH]; [reflexivity|]. cbn. f_equal. exact IH. Qed.

Lemma Base32ToUint64_value (hash : string) :
  Forall (fun ic => rune_ok (snd ic)) (range hash) ->
  Base32ToUint64 hash = wrap64 (base32_value (digits hash) * 2 ^ 4).
Proof.
  intros Hall. unfold Base32ToUint64.
  rewrite (fold_body_value (range hash) 0 0 Hall eq_refl).
  unfold base32_value, digits. change (64 - 5 * maxLength) with 4.
  unfold shl64, wrap64. rewrite Z.shiftl_mul_pow2 by lia.
  apply Z.mul_mod_idemp_l. lia.
Qed.

Lemma fold_value_from (ds : list Z) (v : Z) :
  fold_left (fun acc d => acc * 32 + d) ds v
  = v * 32 ^ Z.of_nat (List.length ds) + base32_value ds.
Proof.
  unfold base32_value. revert v. induction ds as [|d ds IH]; intros v.
  - cbn. lia.
  - cbn [fold_left List.length]. rewrite IH, (IH (0 * 32 + d)).
    rewrite Nat2Z.inj_succ, Z.pow_succ_r by lia. ring.
Qed.

Lemma base32_value_app (ds1 ds2 : list Z) :
  base32_value (ds1 ++ ds2)
  = base32_value ds1 * 32 ^ Z.of_nat (List.length ds2) + base32_value ds2.
Proof. unfold base32_value at 1. rewrite fold_left_app. apply fold_value_from. Qed.

Lemma base32_value_cons (d : Z) (ds : list Z) :
  base32_value (d :: ds) = d * 32 ^ Z.of_nat (List.length ds) + base32_value ds.
Proof. apply (base32_value_app [d] ds). Qed.

Lemma base32_value_bound (ds : list Z) :
  Forall (fun d => 0 <= d < 32) ds ->
  0 <= base32_value ds < 32 ^ Z.of_nat (List.length ds).
Proof.
  induction 1 as [|d ds Hd _ IH]; [cbn; lia|].
  rewrite base32_value_cons. cbn [List.length].
  rewrite Nat2Z.inj_succ, Z.pow_succ_r by lia. nia.
Qed.

Lemma digit_of_bound (cs : list ascii) :
  Forall in_alphabet cs -> Forall (fun d => 0 <= d < 32) (map digit_of cs).
Proof.
  induction 1 as [|c cs Hc _ IH]; constructor; [|exact IH].
  apply in_alphabet_cases. exact Hc.
Qed.

Lemma pow32 (n : Z) : 0 <= n -> 32 ^ n = 2 ^ (5 * n).
Proof. intros Hn. change 32 with (2 ^ 5). rewrite <- Z.pow_mul_r by lia. reflexivity. Qed.

(** *** Longer and shorter strings *)

Lemma Base32ToUint64_alphabet (s : string) :
  Forall in_alphabet (chars s) ->
  Base32ToUint64 s = wrap64 (base32_value (map digit_of (chars s)) * 2 ^ 4).
Proof.
  intros Hs. rewrite Base32ToUint64_value by (apply range_alphabet_ok; exact Hs).
  rewrite digits_alphabet by exact Hs. reflexivity.
Qed.

Lemma Base32ToUint64_suffix (p s : string) :
  Forall in_alphabet (chars p) -> Forall in_alphabet (chars s) ->
  (12 <= String.length s)%nat ->
  Base32ToUint64 (p ++ s) = Base32ToUint64 s.
Proof.
  intros Hp Hs Hlen.
  rewrite !Base32ToUint64_alphabet;
    [|exact Hs|rewrite chars_app; apply Forall_app; split; assumption].
  rewrite chars_app, map_app, base32_value_app, length_map, chars_length.
  unfold wrap64.
  replace (32 ^ Z.of_nat (String.length s))
    with (2 ^ 60 * 2 ^ (5 * Z.of_nat (String.length s) - 60))
    by (rewrite pow32, <- Z.pow_add_r by lia; f_equal; lia).
  set (P := base32_value (map digit_of (chars p))).
  set (V := base32_value (map digit_of (chars s))).
  set (T := 2 ^ (5 * Z.of_nat (String.length s) - 60)).
  replace ((P * (2 ^ 60 * T) + V) * 2 ^ 4) with (V * 2 ^ 4 + P * T * 2 ^ 64)
    by (change (2 ^ 64) with (2 ^ 60 * 2 ^ 4); ring).
  apply Z.mod_add. discriminate.
Qed.

Lemma Base32ToUint64_zeros (p s : string) :
  Forall (fun c => c = "0"%char) (chars p) -> Forall in_alphabet (chars s) ->
  Base32ToUint64 (p ++ s) = Base32ToUint64 s.
Proof.
  intros Hp Hs.
  assert (Hpa : Forall in_alphabet (chars p)).
  { eapply Forall_impl; [|exact Hp]. intros c ->. reflexivity. }
  assert (Hzero : base32_value (map digit_of (chars p)) = 0).
  { clear Hpa. induction Hp as [|c cs Hc _ IH]; [reflexivity|].
    subst c. cbn [map]. rewrite base32_value_cons, IH.
    replace (digit_of "0") with 0 by (vm_compute; reflexivity). lia. }
  rewrite !Base32ToUint64_alphabet;
    [|exact Hs|rewrite chars_app; apply Forall_app; split; assumption].
  rewrite chars_app, map_app, base32_value_app, Hzero. reflexivity.
Qed.

(** *** Writing back the key read from 12 characters *)

Lemma alphabet_char_digit (c : ascii) : in_alphabet c -> alphabet_char (digit_of c) = c.
Proof.
  unfold in_alphabet, in_alphabetb. cbn [alphabet list_ascii_of_string existsb].
  intros H.
  repeat (apply orb_true_iff in H; destruct H as [H|H];
          [apply Ascii.eqb_eq in H; subst c; vm_compute; reflexivity|]).
  discriminate H.
Qed.

Lemma chunks_of_chars (cs : list ascii) :
  Forall in_alphabet cs -> (List.length cs <= 12)%nat ->
  chunks_string (List.length cs)
    (base32_value (map digit_of cs) * 2 ^ (64 - 5 * Z.of_nat (List.length cs)))
  = string_of_list_ascii cs.
Proof.
  induction 1 as [|c cs Hc Hcs IH]; intros Hlen; [reflexivity|].
  cbn [List.length] in *.
  cbn [map chunks_string string_of_list_ascii].
  rewrite base32_value_cons, length_map.
  pose proof (base32_value_bound _ (digit_of_bound cs Hcs)) as Hv.
  rewrite length_map in Hv.
  assert (Hd : 0 <= digit_of c < 32) by (apply in_alphabet_cases; exact Hc).
  set (n := Z.of_nat (List.length cs)) in *.
  set (V := base32_value (map digit_of cs)) in *.
  set (d := digit_of c) in *.
  assert (Hn : 0 <= n <= 11) by (unfold n; lia).
  rewrite pow32 in * by lia.
  replace (64 - 5 * Z.of_nat (S (List.length cs))) with (59 - 5 * n)
    by (fold n; unfold n; lia).
  assert (Hpos : 0 < 2 ^ (59 - 5 * n)) by (apply Z.pow_pos_nonneg; lia).
  assert (H59 : 2 ^ (5 * n) * 2 ^ (59 - 5 * n) = 2 ^ 59)
    by (rewrite <- Z.pow_add_r by lia; f_equal; lia).
  assert (HR : 0 <= V * 2 ^ (59 - 5 * n) < 2 ^ 59) by nia.
  assert (HW : (d * 2 ^ (5 * n) + V) * 2 ^ (59 - 5 * n)
               = d * 2 ^ 59 + V * 2 ^ (59 - 5 * n)) by (rewrite <- H59; ring).
  rewrite HW. f_equal.
  - replace (Z.shiftr (d * 2 ^ 59 + V * 2 ^ (59 - 5 * n)) (64 - 5)) with d.
    + apply alphabet_char_digit. exact Hc.
    + rewrite Z.shiftr_div_pow2 by lia. change (64 - 5) with 59.
      apply Z.div_unique with (V * 2 ^ (59 - 5 * n)); [lia|ring].
  - replace (shl64 (d * 2 ^ 59 + V * 2 ^ (59 - 5 * n)) 5)
      with (V * 2 ^ (64 - 5 * n)); [apply IH; lia|].
    unfold shl64, wrap64. rewrite Z.shiftl_mul_pow2 by lia.
    replace ((d * 2 ^ 59 + V * 2 ^ (59 - 5 * n)) * 2 ^ 5)
      with (V * 2 ^ (64 - 5 * n) + d * 2 ^ 64).
    + rewrite Z.mod_add by discriminate. symmetry. apply Z.mod_small.
      replace (2 ^ (64 - 5 * n)) with (2 ^ (59 - 5 * n) * 2 ^ 5)
        by (rewrite <- Z.pow_add_r by lia; f_equal; lia).
      change (2 ^ 64) with (2 ^ 59 * 2 ^ 5). change (2 ^ 5) with 32. lia.
    + replace (2 ^ (64 - 5 * n)) with (2 ^ (59 - 5 * n) * 2 ^ 5)
        by (rewrite <- Z.pow_add_r by lia; f_equal; lia).
      change (2 ^ 64) with (2 ^ 59 * 2 ^ 5). ring.
Qed.

Lemma value_12_range (s : string) :
  Forall in_alphabet (chars s) -> String.length s = 12%nat ->
  0 <= base32_value (map digit_of (chars s)) * 2 ^ 4 < 2 ^ 64.
Proof.
  intros Hs Hlen.
  pose proof (base32_value_bound _ (digit_of_bound _ Hs)) as Hv.
  rewrite length_map, chars_length, Hlen in Hv.
  change (32 ^ Z.of_nat 12) with (2 ^ 60) in Hv. change (2 ^ 64) with (2 ^ 60 * 2 ^ 4).
  change (2 ^ 4) with 16. lia.
Qed.

Lemma uint64ToBase32_Base32ToUint64 (s : string) :
  Forall in_alphabet (chars s) -> String.length s = 12%nat ->
  uint64ToBase32 (Base32ToUint64 s) = Some s.
Proof.
  intros Hs Hlen. rewrite Base32ToUint64_alphabet by exact Hs.
  rewrite uint64ToBase32_spec by apply wrap64_range.
  unfold wrap64. rewrite Z.mod_small by (apply value_12_range; assumption).
  f_equal. rewrite <- (string_of_list_ascii_of_string s) at 2.
  pose proof (chunks_of_chars (chars s) Hs) as H.
  rewrite chars_length, Hlen in H. apply H. lia.
Qed.

(** *** A character outside the alphabet *)

Lemma not_ok_index (c : rune) : ~ rune_ok c -> rune_index c = -1.
Proof. unfold rune_ok. intros H. destruct (Z.eq_dec (rune_index c) (-1)); tauto. Qed.

Lemma lor_all_ones (x : Z) : is_uint64 x -> Z.lor x (2 ^ 64 - 1) = 2 ^ 64 - 1.
Proof.
  intros Hx. change (2 ^ 64 - 1) with (Z.ones 64).
  apply DeInterleaveFacts.bits_eq. intros k Hk.
  rewrite Z.lor_spec, Z.testbit_ones_nonneg by lia.
  destruct (Z.ltb_spec k 64) as [Hlt|Hge]; [apply orb_true_r|].
  rewrite orb_false_r. apply (testbit_high 64); [lia|exact Hx|exact Hge].
Qed.

Lemma Base32ToUint64_invalid_last (hash : string) (l : list (Z * rune)) (i : Z) (c : rune) :
  range hash = (l ++ [(i, c)])%list -> ~ rune_ok c ->
  Base32ToUint64 hash = 2 ^ 64 - 16.
Proof.
  intros Hr Hc. unfold Base32ToUint64. rewrite Hr, fold_left_app.
  cbn [fold_left]. unfold Base32ToUint64_body at 1. cbn [snd].
  fold (rune_index c). rewrite (not_ok_index c Hc).
  change (wrap64 (-1)) with (2 ^ 64 - 1).
  rewrite lor_all_ones by apply wrap64_range. reflexivity.
Qed.

(** *** The order of the strings written *)

Lemma alphabet_char_compare (x y : Z) :
  0 <= x < 32 -> 0 <= y < 32 ->
  Ascii.compare (alphabet_char x) (alphabet_char y) = (x ?= y).
Proof.
  intros Hx Hy.
  assert (H : forallb (fun i => forallb (fun j =>
                match Ascii.compare (alphabet_char (Z.of_nat i)) (alphabet_char (Z.of_nat j)),
                      (Z.of_nat i ?= Z.of_nat j) with
                | Eq, Eq | Lt, Lt | Gt, Gt => true
                | _, _ => false
                end) (seq 0 32)) (seq 0 32) = true) by (vm_compute; reflexivity).
  rewrite forallb_forall in H.
  specialize (H (Z.to_nat x)). rewrite in_seq in H.
  assert (Hi : (0 <= Z.to_nat x < 0 + 32)%nat) by lia. specialize (H Hi).
  rewrite forallb_forall in H.
  specialize (H (Z.to_nat y)). rewrite in_seq in H.
  assert (Hj : (0 <= Z.to_nat y < 0 + 32)%nat) by lia. specialize (H Hj).
  rewrite !Z2Nat.id in H by lia.
  destruct (Ascii.compare _ _), (x ?= y); try discriminate H; reflexivity.
Qed.

Lemma chunks_compare (n : nat) (v w : Z) :
  (n <= 12)%nat -> is_uint64 v -> is_uint64 w ->
  String.compare (chunks_string n v) (chunks_string n w)
  = (v / 2 ^ (64 - 5 * Z.of_nat n) ?= w / 2 ^ (64 - 5 * Z.of_nat n)).
Proof.
  revert v w. induction n as [|n IH]; intros v w Hn Hv Hw.
  - cbn [chunks_string String.compare]. change (64 - 5 * Z.of_nat 0) with 64.
    rewrite !Z.div_small by assumption. reflexivity.
  - cbn [chunks_string String.compare].
    rewrite alphabet_char_compare by (apply chunk_bound; assumption).
    rewrite IH by (try apply wrap64_range; lia).
    set (m := Z.of_nat n). assert (Hm : 0 <= m <= 11) by (unfold m; lia).
    replace (64 - 5 * Z.of_nat (S n)) with (59 - 5 * m) by (unfold m; lia).
    assert (Hpos : 0 < 2 ^ (59 - 5 * m)) by (apply Z.pow_pos_nonneg; lia).
    assert (Hq : 0 < 2 ^ (5 * m)) by (apply Z.pow_pos_nonneg; lia).
    assert (H59 : 2 ^ 59 = 2 ^ (59 - 5 * m) * 2 ^ (5 * m))
      by (rewrite <- Z.pow_add_r by lia; f_equal; lia).
    assert (H64 : 2 ^ (64 - 5 * m) = 32 * 2 ^ (59 - 5 * m))
      by (change 32 with (2 ^ 5); rewrite <- Z.pow_add_r by lia; f_equal; lia).
    assert (Hparts : forall u, is_uint64 u ->
              shl64 u 5 / 2 ^ (64 - 5 * m) = (u mod 2 ^ 59) / 2 ^ (59 - 5 * m)
              /\ u / 2 ^ (59 - 5 * m)
                 = Z.shiftr u (64 - 5) * 2 ^ (5 * m) + (u mod 2 ^ 59) / 2 ^ (59 - 5 * m)
              /\ 0 <= (u mod 2 ^ 59) / 2 ^ (59 - 5 * m) < 2 ^ (5 * m)).
    { intros u Hu.
      pose proof (Z.mod_pos_bound u (2 ^ 59) eq_refl) as Hl.
      split; [|split].
      - unfold shl64, wrap64. rewrite Z.shiftl_mul_pow2 by lia.
        change (2 ^ 5) with 32. change (2 ^ 64) with (32 * 2 ^ 59).
        rewrite (Z.mul_comm u 32), Z.mul_mod_distr_l by lia.
        rewrite H64. apply Z.div_mul_cancel_l; lia.
      - rewrite Z.shiftr_div_pow2 by lia. change (64 - 5) with 59.
        rewrite (Z.div_mod u (2 ^ 59)) at 1 by lia.
        rewrite H59 at 1.
        replace (2 ^ (59 - 5 * m) * 2 ^ (5 * m) * (u / 2 ^ 59) + u mod 2 ^ 59)
          with (u / 2 ^ 59 * 2 ^ (5 * m) * 2 ^ (59 - 5 * m) + u mod 2 ^ 59) by ring.
        apply Z.div_add_l. lia.
      - split; [apply Z.div_pos; lia|].
        apply Z.div_lt_upper_bound; [lia|]. rewrite <- H59. lia. }
    destruct (Hparts v Hv) as (-> & -> & Hvb). destruct (Hparts w Hw) as (-> & -> & Hwb).
    pose proof (chunk_bound v Hv) as Hcv. pose proof (chunk_bound w Hw) as Hcw.
    set (a := (v mod 2 ^ 59) / 2 ^ (59 - 5 * m)) in *.
    set (b := (w mod 2 ^ 59) / 2 ^ (59 - 5 * m)) in *.
    set (hv := Z.shiftr v (64 - 5)) in *. set (hw := Z.shiftr w (64 - 5)) in *.
    destruct (Z.compare_spec hv hw) as [->|Hlt|Hgt].
    + rewrite Z.add_compare_mono_l. reflexivity.
    + symmetry. apply Z.compare_lt_iff. nia.
    + symmetry. apply Z.compare_gt_iff. nia.
Qed.

End CodecFacts.

(** ** Runes and validation *)

Module RuneFacts.
Import Int IntFacts Base32Facts ParseFacts CodecFacts.

Lemma byte_of_range (c : ascii) : 0 <= byte_of c < 256.
Proof.
  unfold byte_of. pose proof (N_ascii_bounded c) as H. lia.
Qed.

Lemma ascii_of_byte_of (c : ascii) : ascii_of (byte_of c) = c.
Proof. unfold ascii_of, byte_of. rewrite N2Z.id. apply ascii_N_embedding. Qed.

Lemma byte_of_ascii_of (b : Z) : 0 <= b < 256 -> byte_of (ascii_of b) = b.
Proof.
  intros Hb. unfold ascii_of, byte_of. rewrite N_ascii_embedding by lia. lia.
Qed.

(** An occurrence of a string starts with its first character. *)
Lemma index_from_head (s : string) (c : ascii) (t : string) (i : Z) :
  index_from s (String c t) i <> -1 ->
  existsb (Ascii.eqb c) (list_ascii_of_string s) = true.
Proof.
  revert i. induction s as [|a s IH]; intros i H.
  - cbn in H. congruence.
  - cbn [index_from prefix] in H. cbn [list_ascii_of_string existsb].
    destruct (ascii_dec c a) as [->|Hne].
    + rewrite Ascii.eqb_refl. reflexivity.
    + rewrite (IH (i + 1) H). apply orb_true_r.
Qed.

Lemma lor_lower (x y : Z) : 0 <= x -> 0 <= y -> x <= Z.lor x y.
Proof.
  intros Hx Hy.
  pose proof (Z.add_lor_land x y) as Hadd.
  assert (Hy' : Z.land x y <= y).
  { assert (Hsplit : Z.ldiff y x + Z.land y x = y).
    { rewrite Z.add_nocarry_lxor.
      - rewrite Z.lxor_lor; [apply Z.lor_ldiff_and|].
        apply Z.bits_inj'. intros k Hk.
        rewrite Z.land_spec, Z.ldiff_spec, Z.land_spec, Z.bits_0.
        destruct (Z.testbit y k), (Z.testbit x k); reflexivity.
      - apply Z.bits_inj'. intros k Hk.
        rewrite Z.land_spec, Z.ldiff_spec, Z.land_spec, Z.bits_0.
        destruct (Z.testbit y k), (Z.testbit x k); reflexivity. }
    assert (0 <= Z.ldiff y x) by (apply Z.ldiff_nonneg; left; exact Hy).
    rewrite (Z.land_comm x y). lia. }
  lia.
Qed.

Lemma lor_byte (K y : Z) : 0 <= K < 256 -> 0 <= y < 256 -> 0 <= Z.lor K y < 256.
Proof.
  intros HK Hy. split; [apply Z.lor_nonneg; lia|].
  change 256 with (2 ^ 8). apply bits_bound; [lia|apply Z.lor_nonneg; lia|].
  intros k Hk. rewrite Z.lor_spec.
  rewrite (testbit_high 8 K k), (testbit_high 8 y k) by (try lia; change (2 ^ 8) with 256; lia).
  reflexivity.
Qed.

Lemma shiftr_bound (c n B : Z) : 0 <= n -> 0 <= c < B * 2 ^ n -> 0 <= Z.shiftr c n < B.
Proof.
  intros Hn Hc. rewrite Z.shiftr_div_pow2 by lia.
  assert (0 < 2 ^ n) by (apply Z.pow_pos_nonneg; lia).
  split; [apply Z.div_pos; lia|apply Z.div_lt_upper_bound; lia].
Qed.

(** The encoding of a rune that is not an ASCII character starts with a
    byte of at least 192. *)
Lemma string_of_rune_head (c : rune) :
  ~ (0 <= c < 128) ->
  exists b t, string_of_rune c = String (ascii_of b) t /\ 192 <= b < 256.
Proof.
  intros Hc. unfold string_of_rune, str1.
  destruct (Z.leb_spec 0 c); destruct (Z.ltb_spec c 128); cbn [andb]; try lia.
  - destruct (Z.leb_spec 128 c); [|lia].
    destruct (Z.ltb_spec c 2048); cbn [andb orb].
    + eexists _, _. split; [reflexivity|].
      pose proof (shiftr_bound c 6 32 ltac:(lia) ltac:(change (2 ^ 6) with 64; lia)).
      pose proof (lor_byte 192 (Z.shiftr c 6) ltac:(lia) ltac:(lia)).
      pose proof (lor_lower 192 (Z.shiftr c 6) ltac:(lia) ltac:(lia)). lia.
    + destruct (((2048 <=? c) && (c <? 55296)) || ((57344 <=? c) && (c <? 65536))) eqn:H3.
      * eexists _, _. split; [reflexivity|].
        assert (c < 65536).
        { apply orb_true_iff in H3. destruct H3 as [H3|H3];
            apply andb_true_iff in H3; destruct H3 as [_ H3]; apply Z.ltb_lt in H3; lia. }
        pose proof (shiftr_bound c 12 16 ltac:(lia) ltac:(change (2 ^ 12) with 4096; lia)).
        pose proof (lor_byte 224 (Z.shiftr c 12) ltac:(lia) ltac:(lia)).
        pose proof (lor_lower 224 (Z.shiftr c 12) ltac:(lia) ltac:(lia)). lia.
      * destruct (Z.leb_spec 65536 c); destruct (Z.ltb_spec c 1114112); cbn [andb].
        -- eexists _, _. split; [reflexivity|].
           pose proof (shiftr_bound c 18 8 ltac:(lia)
                         ltac:(change (2 ^ 18) with 262144; lia)).
           pose proof (lor_byte 240 (Z.shiftr c 18) ltac:(lia) ltac:(lia)).
           pose proof (lor_lower 240 (Z.shiftr c 18) ltac:(lia) ltac:(lia)). lia.
        -- exists 239. eexists. split; [reflexivity|lia].
        -- exists 239. eexists. split; [reflexivity|lia].
        -- exists 239. eexists. split; [reflexivity|lia].
  - exists 239.
    destruct (Z.leb_spec 128 c); [lia|]. cbn [andb orb].
    destruct (Z.leb_spec 2048 c); [lia|]. destruct (Z.leb_spec 57344 c); [lia|].
    destruct (Z.leb_spec 65536 c); [lia|]. cbn [andb orb].
    eexists. split; [reflexivity|lia].
Qed.

(** Only the ASCII characters of the alphabet pass the test of the
    loops. *)
Lemma rune_ok_ascii (c : rune) : rune_ok c -> 0 <= c < 128 /\ in_alphabet (ascii_of c).
Proof.
  intros Hok. unfold rune_ok, rune_index, Index in Hok.
  destruct (Z.le_gt_cases 0 c) as [H0|H0]; [destruct (Z.lt_ge_cases c 128) as [H1|H1]|].
  - split; [lia|].
    assert (E : string_of_rune c = String (ascii_of c) EmptyString).
    { unfold string_of_rune, str1.
      replace (0 <=? c) with true by (symmetry; apply Z.leb_le; lia).
      replace (c <? 128) with true by (symmetry; apply Z.ltb_lt; lia). reflexivity. }
    rewrite E in Hok. apply index_from_head in Hok. exact Hok.
  - exfalso. destruct (string_of_rune_head c) as (b & t & E & Hb); [lia|].
    rewrite E in Hok. apply index_from_head in Hok.
    apply in_alphabet_cases in Hok. rewrite byte_of_ascii_of in Hok by lia. lia.
  - exfalso. destruct (string_of_rune_head c) as (b & t & E & Hb); [lia|].
    rewrite E in Hok. apply index_from_head in Hok.
    apply in_alphabet_cases in Hok. rewrite byte_of_ascii_of in Hok by lia. lia.
Qed.

Lemma land_low (s n : Z) : 0 <= n -> Z.land s (2 ^ n - 1) = s mod 2 ^ n.
Proof.
  intros Hn. replace (2 ^ n - 1) with (Z.ones n) by (rewrite Z.ones_equiv; lia).
  apply Z.land_ones. exact Hn.
Qed.

(** A sequence that starts with a byte of 128 or more never decodes to an
    ASCII character. *)
Lemma decodeRune_high (c0 : ascii) (rest : string) :
  128 <= byte_of c0 -> 128 <= fst (decodeRune (String c0 rest)).
Proof.
  intros H0. cbn [decodeRune].
  replace (byte_of c0 <? 128) with false by (symmetry; apply Z.ltb_ge; lia).
  set (s0 := byte_of c0) in *.
  destruct (lead s0) as [[[sz lo] hi]|] eqn:Hlead; [|destruct rest; cbn; unfold RuneError; lia].
  destruct rest as [|c1 t1]; [cbn; unfold RuneError; lia|].
  set (s1 := byte_of c1). pose proof (byte_of_range c1) as Hs1. fold s1 in Hs1.
  destruct (outside lo hi s1) eqn:Hout; [cbn; unfold RuneError; lia|].
  unfold outside in Hout. apply orb_false_iff in Hout. destruct Hout as [Hlo Hhi].
  apply Z.ltb_ge in Hlo. apply Z.ltb_ge in Hhi.
  assert (Hm31 : Z.land s0 31 = s0 mod 32) by apply (land_low s0 5 ltac:(lia)).
  assert (Hm15 : Z.land s0 15 = s0 mod 16) by apply (land_low s0 4 ltac:(lia)).
  assert (Hm7 : Z.land s0 7 = s0 mod 8) by apply (land_low s0 3 ltac:(lia)).
  assert (Hm63 : Z.land s1 63 = s1 mod 64) by apply (land_low s1 6 ltac:(lia)).
  pose proof (Z.div_mod s0 32 ltac:(lia)). pose proof (Z.mod_pos_bound s0 32 ltac:(lia)).
  pose proof (Z.div_mod s0 16 ltac:(lia)). pose proof (Z.mod_pos_bound s0 16 ltac:(lia)).
  pose proof (Z.div_mod s0 8 ltac:(lia)). pose proof (Z.mod_pos_bound s0 8 ltac:(lia)).
  pose proof (Z.div_mod s1 64 ltac:(lia)). pose proof (Z.mod_pos_bound s1 64 ltac:(lia)).
  assert (Hhead : (sz = 2 /\ 2 <= s0 mod 32)
                  \/ (sz = 3 /\ (1 <= s0 mod 16 \/ 32 <= s1 mod 64))
                  \/ (sz = 4 /\ (1 <= s0 mod 8 \/ 16 <= s1 mod 64))).
  { unfold lead in Hlead.
    repeat match type of Hlead with
           | (if ?b then _ else _) = _ =>
               let E := fresh "E" in destruct b eqn:E; [inversion Hlead; subst; clear Hlead|]
           end; try discriminate Hlead;
      repeat match goal with
             | H : (_ && _) = true |- _ => apply andb_true_iff in H; destruct H
             | H : (_ <=? _) = true |- _ => apply Z.leb_le in H
             | H : (_ =? _) = true |- _ => apply Z.eqb_eq in H
             end; lia. }
  assert (Hnn1 : 0 <= Z.land s1 63) by (rewrite Hm63; lia).
  destruct Hhead as [[-> Hsz2]|[[-> Hsz3]|[-> Hsz4]]].
  - cbn [Z.eqb Pos.eqb fst].
    eapply Z.le_trans; [|apply lor_lower; [apply Z.shiftl_nonneg; lia|lia]].
    rewrite Z.shiftl_mul_pow2, Hm31 by lia. change (2 ^ 6) with 64. lia.
  - cbn [Z.eqb Pos.eqb].
    destruct t1 as [|c2 t2]; [cbn; unfold RuneError; lia|].
    destruct (outside 128 191 (byte_of c2)); [cbn; unfold RuneError; lia|].
    cbn [fst].
    assert (Hnn2 : 0 <= Z.land (byte_of c2) 63)
      by (apply Z.land_nonneg; right; lia).
    eapply Z.le_trans; [|apply lor_lower; [|exact Hnn2]].
    + rewrite !Z.shiftl_mul_pow2, Hm15, Hm63 by lia.
      change (2 ^ 12) with 4096. change (2 ^ 6) with 64.
      destruct Hsz3 as [Hsz3|Hsz3].
      * eapply Z.le_trans; [|apply lor_lower; lia]. lia.
      * rewrite Z.lor_comm. eapply Z.le_trans; [|apply lor_lower; lia]. lia.
    + apply Z.lor_nonneg. split; apply Z.shiftl_nonneg; lia.
  - cbn [Z.eqb Pos.eqb].
    destruct t1 as [|c2 t2]; [cbn; unfold RuneError; lia|].
    destruct (outside 128 191 (byte_of c2)); [cbn; unfold RuneError; lia|].
    destruct t2 as [|c3 t3]; [cbn; unfold RuneError; lia|].
    destruct (outside 128 191 (byte_of c3)); [cbn; unfold RuneError; lia|].
    cbn [fst].
    assert (Hnn2 : 0 <= Z.land (byte_of c2) 63) by (apply Z.land_nonneg; right; lia).
    assert (Hnn3 : 0 <= Z.land (byte_of c3) 63) by (apply Z.land_nonneg; right; lia).
    assert (Hnn12 : 0 <= Z.lor (Z.shiftl (Z.land s0 7) 18) (Z.shiftl (Z.land s1 63) 12))
      by (apply Z.lor_nonneg; split; apply Z.shiftl_nonneg; lia).
    eapply Z.le_trans; [|apply lor_lower; [|exact Hnn3]].
    + eapply Z.le_trans; [|apply lor_lower; [exact Hnn12|apply Z.shiftl_nonneg; exact Hnn2]].
      rewrite !Z.shiftl_mul_pow2, Hm7, Hm63 by lia.
      change (2 ^ 18) with 262144. change (2 ^ 12) with 4096.
      destruct Hsz4 as [Hsz4|Hsz4].
      * eapply Z.le_trans; [|apply lor_lower; lia]. lia.
      * rewrite Z.lor_comm. eapply Z.le_trans; [|apply lor_lower; lia]. lia.
    + apply Z.lor_nonneg. split; [exact Hnn12|apply Z.shiftl_nonneg; exact Hnn2].
Qed.

(** The first iteration of [range] passes the test exactly when the first
    byte belongs to the alphabet. *)
Lemma first_rune_ok (c0 : ascii) (rest : string) :
  rune_ok (fst (decodeRune (String c0 rest))) <-> in_alphabet c0.
Proof.
  split.
  - intros Hok. apply rune_ok_ascii in Hok. destruct Hok as [Hr Hin].
    destruct (Z.lt_ge_cases (byte_of c0) 128) as [Hlow|Hhigh].
    + cbn [decodeRune] in Hin.
      replace (byte_of c0 <? 128) with true in Hin by (symmetry; apply Z.ltb_lt; lia).
      cbn [fst] in Hin. rewrite ascii_of_byte_of in Hin. exact Hin.
    + pose proof (decodeRune_high c0 rest Hhigh). lia.
  - intros Hin. pose proof (in_alphabet_cases c0 Hin) as [Hb _].
    cbn [decodeRune].
    replace (byte_of c0 <? 128) with true by (symmetry; apply Z.ltb_lt; lia).
    cbn [fst]. apply in_alphabet_ok. exact Hin.
Qed.

Lemma range_from_app_alphabet (p s : string) (i : Z) :
  Forall in_alphabet (chars p) ->
  range_from (p ++ s) i 0
  = (range_from p i 0 ++ range_from s (i + Z.of_nat (String.length p)) 0)%list.
Proof.
  revert i. induction p as [|c p IH]; intros i Hp.
  - cbn [append String.length app]. change (Z.of_nat 0) with 0. rewrite Z.add_0_r.
    destruct s; reflexivity.
  - inversion Hp as [|c' l' Hc Hps]; subst.
    cbn [append]. rewrite !range_from_ascii by (apply in_alphabet_cases; exact Hc).
    cbn [app]. f_equal. rewrite IH by exact Hps.
    replace (i + 1 + Z.of_nat (String.length p))
      with (i + Z.of_nat (String.length (String c p)))
      by (cbn [String.length]; lia).
    reflexivity.
Qed.

Lemma ParseGeohash_loop_app (l1 l2 : list (Z * rune)) :
  Forall (fun ic => rune_ok (snd ic)) l1 ->
  ParseGeohash_loop (l1 ++ l2) = ParseGeohash_loop l2.
Proof.
  induction 1 as [|[i c] l1 Hc _ IH]; [reflexivity|].
  cbn [app ParseGeohash_loop]. cbn [snd] in Hc. unfold rune_ok, rune_index in Hc.
  replace (Index alphabet (string_of_rune c) =? -1) with false
    by (symmetry; apply Z.eqb_neq; exact Hc).
  exact IH.
Qed.

Lemma ParseGeohash_first_invalid (p : string) (c0 : ascii) (rest : string) :
  Forall in_alphabet (chars p) -> ~ in_alphabet c0 ->
  ParseGeohash (p ++ String c0 rest)
  = Some (InvalidCharacter (fst (decodeRune (String c0 rest))) (Z.of_nat (String.length p))).
Proof.
  intros Hp Hc. unfold ParseGeohash, range.
  rewrite range_from_app_alphabet by exact Hp.
  rewrite ParseGeohash_loop_app by (apply range_alphabet_ok; exact Hp).
  cbn [range_from ParseGeohash_loop].
  assert (Hbad : ~ rune_ok (fst (decodeRune (String c0 rest))))
    by (rewrite first_rune_ok; exact Hc).
  apply not_ok_index in Hbad. unfold rune_index in Hbad. rewrite Hbad.
  reflexivity.
Qed.

(** Every string splits into its longest prefix over the alphabet and
    the rest. *)
Lemma alphabet_prefix (s : string) :
  Forall in_alphabet (chars s)
  \/ exists p c0 rest, s = (p ++ String c0 rest)%string
                       /\ Forall in_alphabet (chars p) /\ ~ in_alphabet c0.
Proof.
  induction s as [|c s IH]; [left; constructor|].
  destruct (in_alphabetb c) eqn:Hc.
  - destruct IH as [Hall|(p & c0 & rest & -> & Hp & Hc0)].
    + left. constructor; assumption.
    + right. exists (String c p), c0, rest. split; [reflexivity|].
      split; [constructor; assumption|exact Hc0].
  - right. exists EmptyString, c, s. split; [reflexivity|].
    split; [constructor|]. unfold in_alphabet. rewrite Hc. discriminate.
Qed.

End RuneFacts.

(** ** Coordinates on the grid *)

Module GridFacts.
Import Int IntFacts Base32Facts F64Facts RoundTripFacts.

Lemma grid_bottom (L : Z) : (grid L 0 == - inject_Z L)%Q.
Proof. unfold grid. rewrite Z.mul_0_r, dy_0. ring. Qed.

Lemma grid_top (L : Z) : (grid L (2 ^ 32) == inject_Z L)%Q.
Proof.
  unfold grid, dy. rewrite !inject_Z_mult, <- (pow2_Z 32) by lia.
  assert (Hpp : (pow2 32 * pow2 (- 32) == 1)%Q) by (rewrite <- pow2_add; reflexivity).
  setoid_replace (inject_Z 2 * inject_Z L * pow2 32 * pow2 (- 32))%Q
    with (inject_Z 2 * inject_Z L * (pow2 32 * pow2 (- 32)))%Q by ring.
  rewrite Hpp. change (inject_Z 2) with 2%Q. ring.
Qed.

Lemma grid_le (L K K' : Z) : 0 < L -> K <= K' -> (grid L K <= grid L K')%Q.
Proof.
  intros HL HK. replace K' with (K + (K' - K)) by lia. rewrite grid_step.
  assert (Hq : (0 < quantum (2 * L))%Q) by (apply quantum_pos; lia).
  assert (Hn : (0 <= inject_Z (K' - K))%Q)
    by (change 0%Q with (inject_Z 0); rewrite <- Zle_Qle; lia).
  nra.
Qed.

Lemma grid_lt (L K K' : Z) : 0 < L -> K < K' -> (grid L K < grid L K')%Q.
Proof.
  intros HL HK. replace K' with (K + (K' - K)) by lia. rewrite grid_step.
  assert (Hq : (0 < quantum (2 * L))%Q) by (apply quantum_pos; lia).
  assert (Hn : (0 < inject_Z (K' - K))%Q)
    by (change 0%Q with (inject_Z 0); rewrite <- Zlt_Qlt; lia).
  nra.
Qed.

Lemma grid_range (L D : Z) :
  0 < L -> 0 <= D < 2 ^ 32 -> (- inject_Z L <= grid L D < inject_Z L)%Q.
Proof.
  intros HL HD. rewrite <- grid_bottom, <- (grid_top L).
  split; [apply grid_le; lia|apply grid_lt; lia].
Qed.

(** A coordinate that lies exactly on the grid is mapped to its own
    32-bit fraction. *)
Lemma fraction_of_grid (L : Z) (x : f64) (D : Z) :
  65 <= L <= 2 ^ 19 -> 0 <= D < 2 ^ 32 ->
  is_finite x = true -> valid x = true -> (to_Q x == grid L D)%Q ->
  mapTo32Bits (div (sub x (of_Z (- L))) (of_Z (2 * L))) = D.
Proof.
  intros HL HD Hf Hv Hx.
  pose proof (grid_range L D ltac:(lia) HD) as Hr.
  destruct (fraction_bracket L HL x Hf Hv) as (k & Hk & Hk0 & _ & Hbr);
    [rewrite Hx; split; [apply Hr|apply Qlt_le_weak, Hr]|].
  destruct (Hbr D ltac:(lia)) as (Hlo & Hhi & _).
  assert (HkD : k = D).
  { assert (D <= k) by (apply Hlo; rewrite Hx; apply Qle_refl).
    assert (k <= D) by (apply Hhi; rewrite Hx; apply Qle_refl). lia. }
  subst k. unfold mapTo32Bits, to_uint32. unfold scaled in Hk. rewrite Hk.
  replace ((- 2 ^ 63 <=? D) && (D <? 2 ^ 63)) with true.
  - apply Z.mod_small. exact HD.
  - symmetry. apply andb_true_iff. split; [apply Z.leb_le|apply Z.ltb_lt].
    + change (- 2 ^ 63) with (- 9223372036854775808). lia.
    + change (2 ^ 32) with 4294967296 in HD. change (2 ^ 63) with 9223372036854775808. lia.
Qed.

(** The key read from a string has its low 4 bits clear, so that both
    fractions are multiples of 4. *)
Lemma Base32ToUint64_range (hash : string) : is_uint64 (Base32ToUint64 hash).
Proof. apply wrap64_range. Qed.

Lemma DeInterleave_Base32 (hash : string) :
  exists a b, 0 <= a < 2 ^ 30 /\ 0 <= b < 2 ^ 30
              /\ DeInterleave64Bits (Base32ToUint64 hash) = (4 * a, 4 * b).
Proof.
  set (V := Base32ToUint64 hash).
  assert (Hlow : forall k, 0 <= k < 4 -> Z.testbit V k = false).
  { intros k Hk. unfold V, Base32ToUint64. change (64 - 5 * maxLength) with 4.
    rewrite testbit_shl64_all by lia. rewrite (Z.testbit_neg_r _ (k - 4)) by lia.
    apply andb_false_r. }
  destruct (DeInterleaveFacts.DeInterleave_range V) as [Ha Hb].
  assert (Hmul : forall x, is_uint32 x ->
            (forall k, 0 <= k < 2 -> Z.testbit x k = false) ->
            x = 4 * (x / 4) /\ 0 <= x / 4 < 2 ^ 30).
  { intros x Hx Hbits. split.
    - apply DeInterleaveFacts.bits_eq. intros k Hk. rewrite clear_low_2 by lia.
      destruct (Z.leb_spec 2 k); [reflexivity|]. apply Hbits. lia.
    - unfold is_uint32 in Hx. change (2 ^ 32) with (4 * 2 ^ 30) in Hx.
      split; [apply Z.div_pos; lia|apply Z.div_lt_upper_bound; lia]. }
  exists (fst (DeInterleave64Bits V) / 4), (snd (DeInterleave64Bits V) / 4).
  destruct (Hmul _ Ha) as [Ea Hra].
  { intros k Hk. rewrite (proj1 (DeInterleaveFacts.DeInterleave_bits V k ltac:(lia))).
    rewrite Hlow by lia. apply andb_false_r. }
  destruct (Hmul _ Hb) as [Eb Hrb].
  { intros k Hk. rewrite (proj2 (DeInterleaveFacts.DeInterleave_bits V k ltac:(lia))).
    rewrite Hlow by lia. apply andb_false_r. }
  split; [exact Hra|]. split; [exact Hrb|].
  rewrite <- Ea, <- Eb. destruct (DeInterleave64Bits V); reflexivity.
Qed.

Lemma H90 : 65 <= 90 <= 2 ^ 19.
Proof. change (2 ^ 19) with 524288. lia. Qed.

Lemma H180 : 65 <= 180 <= 2 ^ 19.
Proof. change (2 ^ 19) with 524288. lia. Qed.

Lemma unmapLat_regular (D : Z) :
  0 <= D < 2 ^ 32 ->
  is_finite (unmapLat D) = true /\ valid (unmapLat D) = true
  /\ (to_Q (unmapLat D) == grid 90 D)%Q.
Proof. intros HD. apply (unmap_regular 90 H90 D HD). Qed.

Lemma unmapLong_regular (D : Z) :
  0 <= D < 2 ^ 32 ->
  is_finite (unmapLong D) = true /\ valid (unmapLong D) = true
  /\ (to_Q (unmapLong D) == grid 180 D)%Q.
Proof. intros HD. apply (unmap_regular 180 H180 D HD). Qed.

(** Multiplication by [2^32] is exact. *)
Lemma scale_exact (v : f64) :
  is_finite v = true -> valid v = true -> (Qabs (to_Q v) <= 1)%Q ->
  is_finite (mul two32 v) = true /\ valid (mul two32 v) = true
  /\ (to_Q (mul two32 v) == inject_Z (2 ^ 32) * to_Q v)%Q.
Proof.
  intros Hvf Hvv Hb.
  destruct (of_Z_facts (2 ^ 32)) as (Htf & Htv & HtQ & Hts & _); [split; reflexivity|].
  fold two32 in Htf, Htv, HtQ, Hts.
  assert (Hvs : small v).
  { apply (bounded_small v 1); [split; [lia|reflexivity]|].
    change (inject_Z 1) with 1%Q. apply Qabs_Qle_condition. exact Hb. }
  pose proof (mul_faithful two32 v Htf Hvf Htv Hvv Hts Hvs) as Hp.
  split; [apply Hp|]. split; [apply Hp|].
  destruct (valid_representable v Hvf Hvv) as (F & c & HF & Hc & HvQ).
  rewrite <- HtQ.
  apply (Faithful_exact _ _ F (c + 32) Hp HF); [lia|].
  rewrite HtQ, HvQ, <- (pow2_Z 32) by lia. unfold dy. rewrite pow2_add. ring.
Qed.

Lemma mapTo32Bits_floor (value : f64) :
  is_finite value = true -> valid value = true ->
  (0 <= to_Q value < 1)%Q ->
  mapTo32Bits value = Qfloor (inject_Z (2 ^ 32) * to_Q value).
Proof.
  intros Hf Hv [H0 H1].
  destruct (scale_exact value Hf Hv) as (Hpf & Hpv & HpQ).
  { apply Qabs_Qle_condition. lra. }
  assert (H32 : (0 < inject_Z (2 ^ 32))%Q) by reflexivity.
  destruct (trunc_floor (mul two32 value) Hpf Hpv) as (k & Hk & Hk0 & Hklo & Hkhi).
  { rewrite HpQ. nra. }
  rewrite HpQ in Hklo, Hkhi.
  set (w := (inject_Z (2 ^ 32) * to_Q value)%Q) in *.
  assert (Hkw : k = Qfloor w).
  { pose proof (Qfloor_le w) as Hfl. pose proof (Qlt_floor w) as Hfu.
    assert (Ha : (inject_Z k < inject_Z (Qfloor w + 1))%Q) by lra.
    assert (Hb : (inject_Z (Qfloor w) < inject_Z (k + 1))%Q) by lra.
    rewrite <- Zlt_Qlt in Ha, Hb. lia. }
  assert (Hk32 : k < 2 ^ 32).
  { assert (Hlt : (inject_Z k < inject_Z (2 ^ 32))%Q) by (unfold w in Hklo; nra).
    rewrite <- Zlt_Qlt in Hlt. exact Hlt. }
  rewrite <- Hkw. unfold mapTo32Bits, to_uint32. rewrite Hk.
  replace ((- 2 ^ 63 <=? k) && (k <? 2 ^ 63)) with true.
  - apply Z.mod_small. lia.
  - symmetry. apply andb_true_iff. split; [apply Z.leb_le|apply Z.ltb_lt].
    + change (- 2 ^ 63) with (- 9223372036854775808). lia.
    + change (2 ^ 32) with 4294967296 in Hk32. change (2 ^ 63) with 9223372036854775808. lia.
Qed.

End GridFacts.

(** ** Comparisons of binary64 numbers *)

Module CompareFacts.
Import F64Facts.

Lemma to_Q_positive (m : positive) (e : Z) : (0 < to_Q (S754_finite false m e))%Q.
Proof. rewrite to_Q_finite, <- (dy_0 e). apply dy_lt. cbn. lia. Qed.

Lemma to_Q_negative (m : positive) (e : Z) : (to_Q (S754_finite true m e) < 0)%Q.
Proof. rewrite to_Q_finite, <- (dy_0 e). apply dy_lt. cbn. lia. Qed.

Lemma to_Q_flip (m : positive) (e : Z) :
  (to_Q (S754_finite true m e) == - to_Q (S754_finite false m e))%Q.
Proof. rewrite !to_Q_finite. cbn [smant cond_Zopp]. rewrite <- dy_opp. reflexivity. Qed.

Lemma ltb_negative_swap (m1 m2 : positive) (e1 e2 : Z) :
  ltb (S754_finite true m1 e1) (S754_finite true m2 e2)
  = ltb (S754_finite false m2 e2) (S754_finite false m1 e1).
Proof.
  unfold ltb, SFltb, SFcompare.
  rewrite (Z.compare_antisym e1 e2).
  destruct (e1 ?= e2); cbn [CompOpp]; try reflexivity.
  change (Pos.compare_cont Eq m1 m2) with (Pos.compare m1 m2).
  change (Pos.compare_cont Eq m2 m1) with (Pos.compare m2 m1).
  rewrite (Pos.compare_antisym m1 m2). destruct (m1 ?= m2)%positive; reflexivity.
Qed.

Lemma valid_flip (s : bool) (m : positive) (e : Z) :
  valid (S754_finite s m e) = valid (S754_finite false m e).
Proof. reflexivity. Qed.

(** The comparison [x < y] of two finite numbers is the comparison of
    their values. *)
Lemma ltb_spec (x y : f64) :
  is_finite x = true -> is_finite y = true -> valid x = true -> valid y = true ->
  (ltb x y = true <-> (to_Q x < to_Q y)%Q).
Proof.
  intros Hfx Hfy Hvx Hvy.
  destruct x as [sx| | |sx mx ex]; try discriminate Hfx;
    destruct y as [sy| | |sy my ey]; try discriminate Hfy.
  - rewrite !to_Q_zero. change (ltb (S754_zero sx) (S754_zero sy)) with false.
    split; [discriminate|intros H; inversion H].
  - rewrite to_Q_zero. destruct sy.
    + pose proof (to_Q_negative my ey).
      change (ltb (S754_zero sx) (S754_finite true my ey)) with false.
      split; [discriminate|lra].
    + pose proof (to_Q_positive my ey).
      change (ltb (S754_zero sx) (S754_finite false my ey)) with true.
      split; [intros _; assumption|reflexivity].
  - rewrite to_Q_zero. destruct sx.
    + pose proof (to_Q_negative mx ex).
      change (ltb (S754_finite true mx ex) (S754_zero sy)) with true.
      split; [intros _; assumption|reflexivity].
    + pose proof (to_Q_positive mx ex).
      change (ltb (S754_finite false mx ex) (S754_zero sy)) with false.
      split; [discriminate|lra].
  - destruct sx, sy.
    + rewrite ltb_negative_swap, (to_Q_flip mx), (to_Q_flip my).
      rewrite (ltb_pos_spec my mx ey ex) by assumption. split; intros H; lra.
    + pose proof (to_Q_negative mx ex). pose proof (to_Q_positive my ey).
      change (ltb (S754_finite true mx ex) (S754_finite false my ey)) with true.
      split; [intros _; lra|reflexivity].
    + pose proof (to_Q_positive mx ex). pose proof (to_Q_negative my ey).
      change (ltb (S754_finite false mx ex) (S754_finite true my ey)) with false.
      split; [discriminate|lra].
    + apply ltb_pos_spec; assumption.
Qed.

(** A number that compares neither below [lo] nor above [hi] is NaN or
    lies between them. *)
Lemma between_or_nan (x lo hi : f64) :
  valid x = true ->
  is_finite lo = true -> valid lo = true -> is_finite hi = true -> valid hi = true ->
  ltb x lo || ltb hi x = false ->
  x = S754_nan \/ (is_finite x = true /\ (to_Q lo <= to_Q x <= to_Q hi)%Q).
Proof.
  intros Hv Hflo Hvlo Hfhi Hvhi Hcmp. apply orb_false_iff in Hcmp. destruct Hcmp as [H1 H2].
  assert (Hfin : is_finite x = true -> (to_Q lo <= to_Q x <= to_Q hi)%Q).
  { intros Hf. split.
    - destruct (Qlt_le_dec (to_Q x) (to_Q lo)) as [Hlt|Hle]; [|exact Hle].
      apply (ltb_spec x lo Hf Hflo Hv Hvlo) in Hlt. congruence.
    - destruct (Qlt_le_dec (to_Q hi) (to_Q x)) as [Hlt|Hle]; [|exact Hle].
      apply (ltb_spec hi x Hfhi Hf Hvhi Hv) in Hlt. congruence. }
  destruct x as [s|s| |s m e].
  - right. split; [reflexivity|apply Hfin; reflexivity].
  - exfalso. destruct s.
    + destruct lo; try discriminate Hflo; discriminate H1.
    + destruct hi; try discriminate Hfhi; discriminate H2.
  - left. reflexivity.
  - right. split; [reflexivity|apply Hfin; reflexivity].
Qed.

End CompareFacts.

(** ** Monotonicity of the estimated length *)

Module LengthFacts.
Import Int F64Facts EstimateFacts CompareFacts.

Lemma clamp_bounds (l : Z) : 1 <= clamp l <= 12.
Proof.
  unfold clamp, maxLength.
  destruct (Z.ltb_spec l 1); [cbn; lia|].
  destruct (Z.ltb_spec 12 l); lia.
Qed.

Lemma clamp_mono (a b : Z) : a <= b -> clamp a <= clamp b.
Proof.
  intros Hab. unfold clamp, maxLength.
  destruct (Z.ltb_spec a 1); destruct (Z.ltb_spec b 1);
    repeat match goal with |- context [12 <? ?x] => destruct (Z.ltb_spec 12 x) end; lia.
Qed.

(** The result on a positive radius, by the number of doublings. *)
Lemma estimate_positive (m : positive) (e : Z) :
  valid (S754_finite false m e) = true ->
  exists steps : nat,
    (forall fuel, (1090 <= fuel)%nat ->
       EstimateLengthRequired fuel (S754_finite false m e)
       = Some (clamp (Z.quot (2 * Z.of_nat steps) 5)))
    /\ (forall i, (i < steps)%nat ->
          (times_pow2 (to_Q (S754_finite false m e)) i < to_Q mercatorMax)%Q)
    /\ (to_Q mercatorMax <= times_pow2 (to_Q (S754_finite false m e)) steps)%Q.
Proof.
  intros Hv.
  destruct (loop_steps 1089 m e 0 Hv) as (steps & r' & Hst & Hloop & Hbelow & Habove).
  - apply (positive_lower m e Hv).
  - lia.
  - reflexivity.
  - exists steps. split; [|split; assumption].
    intros fuel Hfuel. unfold EstimateLengthRequired.
    replace (eqb (S754_finite false m e) (of_Z 0)) with false by reflexivity.
    rewrite (loop_fuel_ge 1090 fuel _ _ _ Hfuel Hloop). reflexivity.
Qed.

Lemma times_pow2_le (x y : Q) (i : nat) : (x <= y)%Q -> (times_pow2 x i <= times_pow2 y i)%Q.
Proof.
  intros Hxy. unfold times_pow2.
  assert (Hp : (0 < inject_Z (2 ^ Z.of_nat i))%Q).
  { change 0%Q with (inject_Z 0). rewrite <- Zlt_Qlt. apply Z.pow_pos_nonneg; lia. }
  nra.
Qed.

Lemma estimate_zero (s : bool) (fuel : nat) :
  EstimateLengthRequired fuel (S754_zero s) = Some 12.
Proof.
  unfold EstimateLengthRequired.
  replace (eqb (S754_zero s) (of_Z 0)) with true by (destruct s; reflexivity).
  reflexivity.
Qed.

Lemma positive_times (m : positive) (e : Z) (i j : nat) :
  (i <= j)%nat ->
  (times_pow2 (to_Q (S754_finite false m e)) i
   <= times_pow2 (to_Q (S754_finite false m e)) j)%Q.
Proof.
  intros Hij. unfold times_pow2. pose proof (to_Q_positive m e) as Hp.
  apply Qmult_le_l; [exact Hp|]. rewrite <- Zle_Qle. apply Z.pow_le_mono_r; lia.
Qed.

End LengthFacts.

(** ** Offsets of a bounding box *)

Module BoxFacts.
Import F64Facts CompareFacts.

Lemma div_zero_faithful (s : bool) (y : f64) :
  is_finite y = true -> (to_Q y == 0 -> False)%Q ->
  Faithful (div (S754_zero s) y) (to_Q (S754_zero s) / to_Q y).
Proof.
  intros Hf Hnz. destruct y as [sy| | |sy my ey]; try discriminate Hf.
  - exfalso. apply Hnz. reflexivity.
  - rewrite div_zero, !to_Q_zero.
    apply Faithful_ext with (to_Q (S754_zero (xorb s sy))).
    + rewrite to_Q_zero. unfold Qdiv. ring.
    + apply Faithful_refl; reflexivity.
Qed.

(** A quotient of two numbers of moderate size is rounded faithfully;
    the numerator may be zero. *)
Lemma quotient_faithful (x y : f64) :
  is_finite x = true -> valid x = true -> small x ->
  (to_Q x == 0)%Q \/ large x ->
  is_finite y = true -> small y -> large y ->
  Faithful (div x y) (to_Q x / to_Q y).
Proof.
  intros Hfx Hvx Hsx Hlx Hfy Hsy Hly.
  assert (Hynz : (to_Q y == 0 -> False)%Q).
  { intros H0. unfold large in Hly. rewrite H0 in Hly.
    pose proof (pow2_pos (- 400)). change (Qabs 0) with 0%Q in Hly. lra. }
  destruct x as [sx| | |sx mx ex]; try discriminate Hfx.
  - apply div_zero_faithful; assumption.
  - destruct y as [sy| | |sy my ey]; try discriminate Hfy.
    + exfalso. apply Hynz. reflexivity.
    + destruct Hlx as [H0|Hlx]; [|apply div_faithful; assumption].
      exfalso. destruct sx.
      * pose proof (to_Q_negative mx ex). lra.
      * pose proof (to_Q_positive mx ex). lra.
Qed.

(** A faithful rounding keeps the bounds that are powers of two. *)
Lemma Faithful_pow2_bound (r : f64) (t : Q) (k : Z) :
  Faithful r t -> emin <= k -> (Qabs t <= pow2 k)%Q -> (Qabs (to_Q r) <= pow2 k)%Q.
Proof.
  intros (_ & _ & Hbr) Hk Ht. apply Qabs_Qle_condition in Ht. destruct Ht as [Hlo Hhi].
  assert (E1 : (dy 1 k == pow2 k)%Q) by (unfold dy; ring).
  assert (E2 : (dy (- 1) k == - pow2 k)%Q) by (unfold dy; ring).
  apply Qabs_Qle_condition. split.
  - destruct (Hbr (- 1) k) as [H _]; [reflexivity|exact Hk|].
    rewrite E2 in H. apply H. exact Hlo.
  - destruct (Hbr 1 k) as [_ H]; [reflexivity|exact Hk|].
    rewrite E1 in H. apply H. exact Hhi.
Qed.

Lemma Faithful_nonneg (r : f64) (t : Q) : Faithful r t -> (0 <= t)%Q -> (0 <= to_Q r)%Q.
Proof.
  intros (_ & _ & Hbr) Ht.
  destruct (Hbr 0 0) as [H _]; [reflexivity|rewrite emin_value; lia|].
  rewrite dy_0 in H. apply H. exact Ht.
Qed.

Lemma small_pow2 (r : f64) (k : Z) : k < 400 -> (Qabs (to_Q r) <= pow2 k)%Q -> small r.
Proof.
  intros Hk Hr. unfold small. eapply Qle_lt_trans; [exact Hr|].
  assert (E : (pow2 400 == pow2 k * pow2 (400 - k))%Q)
    by (rewrite <- pow2_add; replace (k + (400 - k)) with 400 by lia; reflexivity).
  rewrite E.
  assert (H1 : (1 < pow2 (400 - k))%Q).
  { assert (H2 : (pow2 1 <= pow2 (400 - k))%Q) by (apply pow2_le; lia).
    change (pow2 1) with (2%Q) in H2. lra. }
  pose proof (pow2_pos k). nra.
Qed.

(** Subtracting and adding a non-negative offset brackets a number. *)
Lemma offset_bracket (x d : f64) :
  is_finite x = true -> valid x = true -> small x ->
  is_finite d = true -> valid d = true -> small d -> (0 <= to_Q d)%Q ->
  (to_Q (sub x d) <= to_Q x <= to_Q (add x d))%Q.
Proof.
  intros Hfx Hvx Hsx Hfd Hvd Hsd Hd.
  destruct (valid_representable x Hfx Hvx) as (F & c & HF & Hc & Hx).
  pose proof (sub_faithful x d Hfx Hfd Hvx Hvd Hsx Hsd) as (_ & _ & Hs).
  pose proof (add_faithful x d Hfx Hfd Hvx Hvd Hsx Hsd) as (_ & _ & Ha).
  split.
  - rewrite Hx. apply (Hs F c HF Hc). rewrite <- Hx. lra.
  - rewrite Hx. apply (Ha F c HF Hc). rewrite <- Hx. lra.
Qed.

Lemma lat_degree_facts :
  is_finite lenOfADegreeOfLat = true /\ valid lenOfADegreeOfLat = true
  /\ small lenOfADegreeOfLat /\ large lenOfADegreeOfLat
  /\ (1 <= to_Q lenOfADegreeOfLat <= 128)%Q.
Proof.
  split; [reflexivity|]. split; [reflexivity|].
  split; [vm_compute; reflexivity|]. split; [vm_compute; intros H; discriminate H|].
  split; vm_compute; intros H; discriminate H.
Qed.

Lemma lng_degree_facts :
  is_finite lenOfADegreeOfLng = true /\ valid lenOfADegreeOfLng = true
  /\ small lenOfADegreeOfLng /\ large lenOfADegreeOfLng
  /\ (1 <= to_Q lenOfADegreeOfLng <= 128)%Q.
Proof.
  split; [reflexivity|]. split; [reflexivity|].
  split; [vm_compute; reflexivity|]. split; [vm_compute; intros H; discriminate H|].
  split; vm_compute; intros H; discriminate H.
Qed.

Lemma Qabs_nonneg_le (t b : Q) : (0 <= t <= b)%Q -> (Qabs t <= b)%Q.
Proof. intros [H0 H1]. rewrite Qabs_pos; assumption. Qed.

Lemma large_pow2 (r : f64) (k : Z) : - 400 <= k -> (pow2 k <= to_Q r)%Q -> large r.
Proof.
  intros Hk Hr. unfold large.
  pose proof (pow2_pos k). rewrite Qabs_pos by lra.
  eapply Qle_trans; [apply (pow2_le (- 400) k); lia|exact Hr].
Qed.

(** The offset [r / d] of a box, for a radius [r] and a length [d] of one
    degree. *)
Lemma delta_facts (r d : f64) :
  is_finite r = true -> valid r = true ->
  (to_Q r == 0 \/ pow2 (- 64) <= to_Q r)%Q -> (to_Q r <= pow2 64)%Q ->
  is_finite d = true -> valid d = true -> (pow2 (- 64) <= to_Q d <= pow2 7)%Q ->
  is_finite (div r d) = true /\ valid (div r d) = true /\ small (div r d)
  /\ (0 <= to_Q (div r d))%Q.
Proof.
  intros Hfr Hvr Hr0 Hr1 Hfd Hvd [Hd0 Hd1].
  pose proof (pow2_pos (- 64)) as Hp64.
  assert (Hrnn : (0 <= to_Q r)%Q) by (destruct Hr0 as [H0|H0]; lra).
  assert (Hrs : small r) by (apply (small_pow2 r 64); [lia|apply Qabs_nonneg_le; lra]).
  assert (Hrl : (to_Q r == 0)%Q \/ large r).
  { destruct Hr0 as [H0|H0]; [left; exact H0|right; apply (large_pow2 r (- 64)); [lia|exact H0]]. }
  assert (Hds : small d).
  { apply (small_pow2 d 7); [lia|apply Qabs_nonneg_le; lra]. }
  assert (Hdl : large d) by (apply (large_pow2 d (- 64)); [lia|exact Hd0]).
  pose proof (quotient_faithful r d Hfr Hvr Hrs Hrl Hfd Hds Hdl) as Hq.
  assert (Hdpos : (0 < to_Q d)%Q) by lra.
  assert (Ht0 : (0 <= to_Q r / to_Q d)%Q).
  { apply Qle_shift_div_l; [exact Hdpos|]. lra. }
  assert (Ht1 : (to_Q r / to_Q d <= pow2 128)%Q).
  { apply Qle_shift_div_r; [exact Hdpos|].
    assert (E : (pow2 128 == pow2 64 * pow2 64)%Q) by (rewrite <- pow2_add; reflexivity).
    assert (E1 : (pow2 64 * pow2 (- 64) == 1)%Q) by (rewrite <- pow2_add; reflexivity).
    rewrite E. pose proof (pow2_pos 64). nra. }
  split; [apply Hq|]. split; [apply Hq|]. split.
  - apply (small_pow2 _ 128); [lia|].
    apply (Faithful_pow2_bound _ _ 128 Hq); [rewrite emin_value; lia|].
    apply Qabs_nonneg_le. split; assumption.
  - apply (Faithful_nonneg _ _ Hq Ht0).
Qed.

Lemma km_facts (c : f64) :
  is_finite c = true -> valid c = true -> (pow2 (- 64) <= to_Q c <= 1)%Q ->
  let km := mul lenOfADegreeOfLng c in
  is_finite km = true /\ valid km = true /\ (pow2 (- 64) <= to_Q km <= pow2 7)%Q.
Proof.
  intros Hfc Hvc [Hc0 Hc1] km.
  destruct lng_degree_facts as (Hf & Hv & Hs & _ & Hb0 & Hb1).
  pose proof (pow2_pos (- 64)) as Hp64.
  assert (Hcs : small c).
  { apply (small_pow2 c 0); [lia|apply Qabs_nonneg_le]. change (pow2 0) with 1%Q. lra. }
  pose proof (mul_faithful lenOfADegreeOfLng c Hf Hfc Hv Hvc Hs Hcs) as Hm.
  split; [apply Hm|]. split; [apply Hm|].
  destruct Hm as (_ & _ & Hbr).
  assert (E0 : (dy 1 (- 64) == pow2 (- 64))%Q) by (unfold dy; ring).
  assert (E1 : (dy 1 7 == pow2 7)%Q) by (unfold dy; ring).
  split.
  - destruct (Hbr 1 (- 64)) as [H _]; [reflexivity|rewrite emin_value; lia|].
    rewrite E0 in H. apply H. nra.
  - destruct (Hbr 1 7) as [_ H]; [reflexivity|rewrite emin_value; lia|].
    rewrite E1 in H. apply H. change (pow2 7) with 128%Q. nra.
Qed.

Lemma box_offsets (Cos : f64 -> f64) (Pi lat lng r : f64) :
  is_finite lat = true -> valid lat = true -> (Qabs (to_Q lat) <= pow2 64)%Q ->
  is_finite lng = true -> valid lng = true -> (Qabs (to_Q lng) <= pow2 64)%Q ->
  is_finite r = true -> valid r = true ->
  (to_Q r == 0 \/ pow2 (- 64) <= to_Q r)%Q -> (to_Q r <= pow2 64)%Q ->
  is_finite (Cos (mul (div lat (of_Z 180)) Pi)) = true ->
  valid (Cos (mul (div lat (of_Z 180)) Pi)) = true ->
  (pow2 (- 64) <= to_Q (Cos (mul (div lat (of_Z 180)) Pi)) <= 1)%Q ->
  (to_Q (sub lat (deltaLat r)) <= to_Q lat <= to_Q (add lat (deltaLat r)))%Q
  /\ (to_Q (sub lng (deltaLng Cos Pi lat r)) <= to_Q lng
      <= to_Q (add lng (deltaLng Cos Pi lat r)))%Q.
Proof.
  intros Hflat Hvlat Hblat Hflng Hvlng Hblng Hfr Hvr Hr0 Hr1 Hfc Hvc Hc.
  assert (Hslat : small lat) by (apply (small_pow2 lat 64); [lia|exact Hblat]).
  assert (Hslng : small lng) by (apply (small_pow2 lng 64); [lia|exact Hblng]).
  split.
  - destruct lat_degree_facts as (Hf & Hv & _ & _ & Hb0 & Hb1).
    destruct (delta_facts r lenOfADegreeOfLat Hfr Hvr Hr0 Hr1 Hf Hv) as (Hdf & Hdv & Hds & Hd0).
    { pose proof (pow2_neg_le_1 64 ltac:(lia)). change (pow2 7) with 128%Q. lra. }
    apply offset_bracket; assumption.
  - destruct (km_facts _ Hfc Hvc Hc) as (Hkf & Hkv & Hkb).
    destruct (delta_facts r _ Hfr Hvr Hr0 Hr1 Hkf Hkv Hkb) as (Hdf & Hdv & Hds & Hd0).
    unfold deltaLng. apply offset_bracket; assumption.
Qed.

End BoxFacts.

(** ** Rounding to nearest *)

Module NearestFacts.
Import F64Facts.

Lemma shr_iter_round (n : nat) (m : Z) (r s : bool) :
  0 <= m ->
  let mrs := Nat.iter (S n) shr_1 (Build_shr_record m r s) in
  shr_r mrs = Z.odd (m / 2 ^ Z.of_nat n)
  /\ (shr_s mrs = false -> r = false /\ s = false /\ m mod 2 ^ Z.of_nat n = 0).
Proof.
  intros Hm. induction n as [|n IH].
  - cbn [Nat.iter]. rewrite shr_1_spec by exact Hm. cbn [shr_r shr_s].
    change (2 ^ Z.of_nat 0) with 1. rewrite Z.div_1_r, Z.mod_1_r.
    split; [reflexivity|]. intros H. apply orb_false_iff in H. tauto.
  - cbn zeta in IH |- *. rewrite Nat.iter_succ.
    destruct (shr_iter_spec (S n) m r s Hm) as [Hq _]. cbn zeta in Hq.
    destruct (Nat.iter (S n) shr_1 (Build_shr_record m r s)) as [m' r' s'].
    cbn [shr_m shr_r shr_s] in IH, Hq. destruct IH as [IHr IHs]. subst m'.
    assert (H2n : 0 < 2 ^ Z.of_nat n) by (apply Z.pow_pos_nonneg; lia).
    assert (H2s : 0 < 2 ^ Z.of_nat (S n)) by (apply Z.pow_pos_nonneg; lia).
    rewrite shr_1_spec by (apply Z.div_pos; lia).
    cbn [shr_r shr_s]. split; [reflexivity|].
    intros H. apply orb_false_iff in H. destruct H as [Hr' Hs'].
    destruct (IHs Hs') as (Hr0 & Hs0 & Hmod).
    split; [exact Hr0|]. split; [exact Hs0|].
    subst r'. rewrite Nat2Z.inj_succ, Z.pow_succ_r by lia.
    pose proof (Z.div_mod m (2 ^ Z.of_nat n) ltac:(lia)) as Hdm. rewrite Hmod in Hdm.
    assert (He : Z.even (m / 2 ^ Z.of_nat n) = true)
      by (rewrite <- Z.negb_odd, Hr'; reflexivity).
    apply Z.even_spec in He. destruct He as [k Hk].
    apply Z.mod_divide; [lia|]. exists k. lia.
Qed.

Lemma loc_of_record_of_loc (m : Z) (l : location) :
  loc_of_shr_record (shr_record_of_loc m l) = l
  /\ shr_m (shr_record_of_loc m l) = m.
Proof. destruct l as [|[]]; split; reflexivity. Qed.

Lemma record_exact (m : Z) (l : location) (r s : bool) :
  shr_record_of_loc m l = Build_shr_record m r s -> r = false -> s = false -> l = loc_Exact.
Proof. destruct l as [|[]]; cbn; intros H Hr Hs; inversion H; congruence. Qed.

Lemma pow2_succ (e : Z) : (pow2 e == pow2 (e - 1) * 2)%Q.
Proof.
  replace e with (e - 1 + 1) at 1 by lia. rewrite pow2_add. reflexivity.
Qed.

Lemma half_value (q e : Z) :
  (dy (2 * q + 1) (e - 1) * 2 == dy q e + dy (q + 1) e)%Q.
Proof.
  unfold dy. rewrite (pow2_succ e), !inject_Z_plus, !inject_Z_mult.
  change (inject_Z 2) with 2%Q. change (inject_Z 1) with 1%Q. ring.
Qed.

Lemma Closest_ext (r : f64) (t t' : Q) : (t == t')%Q -> Closest r t -> Closest r t'.
Proof. intros E H F c HF Hc. rewrite <- E. apply H; assumption. Qed.

Lemma Closest_exact (r : f64) (t : Q) : (to_Q r == t)%Q -> Closest r t.
Proof.
  intros E F c _ _. rewrite E.
  setoid_replace (t - t)%Q with 0%Q by ring. apply Qabs_nonneg.
Qed.

(** The mantissa chosen by [binary_round_aux] lies on the side of the
    middle of the interval where the exact value is. *)
Lemma binary_round_aux_half (sx : bool) (mx ex : Z) (lx : location) (t : Q) :
  0 < mx ->
  let e1 := fexp prec emax (Zdigits2 mx + ex) in
  ex <= e1 ->
  let q := mx / 2 ^ (e1 - ex) in
  (dy mx ex <= t)%Q -> (t < dy (mx + 1) ex)%Q -> located lx mx ex t ->
  exists M,
    ((M = q /\ (t <= dy (2 * q + 1) (e1 - 1))%Q)
     \/ (M = q + 1 /\ (dy (2 * q + 1) (e1 - 1) <= t)%Q))
    /\ binary_round_aux prec emax sx mx ex lx
       = pack sx (fst (renorm M e1)) (snd (renorm M e1)).
Proof.
  intros Hmx e1 He q Hlo Hhi Hloc.
  destruct (binary_round_aux_spec sx mx ex lx Hmx He) as (Hq53 & _ & _).
  fold e1 in Hq53. fold q in Hq53.
  assert (He1 : emin <= e1) by (unfold e1; rewrite fexp_value, emin_value; lia).
  assert (Hq0 : 0 <= q) by (apply Z.div_pos; [lia|apply Z.pow_pos_nonneg; lia]).
  assert (Hside : forall mrs,
            shr_m mrs = q ->
            (shr_r mrs = false -> (t <= dy (2 * q + 1) (e1 - 1))%Q) ->
            (shr_r mrs = true -> (dy (2 * q + 1) (e1 - 1) <= t)%Q) ->
            (shr_r mrs = true -> shr_s mrs = false -> (t <= dy (2 * q + 1) (e1 - 1))%Q) ->
            let M := round_nearest_even (shr_m mrs) (loc_of_shr_record mrs) in
            (M = q /\ (t <= dy (2 * q + 1) (e1 - 1))%Q)
            \/ (M = q + 1 /\ (dy (2 * q + 1) (e1 - 1) <= t)%Q)).
  { intros [m r s]. cbn [shr_m shr_r shr_s]. intros -> Hr0 Hr1 Hrs.
    destruct r, s; cbn [loc_of_shr_record round_nearest_even].
    - right. split; [reflexivity|apply Hr1; reflexivity].
    - destruct (Z.even q).
      + left. split; [reflexivity|apply Hrs; reflexivity].
      + right. split; [reflexivity|apply Hr1; reflexivity].
    - left. split; [reflexivity|apply Hr0; reflexivity].
    - left. split; [reflexivity|apply Hr0; reflexivity]. }
  assert (Hrec : exists mrs,
            fst (shr_fexp prec emax mx ex lx) = mrs
            /\ snd (shr_fexp prec emax mx ex lx) = e1
            /\ shr_m mrs = q
            /\ (shr_r mrs = false -> (t <= dy (2 * q + 1) (e1 - 1))%Q)
            /\ (shr_r mrs = true -> (dy (2 * q + 1) (e1 - 1) <= t)%Q)
            /\ (shr_r mrs = true -> shr_s mrs = false
                -> (t <= dy (2 * q + 1) (e1 - 1))%Q)).
  { assert (Eq0 : q = mx / 2 ^ (e1 - ex)) by reflexivity.
    clear Hside. clearbody q.
    unfold shr_fexp, shr. fold e1.
    destruct (e1 - ex) as [|p|p] eqn:En; [| |lia].
    - (* no shift *)
      assert (E : e1 = ex) by lia.
      assert (Eq : q = mx) by (rewrite Eq0, Z.pow_0_r, Z.div_1_r; reflexivity).
      exists (shr_record_of_loc mx lx). cbn [fst snd].
      split; [reflexivity|]. split; [lia|].
      rewrite Eq, E.
      pose proof (half_value mx ex) as Hh.
      destruct lx as [|[]]; cbn [shr_record_of_loc shr_m shr_r shr_s located] in *;
        (split; [reflexivity|]); repeat split; intros; try discriminate; lra.
    - (* a shift by [p] *)
      cbn [fst snd]. rewrite iter_pos_nat.
      destruct (shr_record_of_loc_spec mx lx) as (r0 & s0 & Hrec0 & _).
      rewrite Hrec0.
      destruct (Pos.to_nat p) as [|n] eqn:Ep; [lia|].
      assert (Hn : Z.pos p = Z.of_nat n + 1) by lia.
      destruct (shr_iter_spec (S n) mx r0 s0) as [Hm _]; [lia|]. cbn zeta in Hm.
      destruct (shr_iter_round n mx r0 s0) as [Hr Hs]; [lia|]. cbn zeta in Hr, Hs.
      set (mrs := Nat.iter (S n) shr_1 (Build_shr_record mx r0 s0)) in *.
      exists mrs. split; [reflexivity|]. split; [lia|].
      assert (H2n : 0 < 2 ^ Z.of_nat n) by (apply Z.pow_pos_nonneg; lia).
      set (h := mx / 2 ^ Z.of_nat n) in *.
      assert (Hqh : q = h / 2).
      { rewrite Eq0. unfold h. rewrite Hn, Z.pow_add_r, Z.pow_1_r by lia.
        rewrite Z.div_div by lia. reflexivity. }
      assert (Hmq : shr_m mrs = q).
      { rewrite Hm, Eq0. f_equal. f_equal. lia. }
      split; [exact Hmq|].
      pose proof (Z.div_mod mx (2 ^ Z.of_nat n) ltac:(lia)) as Hdm. fold h in Hdm.
      pose proof (Z.mod_pos_bound mx (2 ^ Z.of_nat n) H2n) as Hrem.
      pose proof (Z.div_mod h 2 ltac:(lia)) as Hh2. rewrite <- Hqh in Hh2.
      assert (Hmid : (dy (2 * q + 1) (e1 - 1) == dy ((2 * q + 1) * 2 ^ Z.of_nat n) ex)%Q).
      { rewrite dy_shift by lia. replace (ex + Z.of_nat n) with (e1 - 1) by lia.
        reflexivity. }
      split; [|split].
      + intros Hr0. rewrite Hr in Hr0.
        assert (Hev : h = 2 * q).
        { rewrite Z.mod_eq in Hh2 by lia.
          assert (Z.even h = true) by (rewrite <- Z.negb_odd, Hr0; reflexivity).
          apply Z.even_spec in H. destruct H as [k Hk]. rewrite Hk in Hqh.
          rewrite (Z.mul_comm 2 k), Z.div_mul in Hqh by lia. lia. }
        apply Qlt_le_weak. eapply Qlt_le_trans; [exact Hhi|].
        rewrite Hmid. apply dy_le. nia.
      + intros Hr1. rewrite Hr in Hr1.
        assert (Hod : h = 2 * q + 1).
        { apply Z.odd_spec in Hr1. destruct Hr1 as [k Hk]. rewrite Hk in Hqh.
          replace ((2 * k + 1) / 2) with k in Hqh by (apply Z.div_unique with 1; lia). lia. }
        eapply Qle_trans; [|exact Hlo]. rewrite Hmid. apply dy_le. nia.
      + intros Hr1 Hs0. rewrite Hr in Hr1.
        assert (Hod : h = 2 * q + 1).
        { apply Z.odd_spec in Hr1. destruct Hr1 as [k Hk]. rewrite Hk in Hqh.
          replace ((2 * k + 1) / 2) with k in Hqh by (apply Z.div_unique with 1; lia). lia. }
        destruct (Hs Hs0) as (Hr00 & Hs00 & Hmod).
        pose proof (record_exact mx lx r0 s0 Hrec0 Hr00 Hs00) as Hex. subst lx.
        cbn [located] in Hloc. rewrite Hloc, Hmid. apply dy_le. nia. }
  destruct Hrec as (mrs' & Hfst & Hsnd & Hm & Hr0 & Hr1 & Hrs).
  pose proof (Hside mrs' Hm Hr0 Hr1 Hrs) as HM. cbn zeta in HM.
  unfold binary_round_aux.
  destruct (shr_fexp prec emax mx ex lx) as [mrs0 e'].
  cbn [fst snd] in Hfst, Hsnd. subst mrs0 e'.
  set (M := round_nearest_even (shr_m mrs') (loc_of_shr_record mrs')) in *.
  assert (HMr : 0 <= M <= 2 ^ 53) by (destruct HM as [[-> _]|[-> _]]; lia).
  pose proof (shr_fexp_renorm M e1 HMr He1) as Hre. cbn zeta in Hre.
  destruct (shr_fexp prec emax M e1 loc_Exact) as [mrs'' e''].
  cbn [fst snd] in Hre.
  exists M. split; [exact HM|]. rewrite <- Hre. reflexivity.
Qed.

Lemma Qabs_le_cases (a b : Q) :
  ((a <= b)%Q /\ (- b <= a)%Q) \/ ((a <= - b)%Q /\ (b <= a)%Q) -> (Qabs a <= Qabs b)%Q.
Proof.
  intros H. apply Qabs_Qle_condition.
  destruct (Qlt_le_dec b 0) as [Hb|Hb].
  - rewrite (Qabs_neg b) by lra. destruct H as [[H1 H2]|[H1 H2]]; split; lra.
  - rewrite (Qabs_pos b) by lra. destruct H as [[H1 H2]|[H1 H2]]; split; lra.
Qed.

(** Among the representable numbers, the one with the mantissa chosen on
    the side of the middle is closest to the exact value. *)
Lemma closest_core (q M e1 : Z) (t : Q) (G c : Z) :
  0 <= q -> (e1 = emin \/ 2 ^ 52 <= q) ->
  (dy q e1 <= t)%Q -> (t < dy (q + 1) e1)%Q ->
  ((M = q /\ (t <= dy (2 * q + 1) (e1 - 1))%Q)
   \/ (M = q + 1 /\ (dy (2 * q + 1) (e1 - 1) <= t)%Q)) ->
  Z.abs G < 2 ^ 53 -> emin <= c ->
  (Qabs (dy M e1 - t) <= Qabs (dy G c - t))%Q.
Proof.
  intros Hq Hnorm Hlo Hhi HM HG Hc.
  pose proof (half_value q e1) as Hh.
  assert (Hq0 : (0 <= dy q e1)%Q) by (rewrite <- (dy_0 e1); apply dy_le; exact Hq).
  apply Qabs_le_cases.
  destruct (Z.le_gt_cases 0 G) as [Hpos|Hneg].
  - assert (HG' : 0 <= G < 2 ^ 53) by lia.
    destruct (pack_bracket q q e1 t G c Hq Hnorm (or_introl eq_refl) Hlo Hhi HG' Hc)
      as [Hbelow _].
    assert (Habove : (dy q e1 < t)%Q -> (t <= dy G c)%Q -> (dy (q + 1) e1 <= dy G c)%Q).
    { intros Hlt. apply (pack_bracket q (q + 1) e1 t G c Hq Hnorm); try assumption.
      right. split; [reflexivity|exact Hlt]. }
    destruct (Qlt_le_dec t (dy G c)) as [Hgt|Hle].
    + (* the other number is above the exact value *)
      destruct (Qlt_le_dec (dy q e1) t) as [Hin|Hout].
      * pose proof (Habove Hin (Qlt_le_weak _ _ Hgt)) as Hup.
        destruct HM as [[-> Hmid]|[-> Hmid]]; left; split; lra.
      * destruct HM as [[-> Hmid]|[-> Hmid]]; [left; split; lra|].
        exfalso. lra.
    + (* the other number is not above the exact value *)
      pose proof (Hbelow Hle) as Hdown.
      destruct HM as [[-> Hmid]|[-> Hmid]]; right; split; lra.
  - assert (Hg : (dy G c < 0)%Q) by (rewrite <- (dy_0 c); apply dy_lt; exact Hneg).
    destruct HM as [[-> Hmid]|[-> Hmid]]; right; split; lra.
Qed.

Lemma Qabs_signed (sx : bool) (v t : Q) :
  (Qabs (signed sx v - signed sx t) == Qabs (v - t))%Q.
Proof.
  destruct sx; cbn [signed]; [|reflexivity].
  setoid_replace (- v - - t)%Q with (- (v - t))%Q by ring. apply Qabs_opp.
Qed.

(** [binary_round_aux] rounds to a nearest representable number. *)
Lemma round_aux_closest (sx : bool) (mx ex : Z) (lx : location) (t : Q) :
  0 < mx ->
  ex <= fexp prec emax (Zdigits2 mx + ex) ->
  fexp prec emax (Zdigits2 mx + ex) + 1 <= emax - prec ->
  (dy mx ex <= t)%Q -> (t < dy (mx + 1) ex)%Q -> located lx mx ex t ->
  Closest (binary_round_aux prec emax sx mx ex lx) (signed sx t).
Proof.
  intros Hmx He Hov Hlo Hhi Hloc.
  destruct (binary_round_aux_spec sx mx ex lx Hmx He) as (Hq & Hnorm & _).
  destruct (binary_round_aux_half sx mx ex lx t Hmx He Hlo Hhi Hloc) as (M & HM & Heq).
  set (e1 := fexp prec emax (Zdigits2 mx + ex)) in *.
  set (q := mx / 2 ^ (e1 - ex)) in *.
  assert (He1 : emin <= e1) by (unfold e1; rewrite fexp_value, emin_value; lia).
  assert (H2n : 0 < 2 ^ (e1 - ex)) by (apply Z.pow_pos_nonneg; lia).
  assert (Hq0 : 0 <= q) by (apply Z.div_pos; lia).
  assert (Hdm : q * 2 ^ (e1 - ex) <= mx < (q + 1) * 2 ^ (e1 - ex)).
  { pose proof (Z.div_mod mx (2 ^ (e1 - ex))) as Hdm.
    pose proof (Z.mod_pos_bound mx (2 ^ (e1 - ex)) H2n). fold q in Hdm. nia. }
  assert (Hqlo : (dy q e1 <= t)%Q).
  { rewrite (dy_align q e1 ex He). eapply Qle_trans; [|exact Hlo]. apply dy_le. lia. }
  assert (Hqhi : (t < dy (q + 1) e1)%Q).
  { rewrite (dy_align (q + 1) e1 ex He). eapply Qlt_le_trans; [exact Hhi|].
    apply dy_le. lia. }
  assert (HM0 : 0 <= M) by (destruct HM as [[-> _]|[-> _]]; lia).
  intros F c HF Hc. rewrite Heq, pack_value, cond_Zopp_signed, Qabs_signed by lia.
  destruct sx; cbn [signed].
  - setoid_replace (dy F c - - t)%Q with (- (dy (- F) c - t))%Q by (rewrite dy_opp; ring).
    rewrite Qabs_opp.
    apply (closest_core q M e1 t (- F) c); try assumption. lia.
  - apply (closest_core q M e1 t F c); assumption.
Qed.

Lemma binary_round_closest (sx : bool) (mx : positive) (ex : Z) :
  Zdigits2 (Zpos mx) + ex <= 1000 ->
  Closest (binary_round prec emax sx mx ex) (signed sx (dy (Zpos mx) ex)).
Proof.
  intros Hmag. unfold binary_round.
  pose proof (shl_align_spec mx ex (fexp prec emax (Zpos (digits2_pos mx) + ex))) as Hal.
  destruct (shl_align mx ex (fexp prec emax (Zpos (digits2_pos mx) + ex))) as [mz ez].
  cbn [fst snd] in Hal. destruct Hal as (Hle & Hle' & Hor & Hmz).
  change (Zpos (digits2_pos mx)) with (Zdigits2 (Zpos mx)) in *.
  assert (Hd : Zdigits2 (Zpos mz) + ez = Zdigits2 (Zpos mx) + ex).
  { rewrite Hmz, Zdigits2_mul_pow2 by lia. lia. }
  assert (Hval : (dy (Zpos mx) ex == dy (Zpos mz) ez)%Q).
  { rewrite Hmz. apply dy_align. exact Hle. }
  apply Closest_ext with (signed sx (dy (Zpos mz) ez));
    [unfold signed; destruct sx; rewrite Hval; reflexivity|].
  apply round_aux_closest.
  - lia.
  - rewrite Hd. exact Hle'.
  - rewrite Hd, fexp_value. unfold emax, prec. lia.
  - apply Qle_refl.
  - apply dy_lt. lia.
  - cbn [located]. reflexivity.
Qed.

Lemma binary_normalize_closest (S e : Z) :
  Zdigits2 S + e <= 1000 ->
  Closest (binary_normalize prec emax S e false) (dy S e).
Proof.
  intros Hmag. destruct S as [|p|p]; cbn [binary_normalize].
  - apply Closest_exact. cbn [to_Q]. rewrite dy_0. reflexivity.
  - apply (binary_round_closest false p e Hmag).
  - apply Closest_ext with (signed true (dy (Zpos p) e)).
    + cbn [signed]. change (Zneg p) with (- Zpos p). rewrite dy_opp. reflexivity.
    + apply (binary_round_closest true p e Hmag).
Qed.

Lemma sub_closest (x y : f64) :
  is_finite x = true -> is_finite y = true -> valid x = true -> valid y = true ->
  small x -> small y -> Closest (sub x y) (to_Q x - to_Q y).
Proof.
  intros Hfx Hfy Hvx Hvy Hsx Hsy.
  destruct x as [sx| |  |sx mx ex]; try discriminate Hfx;
    destruct y as [sy| | |sy my ey]; try discriminate Hfy.
  - apply Closest_exact. rewrite !to_Q_zero. unfold sub, SFsub.
    destruct sx, sy; cbn [to_Q]; ring.
  - apply Closest_exact. unfold sub, SFsub.
    rewrite to_Q_zero, !to_Q_finite. unfold smant.
    destruct sy; cbn [negb cond_Zopp];
      change (Zneg my) with (- Zpos my); rewrite dy_opp; ring.
  - apply Closest_exact. unfold sub, SFsub. rewrite to_Q_zero. ring.
  - unfold sub, SFsub.
    destruct (aligned_mantissa sx mx ex (Z.min ex ey)) as (Ha & Habs & Hez); [lia|assumption|].
    destruct (aligned_mantissa sy my ey (Z.min ex ey)) as (Hb & Hbbs & _); [lia|assumption|].
    cbn zeta in Ha, Hb, Habs, Hbbs.
    set (a := cond_Zopp sx (Zpos (fst (shl_align mx ex (Z.min ex ey))))) in *.
    set (b := cond_Zopp sy (Zpos (fst (shl_align my ey (Z.min ex ey))))) in *.
    set (ez := Z.min ex ey) in *.
    assert (Hpow : 2 ^ (401 - ez) = 2 * 2 ^ (400 - ez)).
    { replace (401 - ez) with (Z.succ (400 - ez)) by lia. apply Z.pow_succ_r. lia. }
    apply Closest_ext with (dy (a - b) ez).
    + unfold Z.sub. rewrite dy_add, dy_opp, Ha, Hb. reflexivity.
    + apply binary_normalize_closest.
      assert (Zdigits2 (a - b) <= 401 - ez) by (apply Zdigits2_abs_le; lia). lia.
Qed.

(** The location computed from the remainder of a division places the
    exact quotient. *)
Lemma new_location_located (my r q e f : Z) (t : Q) :
  0 < my -> 0 <= r < my -> (t * dy my f == dy (q * my + r) (e + f))%Q ->
  located (new_location my r) q e t.
Proof.
  intros Hmy Hr Ht.
  assert (HY : (0 < dy my f)%Q) by (rewrite <- (dy_0 f); apply dy_lt; exact Hmy).
  assert (Hmid : (dy (2 * q + 1) (e - 1) * dy my f == dy ((2 * q + 1) * my) (e + f - 1))%Q).
  { rewrite <- dy_mul. replace (e - 1 + f) with (e + f - 1) by lia. reflexivity. }
  assert (Hnum : (dy (q * my + r) (e + f) == dy (2 * (q * my + r)) (e + f - 1))%Q).
  { rewrite (dy_align (q * my + r) (e + f) (e + f - 1)) by lia.
    replace (e + f - (e + f - 1)) with 1 by lia. change (2 ^ 1) with 2.
    replace ((q * my + r) * 2) with (2 * (q * my + r)) by lia. reflexivity. }
  assert (Hlt : 2 * r < my -> (t < dy (2 * q + 1) (e - 1))%Q).
  { intros H. apply (Qmult_lt_r _ _ (dy my f) HY). rewrite Ht, Hmid, Hnum.
    apply dy_lt. lia. }
  assert (Hgt : my < 2 * r -> (dy (2 * q + 1) (e - 1) < t)%Q).
  { intros H. apply (Qmult_lt_r _ _ (dy my f) HY). rewrite Ht, Hmid, Hnum.
    apply dy_lt. lia. }
  assert (Heq : 2 * r = my -> (t == dy (2 * q + 1) (e - 1))%Q).
  { intros H. apply (Qmult_inj_r _ _ (dy my f)); [lra|]. rewrite Ht, Hmid, Hnum.
    replace (2 * (q * my + r)) with ((2 * q + 1) * my) by lia. reflexivity. }
  unfold new_location. destruct (Z.even my) eqn:Hev.
  - unfold new_location_even. destruct (Z.eqb_spec r 0) as [->|Hnz].
    + cbn [located]. apply (Qmult_inj_r _ _ (dy my f)); [lra|]. rewrite Ht, <- dy_mul.
      replace (q * my + 0) with (q * my) by lia. reflexivity.
    + destruct (Z.compare_spec (2 * r) my) as [E|E|E]; cbn [located]; auto.
  - unfold new_location_odd. destruct (Z.eqb_spec r 0) as [->|Hnz].
    + cbn [located]. apply (Qmult_inj_r _ _ (dy my f)); [lra|]. rewrite Ht, <- dy_mul.
      replace (q * my + 0) with (q * my) by lia. reflexivity.
    + assert (Hne : 2 * r <> my).
      { intros E. rewrite <- E, Z.even_mul in Hev. discriminate Hev. }
      destruct (Z.compare_spec (2 * r + 1) my) as [E|E|E]; cbn [located];
        [apply Hlt; lia|apply Hlt; lia|apply Hgt; lia].
Qed.

Lemma div_closest (sx sy : bool) (mx my : positive) (ex ey : Z) :
  let x := S754_finite sx mx ex in
  let y := S754_finite sy my ey in
  small x -> large x -> small y -> large y ->
  Closest (div x y) (to_Q x / to_Q y).
Proof.
  intros x y Hsx Hlx Hsy Hly.
  apply mag_small in Hsx, Hsy. apply mag_large in Hlx, Hly.
  destruct (Zdigits2_bounds (Zpos mx)) as [Hdx [Hxlo Hxhi]]; [lia|].
  destruct (Zdigits2_bounds (Zpos my)) as [Hdy [Hylo Hyhi]]; [lia|].
  apply Closest_ext with (signed (xorb sx sy) (dy (Zpos mx) ex / dy (Zpos my) ey));
    [apply smant_div|].
  unfold div, x, y, SFdiv, SFdiv_core_binary.
  set (d1 := Zdigits2 (Zpos mx)) in *. set (d2 := Zdigits2 (Zpos my)) in *.
  set (e' := Z.min (fexp prec emax (d1 + ex - (d2 + ey))) (ex - ey)).
  assert (He' : e' = Z.min (d1 + ex - (d2 + ey) - 53) (ex - ey))
    by (unfold e'; rewrite fexp_value; lia).
  set (s := ex - ey - e').
  assert (Hs : 0 <= s /\ 53 - d1 + d2 <= s) by (unfold s; lia).
  set (m' := match s with Z0 => Zpos mx | Zpos _ => Z.shiftl (Zpos mx) s | Zneg _ => 0 end).
  assert (Hm' : m' = Zpos mx * 2 ^ s).
  { unfold m'. destruct s as [|p|p] eqn:Es; [rewrite Z.pow_0_r; lia| |lia].
    apply Z.shiftl_mul_pow2. lia. }
  pose proof (Z_div_mod m' (Zpos my) eq_refl) as Hdm.
  destruct (Z.div_eucl m' (Zpos my)) as [q r]. destruct Hdm as [Hdm Hr].
  assert (H2s : 0 < 2 ^ s) by (apply Z.pow_pos_nonneg; lia).
  assert (Hm'lo : 2 ^ (52 + d2) <= m').
  { rewrite Hm'. apply Z.le_trans with (2 ^ (d1 - 1) * 2 ^ s).
    - rewrite <- Z.pow_add_r by lia. apply Z.pow_le_mono_r; lia.
    - apply Z.mul_le_mono_nonneg_r; lia. }
  assert (Hm'hi : m' < 2 ^ (d1 + s)).
  { rewrite Hm', Z.pow_add_r by lia. apply Z.mul_lt_mono_pos_r; assumption. }
  assert (Hq52 : 2 ^ 52 <= q).
  { assert (H : 2 ^ 52 * 2 ^ d2 <= m') by (rewrite <- Z.pow_add_r by lia; exact Hm'lo).
    assert (H52 : 0 < 2 ^ 52) by reflexivity. nia. }
  assert (Hqhi : q < 2 ^ (d1 + s - d2 + 1)).
  { assert (H : m' < 2 ^ (d1 + s - d2 + 1) * 2 ^ (d2 - 1)).
    { rewrite <- Z.pow_add_r by lia. replace (d1 + s - d2 + 1 + (d2 - 1)) with (d1 + s) by lia.
      exact Hm'hi. }
    assert (0 < 2 ^ (d1 + s - d2 + 1)) by (apply Z.pow_pos_nonneg; lia).
    assert (0 < 2 ^ (d2 - 1)) by (apply Z.pow_pos_nonneg; lia).
    nia. }
  assert (Hq0 : 0 < q) by (assert (0 < 2 ^ 52) by reflexivity; lia).
  assert (Hdq1 : 53 <= Zdigits2 q) by (apply Zdigits2_ge; [lia|exact Hq52]).
  assert (Hdq2 : Zdigits2 q <= d1 + s - d2 + 1) by (apply Zdigits2_le; lia).
  assert (HY : (0 < dy (Zpos my) ey)%Q) by (rewrite <- (dy_0 ey); apply dy_lt; lia).
  assert (HX : (dy (Zpos mx) ex == dy m' (e' + ey))%Q).
  { rewrite Hm', dy_shift by lia. replace (e' + ey + s) with ex by (unfold s; lia).
    reflexivity. }
  apply round_aux_closest.
  - exact Hq0.
  - rewrite fexp_value. lia.
  - rewrite fexp_value. unfold emax, prec. lia.
  - apply Qle_shift_div_l; [exact HY|].
    rewrite <- dy_mul, HX. apply dy_le. nia.
  - apply Qlt_shift_div_r; [exact HY|].
    rewrite <- dy_mul, HX. apply dy_lt. nia.
  - apply (new_location_located (Zpos my) r q e' ey); [lia|lia|].
    rewrite HX. replace (q * Zpos my + r) with m' by lia.
    field. intros H0. rewrite H0 in HY. apply (Qlt_irrefl 0), HY.
Qed.

End NearestFacts.

(** ** Monotonicity of the fraction of a coordinate *)

Module MonotoneFacts.
Import F64Facts RoundTripFacts CompareFacts BoxFacts GridFacts NearestFacts.

Lemma closer_to_upper (a b t : Q) :
  (b < a)%Q -> (Qabs (a - t) <= Qabs (b - t))%Q -> (a + b <= 2 * t)%Q.
Proof.
  intros Hba H. apply Qabs_Qle_condition in H. destruct H as [_ H].
  destruct (Qlt_le_dec (b - t) 0) as [Hn|Hp].
  - rewrite (Qabs_neg (b - t)) in H by lra. lra.
  - rewrite (Qabs_pos (b - t)) in H by lra. lra.
Qed.

Lemma closer_to_lower (a b t : Q) :
  (b < a)%Q -> (Qabs (b - t) <= Qabs (a - t))%Q -> (2 * t <= a + b)%Q.
Proof.
  intros Hba H. apply Qabs_Qle_condition in H. destruct H as [H _].
  destruct (Qlt_le_dec (a - t) 0) as [Hn|Hp].
  - rewrite (Qabs_neg (a - t)) in H by lra. lra.
  - rewrite (Qabs_pos (a - t)) in H by lra. lra.
Qed.

(** Rounding to nearest is monotone. *)
Lemma closest_le (r1 r2 : f64) (t1 t2 : Q) :
  is_finite r1 = true -> valid r1 = true -> is_finite r2 = true -> valid r2 = true ->
  Closest r1 t1 -> Closest r2 t2 -> (t1 < t2)%Q -> (to_Q r1 <= to_Q r2)%Q.
Proof.
  intros Hf1 Hv1 Hf2 Hv2 H1 H2 Ht.
  destruct (Qlt_le_dec (to_Q r2) (to_Q r1)) as [Hlt|Hle]; [exfalso|exact Hle].
  destruct (valid_representable r1 Hf1 Hv1) as (F1 & c1 & HF1 & Hc1 & E1).
  destruct (valid_representable r2 Hf2 Hv2) as (F2 & c2 & HF2 & Hc2 & E2).
  pose proof (H1 F2 c2 HF2 Hc2) as Ha. rewrite <- E2 in Ha.
  pose proof (H2 F1 c1 HF1 Hc1) as Hb. rewrite <- E1 in Hb.
  pose proof (closer_to_upper _ _ _ Hlt Ha). pose proof (closer_to_lower _ _ _ Hlt Hb).
  lra.
Qed.

(** Two valid finite numbers of the same value are the same number, or
    two zeros. *)
Lemma same_value (x y : f64) :
  is_finite x = true -> valid x = true -> is_finite y = true -> valid y = true ->
  (to_Q x == to_Q y)%Q ->
  x = y \/ (exists s s', x = S754_zero s /\ y = S754_zero s').
Proof.
  intros Hfx Hvx Hfy Hvy E.
  destruct x as [sx| | |sx mx ex]; try discriminate Hfx;
    destruct y as [sy| | |sy my ey]; try discriminate Hfy.
  - right. exists sx, sy. split; reflexivity.
  - exfalso. rewrite to_Q_zero in E. destruct sy.
    + pose proof (to_Q_negative my ey). lra.
    + pose proof (to_Q_positive my ey). lra.
  - exfalso. rewrite to_Q_zero in E. destruct sx.
    + pose proof (to_Q_negative mx ex). lra.
    + pose proof (to_Q_positive mx ex). lra.
  - left.
    assert (Hs : sx = sy).
    { destruct sx, sy; try reflexivity; exfalso.
      - pose proof (to_Q_negative mx ex). pose proof (to_Q_positive my ey). lra.
      - pose proof (to_Q_positive mx ex). pose proof (to_Q_negative my ey). lra. }
    subst sy.
    assert (Epos : (dy (Zpos mx) ex == dy (Zpos my) ey)%Q).
    { destruct sx.
      - rewrite (to_Q_flip mx), (to_Q_flip my), !to_Q_finite in E.
        cbn [smant cond_Zopp] in E. lra.
      - rewrite !to_Q_finite in E. exact E. }
    rewrite (valid_flip sx) in Hvx, Hvy.
    assert (He : ex = ey).
    { destruct (Z.lt_trichotomy ex ey) as [H|[H|H]]; [exfalso|exact H|exfalso].
      - pose proof (lower_exponent_smaller mx my ex ey Hvx Hvy H). lra.
      - pose proof (lower_exponent_smaller my mx ey ex Hvy Hvx H). lra. }
    subst ey. apply dy_inj in Epos. congruence.
Qed.

Section Fraction.

Variable L : Z.
Hypothesis HL : 65 <= L <= 2 ^ 19.

(** The two roundings of the fraction of a coordinate. *)
Lemma fraction_steps (x : f64) :
  is_finite x = true -> valid x = true ->
  (- inject_Z L <= to_Q x <= inject_Z L)%Q ->
  let y := sub x (of_Z (- L)) in
  let v := div y (of_Z (2 * L)) in
  is_finite y = true /\ valid y = true /\ Closest y (to_Q x + inject_Z L)
  /\ is_finite v = true /\ valid v = true /\ (0 <= to_Q v)%Q
  /\ Closest v (to_Q y / inject_Z (2 * L)).
Proof.
  intros Hf Hv [Hxlo Hxhi] y v.
  destruct (L_bounds L HL) as [HmL H2L].
  destruct (of_Z_facts (- L) HmL) as (Hlof & Hlov & HloQ & Hlos & _).
  destruct (of_Z_facts (2 * L) H2L)
    as (Hspf & Hspv & HspQ & Hsps & Hspl & ssp & msp & esp & Esp).
  assert (H2Lpos : (0 < inject_Z (2 * L))%Q)
    by (change 0%Q with (inject_Z 0); rewrite <- Zlt_Qlt; lia).
  assert (HL53 : 0 <= L < 2 ^ 53)
    by (change (2 ^ 19) with 524288 in HL; change (2 ^ 53) with 9007199254740992; lia).
  assert (Hxs : small x) by (apply (bounded_small x L HL53); split; assumption).
  assert (Hy : Faithful y (to_Q x + inject_Z L)).
  { apply Faithful_ext with (to_Q x - to_Q (of_Z (- L)))%Q.
    - rewrite HloQ, inject_Z_opp. ring.
    - apply sub_faithful; assumption. }
  assert (Hyc : Closest y (to_Q x + inject_Z L)).
  { apply Closest_ext with (to_Q x - to_Q (of_Z (- L)))%Q.
    - rewrite HloQ, inject_Z_opp. ring.
    - apply sub_closest; assumption. }
  assert (Hyf : is_finite y = true) by apply Hy.
  assert (Hyv : valid y = true) by apply Hy.
  assert (Hyb : (0 <= to_Q y <= inject_Z (2 * L))%Q).
  { destruct Hy as (_ & _ & Hbr).
    destruct (Hbr 0 0) as [H0 _]; [reflexivity|rewrite emin_value; lia|].
    destruct (Hbr (2 * L) 0) as [_ H1]; [lia|rewrite emin_value; lia|].
    rewrite dy_0 in H0. rewrite dy_Z in H1.
    split; [apply H0; lra|apply H1]. rewrite inject_Z_mult. change (inject_Z 2) with 2%Q. lra. }
  split; [exact Hyf|]. split; [exact Hyv|]. split; [exact Hyc|].
  assert (Hys : small y).
  { apply (bounded_small _ (2 * L)); [lia|]. split; [|apply Hyb].
    rewrite <- inject_Z_opp.
    eapply Qle_trans; [|apply Hyb]. change 0%Q with (inject_Z 0).
    rewrite <- Zle_Qle. lia. }
  assert (Hyl : (to_Q y == 0)%Q \/ large y).
  { destruct (Qlt_le_dec 0 (to_Q y)) as [Hpos|Hle]; [right|left; lra].
    assert (Htpos : (0 < to_Q x + inject_Z L)%Q).
    { destruct (Qlt_le_dec 0 (to_Q x + inject_Z L)) as [|Hle]; [assumption|exfalso].
      destruct Hy as (_ & _ & Hbr).
      destruct (Hbr 0 0) as [_ H0]; [reflexivity|rewrite emin_value; lia|].
      rewrite dy_0 in H0. specialize (H0 Hle). lra. }
    apply (large_pow2 y (- 46)); [lia|].
    destruct Hy as (_ & _ & Hbr).
    destruct (Hbr 1 (- 46)) as [H1 _]; [reflexivity|rewrite emin_value; lia|].
    assert (E1 : (dy 1 (- 46) == pow2 (- 46))%Q) by (unfold dy; ring).
    rewrite E1 in H1. apply H1. apply (shifted_positive L HL); assumption. }
  assert (Hvf : Faithful v (to_Q y / inject_Z (2 * L))).
  { apply Faithful_ext with (to_Q y / to_Q (of_Z (2 * L)))%Q; [rewrite HspQ; reflexivity|].
    apply quotient_faithful; assumption. }
  split; [apply Hvf|]. split; [apply Hvf|]. split.
  - apply (Faithful_nonneg _ _ Hvf). apply Qle_shift_div_l; [exact H2Lpos|]. lra.
  - apply Closest_ext with (to_Q y / to_Q (of_Z (2 * L)))%Q; [rewrite HspQ; reflexivity|].
    unfold v. rewrite Esp in *.
    destruct y as [sy| | |sy my ey] eqn:Ey; try discriminate Hyf.
    + apply Closest_exact. rewrite div_zero, !to_Q_zero. unfold Qdiv. ring.
    + destruct Hyl as [H0|Hlarge]; [|apply div_closest; assumption].
      exfalso. destruct sy.
      * pose proof (to_Q_negative my ey). lra.
      * pose proof (to_Q_positive my ey). lra.
Qed.

(** The fraction of a coordinate grows with the coordinate. *)
Lemma fraction_le (x1 x2 : f64) :
  is_finite x1 = true -> valid x1 = true -> (- inject_Z L <= to_Q x1 <= inject_Z L)%Q ->
  is_finite x2 = true -> valid x2 = true -> (- inject_Z L <= to_Q x2 <= inject_Z L)%Q ->
  (to_Q x1 <= to_Q x2)%Q ->
  (to_Q (div (sub x1 (of_Z (- L))) (of_Z (2 * L)))
   <= to_Q (div (sub x2 (of_Z (- L))) (of_Z (2 * L))))%Q.
Proof.
  intros Hf1 Hv1 Hr1 Hf2 Hv2 Hr2 Hle.
  destruct (fraction_steps x1 Hf1 Hv1 Hr1) as (Hyf1 & Hyv1 & Hyc1 & Hvf1 & Hvv1 & _ & Hvc1).
  destruct (fraction_steps x2 Hf2 Hv2 Hr2) as (Hyf2 & Hyv2 & Hyc2 & Hvf2 & Hvv2 & _ & Hvc2).
  cbn zeta in *.
  destruct (L_bounds L HL) as [HmL H2L].
  destruct (of_Z_facts (- L) HmL) as (_ & _ & _ & _ & _ & sl & ml & el & El).
  destruct (of_Z_facts (2 * L) H2L) as (_ & _ & _ & _ & _ & ssp & msp & esp & Esp).
  assert (H2Lpos : (0 < inject_Z (2 * L))%Q)
    by (change 0%Q with (inject_Z 0); rewrite <- Zlt_Qlt; lia).
  assert (Hsame : sub x1 (of_Z (- L)) = sub x2 (of_Z (- L))
                  \/ (to_Q (sub x1 (of_Z (- L))) < to_Q (sub x2 (of_Z (- L))))%Q
                  \/ (exists s s', sub x1 (of_Z (- L)) = S754_zero s
                                   /\ sub x2 (of_Z (- L)) = S754_zero s')).
  { destruct (Qlt_le_dec (to_Q x1) (to_Q x2)) as [Hlt|Hge].
    - assert (Hy : (to_Q (sub x1 (of_Z (- L))) <= to_Q (sub x2 (of_Z (- L))))%Q).
      { apply (closest_le _ _ (to_Q x1 + inject_Z L) (to_Q x2 + inject_Z L));
          try assumption. lra. }
      destruct (Qlt_le_dec (to_Q (sub x1 (of_Z (- L)))) (to_Q (sub x2 (of_Z (- L)))))
        as [Hylt|Hyge]; [right; left; exact Hylt|].
      destruct (same_value _ _ Hyf1 Hyv1 Hyf2 Hyv2) as [E|E]; [lra|left; exact E|].
      right; right; exact E.
    - destruct (same_value x1 x2 Hf1 Hv1 Hf2 Hv2) as [E|(s & s' & -> & ->)]; [lra| |].
      + left. rewrite E. reflexivity.
      + left. rewrite El. reflexivity. }
  destruct Hsame as [E|[Hlt|(s & s' & E1 & E2)]].
  - rewrite E. apply Qle_refl.
  - apply (closest_le _ _ _ _ Hvf1 Hvv1 Hvf2 Hvv2 Hvc1 Hvc2).
    unfold Qdiv. apply Qmult_lt_r; [apply Qinv_lt_0_compat; exact H2Lpos|exact Hlt].
  - rewrite E1, E2, Esp, !div_zero, !to_Q_zero. apply Qle_refl.
Qed.

(** The 32-bit fraction grows with the coordinate, below the upper end of
    the range. *)
Lemma fraction_bits_le (x1 x2 : f64) :
  is_finite x1 = true -> valid x1 = true -> (- inject_Z L <= to_Q x1)%Q ->
  is_finite x2 = true -> valid x2 = true ->
  (to_Q x2 <= inject_Z L - quantum (2 * L))%Q ->
  (to_Q x1 <= to_Q x2)%Q ->
  mapTo32Bits (div (sub x1 (of_Z (- L))) (of_Z (2 * L)))
  <= mapTo32Bits (div (sub x2 (of_Z (- L))) (of_Z (2 * L))).
Proof.
  intros Hf1 Hv1 Hlo1 Hf2 Hv2 Hhi2 Hle.
  assert (Hq : (0 < quantum (2 * L))%Q) by (apply quantum_pos; lia).
  assert (Hr1 : (- inject_Z L <= to_Q x1 <= inject_Z L)%Q) by (split; lra).
  assert (Hr2 : (- inject_Z L <= to_Q x2 <= inject_Z L)%Q) by (split; lra).
  pose proof (fraction_le x1 x2 Hf1 Hv1 Hr1 Hf2 Hv2 Hr2 Hle) as Hfr.
  pose proof (fraction_below_one L x2 HL Hf2 Hv2 ltac:(split; lra)) as Hb2.
  destruct (fraction_steps x1 Hf1 Hv1 Hr1) as (_ & _ & _ & Hvf1 & Hvv1 & Hv01 & _).
  destruct (fraction_steps x2 Hf2 Hv2 Hr2) as (_ & _ & _ & Hvf2 & Hvv2 & Hv02 & _).
  cbn zeta in *.
  rewrite !mapTo32Bits_floor by (try assumption; split; lra).
  apply Qfloor_resp_le.
  assert (H32 : (0 < inject_Z (2 ^ 32))%Q) by reflexivity.
  apply Qmult_le_l; assumption.
Qed.

End Fraction.

End MonotoneFacts.

(** ** Signs and the haversine formula *)

Module SignFacts.
Import F64Facts.

Lemma round_aux_opp (s : bool) (m e : Z) (l : location) :
  binary_round_aux prec emax (negb s) m e l = opp (binary_round_aux prec emax s m e l).
Proof.
  unfold binary_round_aux.
  destruct (shr_fexp prec emax m e l) as [mrs' e'].
  destruct (shr_fexp prec emax _ e' loc_Exact) as [mrs'' e''].
  destruct (shr_m mrs''); [reflexivity| |reflexivity].
  destruct (e'' <=? emax - prec); reflexivity.
Qed.

Lemma normalize_opp (m e : Z) :
  m <> 0 ->
  binary_normalize prec emax (- m) e false = opp (binary_normalize prec emax m e false).
Proof.
  intros Hm. destruct m as [|p|p]; [contradiction Hm; reflexivity| |].
  - cbn [Z.opp binary_normalize]. unfold binary_round.
    destruct (shl_align p e _) as [mz ez]. apply (round_aux_opp false).
  - cbn [Z.opp binary_normalize]. unfold binary_round.
    destruct (shl_align p e _) as [mz ez].
    rewrite <- (round_aux_opp true). reflexivity.
Qed.

Lemma opp_involutive (x : f64) : opp (opp x) = x.
Proof. destruct x as [[]|[]| |[] m e]; reflexivity. Qed.

(** Exchanging the operands of a subtraction changes the sign of the
    result, or leaves a zero result as it is. *)
Lemma sub_swap (x y : f64) : sub y x = sub x y \/ sub y x = opp (sub x y).
Proof.
  destruct x as [sx|sx| |sx mx ex], y as [sy|sy| |sy my ey];
    try (destruct sx, sy; cbn; tauto); try (destruct sx; cbn; tauto);
    try (destruct sy; cbn; tauto); try (cbn; tauto).
  unfold sub, SFsub. rewrite (Z.min_comm ey ex).
  set (ez := Z.min ex ey).
  set (a := cond_Zopp sx (Zpos (fst (shl_align mx ex ez)))).
  set (b := cond_Zopp sy (Zpos (fst (shl_align my ey ez)))).
  destruct (Z.eq_dec (a - b) 0) as [E|E].
  - left. replace (b - a) with 0 by lia. rewrite E. reflexivity.
  - right. replace (b - a) with (- (a - b)) by lia. apply normalize_opp. exact E.
Qed.

Lemma div_opp_l (x y : f64) : div (opp x) y = opp (div x y).
Proof.
  destruct x as [sx|sx| |sx mx ex], y as [sy|sy| |sy my ey]; try reflexivity;
    try (destruct sx, sy; reflexivity).
  unfold div, opp, SFopp at 1, SFdiv.
  destruct (SFdiv_core_binary prec emax (Zpos mx) ex (Zpos my) ey) as [[mz ez] lz].
  replace (xorb (negb sx) sy) with (negb (xorb sx sy)) by (destruct sx, sy; reflexivity).
  apply round_aux_opp.
Qed.

Lemma mul_opp_r (x y : f64) : mul x (opp y) = opp (mul x y).
Proof.
  destruct x as [sx|sx| |sx mx ex], y as [sy|sy| |sy my ey]; try reflexivity;
    try (destruct sx, sy; reflexivity).
  unfold mul, opp, SFopp at 1, SFmul.
  replace (xorb sx (negb sy)) with (negb (xorb sx sy)) by (destruct sx, sy; reflexivity).
  apply round_aux_opp.
Qed.

Lemma mul_comm (x y : f64) : mul x y = mul y x.
Proof.
  destruct x as [sx|sx| |sx mx ex], y as [sy|sy| |sy my ey]; try reflexivity;
    try (destruct sx, sy; reflexivity).
  unfold mul, SFmul. rewrite (xorb_comm sx sy), (Pos.mul_comm mx my), (Z.add_comm ex ey).
  reflexivity.
Qed.

Lemma mul_opp_l (x y : f64) : mul (opp x) y = opp (mul x y).
Proof. rewrite (mul_comm (opp x) y), mul_opp_r, (mul_comm y x). reflexivity. Qed.

Lemma mul_opp_opp (x y : f64) : mul (opp x) (opp y) = mul x y.
Proof. rewrite mul_opp_l, mul_opp_r. apply opp_involutive. Qed.

Section Odd.
Variable Sin : f64 -> f64.
Hypothesis Sin_odd : forall x, Sin (opp x) = opp (Sin x).

(** The two sine terms of the haversine formula depend on the difference
    of the operands only up to its sign. *)
Lemma sine_square_swap (x y : f64) :
  mul (Sin (div (sub y x) (of_Z 2))) (Sin (div (sub y x) (of_Z 2)))
  = mul (Sin (div (sub x y) (of_Z 2))) (Sin (div (sub x y) (of_Z 2))).
Proof.
  destruct (sub_swap x y) as [->| ->]; [reflexivity|].
  rewrite div_opp_l, Sin_odd. apply mul_opp_opp.
Qed.

Lemma sine_pair_swap (p x y : f64) :
  mul (mul p (Sin (div (sub y x) (of_Z 2)))) (Sin (div (sub y x) (of_Z 2)))
  = mul (mul p (Sin (div (sub x y) (of_Z 2)))) (Sin (div (sub x y) (of_Z 2))).
Proof.
  destruct (sub_swap x y) as [->| ->]; [reflexivity|].
  rewrite div_opp_l, Sin_odd, !mul_opp_r, mul_opp_l. apply opp_involutive.
Qed.

End Odd.

(** *** Equal operands *)

Lemma sub_diag (x : f64) : is_finite x = true -> sub x x = S754_zero false.
Proof.
  intros Hf. destruct x as [[]| | |s m e]; try discriminate Hf; try reflexivity.
  unfold sub, SFsub. rewrite Z.sub_diag. reflexivity.
Qed.

Lemma square_sign (c : f64) :
  is_finite (mul c c) = true ->
  mul (mul c c) (S754_zero false) = S754_zero false.
Proof.
  destruct c as [s|s| |s m e]; try discriminate; intros Hf.
  - destruct s; reflexivity.
  - unfold mul, SFmul in Hf |- *. rewrite xorb_nilpotent in *.
    unfold binary_round_aux in Hf |- *.
    destruct (shr_fexp prec emax (Zpos (m * m)) (e + e) loc_Exact) as [mrs' e'].
    destruct (shr_fexp prec emax _ e' loc_Exact) as [mrs'' e''].
    destruct (shr_m mrs''); [reflexivity| |discriminate Hf].
    destruct (e'' <=? emax - prec); [reflexivity|discriminate Hf].
Qed.

Lemma radians_facts :
  is_finite radiansPerDegree = true /\ valid radiansPerDegree = true
  /\ small radiansPerDegree.
Proof. split; [reflexivity|]. split; [reflexivity|]. vm_compute. reflexivity. Qed.

Lemma degreesToRadians_finite (x : f64) :
  is_finite x = true -> valid x = true -> small x ->
  is_finite (degreesToRadians x) = true.
Proof.
  intros Hf Hv Hs. destruct radians_facts as (Hrf & Hrv & Hrs).
  apply (mul_faithful x radiansPerDegree Hf Hrf Hv Hrv Hs Hrs).
Qed.

End SignFacts.

(** * The claims *)

Import Int IntFacts Base32Facts ParseFacts.

(** C2: for all 32-bit unsigned integers [a] and [b], [interleave32Bits]
    places bit [i] of the latitude fraction [a] at bit [2i] of the key and
    bit [i] of the longitude fraction [b] at bit [2i+1], for every [i] in
    [0, 32), and [DeInterleave64Bits] is its exact inverse. *)
Theorem C2_interleave_layout_inverse (a b : Z) :
  is_uint32 a -> is_uint32 b ->
  (forall i, 0 <= i < 32 ->
     Z.testbit (interleave32Bits a b) (2 * i) = Z.testbit a i
     /\ Z.testbit (interleave32Bits a b) (2 * i + 1) = Z.testbit b i)
  /\ DeInterleave64Bits (interleave32Bits a b) = (a, b).
Proof.
  intros Ha Hb. split.
  - intros i Hi. rewrite !InterleaveFacts.interleave_bits by lia.
    replace (Z.even (2 * i)) with true
      by (rewrite Z.even_mul; reflexivity).
    replace (Z.even (2 * i + 1)) with false
      by (rewrite (Z.add_comm (2 * i) 1), Z.even_add_mul_2; reflexivity).
    replace (2 * i / 2) with i by (symmetry; rewrite Z.mul_comm; apply Z.div_mul; lia).
    replace ((2 * i + 1) / 2) with i by (apply Z.div_unique with 1; lia).
    replace (2 * i <? 64) with true by (symmetry; apply Z.ltb_lt; lia).
    replace (2 * i + 1 <? 64) with true by (symmetry; apply Z.ltb_lt; lia).
    split; reflexivity.
  - apply DeInterleaveFacts.DeInterleave_interleave; assumption.
Qed.

Lemma C2_witness :
  (forall i, 0 <= i < 32 ->
     Z.testbit (interleave32Bits 2649226499 3410134836) (2 * i) = Z.testbit 2649226499 i
     /\ Z.testbit (interleave32Bits 2649226499 3410134836) (2 * i + 1)
        = Z.testbit 3410134836 i)
  /\ DeInterleave64Bits (interleave32Bits 2649226499 3410134836)
     = (2649226499, 3410134836).
Proof.
  apply (C2_interleave_layout_inverse 2649226499 3410134836);
    unfold is_uint32; split; [discriminate|reflexivity|discriminate|reflexivity].
Defined.

Lemma mapTo32Bits_range (value : f64) : is_uint32 (mapTo32Bits value).
Proof.
  unfold mapTo32Bits, to_uint32.
  destruct (trunc _) as [z|]; [|split; [discriminate|reflexivity]].
  destruct (_ && _); [apply wrap32_range|split; [discriminate|reflexivity]].
Qed.

Lemma geohashInt_range (lat lng : f64) : is_uint64 (geohashInt lat lng).
Proof.
  unfold geohashInt. apply InterleaveFacts.interleave_range; apply mapTo32Bits_range.
Qed.

(** C9: for every 64-bit key, [uint64ToBase32] returns a string of exactly
    12 characters of the alphabet; the 5-bit chunk extracted in each of the
    12 iterations is below 32, so that the lookup in the alphabet never
    fails; and [Encode], for any two floating-point arguments, returns 12
    characters of the alphabet. *)
Theorem C9_alphabet_closure :
  (forall key, is_uint64 key ->
     (forall n, (n < 12)%nat ->
        0 <= Z.shiftr (Nat.iter n (fun v => shl64 v 5) key) (64 - 5) < 32)
     /\ exists s, uint64ToBase32 key = Some s
                  /\ String.length s = 12%nat
                  /\ Forall in_alphabet (chars s))
  /\ (forall lat lng, exists s, Encode lat lng = Some s
                                /\ String.length s = 12%nat
                                /\ Forall in_alphabet (chars s)).
Proof.
  assert (Hkey : forall key, is_uint64 key ->
            exists s, uint64ToBase32 key = Some s
                      /\ String.length s = 12%nat
                      /\ Forall in_alphabet (chars s)).
  { intros key Hkey. exists (chunks_string 12 key). split; [|split].
    - apply uint64ToBase32_spec, Hkey.
    - apply chunks_string_length.
    - apply chunks_string_alphabet, Hkey. }
  split.
  - intros key Hk. split; [|apply Hkey, Hk].
    intros n _. apply chunk_bound.
    destruct n as [|n]; [exact Hk|apply wrap64_range].
  - intros lat lng. apply Hkey, geohashInt_range.
Qed.

(** C10: [ParseGeohash] checks membership in the alphabet only, never the
    length: it returns no error for the empty string and for a string of
    any length whose characters all belong to the alphabet; otherwise it
    stops at the first iteration whose character fails the test and
    returns the error carrying that character and its index.  Hence
    strings of any length pass validation, and [Base32ToUint64]
    accumulates however many characters there are: on a validated string
    it returns the base-32 number written by all its characters, shifted
    left by 4 and truncated to 64 bits. *)
Theorem C10_validation_ignores_length :
  ParseGeohash EmptyString = None
  /\ (forall hash, Forall in_alphabet (chars hash) -> ParseGeohash hash = None)
  /\ (forall hash,
        (ParseGeohash hash = None
         /\ Forall (fun ic => rune_ok (snd ic)) (range hash))
        \/ exists l1 i c l2,
             range hash = l1 ++ (i, c) :: l2
             /\ Forall (fun ic => rune_ok (snd ic)) l1
             /\ ~ rune_ok c
             /\ ParseGeohash hash = Some (InvalidCharacter c i))
  /\ (forall hash, ParseGeohash hash = None ->
        Base32ToUint64 hash = wrap64 (base32_value (digits hash) * 2 ^ 4))
  /\ (ParseGeohash "s" = None /\ Base32ToUint64 "s" = 384)
  /\ (ParseGeohash "zzzzzzzzzzzzz" = None
      /\ Base32ToUint64 "zzzzzzzzzzzzz" = 2 ^ 64 - 16).
Proof.
  split; [reflexivity|]. split; [|split; [|split; [|split]]].
  - intros hash Hall. apply ParseGeohash_loop_ok, range_alphabet_ok, Hall.
  - intros hash. apply ParseGeohash_loop_first.
  - intros hash Hnone. unfold Base32ToUint64.
    destruct (ParseGeohash_loop_first (range hash))
      as [[_ Hall]|(l1 & i & c & l2 & _ & _ & _ & Herr)].
    + rewrite (fold_body_value (range hash) 0 0 Hall eq_refl).
      unfold base32_value, digits. change (64 - 5 * maxLength) with 4.
      unfold shl64, wrap64. rewrite Z.shiftl_mul_pow2 by lia.
      apply Z.mul_mod_idemp_l. lia.
    + unfold ParseGeohash in Hnone. congruence.
  - split; vm_compute; reflexivity.
  - split; vm_compute; reflexivity.
Qed.

(** ** The known vector and the corners *)

(** C4: [Encode(21.0278, 105.8342)] is exactly ["w7er87fpgd52"], and
    [Decode("w7er87fpgd52")] is within half a unit of the fourth decimal
    place of (21.0278, 105.8342), so that it prints as that pair when
    rounded to 4 decimal places. *)
Theorem C4_known_vector :
  Encode lat_hanoi lng_hanoi = Some "w7er87fpgd52"%string
  /\ (Qabs (to_Q (fst (Decode "w7er87fpgd52")) - (210278 # 10000)) < (1 # 20000))%Q
  /\ (Qabs (to_Q (snd (Decode "w7er87fpgd52")) - (1058342 # 10000)) < (1 # 20000))%Q.
Proof. split; [|split]; vm_compute; reflexivity. Qed.

(** C5 (the code differs from the claim): [Encode] returns 12 characters
    at both corners, and the south-west corner decodes to itself; but at
    the north-east corner both fractions [floor(2^32 * 1.0)] are [2^32],
    which the conversion to [uint32] turns into 0, so that (90, 180) is
    encoded like (-90, -180) and decodes to (-90, -180). *)
Theorem C5_corners :
  Encode minLat minLong = Some "000000000000"%string
  /\ Decode "000000000000" = (minLat, minLong)
  /\ floor (mul two32 (div (sub maxLat minLat) latSpan)) = of_Z (2 ^ 32)
  /\ mapTo32Bits (div (sub maxLat minLat) latSpan) = 0
  /\ mapTo32Bits (div (sub maxLong minLong) longSpan) = 0
  /\ Encode maxLat maxLong = Some "000000000000"%string
  /\ (to_Q (fst (Decode "000000000000")) == - (90))%Q
  /\ (to_Q (snd (Decode "000000000000")) == - (180))%Q.
Proof.
  repeat match goal with |- _ /\ _ => split end; vm_compute; reflexivity.
Qed.

(** ** The low bits of the key *)

Lemma interleave_low_bits (a b : Z) :
  (interleave32Bits a b) mod 16 = interleave32Bits (a mod 4) (b mod 4).
Proof.
  apply Z.bits_inj'. intros k Hk.
  change 16 with (2 ^ 4). rewrite Z.testbit_mod_pow2 by lia.
  rewrite !InterleaveFacts.interleave_bits by lia.
  replace (Z.testbit (if Z.even k then a mod 4 else b mod 4) (k / 2))
    with ((k / 2 <? 2) && Z.testbit (if Z.even k then a else b) (k / 2))
    by (change 4 with (2 ^ 2); destruct (Z.even k);
        rewrite Z.testbit_mod_pow2 by lia; reflexivity).
  destruct (Z.ltb_spec k 4); destruct (Z.ltb_spec k 64); destruct (Z.ltb_spec (k / 2) 2);
    try lia; try reflexivity.
  - exfalso. assert (k / 2 < 2) by (apply Z.div_lt_upper_bound; lia). lia.
  - exfalso. assert (2 <= k / 2) by (apply Z.div_le_lower_bound; lia). lia.
Qed.

Lemma interleave_zero (a b : Z) :
  is_uint32 a -> is_uint32 b -> (interleave32Bits a b = 0 <-> a = 0 /\ b = 0).
Proof.
  intros Ha Hb. split.
  - intros H0.
    pose proof (DeInterleaveFacts.DeInterleave_interleave a b Ha Hb) as Hinv.
    rewrite H0 in Hinv. vm_compute in Hinv. inversion Hinv. split; reflexivity.
  - intros [-> ->]. reflexivity.
Qed.

Lemma mod4_uint32 (a : Z) : is_uint32 (a mod 4).
Proof.
  pose proof (Z.mod_pos_bound a 4 eq_refl) as H. unfold is_uint32.
  change (2 ^ 32) with 4294967296. lia.
Qed.

(** C3 (counterexample): for the valid pair (21.0278, 105.8342) the low 4
    bits of the key built inside [Encode] are [0101], not zero, and the
    string conversion loses them: reading the string back gives another
    key. *)
Lemma C3_counterexample :
  ltb lat_hanoi minLat = false /\ ltb maxLat lat_hanoi = false
  /\ ltb lng_hanoi minLong = false /\ ltb maxLong lng_hanoi = false
  /\ (geohashInt lat_hanoi lng_hanoi) mod 16 = 5
  /\ exists s, uint64ToBase32 (geohashInt lat_hanoi lng_hanoi) = Some s
               /\ Base32ToUint64 s <> geohashInt lat_hanoi lng_hanoi.
Proof.
  do 5 (split; [vm_compute; reflexivity|]).
  exists "w7er87fpgd52"%string. split; [vm_compute; reflexivity|].
  vm_compute. intros H. discriminate H.
Qed.

(** C3 (amended): the low 4 bits of the key built inside [Encode] are bits
    0 and 1 of the two 32-bit fractions, and are zero only when both
    fractions are multiples of 4; the 12-character string holds the top 60
    bits of the key and the conversion discards exactly these low 4 bits. *)
Theorem C3_low_bits_discarded (lat lng : f64) :
  let lat32 := mapTo32Bits (div (sub lat minLat) latSpan) in
  let long32 := mapTo32Bits (div (sub lng minLong) longSpan) in
  let key := geohashInt lat lng in
  key mod 16 = interleave32Bits (lat32 mod 4) (long32 mod 4)
  /\ (key mod 16 = 0 <-> lat32 mod 4 = 0 /\ long32 mod 4 = 0)
  /\ exists s, Encode lat lng = Some s /\ Base32ToUint64 s = key - key mod 16.
Proof.
  intros lat32 long32 key.
  assert (Hlow : key mod 16 = interleave32Bits (lat32 mod 4) (long32 mod 4))
    by apply interleave_low_bits.
  split; [exact Hlow|]. split.
  - rewrite Hlow. apply interleave_zero; apply mod4_uint32.
  - exists (chunks_string 12 key). split.
    + apply uint64ToBase32_spec, geohashInt_range.
    + rewrite Base32ToUint64_chunks by apply geohashInt_range.
      clearbody key. pose proof (Z.div_mod key 16). lia.
Qed.

(** ** BoundingBox *)

(** C6 (the code differs from the claim): at the centre (0, 0) with radius
    111.1 km, and for a cosine with [Cos(0) = 1], the package's
    [BoundingBox] returns (minLat, minLng, maxLat, maxLng): its second
    result is the western longitude -0.998..., not the northern latitude
    1, while the second variant bundled with the package returns the same
    four numbers in the order (minLat, maxLat, minLng, maxLng). *)
Theorem C6_bounding_box_order (Cos : f64 -> f64) (pm : positive) (pe : Z) :
  Cos (S754_zero false) = of_Z 1 ->
  let Pi := S754_finite false pm pe in
  let o := S754_zero false in
  let r := lenOfADegreeOfLat in
  let minLat := sub o (div r lenOfADegreeOfLat) in
  let maxLat := add o (div r lenOfADegreeOfLat) in
  let minLng := sub o (div r lenOfADegreeOfLng) in
  let maxLng := add o (div r lenOfADegreeOfLng) in
  (forall lat lng r,
     BoundingBox Cos Pi lat lng r
     = (sub lat (deltaLat r), sub lng (deltaLng Cos Pi lat r),
        add lat (deltaLat r), add lng (deltaLng Cos Pi lat r))
     /\ BoundingBox' Cos Pi lat lng r
        = (sub lat (deltaLat r), add lat (deltaLat r),
           sub lng (deltaLng Cos Pi lat r), add lng (deltaLng Cos Pi lat r)))
  /\ BoundingBox Cos Pi o o r = (minLat, minLng, maxLat, maxLng)
  /\ BoundingBox' Cos Pi o o r = (minLat, maxLat, minLng, maxLng)
  /\ minLat = of_Z (-1) /\ maxLat = of_Z 1
  /\ minLng = S754_finite true 8989398465700002 (-53)
  /\ maxLng = S754_finite false 8989398465700002 (-53)
  /\ minLng <> maxLat.
Proof.
  intros HCos Pi o r minLat maxLat minLng maxLng.
  assert (Hdl : deltaLng Cos Pi o r = div r lenOfADegreeOfLng).
  { unfold deltaLng.
    replace (mul (div o (of_Z 180)) Pi) with (S754_zero false) by reflexivity.
    rewrite HCos. vm_compute. reflexivity. }
  split; [intros; split; reflexivity|].
  split; [unfold BoundingBox; rewrite Hdl; reflexivity|].
  split; [unfold BoundingBox'; rewrite Hdl; reflexivity|].
  do 4 (split; [vm_compute; reflexivity|]).
  vm_compute. intros H. discriminate H.
Qed.

Lemma C6_witness :
  BoundingBox (fun _ => of_Z 1) pi64 (S754_zero false) (S754_zero false) lenOfADegreeOfLat
  = (of_Z (-1), S754_finite true 8989398465700002 (-53),
     of_Z 1, S754_finite false 8989398465700002 (-53)).
Proof.
  destruct (C6_bounding_box_order (fun _ => of_Z 1) 7074237752028440 (-51) eq_refl)
    as (_ & Hbox & _ & Ha & Hb & Hc & Hd & _).
  rewrite <- Ha, <- Hb, <- Hc, <- Hd. exact Hbox.
Defined.

(** ** ParseCoordinate *)

(** C8 (the code differs from the claim): [ParseCoordinate] accepts a
    latitude or a longitude that is not a number.  [strconv.ParseFloat] reads ["NaN"] as a NaN
    without error, and both range tests are false on a NaN, so that
    [ParseCoordinate("NaN, 0")] returns [(NaN, 0, nil)], and the command
    prints a hash for it.  The same holds for every input with one comma
    one side of which is read as a NaN, when the other side passes its
    range test.  The two inputs that the claim names are refused as it
    says: ["abc"] with the format error and ["91.0, 0.0"] with the
    latitude range error. *)
Theorem C8_nan_accepted :
  let parse := ParseCoordinate unit ParseSample.TrimSpace ParseSample.ParseFloat in
  parse "NaN, 0"%string = (S754_nan, S754_zero false, None)
  /\ (exists hash,
        Main.encode unit ParseSample.TrimSpace ParseSample.ParseFloat "NaN, 0"
        = Some (hash, None))
  /\ (forall (E : Type) (TrimSpace : string -> string)
             (ParseFloat : string -> f64 * option E) (a b : string) (x : f64),
        count_byte "," a = O -> count_byte "," b = O ->
        (ParseFloat (TrimSpace a) = (S754_nan, None) ->
         ParseFloat (TrimSpace b) = (x, None) ->
         ltb x minLong || ltb maxLong x = false ->
         ParseCoordinate E TrimSpace ParseFloat (a ++ String "," b) = (S754_nan, x, None))
        /\ (ParseFloat (TrimSpace a) = (x, None) ->
            ParseFloat (TrimSpace b) = (S754_nan, None) ->
            ltb x minLat || ltb maxLat x = false ->
            ParseCoordinate E TrimSpace ParseFloat (a ++ String "," b)
            = (x, S754_nan, None)))
  /\ snd (parse "abc"%string) = Some FormatError
  /\ snd (parse "91.0, 0.0"%string) = Some LatRangeError.
Proof.
  intros parse. split; [vm_compute; reflexivity|].
  split; [exists "h00000000000"%string; vm_compute; reflexivity|].
  split; [|split; vm_compute; reflexivity].
  intros E TrimSpace ParseFloat a b x Ha Hb.
  assert (Hsplit : Split (a ++ String "," b) "," = [a; b]).
  { unfold Split. rewrite SplitFacts.split_acc_first by exact Ha.
    rewrite SplitFacts.split_acc_none by exact Hb. reflexivity. }
  split; intros Hlat Hlng Hrange; unfold ParseCoordinate;
    rewrite Hsplit, Hlat, Hlng.
  - change (ltb S754_nan minLat || ltb maxLat S754_nan) with false.
    rewrite Hrange. reflexivity.
  - rewrite Hrange.
    change (ltb S754_nan minLong || ltb maxLong S754_nan) with false. reflexivity.
Qed.

(** ** The round trip *)

Import F64Facts RoundTripFacts.

(** C1 (counterexample): for the valid pair (21.0278, 105.8342) the
    latitude decoded from the hash differs from the latitude encoded by
    more than [180 / 2^32]. *)
Lemma C1_counterexample :
  is_finite lat_hanoi = true /\ valid lat_hanoi = true
  /\ (- (90) <= to_Q lat_hanoi <= 90)%Q /\ (- (180) <= to_Q lng_hanoi <= 180)%Q
  /\ Encode lat_hanoi lng_hanoi = Some "w7er87fpgd52"%string
  /\ ~ (Qabs (to_Q (fst (Decode "w7er87fpgd52")) - to_Q lat_hanoi) <= quantum 180)%Q.
Proof.
  split; [reflexivity|]. split; [reflexivity|].
  split; [split; vm_compute; intros H; discriminate H|].
  split; [split; vm_compute; intros H; discriminate H|].
  split; [vm_compute; reflexivity|].
  vm_compute. intros H. apply H. reflexivity.
Qed.

(** C1 (amended): for every valid coordinate pair whose fractions
    [(lat + 90) / 180] and [(lng + 180) / 360], as [Encode] computes them,
    are below 1, [Encode] returns a hash, and [Decode] of that hash returns
    a latitude less than [4 * 180 / 2^32] degrees and a longitude less than
    [4 * 360 / 2^32] degrees away from the pair encoded: the hash keeps the
    top 30 bits of each 32-bit fraction.  The fractions are below 1 for
    every latitude up to [90 - 180 / 2^32] and every longitude up to
    [180 - 360 / 2^32]. *)
Theorem C1_roundtrip_within_four_steps (lat lng : f64) :
  is_finite lat = true -> valid lat = true ->
  is_finite lng = true -> valid lng = true ->
  (- (90) <= to_Q lat <= 90)%Q -> (- (180) <= to_Q lng <= 180)%Q ->
  let fraction_lat := div (sub lat minLat) latSpan in
  let fraction_lng := div (sub lng minLong) longSpan in
  ((to_Q lat <= 90 - quantum 180)%Q -> (to_Q fraction_lat < 1)%Q)
  /\ ((to_Q lng <= 180 - quantum 360)%Q -> (to_Q fraction_lng < 1)%Q)
  /\ ((to_Q fraction_lat < 1)%Q -> (to_Q fraction_lng < 1)%Q ->
      exists s, Encode lat lng = Some s
                /\ (Qabs (to_Q (fst (Decode s)) - to_Q lat) < 4 * quantum 180)%Q
                /\ (Qabs (to_Q (snd (Decode s)) - to_Q lng) < 4 * quantum 360)%Q).
Proof.
  intros Hflat Hvlat Hflng Hvlng Hlat Hlng fraction_lat fraction_lng.
  assert (H90 : 65 <= 90 <= 2 ^ 19) by (change (2 ^ 19) with 524288; lia).
  assert (H180 : 65 <= 180 <= 2 ^ 19) by (change (2 ^ 19) with 524288; lia).
  split; [|split].
  - intros Hup. apply (fraction_below_one 90 lat H90 Hflat Hvlat).
    split; [apply Hlat|exact Hup].
  - intros Hup. apply (fraction_below_one 180 lng H180 Hflng Hvlng).
    split; [apply Hlng|exact Hup].
  - intros Hfrlat Hfrlng.
    destruct (coordinate_roundtrip 90 lat H90 Hflat Hvlat Hlat Hfrlat) as [Hua Hba].
    destruct (coordinate_roundtrip 180 lng H180 Hflng Hvlng Hlng Hfrlng) as [Hub Hbb].
    unfold Encode, geohashInt.
    change (of_Z (- (90))) with minLat in *. change (of_Z (2 * 90)) with latSpan in *.
    change (of_Z (- (180))) with minLong in *. change (of_Z (2 * 180)) with longSpan in *.
    set (a := mapTo32Bits (div (sub lat minLat) latSpan)) in *.
    set (b := mapTo32Bits (div (sub lng minLong) longSpan)) in *.
    destruct (roundtrip_fractions a b Hua Hub) as (s & Hs & Hde).
    exists s. split; [exact Hs|].
    unfold Decode. rewrite Hde. cbn [fst snd]. split; [exact Hba|exact Hbb].
Qed.

Lemma C1_witness :
  exists s, Encode lat_hanoi lng_hanoi = Some s
            /\ (Qabs (to_Q (fst (Decode s)) - to_Q lat_hanoi) < 4 * quantum 180)%Q
            /\ (Qabs (to_Q (snd (Decode s)) - to_Q lng_hanoi) < 4 * quantum 360)%Q.
Proof.
  destruct (C1_roundtrip_within_four_steps lat_hanoi lng_hanoi) as (_ & _ & Hround);
    try reflexivity; try (split; vm_compute; intros H; discriminate H).
  apply Hround; reflexivity.
Defined.

(** ** EstimateLengthRequired *)

Import EstimateFacts.

Lemma clamp_range (l : Z) : 1 <= clamp l <= 12.
Proof.
  unfold clamp, maxLength.
  destruct (Z.ltb_spec l 1); [cbn; lia|].
  destruct (Z.ltb_spec 12 l); lia.
Qed.

(** C7 (counterexample): on the radius -1 the loop never exits, whatever
    the fuel; and on the radius 1, which takes 15 doublings to reach
    20037.73, the result is 6 = (2 * 15) / 5 and not 15 / 5 = 3. *)
Lemma C7_counterexample :
  (forall fuel, EstimateLengthRequired fuel (of_Z (- 1)) = None)
  /\ EstimateLengthRequired 100 (of_Z 1) = Some 6
  /\ (times_pow2 (to_Q (of_Z 1)) 14 < to_Q mercatorMax)%Q
  /\ (to_Q mercatorMax <= times_pow2 (to_Q (of_Z 1)) 15)%Q.
Proof.
  split; [|split; [vm_compute; reflexivity|split; [vm_compute; reflexivity|]]].
  - intros fuel. unfold EstimateLengthRequired.
    replace (eqb (of_Z (- 1)) (of_Z 0)) with false by (vm_compute; reflexivity).
    rewrite loop_negative; [reflexivity| |reflexivity].
    change (of_Z (- 1)) with (S754_finite true 4503599627370496 (- 52)). exact I.
  - vm_compute. intros H. discriminate H.
Qed.

(** C7 (amended): for every radius that is not negative,
    [EstimateLengthRequired] terminates and returns an integer in [1, 12];
    it returns 12 for a radius equal to 0; for a positive radius the loop
    runs [steps] doublings, the least number after which the accumulator
    reaches or exceeds 20037.73, the counter advances by 2 at each
    doubling, and the result is [2 * steps / 5] clamped to [1, 12]. *)
Theorem C7_estimate_length (r : f64) :
  valid r = true -> nonnegative_input r ->
  exists l,
    1 <= l <= 12
    /\ (forall fuel, (1090 <= fuel)%nat -> EstimateLengthRequired fuel r = Some l)
    /\ (eqb r (of_Z 0) = true -> l = 12)
    /\ (forall m e, r = S754_finite false m e ->
          exists steps : nat,
            (forall i, (i < steps)%nat -> (times_pow2 (to_Q r) i < to_Q mercatorMax)%Q)
            /\ (to_Q mercatorMax <= times_pow2 (to_Q r) steps)%Q
            /\ l = clamp (Z.quot (2 * Z.of_nat steps) 5)).
Proof.
  intros Hv Hnn. destruct r as [s|[]| |[] m e]; try contradiction Hnn.
  - exists 12. split; [lia|]. split; [|split; [reflexivity|intros m e H; discriminate H]].
    intros fuel _. unfold EstimateLengthRequired.
    replace (eqb (S754_zero s) (of_Z 0)) with true by (destruct s; reflexivity).
    reflexivity.
  - exists 1. split; [lia|]. split; [|split; [discriminate|intros m e H; discriminate H]].
    intros [|fuel] Hfuel; [lia|]. unfold EstimateLengthRequired.
    rewrite estimate_loop_succ, mercator_value. reflexivity.
  - exists 1. split; [lia|]. split; [|split; [discriminate|intros m e H; discriminate H]].
    intros [|fuel] Hfuel; [lia|]. unfold EstimateLengthRequired.
    rewrite estimate_loop_succ, mercator_value. reflexivity.
  - destruct (loop_steps 1089 m e 0 Hv) as (steps & r' & Hst & Hloop & Hbelow & Habove).
    + apply (positive_lower m e Hv).
    + lia.
    + reflexivity.
    + exists (clamp (Z.quot (2 * Z.of_nat steps) 5)).
      split; [apply clamp_range|]. split; [|split; [discriminate|]].
      * intros fuel Hfuel. unfold EstimateLengthRequired.
        replace (eqb (S754_finite false m e) (of_Z 0)) with false by reflexivity.
        rewrite (loop_fuel_ge 1090 fuel _ _ _ Hfuel Hloop). reflexivity.
      * intros m' e' E. inversion E; subst m' e'.
        exists steps. split; [exact Hbelow|split; [exact Habove|reflexivity]].
Qed.

Lemma C7_witness :
  exists l,
    1 <= l <= 12
    /\ (forall fuel, (1090 <= fuel)%nat -> EstimateLengthRequired fuel (of_Z 1) = Some l)
    /\ (eqb (of_Z 1) (of_Z 0) = true -> l = 12)
    /\ (forall m e, of_Z 1 = S754_finite false m e ->
          exists steps : nat,
            (forall i, (i < steps)%nat ->
               (times_pow2 (to_Q (of_Z 1)) i < to_Q mercatorMax)%Q)
            /\ (to_Q mercatorMax <= times_pow2 (to_Q (of_Z 1)) steps)%Q
            /\ l = clamp (Z.quot (2 * Z.of_nat steps) 5)).
Proof. apply (C7_estimate_length (of_Z 1) eq_refl I). Defined.

(** * Further properties *)

Import OrderFacts CodecFacts RuneFacts GridFacts CompareFacts LengthFacts BoxFacts SignFacts.
Import MonotoneFacts SplitFacts.

(** ** Interleaving and the order of keys *)

(** X1: [DeInterleave64Bits] always returns two 32-bit values, and
    interleaving them gives back the 64-bit key: the key holds nothing but
    the two fractions. *)
Theorem X1_interleave_after_deinterleave (v : Z) :
  is_uint64 v ->
  is_uint32 (fst (DeInterleave64Bits v)) /\ is_uint32 (snd (DeInterleave64Bits v))
  /\ interleave32Bits (fst (DeInterleave64Bits v)) (snd (DeInterleave64Bits v)) = v.
Proof.
  intros Hv. destruct (DeInterleaveFacts.DeInterleave_range v) as [Ha Hb].
  split; [exact Ha|]. split; [exact Hb|]. apply interleave_DeInterleave. exact Hv.
Qed.

Lemma X1_witness :
  is_uint32 (fst (DeInterleave64Bits 16045690984833335023))
  /\ is_uint32 (snd (DeInterleave64Bits 16045690984833335023))
  /\ interleave32Bits (fst (DeInterleave64Bits 16045690984833335023))
       (snd (DeInterleave64Bits 16045690984833335023)) = 16045690984833335023.
Proof.
  apply (X1_interleave_after_deinterleave 16045690984833335023).
  split; [discriminate|reflexivity].
Defined.

(** X2: [interleave32Bits] is monotone in both fractions: raising the
    latitude fraction or the longitude fraction never lowers the key, and
    raising one of them strictly raises the key. *)
Theorem X2_interleave_monotone (a a' b b' : Z) :
  is_uint32 a -> is_uint32 a' -> is_uint32 b -> is_uint32 b' ->
  a <= a' -> b <= b' ->
  interleave32Bits a b <= interleave32Bits a' b'
  /\ (a < a' \/ b < b' -> interleave32Bits a b < interleave32Bits a' b').
Proof.
  intros Ha Ha' Hb Hb' Hle1 Hle2.
  split; [apply interleave_le; assumption|]. intros [Hlt|Hlt].
  - pose proof (interleave_lt_lat a a' b Ha Ha' Hb Hlt).
    pose proof (interleave_le a' a' b b' Ha' Ha' Hb Hb' (Z.le_refl a') Hle2). lia.
  - pose proof (interleave_lt_lng a' b b' Ha' Hb Hb' Hlt).
    pose proof (interleave_le a a' b b Ha Ha' Hb Hb Hle1 (Z.le_refl b)). lia.
Qed.

Lemma X2_witness :
  interleave32Bits 5 9 <= interleave32Bits 6 9
  /\ (5 < 6 \/ 9 < 9 -> interleave32Bits 5 9 < interleave32Bits 6 9).
Proof.
  apply (X2_interleave_monotone 5 6 9 9); try (split; [discriminate|reflexivity]); lia.
Defined.

(** X3: the strings written by [uint64ToBase32] for two keys compare,
    byte by byte, as the top 60 bits of the keys compare as numbers: the
    alphabet is in increasing byte order.  In particular a key that is not
    larger gives a string that is not larger. *)
Theorem X3_base32_order (v w : Z) :
  is_uint64 v -> is_uint64 w ->
  exists s t, uint64ToBase32 v = Some s /\ uint64ToBase32 w = Some t
              /\ String.compare s t = (v / 16 ?= w / 16)
              /\ (v <= w -> String.leb s t = true).
Proof.
  intros Hv Hw. exists (chunks_string 12 v), (chunks_string 12 w).
  split; [apply uint64ToBase32_spec, Hv|]. split; [apply uint64ToBase32_spec, Hw|].
  assert (Hc : String.compare (chunks_string 12 v) (chunks_string 12 w) = (v / 16 ?= w / 16))
    by (apply (chunks_compare 12 v w); [lia|exact Hv|exact Hw]).
  split; [exact Hc|]. intros Hle. unfold String.leb. rewrite Hc.
  assert (Hd : v / 16 <= w / 16) by (apply Z.div_le_mono; lia).
  destruct (Z.compare_spec (v / 16) (w / 16)); try reflexivity. lia.
Qed.

Lemma X3_witness :
  exists s t, uint64ToBase32 1000 = Some s /\ uint64ToBase32 (2 ^ 63) = Some t
              /\ String.compare s t = (1000 / 16 ?= 2 ^ 63 / 16)
              /\ (1000 <= 2 ^ 63 -> String.leb s t = true).
Proof.
  apply (X3_base32_order 1000 (2 ^ 63)); split; try discriminate; reflexivity.
Defined.

(** ** Reading a string back and writing it again *)

(** X4: for a string of exactly 12 characters of the alphabet,
    [uint64ToBase32] applied to the key read by [Base32ToUint64] returns
    the string itself. *)
Theorem X4_base32_rewrite (s : string) :
  Forall in_alphabet (chars s) -> String.length s = 12%nat ->
  uint64ToBase32 (Base32ToUint64 s) = Some s.
Proof. apply uint64ToBase32_Base32ToUint64. Qed.

Lemma X4_witness : uint64ToBase32 (Base32ToUint64 "w7er87fpgd52") = Some "w7er87fpgd52"%string.
Proof.
  apply (X4_base32_rewrite "w7er87fpgd52"); [apply alphabet_check; reflexivity|reflexivity].
Defined.

(** X5: whatever the string, valid or not, [Decode] returns two finite
    numbers that lie exactly on the grid of multiples of 4 steps: the
    latitude is [180 * 4a / 2^32 - 90] and the longitude
    [360 * 4b / 2^32 - 180] for integers [a], [b] below [2^30].  Hence the
    latitude is in [-90, 90) and the longitude in [-180, 180). *)
Theorem X5_decode_on_grid (hash : string) :
  exists a b,
    0 <= a < 2 ^ 30 /\ 0 <= b < 2 ^ 30
    /\ is_finite (fst (Decode hash)) = true /\ is_finite (snd (Decode hash)) = true
    /\ (to_Q (fst (Decode hash)) == grid 90 (4 * a))%Q
    /\ (to_Q (snd (Decode hash)) == grid 180 (4 * b))%Q
    /\ (- (90) <= to_Q (fst (Decode hash)) < 90)%Q
    /\ (- (180) <= to_Q (snd (Decode hash)) < 180)%Q.
Proof.
  destruct (DeInterleave_Base32 hash) as (a & b & Ha & Hb & HD).
  exists a, b. split; [exact Ha|]. split; [exact Hb|].
  unfold Decode. rewrite HD. cbn [fst snd].
  assert (Ha4 : 0 <= 4 * a < 2 ^ 32) by (change (2 ^ 32) with (4 * 2 ^ 30); lia).
  assert (Hb4 : 0 <= 4 * b < 2 ^ 32) by (change (2 ^ 32) with (4 * 2 ^ 30); lia).
  destruct (unmapLat_regular (4 * a) Ha4) as (Hf1 & _ & Hq1).
  destruct (unmapLong_regular (4 * b) Hb4) as (Hf2 & _ & Hq2).
  split; [exact Hf1|]. split; [exact Hf2|]. split; [exact Hq1|]. split; [exact Hq2|].
  rewrite Hq1, Hq2.
  split; [apply (grid_range 90 (4 * a)); [lia|exact Ha4]
         |apply (grid_range 180 (4 * b)); [lia|exact Hb4]].
Qed.

Lemma Encode_Decode_key (hash : string) :
  geohashInt (fst (Decode hash)) (snd (Decode hash)) = Base32ToUint64 hash.
Proof.
  destruct (DeInterleaveFacts.DeInterleave_range (Base32ToUint64 hash)) as [Ha Hb].
  unfold geohashInt, Decode.
  destruct (DeInterleave64Bits (Base32ToUint64 hash)) as [a b] eqn:HD. cbn [fst snd] in *.
  destruct (unmapLat_regular a Ha) as (Hf1 & Hv1 & Hq1).
  destruct (unmapLong_regular b Hb) as (Hf2 & Hv2 & Hq2).
  pose proof (fraction_of_grid 90 (unmapLat a) a H90 Ha Hf1 Hv1 Hq1) as E1.
  pose proof (fraction_of_grid 180 (unmapLong b) b H180 Hb Hf2 Hv2 Hq2) as E2.
  change (of_Z (- (90))) with minLat in E1. change (of_Z (2 * 90)) with latSpan in E1.
  change (of_Z (- (180))) with minLong in E2. change (of_Z (2 * 180)) with longSpan in E2.
  rewrite E1, E2.
  pose proof (interleave_DeInterleave (Base32ToUint64 hash) (Base32ToUint64_range hash)) as Hi.
  rewrite HD in Hi. exact Hi.
Qed.

Lemma Encode_Decode_hash (s : string) :
  Forall in_alphabet (chars s) -> String.length s = 12%nat ->
  Encode (fst (Decode s)) (snd (Decode s)) = Some s.
Proof.
  intros Hs Hlen. unfold Encode. rewrite Encode_Decode_key.
  apply uint64ToBase32_Base32ToUint64; assumption.
Qed.

(** X6: [Encode] undoes [Decode] on every string of exactly 12
    characters of the alphabet: the decoded coordinates encode to the
    string decoded. *)
Theorem X6_encode_after_decode (s : string) :
  Forall in_alphabet (chars s) -> String.length s = 12%nat ->
  Encode (fst (Decode s)) (snd (Decode s)) = Some s.
Proof. apply Encode_Decode_hash. Qed.

Lemma X6_witness :
  Encode (fst (Decode "w7er87fpgd52")) (snd (Decode "w7er87fpgd52")) = Some "w7er87fpgd52"%string.
Proof.
  apply (X6_encode_after_decode "w7er87fpgd52"); [apply alphabet_check; reflexivity|reflexivity].
Defined.

(** X7: encoding is stable under a round trip: for any two
    floating-point arguments, the hash of the coordinates decoded from
    [Encode lat lng] is again [Encode lat lng]. *)
Theorem X7_encoding_stable (lat lng : f64) :
  exists s, Encode lat lng = Some s
            /\ Encode (fst (Decode s)) (snd (Decode s)) = Some s.
Proof.
  exists (chunks_string 12 (geohashInt lat lng)). split.
  - apply uint64ToBase32_spec, geohashInt_range.
  - apply Encode_Decode_hash.
    + apply chunks_string_alphabet, geohashInt_range.
    + apply chunks_string_length.
Qed.

Lemma Decode_key (h1 h2 : string) : Base32ToUint64 h1 = Base32ToUint64 h2 -> Decode h1 = Decode h2.
Proof. intros H. unfold Decode. rewrite H. reflexivity. Qed.

(** ** Strings that do not have 12 characters *)

(** X8: on strings over the alphabet, only the last 12 characters count:
    characters put before a string of 12 or more characters change neither
    the key read by [Base32ToUint64] nor the coordinates decoded. *)
Theorem X8_last_twelve_characters (p s : string) :
  Forall in_alphabet (chars p) -> Forall in_alphabet (chars s) ->
  (12 <= String.length s)%nat ->
  Base32ToUint64 (p ++ s) = Base32ToUint64 s /\ Decode (p ++ s) = Decode s.
Proof.
  intros Hp Hs Hlen.
  pose proof (Base32ToUint64_suffix p s Hp Hs Hlen) as H.
  split; [exact H|apply Decode_key, H].
Qed.

Lemma X8_witness :
  Base32ToUint64 ("9q8y" ++ "w7er87fpgd52") = Base32ToUint64 "w7er87fpgd52"
  /\ Decode ("9q8y" ++ "w7er87fpgd52") = Decode "w7er87fpgd52".
Proof.
  apply (X8_last_twelve_characters "9q8y" "w7er87fpgd52");
    [apply alphabet_check; reflexivity
    |apply alphabet_check; reflexivity
    |cbn [String.length]; lia].
Defined.

(** X9: a string over the alphabet is read as a number: characters
    ['0'] put before it change neither the key nor the coordinates
    decoded, so that a string shorter than 12 characters decodes like the
    same string padded on the left with ['0']. *)
Theorem X9_leading_zeros (p s : string) :
  Forall (fun c => c = "0"%char) (chars p) -> Forall in_alphabet (chars s) ->
  Base32ToUint64 (p ++ s) = Base32ToUint64 s /\ Decode (p ++ s) = Decode s.
Proof.
  intros Hp Hs. pose proof (Base32ToUint64_zeros p s Hp Hs) as H.
  split; [exact H|apply Decode_key, H].
Qed.

Lemma X9_witness :
  Base32ToUint64 ("000000000" ++ "w7e") = Base32ToUint64 "w7e"
  /\ Decode ("000000000" ++ "w7e") = Decode "w7e".
Proof.
  apply (X9_leading_zeros "000000000" "w7e");
    [repeat constructor|apply alphabet_check; reflexivity].
Defined.

(** X10: [Base32ToUint64] does not report a character outside the
    alphabet: the index -1 returned for it fills the key with ones.  A
    string over the alphabet followed by one byte outside the alphabet is
    read as the key [2^64 - 16] and decodes like ["zzzzzzzzzzzz"], whatever
    the characters before. *)
Theorem X10_invalid_last_character (p : string) (c0 : ascii) :
  Forall in_alphabet (chars p) -> ~ in_alphabet c0 ->
  Base32ToUint64 (p ++ String c0 EmptyString) = 2 ^ 64 - 16
  /\ Decode (p ++ String c0 EmptyString) = Decode "zzzzzzzzzzzz".
Proof.
  intros Hp Hc.
  assert (H : Base32ToUint64 (p ++ String c0 EmptyString) = 2 ^ 64 - 16).
  { apply (Base32ToUint64_invalid_last _ (range_from p 0 0)
             (Z.of_nat (String.length p)) (fst (decodeRune (String c0 EmptyString)))).
    - unfold range. rewrite range_from_app_alphabet by exact Hp. reflexivity.
    - rewrite first_rune_ok. exact Hc. }
  split; [exact H|]. apply Decode_key. rewrite H. reflexivity.
Qed.

Lemma X10_witness :
  Base32ToUint64 ("w7" ++ String "a" EmptyString) = 2 ^ 64 - 16
  /\ Decode ("w7" ++ String "a" EmptyString) = Decode "zzzzzzzzzzzz".
Proof.
  apply (X10_invalid_last_character "w7" "a");
    [apply alphabet_check; reflexivity|intros H; discriminate H].
Defined.

(** ** Validation *)

(** X11: [ParseGeohash] accepts exactly the strings all of whose bytes
    belong to the alphabet; on any other string it reports the rune that
    starts at the first byte outside the alphabet, with the byte offset of
    that byte, which is the length of the longest prefix over the
    alphabet. *)
Theorem X11_validation_exact :
  (forall hash, ParseGeohash hash = None <-> Forall in_alphabet (chars hash))
  /\ (forall p c0 rest,
        Forall in_alphabet (chars p) -> ~ in_alphabet c0 ->
        ParseGeohash (p ++ String c0 rest)
        = Some (InvalidCharacter (fst (decodeRune (String c0 rest)))
                                 (Z.of_nat (String.length p)))).
Proof.
  split; [|apply ParseGeohash_first_invalid].
  intros hash. split.
  - intros Hnone. destruct (alphabet_prefix hash) as [Hall|(p & c0 & rest & -> & Hp & Hc)];
      [exact Hall|].
    rewrite (ParseGeohash_first_invalid p c0 rest Hp Hc) in Hnone. discriminate Hnone.
  - intros Hall. apply ParseGeohash_loop_ok, range_alphabet_ok, Hall.
Qed.

Lemma Encode_result (lat lng : f64) :
  Encode lat lng = Some (chunks_string 12 (geohashInt lat lng)).
Proof. apply uint64ToBase32_spec, geohashInt_range. Qed.

Lemma decode_valid (hash : string) :
  Forall in_alphabet (chars hash) ->
  Main.decode hash = (fst (Decode hash), snd (Decode hash), None).
Proof.
  intros Hall. unfold Main.decode.
  rewrite (ParseGeohash_loop_ok (range hash) (range_alphabet_ok hash 0 Hall) : ParseGeohash hash = None).
  destruct (Decode hash); reflexivity.
Qed.

(** ** The command line *)

(** X12: whenever [encode] of the command returns a hash without error,
    the hash has 12 characters, [decode] of the command accepts it and
    returns the coordinates [Decode] gives, and these coordinates encode
    to the same hash. *)
Theorem X12_cli_round_trip
    (E : Type) (TrimSpace : string -> string) (ParseFloat : string -> f64 * option E)
    (coords hash : string) :
  Main.encode E TrimSpace ParseFloat coords = Some (hash, None) ->
  String.length hash = 12%nat
  /\ Main.decode hash = (fst (Decode hash), snd (Decode hash), None)
  /\ Encode (fst (Decode hash)) (snd (Decode hash)) = Some hash.
Proof.
  unfold Main.encode. intros Henc.
  destruct (ParseCoordinate E TrimSpace ParseFloat coords) as [[lat lng] [err|]];
    [discriminate Henc|].
  rewrite Encode_result in Henc.
  assert (Hh : chunks_string 12 (geohashInt lat lng) = hash) by congruence.
  pose proof (chunks_string_alphabet 12 _ (geohashInt_range lat lng)) as Hall.
  pose proof (chunks_string_length 12 (geohashInt lat lng)) as Hlen.
  rewrite Hh in Hall, Hlen.
  split; [exact Hlen|]. split; [apply decode_valid; exact Hall|].
  apply Encode_Decode_hash; assumption.
Qed.

Lemma X12_witness :
  String.length "w7er87fpgd52" = 12%nat
  /\ Main.decode "w7er87fpgd52"
     = (fst (Decode "w7er87fpgd52"), snd (Decode "w7er87fpgd52"), None)
  /\ Encode (fst (Decode "w7er87fpgd52")) (snd (Decode "w7er87fpgd52"))
     = Some "w7er87fpgd52"%string.
Proof.
  apply (X12_cli_round_trip unit ParseSample.TrimSpace ParseSample.ParseFloat
           "21.0278, 105.8342" "w7er87fpgd52").
  vm_compute. reflexivity.
Defined.

Lemma range_constants :
  is_finite minLat = true /\ valid minLat = true /\ is_finite maxLat = true
  /\ valid maxLat = true /\ (to_Q minLat == - (90))%Q /\ (to_Q maxLat == 90)%Q
  /\ is_finite minLong = true /\ valid minLong = true /\ is_finite maxLong = true
  /\ valid maxLong = true /\ (to_Q minLong == - (180))%Q /\ (to_Q maxLong == 180)%Q.
Proof. repeat match goal with |- _ /\ _ => split end; vm_compute; reflexivity. Qed.

(** ** ParseCoordinate *)

(** X13: when [ParseCoordinate] returns no error, the latitude returned
    is NaN or a finite number in [-90, 90], and the longitude returned is
    NaN or a finite number in [-180, 180]: the two range tests reject the
    infinities, and let NaN through. *)
Theorem X13_parsed_coordinates_in_range
    (E : Type) (TrimSpace : string -> string) (ParseFloat : string -> f64 * option E)
    (coords : string) (lat lng : f64) :
  ParseCoordinate E TrimSpace ParseFloat coords = (lat, lng, None) ->
  valid lat = true -> valid lng = true ->
  (lat = S754_nan \/ (is_finite lat = true /\ (- (90) <= to_Q lat <= 90)%Q))
  /\ (lng = S754_nan \/ (is_finite lng = true /\ (- (180) <= to_Q lng <= 180)%Q)).
Proof.
  intros Hparse Hvlat Hvlng. unfold ParseCoordinate in Hparse.
  destruct (Split coords ",") as [|latStr [|longStr [|x l]]]; try discriminate Hparse.
  destruct (ParseFloat (TrimSpace latStr)) as [lat' [e|]]; [discriminate Hparse|].
  destruct (ParseFloat (TrimSpace longStr)) as [lng' [e|]]; [discriminate Hparse|].
  destruct (ltb lat' minLat || ltb maxLat lat') eqn:Hlat; [discriminate Hparse|].
  destruct (ltb lng' minLong || ltb maxLong lng') eqn:Hlng; [discriminate Hparse|].
  inversion Hparse; subst lat' lng'.
  destruct range_constants
    as (Ha & Hb & Hc & Hd & Qa & Qb & Ha' & Hb' & Hc' & Hd' & Qa' & Qb').
  split.
  - destruct (between_or_nan lat minLat maxLat Hvlat Ha Hb Hc Hd Hlat) as [H|[Hf Hr]];
      [left; exact H|right; split; [exact Hf|]]. rewrite Qa, Qb in Hr. exact Hr.
  - destruct (between_or_nan lng minLong maxLong Hvlng Ha' Hb' Hc' Hd' Hlng) as [H|[Hf Hr]];
      [left; exact H|right; split; [exact Hf|]]. rewrite Qa', Qb' in Hr. exact Hr.
Qed.

Lemma X13_witness :
  (lat_hanoi = S754_nan
   \/ (is_finite lat_hanoi = true /\ (- (90) <= to_Q lat_hanoi <= 90)%Q))
  /\ (lng_hanoi = S754_nan
      \/ (is_finite lng_hanoi = true /\ (- (180) <= to_Q lng_hanoi <= 180)%Q)).
Proof.
  apply (X13_parsed_coordinates_in_range unit ParseSample.TrimSpace ParseSample.ParseFloat
           "21.0278, 105.8342" lat_hanoi lng_hanoi); vm_compute; reflexivity.
Defined.

(** ** EstimateLengthRequired *)

(** X14: on finite radii that are not negative the estimated length
    never grows with the radius: if [0 <= r1 <= r2] then
    [EstimateLengthRequired r2 <= EstimateLengthRequired r1], both between
    1 and 12. *)
Theorem X14_estimate_antitone (r1 r2 : f64) :
  is_finite r1 = true -> valid r1 = true -> is_finite r2 = true -> valid r2 = true ->
  (0 <= to_Q r1)%Q -> (to_Q r1 <= to_Q r2)%Q ->
  exists l1 l2,
    (forall fuel, (1090 <= fuel)%nat -> EstimateLengthRequired fuel r1 = Some l1)
    /\ (forall fuel, (1090 <= fuel)%nat -> EstimateLengthRequired fuel r2 = Some l2)
    /\ 1 <= l2 <= l1 /\ l1 <= 12.
Proof.
  intros Hf1 Hv1 Hf2 Hv2 H0 Hle.
  destruct r1 as [s1| | |s1 m1 e1]; try discriminate Hf1;
    destruct r2 as [s2| | |s2 m2 e2]; try discriminate Hf2.
  - exists 12, 12. split; [intros; apply estimate_zero|].
    split; [intros; apply estimate_zero|lia].
  - destruct s2.
    + exfalso. pose proof (to_Q_negative m2 e2). rewrite to_Q_zero in Hle. lra.
    + destruct (estimate_positive m2 e2 Hv2) as (st2 & Hr2 & _).
      exists 12, (clamp (Z.quot (2 * Z.of_nat st2) 5)).
      split; [intros; apply estimate_zero|]. split; [exact Hr2|].
      pose proof (clamp_bounds (Z.quot (2 * Z.of_nat st2) 5)). lia.
  - exfalso. destruct s1.
    + pose proof (to_Q_negative m1 e1). lra.
    + pose proof (to_Q_positive m1 e1). rewrite to_Q_zero in Hle. lra.
  - destruct s1; [exfalso; pose proof (to_Q_negative m1 e1); lra|].
    destruct s2; [exfalso; pose proof (to_Q_negative m2 e2);
                  pose proof (to_Q_positive m1 e1); lra|].
    destruct (estimate_positive m1 e1 Hv1) as (st1 & Hr1 & Hb1 & Ha1).
    destruct (estimate_positive m2 e2 Hv2) as (st2 & Hr2 & Hb2 & Ha2).
    exists (clamp (Z.quot (2 * Z.of_nat st1) 5)), (clamp (Z.quot (2 * Z.of_nat st2) 5)).
    split; [exact Hr1|]. split; [exact Hr2|].
    pose proof (clamp_bounds (Z.quot (2 * Z.of_nat st1) 5)).
    pose proof (clamp_bounds (Z.quot (2 * Z.of_nat st2) 5)).
    split; [|lia]. split; [lia|].
    apply clamp_mono. apply Z.quot_le_mono; [lia|].
    assert (Hst : (st2 <= st1)%nat).
    { destruct (Nat.le_gt_cases st2 st1) as [Hc|Hc]; [exact Hc|exfalso].
      specialize (Hb2 st1 Hc).
      pose proof (times_pow2_le _ _ st1 Hle). lra. }
    lia.
Qed.

Lemma X14_witness :
  exists l1 l2,
    (forall fuel, (1090 <= fuel)%nat -> EstimateLengthRequired fuel (of_Z 1) = Some l1)
    /\ (forall fuel, (1090 <= fuel)%nat -> EstimateLengthRequired fuel (of_Z 100) = Some l2)
    /\ 1 <= l2 <= l1 /\ l1 <= 12.
Proof.
  apply (X14_estimate_antitone (of_Z 1) (of_Z 100));
    [reflexivity|reflexivity|reflexivity|reflexivity
    |vm_compute; intros H; discriminate H|vm_compute; intros H; discriminate H].
Defined.

(** ** mapTo32Bits *)

(** X16: for a finite fraction [value] with [0 <= value < 1],
    [mapTo32Bits value] is exactly the integer part of [2^32 * value]: the
    multiplication by [2^32] is exact and the conversion to [uint32] loses
    nothing. *)
Theorem X16_fraction_floor (value : f64) :
  is_finite value = true -> valid value = true -> (0 <= to_Q value < 1)%Q ->
  mapTo32Bits value = Qfloor (inject_Z (2 ^ 32) * to_Q value).
Proof. apply mapTo32Bits_floor. Qed.

Lemma X16_witness :
  mapTo32Bits (of_decimal 3 1) = Qfloor (inject_Z (2 ^ 32) * to_Q (of_decimal 3 1)).
Proof.
  apply (X16_fraction_floor (of_decimal 3 1)); [reflexivity|reflexivity|].
  split; [vm_compute; intros H; discriminate H|vm_compute; reflexivity].
Defined.

(** ** Distance *)

(** X17: for a sine that is odd, [Distance] is symmetric: exchanging the
    two points does not change the result, bit for bit. *)
Theorem X17_distance_symmetric
    (Sin Cos : f64 -> f64) (Atan2 : f64 -> f64 -> f64) (lat1 lng1 lat2 lng2 : f64) :
  (forall x, Sin (opp x) = opp (Sin x)) ->
  Distance Sin Cos Atan2 lat1 lng1 lat2 lng2 = Distance Sin Cos Atan2 lat2 lng2 lat1 lng1.
Proof.
  intros Hodd. unfold Distance. cbv zeta.
  rewrite (sine_square_swap Sin Hodd (degreesToRadians lat2) (degreesToRadians lat1)).
  rewrite (sine_pair_swap Sin Hodd _ (degreesToRadians lng2) (degreesToRadians lng1)).
  rewrite (mul_comm (Cos (degreesToRadians lat2)) (Cos (degreesToRadians lat1))).
  reflexivity.
Qed.

Lemma X17_witness :
  Distance (fun x => x) (fun _ => of_Z 1) (fun y _ => y) lat_hanoi lng_hanoi (of_Z 10) (of_Z 20)
  = Distance (fun x => x) (fun _ => of_Z 1) (fun y _ => y) (of_Z 10) (of_Z 20) lat_hanoi lng_hanoi.
Proof.
  apply (X17_distance_symmetric (fun x => x) (fun _ => of_Z 1) (fun y _ => y)).
  intros x. reflexivity.
Defined.

(** X18: the distance from a point to itself is [+0], for finite
    coordinates of moderate size, a sine with [Sin(+0) = +0], an
    arc tangent with [Atan2(+0, 1) = +0] and a cosine whose square at the
    latitude is finite. *)
Theorem X18_distance_to_self
    (Sin Cos : f64 -> f64) (Atan2 : f64 -> f64 -> f64) (lat lng : f64) :
  is_finite lat = true -> valid lat = true -> small lat ->
  is_finite lng = true -> valid lng = true -> small lng ->
  Sin (S754_zero false) = S754_zero false ->
  is_finite (mul (Cos (degreesToRadians lat)) (Cos (degreesToRadians lat))) = true ->
  Atan2 (S754_zero false) (of_Z 1) = S754_zero false ->
  Distance Sin Cos Atan2 lat lng lat lng = S754_zero false.
Proof.
  intros Hf1 Hv1 Hs1 Hf2 Hv2 Hs2 HSin HCos HAtan. unfold Distance. cbv zeta.
  rewrite !sub_diag by (apply degreesToRadians_finite; assumption).
  replace (div (S754_zero false) (of_Z 2)) with (S754_zero false) by reflexivity.
  rewrite HSin, (square_sign _ HCos).
  replace (mul (S754_zero false) (S754_zero false)) with (S754_zero false) by reflexivity.
  replace (add (S754_zero false) (S754_zero false)) with (S754_zero false) by reflexivity.
  replace (sqrt (S754_zero false)) with (S754_zero false) by reflexivity.
  replace (sqrt (sub (of_Z 1) (S754_zero false))) with (of_Z 1) by (vm_compute; reflexivity).
  rewrite HAtan. reflexivity.
Qed.

Lemma X18_witness :
  Distance (fun x => x) (fun _ => of_Z 1) (fun y _ => y) lat_hanoi lng_hanoi lat_hanoi lng_hanoi
  = S754_zero false.
Proof.
  apply (X18_distance_to_self (fun x => x) (fun _ => of_Z 1) (fun y _ => y));
    vm_compute; reflexivity.
Defined.

(** ** BoundingBox *)

(** X15: for a radius that is 0 or between [2^-64] and [2^64], a centre
    of magnitude at most [2^64] and a cosine of the latitude between
    [2^-64] and 1, the box returned contains its centre: the southern and
    northern latitudes bracket the latitude of the centre and the western
    and eastern longitudes its longitude, in both variants of
    [BoundingBox], each with its own order of results. *)
Theorem X15_box_contains_centre (Cos : f64 -> f64) (Pi lat lng r : f64) :
  is_finite lat = true -> valid lat = true -> (Qabs (to_Q lat) <= pow2 64)%Q ->
  is_finite lng = true -> valid lng = true -> (Qabs (to_Q lng) <= pow2 64)%Q ->
  is_finite r = true -> valid r = true ->
  (to_Q r == 0 \/ pow2 (- 64) <= to_Q r)%Q -> (to_Q r <= pow2 64)%Q ->
  is_finite (Cos (mul (div lat (of_Z 180)) Pi)) = true ->
  valid (Cos (mul (div lat (of_Z 180)) Pi)) = true ->
  (pow2 (- 64) <= to_Q (Cos (mul (div lat (of_Z 180)) Pi)) <= 1)%Q ->
  (let '(south, west, north, east) := BoundingBox Cos Pi lat lng r in
   (to_Q south <= to_Q lat <= to_Q north)%Q /\ (to_Q west <= to_Q lng <= to_Q east)%Q)
  /\ (let '(south, north, west, east) := BoundingBox' Cos Pi lat lng r in
      (to_Q south <= to_Q lat <= to_Q north)%Q /\ (to_Q west <= to_Q lng <= to_Q east)%Q).
Proof.
  intros Hflat Hvlat Hblat Hflng Hvlng Hblng Hfr Hvr Hr0 Hr1 Hfc Hvc Hc.
  pose proof (box_offsets Cos Pi lat lng r Hflat Hvlat Hblat Hflng Hvlng Hblng
                Hfr Hvr Hr0 Hr1 Hfc Hvc Hc) as H.
  unfold BoundingBox, BoundingBox'. split; exact H.
Qed.

Lemma X15_witness :
  (let '(south, west, north, east) :=
     BoundingBox (fun _ => of_Z 1) pi64 (S754_zero false) (S754_zero false) lenOfADegreeOfLat in
   (to_Q south <= to_Q (S754_zero false) <= to_Q north)%Q
   /\ (to_Q west <= to_Q (S754_zero false) <= to_Q east)%Q)
  /\ (let '(south, north, west, east) :=
        BoundingBox' (fun _ => of_Z 1) pi64 (S754_zero false) (S754_zero false)
          lenOfADegreeOfLat in
      (to_Q south <= to_Q (S754_zero false) <= to_Q north)%Q
      /\ (to_Q west <= to_Q (S754_zero false) <= to_Q east)%Q).
Proof.
  apply (X15_box_contains_centre (fun _ => of_Z 1) pi64 (S754_zero false) (S754_zero false)
           lenOfADegreeOfLat);
    [reflexivity|reflexivity|vm_compute; intros H; discriminate H
    |reflexivity|reflexivity|vm_compute; intros H; discriminate H
    |reflexivity|reflexivity|right; vm_compute; intros H; discriminate H
    |vm_compute; intros H; discriminate H
    |reflexivity|reflexivity
    |split; vm_compute; intros H; discriminate H].
Defined.

(** ** The box and the radius *)

Module GrowthFacts.
Import NearestFacts.

(** An addition of two numbers of moderate size is rounded to nearest. *)
Lemma add_closest (x y : f64) :
  is_finite x = true -> is_finite y = true -> valid x = true -> valid y = true ->
  small x -> small y -> Closest (add x y) (to_Q x + to_Q y).
Proof.
  intros Hfx Hfy Hvx Hvy Hsx Hsy.
  destruct x as [sx| |  |sx mx ex]; try discriminate Hfx;
    destruct y as [sy| | |sy my ey]; try discriminate Hfy.
  - apply Closest_exact. rewrite !to_Q_zero. unfold add, SFadd.
    destruct sx, sy; cbn [to_Q]; ring.
  - apply Closest_exact. unfold add, SFadd. rewrite to_Q_zero. ring.
  - apply Closest_exact. unfold add, SFadd. rewrite to_Q_zero. ring.
  - unfold add, SFadd.
    destruct (aligned_mantissa sx mx ex (Z.min ex ey)) as (Ha & Habs & Hez); [lia|assumption|].
    destruct (aligned_mantissa sy my ey (Z.min ex ey)) as (Hb & Hbbs & _); [lia|assumption|].
    cbn zeta in Ha, Hb, Habs, Hbbs.
    set (a := cond_Zopp sx (Zpos (fst (shl_align mx ex (Z.min ex ey))))) in *.
    set (b := cond_Zopp sy (Zpos (fst (shl_align my ey (Z.min ex ey))))) in *.
    set (ez := Z.min ex ey) in *.
    assert (Hpow : 2 ^ (401 - ez) = 2 * 2 ^ (400 - ez)).
    { replace (401 - ez) with (Z.succ (400 - ez)) by lia. apply Z.pow_succ_r. lia. }
    apply Closest_ext with (dy (a + b) ez).
    + rewrite dy_add, Ha, Hb. reflexivity.
    + apply binary_normalize_closest.
      assert (Zdigits2 (a + b) <= 401 - ez) by (apply Zdigits2_abs_le; lia). lia.
Qed.

(** The number closest to a representable value is that value. *)
Lemma closest_value (r x : f64) :
  is_finite x = true -> valid x = true -> Closest r (to_Q x) -> (to_Q r == to_Q x)%Q.
Proof.
  intros Hf Hv Hc. destruct (valid_representable x Hf Hv) as (F & c & HF & Hcc & E).
  specialize (Hc F c HF Hcc). rewrite <- E in Hc.
  setoid_replace (to_Q x - to_Q x)%Q with 0%Q in Hc by ring.
  change (Qabs 0) with 0%Q in Hc.
  pose proof (Qabs_nonneg (to_Q r - to_Q x)) as Hn.
  assert (Hz : (Qabs (to_Q r - to_Q x) == 0)%Q) by lra.
  revert Hz. apply Qabs_case; intros; lra.
Qed.

(** Subtracting a larger offset gives a result that is not larger. *)
Lemma sub_antitone (x d1 d2 : f64) :
  is_finite x = true -> valid x = true -> small x ->
  is_finite d1 = true -> valid d1 = true -> small d1 ->
  is_finite d2 = true -> valid d2 = true -> small d2 ->
  (to_Q d1 <= to_Q d2)%Q -> (to_Q (sub x d2) <= to_Q (sub x d1))%Q.
Proof.
  intros Hfx Hvx Hsx Hf1 Hv1 Hs1 Hf2 Hv2 Hs2 Hle.
  pose proof (sub_faithful x d1 Hfx Hf1 Hvx Hv1 Hsx Hs1) as (Hrf1 & Hrv1 & _).
  pose proof (sub_faithful x d2 Hfx Hf2 Hvx Hv2 Hsx Hs2) as (Hrf2 & Hrv2 & _).
  pose proof (sub_closest x d1 Hfx Hf1 Hvx Hv1 Hsx Hs1) as Hc1.
  pose proof (sub_closest x d2 Hfx Hf2 Hvx Hv2 Hsx Hs2) as Hc2.
  destruct (Qlt_le_dec (to_Q d1) (to_Q d2)) as [Hlt|Hge].
  - apply (closest_le _ _ _ _ Hrf2 Hrv2 Hrf1 Hrv1 Hc2 Hc1). lra.
  - assert (E : (to_Q d1 == to_Q d2)%Q) by lra.
    destruct (same_value d1 d2 Hf1 Hv1 Hf2 Hv2 E) as [->|(s & s' & -> & ->)];
      [apply Qle_refl|].
    rewrite to_Q_zero in Hc1, Hc2.
    apply (Closest_ext _ _ (to_Q x)) in Hc1; [|ring].
    apply (Closest_ext _ _ (to_Q x)) in Hc2; [|ring].
    rewrite (closest_value _ x Hfx Hvx Hc1), (closest_value _ x Hfx Hvx Hc2).
    apply Qle_refl.
Qed.

(** Adding a larger offset gives a result that is not smaller. *)
Lemma add_monotone (x d1 d2 : f64) :
  is_finite x = true -> valid x = true -> small x ->
  is_finite d1 = true -> valid d1 = true -> small d1 ->
  is_finite d2 = true -> valid d2 = true -> small d2 ->
  (to_Q d1 <= to_Q d2)%Q -> (to_Q (add x d1) <= to_Q (add x d2))%Q.
Proof.
  intros Hfx Hvx Hsx Hf1 Hv1 Hs1 Hf2 Hv2 Hs2 Hle.
  pose proof (add_faithful x d1 Hfx Hf1 Hvx Hv1 Hsx Hs1) as (Hrf1 & Hrv1 & _).
  pose proof (add_faithful x d2 Hfx Hf2 Hvx Hv2 Hsx Hs2) as (Hrf2 & Hrv2 & _).
  pose proof (add_closest x d1 Hfx Hf1 Hvx Hv1 Hsx Hs1) as Hc1.
  pose proof (add_closest x d2 Hfx Hf2 Hvx Hv2 Hsx Hs2) as Hc2.
  destruct (Qlt_le_dec (to_Q d1) (to_Q d2)) as [Hlt|Hge].
  - apply (closest_le _ _ _ _ Hrf1 Hrv1 Hrf2 Hrv2 Hc1 Hc2). lra.
  - assert (E : (to_Q d1 == to_Q d2)%Q) by lra.
    destruct (same_value d1 d2 Hf1 Hv1 Hf2 Hv2 E) as [->|(s & s' & -> & ->)];
      [apply Qle_refl|].
    rewrite to_Q_zero in Hc1, Hc2.
    apply (Closest_ext _ _ (to_Q x)) in Hc1; [|ring].
    apply (Closest_ext _ _ (to_Q x)) in Hc2; [|ring].
    rewrite (closest_value _ x Hfx Hvx Hc1), (closest_value _ x Hfx Hvx Hc2).
    apply Qle_refl.
Qed.

(** The offset [r / d] of a box does not decrease when the radius
    grows. *)
Lemma delta_monotone (r1 r2 d : f64) :
  is_finite r1 = true -> valid r1 = true ->
  (to_Q r1 == 0 \/ pow2 (- 64) <= to_Q r1)%Q -> (to_Q r1 <= pow2 64)%Q ->
  is_finite r2 = true -> valid r2 = true ->
  (to_Q r2 == 0 \/ pow2 (- 64) <= to_Q r2)%Q -> (to_Q r2 <= pow2 64)%Q ->
  is_finite d = true -> valid d = true -> (pow2 (- 64) <= to_Q d <= pow2 7)%Q ->
  (to_Q r1 <= to_Q r2)%Q -> (to_Q (div r1 d) <= to_Q (div r2 d))%Q.
Proof.
  intros Hf1 Hv1 Hz1 Hu1 Hf2 Hv2 Hz2 Hu2 Hfd Hvd Hd Hle.
  destruct (delta_facts r1 d Hf1 Hv1 Hz1 Hu1 Hfd Hvd Hd) as (Hqf1 & Hqv1 & _ & _).
  destruct (delta_facts r2 d Hf2 Hv2 Hz2 Hu2 Hfd Hvd Hd) as (Hqf2 & Hqv2 & _ & _).
  pose proof (pow2_pos (- 64)) as Hp64.
  assert (Hdpos : (0 < to_Q d)%Q) by lra.
  assert (Hds : small d) by (apply (small_pow2 d 7); [lia|apply Qabs_nonneg_le; lra]).
  assert (Hdl : large d) by (apply (large_pow2 d (- 64)); [lia|apply Hd]).
  assert (Hclosest : forall r, is_finite r = true -> valid r = true ->
            (to_Q r == 0 \/ pow2 (- 64) <= to_Q r)%Q -> (to_Q r <= pow2 64)%Q ->
            Closest (div r d) (to_Q r / to_Q d)).
  { intros r Hf Hv Hz Hu.
    destruct d as [sd| | |sd md ed]; try discriminate Hfd;
      [exfalso; rewrite to_Q_zero in Hdpos; lra|].
    destruct r as [s| | |s m e]; try discriminate Hf.
    - apply Closest_exact. rewrite div_zero, !to_Q_zero. unfold Qdiv. ring.
    - assert (Hpos : (pow2 (- 64) <= to_Q (S754_finite s m e))%Q).
      { destruct Hz as [H0|H0]; [exfalso|exact H0]. destruct s.
        - pose proof (to_Q_negative m e). lra.
        - pose proof (to_Q_positive m e). lra. }
      apply div_closest; try assumption.
      + apply (small_pow2 _ 64); [lia|apply Qabs_nonneg_le; lra].
      + apply (large_pow2 _ (- 64)); [lia|exact Hpos]. }
  destruct (Qlt_le_dec (to_Q r1) (to_Q r2)) as [Hlt|Hge].
  - apply (closest_le _ _ _ _ Hqf1 Hqv1 Hqf2 Hqv2 (Hclosest r1 Hf1 Hv1 Hz1 Hu1)
             (Hclosest r2 Hf2 Hv2 Hz2 Hu2)).
    unfold Qdiv. apply Qmult_lt_compat_r; [apply Qinv_lt_0_compat; exact Hdpos|exact Hlt].
  - assert (E : (to_Q r1 == to_Q r2)%Q) by lra.
    destruct (same_value r1 r2 Hf1 Hv1 Hf2 Hv2 E) as [->|(s & s' & -> & ->)];
      [apply Qle_refl|].
    destruct d as [sd| | |sd md ed]; try discriminate Hfd;
      [exfalso; rewrite to_Q_zero in Hdpos; lra|].
    rewrite !div_zero, !to_Q_zero. apply Qle_refl.
Qed.

(** The four sides of a box move outwards when the radius grows. *)
Lemma box_growth (Cos : f64 -> f64) (Pi lat lng r1 r2 : f64) :
  is_finite lat = true -> valid lat = true -> (Qabs (to_Q lat) <= pow2 64)%Q ->
  is_finite lng = true -> valid lng = true -> (Qabs (to_Q lng) <= pow2 64)%Q ->
  is_finite r1 = true -> valid r1 = true ->
  (to_Q r1 == 0 \/ pow2 (- 64) <= to_Q r1)%Q -> (to_Q r1 <= pow2 64)%Q ->
  is_finite r2 = true -> valid r2 = true ->
  (to_Q r2 == 0 \/ pow2 (- 64) <= to_Q r2)%Q -> (to_Q r2 <= pow2 64)%Q ->
  is_finite (Cos (mul (div lat (of_Z 180)) Pi)) = true ->
  valid (Cos (mul (div lat (of_Z 180)) Pi)) = true ->
  (pow2 (- 64) <= to_Q (Cos (mul (div lat (of_Z 180)) Pi)) <= 1)%Q ->
  (to_Q r1 <= to_Q r2)%Q ->
  ((to_Q (sub lat (deltaLat r2)) <= to_Q (sub lat (deltaLat r1)))%Q
   /\ (to_Q (add lat (deltaLat r1)) <= to_Q (add lat (deltaLat r2)))%Q)
  /\ ((to_Q (sub lng (deltaLng Cos Pi lat r2)) <= to_Q (sub lng (deltaLng Cos Pi lat r1)))%Q
      /\ (to_Q (add lng (deltaLng Cos Pi lat r1)) <= to_Q (add lng (deltaLng Cos Pi lat r2)))%Q).
Proof.
  intros Hflat Hvlat Hblat Hflng Hvlng Hblng Hf1 Hv1 Hz1 Hu1 Hf2 Hv2 Hz2 Hu2 Hfc Hvc Hc Hle.
  assert (Hslat : small lat) by (apply (small_pow2 lat 64); [lia|exact Hblat]).
  assert (Hslng : small lng) by (apply (small_pow2 lng 64); [lia|exact Hblng]).
  split.
  - destruct lat_degree_facts as (Hf & Hv & _ & _ & Hb0 & Hb1).
    assert (Hd : (pow2 (- 64) <= to_Q lenOfADegreeOfLat <= pow2 7)%Q).
    { pose proof (pow2_neg_le_1 64 ltac:(lia)). change (pow2 7) with 128%Q. lra. }
    destruct (delta_facts r1 _ Hf1 Hv1 Hz1 Hu1 Hf Hv Hd) as (Hdf1 & Hdv1 & Hds1 & _).
    destruct (delta_facts r2 _ Hf2 Hv2 Hz2 Hu2 Hf Hv Hd) as (Hdf2 & Hdv2 & Hds2 & _).
    pose proof (delta_monotone r1 r2 _ Hf1 Hv1 Hz1 Hu1 Hf2 Hv2 Hz2 Hu2 Hf Hv Hd Hle) as Hm.
    unfold deltaLat.
    split; [apply sub_antitone; assumption|apply add_monotone; assumption].
  - destruct (km_facts _ Hfc Hvc Hc) as (Hkf & Hkv & Hkb).
    destruct (delta_facts r1 _ Hf1 Hv1 Hz1 Hu1 Hkf Hkv Hkb) as (Hdf1 & Hdv1 & Hds1 & _).
    destruct (delta_facts r2 _ Hf2 Hv2 Hz2 Hu2 Hkf Hkv Hkb) as (Hdf2 & Hdv2 & Hds2 & _).
    pose proof (delta_monotone r1 r2 _ Hf1 Hv1 Hz1 Hu1 Hf2 Hv2 Hz2 Hu2 Hkf Hkv Hkb Hle) as Hm.
    unfold deltaLng.
    split; [apply sub_antitone; assumption|apply add_monotone; assumption].
Qed.

End GrowthFacts.
Import GrowthFacts.

(** X24: a larger radius never gives a smaller box: for two radii
    [r1 <= r2], each 0 or between [2^-64] and [2^64], a centre of
    magnitude at most [2^64] and a cosine of the latitude between [2^-64]
    and 1, the box of [r2] reaches at least as far south, north, west and
    east as the box of [r1], in both variants of [BoundingBox].  Division,
    subtraction and addition are monotone, being rounded to nearest. *)
Theorem X24_box_grows_with_radius (Cos : f64 -> f64) (Pi lat lng r1 r2 : f64) :
  is_finite lat = true -> valid lat = true -> (Qabs (to_Q lat) <= pow2 64)%Q ->
  is_finite lng = true -> valid lng = true -> (Qabs (to_Q lng) <= pow2 64)%Q ->
  is_finite r1 = true -> valid r1 = true ->
  (to_Q r1 == 0 \/ pow2 (- 64) <= to_Q r1)%Q -> (to_Q r1 <= pow2 64)%Q ->
  is_finite r2 = true -> valid r2 = true ->
  (to_Q r2 == 0 \/ pow2 (- 64) <= to_Q r2)%Q -> (to_Q r2 <= pow2 64)%Q ->
  is_finite (Cos (mul (div lat (of_Z 180)) Pi)) = true ->
  valid (Cos (mul (div lat (of_Z 180)) Pi)) = true ->
  (pow2 (- 64) <= to_Q (Cos (mul (div lat (of_Z 180)) Pi)) <= 1)%Q ->
  (to_Q r1 <= to_Q r2)%Q ->
  (let '(south1, west1, north1, east1) := BoundingBox Cos Pi lat lng r1 in
   let '(south2, west2, north2, east2) := BoundingBox Cos Pi lat lng r2 in
   ((to_Q south2 <= to_Q south1)%Q /\ (to_Q north1 <= to_Q north2)%Q)
   /\ ((to_Q west2 <= to_Q west1)%Q /\ (to_Q east1 <= to_Q east2)%Q))
  /\ (let '(south1, north1, west1, east1) := BoundingBox' Cos Pi lat lng r1 in
      let '(south2, north2, west2, east2) := BoundingBox' Cos Pi lat lng r2 in
      ((to_Q south2 <= to_Q south1)%Q /\ (to_Q north1 <= to_Q north2)%Q)
      /\ ((to_Q west2 <= to_Q west1)%Q /\ (to_Q east1 <= to_Q east2)%Q)).
Proof.
  intros Hflat Hvlat Hblat Hflng Hvlng Hblng Hf1 Hv1 Hz1 Hu1 Hf2 Hv2 Hz2 Hu2 Hfc Hvc Hc Hle.
  pose proof (box_growth Cos Pi lat lng r1 r2 Hflat Hvlat Hblat Hflng Hvlng Hblng
                Hf1 Hv1 Hz1 Hu1 Hf2 Hv2 Hz2 Hu2 Hfc Hvc Hc Hle) as H.
  unfold BoundingBox, BoundingBox'. split; exact H.
Qed.

Lemma X24_witness :
  (let '(south1, west1, north1, east1) :=
     BoundingBox (fun _ => of_Z 1) pi64 lat_hanoi lng_hanoi (of_Z 1) in
   let '(south2, west2, north2, east2) :=
     BoundingBox (fun _ => of_Z 1) pi64 lat_hanoi lng_hanoi (of_Z 5) in
   ((to_Q south2 <= to_Q south1)%Q /\ (to_Q north1 <= to_Q north2)%Q)
   /\ ((to_Q west2 <= to_Q west1)%Q /\ (to_Q east1 <= to_Q east2)%Q))
  /\ (let '(south1, north1, west1, east1) :=
        BoundingBox' (fun _ => of_Z 1) pi64 lat_hanoi lng_hanoi (of_Z 1) in
      let '(south2, north2, west2, east2) :=
        BoundingBox' (fun _ => of_Z 1) pi64 lat_hanoi lng_hanoi (of_Z 5) in
      ((to_Q south2 <= to_Q south1)%Q /\ (to_Q north1 <= to_Q north2)%Q)
      /\ ((to_Q west2 <= to_Q west1)%Q /\ (to_Q east1 <= to_Q east2)%Q)).
Proof.
  apply (X24_box_grows_with_radius (fun _ => of_Z 1) pi64 lat_hanoi lng_hanoi (of_Z 1) (of_Z 5));
    [reflexivity|reflexivity|vm_compute; intros H; discriminate H
    |reflexivity|reflexivity|vm_compute; intros H; discriminate H
    |reflexivity|reflexivity|right; vm_compute; intros H; discriminate H
    |vm_compute; intros H; discriminate H
    |reflexivity|reflexivity|right; vm_compute; intros H; discriminate H
    |vm_compute; intros H; discriminate H
    |reflexivity|reflexivity
    |split; vm_compute; intros H; discriminate H
    |vm_compute; intros H; discriminate H].
Defined.

(** ** The order of hashes *)

(** X19: [Encode] preserves the order of coordinates: for valid finite
    coordinates with [-90 <= lat1 <= lat2 <= 90 - 180/2^32] and
    [-180 <= lng1 <= lng2 <= 180 - 360/2^32], the key of (lat1, lng1) is
    at most the key of (lat2, lng2), and the hash of (lat1, lng1) is not
    larger, byte by byte, than the hash of (lat2, lng2).  Every floating
    point operation of [Encode] is monotone, being rounded to nearest. *)
Theorem X19_encode_monotone (lat1 lng1 lat2 lng2 : f64) :
  is_finite lat1 = true -> valid lat1 = true -> is_finite lat2 = true -> valid lat2 = true ->
  is_finite lng1 = true -> valid lng1 = true -> is_finite lng2 = true -> valid lng2 = true ->
  (- (90) <= to_Q lat1)%Q -> (to_Q lat1 <= to_Q lat2)%Q ->
  (to_Q lat2 <= 90 - quantum 180)%Q ->
  (- (180) <= to_Q lng1)%Q -> (to_Q lng1 <= to_Q lng2)%Q ->
  (to_Q lng2 <= 180 - quantum 360)%Q ->
  geohashInt lat1 lng1 <= geohashInt lat2 lng2
  /\ exists s1 s2, Encode lat1 lng1 = Some s1 /\ Encode lat2 lng2 = Some s2
                   /\ String.leb s1 s2 = true.
Proof.
  intros Hfa1 Hva1 Hfa2 Hva2 Hfb1 Hvb1 Hfb2 Hvb2 Ha0 Ha Ha1 Hb0 Hb Hb1.
  pose proof (fraction_bits_le 90 H90 lat1 lat2 Hfa1 Hva1 Ha0 Hfa2 Hva2 Ha1 Ha) as Hlat.
  pose proof (fraction_bits_le 180 H180 lng1 lng2 Hfb1 Hvb1 Hb0 Hfb2 Hvb2 Hb1 Hb) as Hlng.
  change (of_Z (- (90))) with minLat in Hlat. change (of_Z (2 * 90)) with latSpan in Hlat.
  change (of_Z (- (180))) with minLong in Hlng. change (of_Z (2 * 180)) with longSpan in Hlng.
  assert (Hkey : geohashInt lat1 lng1 <= geohashInt lat2 lng2).
  { unfold geohashInt. apply interleave_le; try apply mapTo32Bits_range; assumption. }
  split; [exact Hkey|].
  exists (chunks_string 12 (geohashInt lat1 lng1)), (chunks_string 12 (geohashInt lat2 lng2)).
  split; [apply Encode_result|]. split; [apply Encode_result|].
  unfold String.leb.
  rewrite (chunks_compare 12) by (try apply geohashInt_range; lia).
  change (2 ^ (64 - 5 * Z.of_nat 12)) with 16.
  assert (Hd : geohashInt lat1 lng1 / 16 <= geohashInt lat2 lng2 / 16)
    by (apply Z.div_le_mono; lia).
  destruct (Z.compare_spec (geohashInt lat1 lng1 / 16) (geohashInt lat2 lng2 / 16));
    try reflexivity. lia.
Qed.

Lemma X19_witness :
  geohashInt lat_hanoi lng_hanoi <= geohashInt (of_Z 22) (of_Z 106)
  /\ exists s1 s2, Encode lat_hanoi lng_hanoi = Some s1
                   /\ Encode (of_Z 22) (of_Z 106) = Some s2
                   /\ String.leb s1 s2 = true.
Proof.
  apply (X19_encode_monotone lat_hanoi lng_hanoi (of_Z 22) (of_Z 106));
    [reflexivity|reflexivity|reflexivity|reflexivity
    |reflexivity|reflexivity|reflexivity|reflexivity
    |vm_compute; intros H; discriminate H|vm_compute; intros H; discriminate H
    |vm_compute; intros H; discriminate H|vm_compute; intros H; discriminate H
    |vm_compute; intros H; discriminate H|vm_compute; intros H; discriminate H].
Defined.

(** ** Hashes with a common prefix *)

Module PrefixFacts.

(** The first [k] characters written by the loop of [uint64ToBase32] are
    the characters written by its first [k] iterations. *)
Lemma substring_chunks (k n : nat) (v : Z) :
  (k <= n)%nat -> substring 0 k (chunks_string n v) = chunks_string k v.
Proof.
  revert n v. induction k as [|k IH]; intros n v Hk.
  - destruct (chunks_string n v); reflexivity.
  - destruct n as [|n]; [lia|]. cbn [chunks_string substring].
    rewrite IH by lia. reflexivity.
Qed.

Lemma compare_eq (s t : string) : String.compare s t = Eq <-> s = t.
Proof.
  split; [apply String.compare_eq_iff|intros ->].
  pose proof (String.compare_antisym t t) as H.
  destruct (String.compare t t); [reflexivity|discriminate H|discriminate H].
Qed.

Lemma chunks_eq (n : nat) (v w : Z) :
  (n <= 12)%nat -> is_uint64 v -> is_uint64 w ->
  chunks_string n v = chunks_string n w
  <-> v / 2 ^ (64 - 5 * Z.of_nat n) = w / 2 ^ (64 - 5 * Z.of_nat n).
Proof.
  intros Hn Hv Hw. rewrite <- compare_eq, (chunks_compare n v w Hn Hv Hw).
  apply Z.compare_eq_iff.
Qed.

(** The bits of a quotient by a power of two. *)
Lemma testbit_div_pow2 (x n j : Z) :
  0 <= n -> 0 <= j -> Z.testbit (x / 2 ^ n) j = Z.testbit x (j + n).
Proof. intros Hn Hj. rewrite <- Z.shiftr_div_pow2 by lia. apply Z.shiftr_spec. lia. Qed.

(** Keys that agree above bit [n] come from fractions that agree above
    bit [n / 2], rounded up for the latitude and down for the longitude. *)
Lemma interleave_top (a b a' b' n : Z) :
  is_uint32 a -> is_uint32 b -> is_uint32 a' -> is_uint32 b' -> 0 <= n ->
  interleave32Bits a b / 2 ^ n = interleave32Bits a' b' / 2 ^ n ->
  a / 2 ^ ((n + 1) / 2) = a' / 2 ^ ((n + 1) / 2) /\ b / 2 ^ (n / 2) = b' / 2 ^ (n / 2).
Proof.
  intros Ha Hb Ha' Hb' Hn E.
  assert (Hbits : forall j, n <= j ->
            Z.testbit (interleave32Bits a b) j = Z.testbit (interleave32Bits a' b') j).
  { intros j Hj. replace j with (j - n + n) by lia.
    rewrite <- !testbit_div_pow2 by lia. rewrite E. reflexivity. }
  assert (H1 : 2 * ((n + 1) / 2) <= n + 1 < 2 * ((n + 1) / 2) + 2)
    by (Z.div_mod_to_equations; lia).
  assert (H2 : 2 * (n / 2) <= n < 2 * (n / 2) + 2) by (Z.div_mod_to_equations; lia).
  set (p := (n + 1) / 2) in *. set (q := n / 2) in *.
  split; apply Z.bits_inj'; intros j Hj; rewrite !testbit_div_pow2 by lia.
  - destruct (Z.lt_ge_cases (j + p) 32) as [Hlt|Hge].
    + pose proof (Hbits (2 * (j + p)) ltac:(lia)) as Hk.
      rewrite !InterleaveFacts.interleave_bits in Hk by lia.
      rewrite Z.even_mul in Hk. cbn [Z.even orb] in Hk.
      replace (2 * (j + p) / 2) with (j + p) in Hk
        by (rewrite Z.mul_comm, Z.div_mul; lia).
      destruct (Z.ltb_spec (2 * (j + p)) 64); [exact Hk|lia].
    + rewrite (testbit_high 32 a), (testbit_high 32 a'); try reflexivity; try lia;
        assumption.
  - destruct (Z.lt_ge_cases (j + q) 32) as [Hlt|Hge].
    + pose proof (Hbits (2 * (j + q) + 1) ltac:(lia)) as Hk.
      rewrite !InterleaveFacts.interleave_bits in Hk by lia.
      rewrite Z.even_add, Z.even_mul in Hk. change (Z.even 1) with false in Hk.
      cbn [Z.even orb Bool.eqb] in Hk.
      replace ((2 * (j + q) + 1) / 2) with (j + q) in Hk
        by (apply Z.div_unique with 1; lia).
      destruct (Z.ltb_spec (2 * (j + q) + 1) 64); [exact Hk|lia].
    + rewrite (testbit_high 32 b), (testbit_high 32 b'); try reflexivity; try lia;
        assumption.
Qed.

Lemma half_up (m : Z) : (64 - m + 1) / 2 = 32 - m / 2.
Proof. Z.div_mod_to_equations. lia. Qed.

Lemma half_down (m : Z) : (64 - m) / 2 = 32 - (m + 1) / 2.
Proof. Z.div_mod_to_equations. lia. Qed.

Lemma half_bounds (m : Z) : 0 <= m <= 60 -> 0 <= 32 - m / 2 /\ 0 <= 32 - (m + 1) / 2.
Proof. intros Hm. Z.div_mod_to_equations. lia. Qed.

(** Hashes with a common prefix of [k] characters come from fractions
    with [5k / 2] common leading bits, rounded down for the latitude and
    up for the longitude. *)
Lemma prefix_fractions (a b a' b' : Z) (k : nat) :
  is_uint32 a -> is_uint32 b -> is_uint32 a' -> is_uint32 b' -> (k <= 12)%nat ->
  substring 0 k (chunks_string 12 (interleave32Bits a b))
  = substring 0 k (chunks_string 12 (interleave32Bits a' b')) ->
  (0 <= 32 - 5 * Z.of_nat k / 2
   /\ a / 2 ^ (32 - 5 * Z.of_nat k / 2) = a' / 2 ^ (32 - 5 * Z.of_nat k / 2))
  /\ (0 <= 32 - (5 * Z.of_nat k + 1) / 2
      /\ b / 2 ^ (32 - (5 * Z.of_nat k + 1) / 2) = b' / 2 ^ (32 - (5 * Z.of_nat k + 1) / 2)).
Proof.
  intros Ha Hb Ha' Hb' Hk Hpre.
  rewrite !substring_chunks in Hpre by exact Hk.
  apply (chunks_eq k _ _ Hk (InterleaveFacts.interleave_range a b (proj1 Ha) (proj1 Hb))
           (InterleaveFacts.interleave_range a' b' (proj1 Ha') (proj1 Hb'))) in Hpre.
  destruct (interleave_top a b a' b' (64 - 5 * Z.of_nat k) Ha Hb Ha' Hb' ltac:(lia) Hpre)
    as [Hlat Hlng].
  rewrite half_up in Hlat. rewrite half_down in Hlng.
  destruct (half_bounds (5 * Z.of_nat k) ltac:(lia)) as [S1 S2].
  split; split; assumption.
Qed.

Section Cell.

Variable L : Z.
Hypothesis HL : 65 <= L <= 2 ^ 19.

Lemma grid_last : (grid L (2 ^ 32 - 1) == inject_Z L - quantum (2 * L))%Q.
Proof.
  pose proof (grid_step L (2 ^ 32 - 1) 1) as H.
  replace (2 ^ 32 - 1 + 1) with (2 ^ 32) in H by lia. rewrite grid_top in H.
  change (inject_Z 1) with 1%Q in H. lra.
Qed.

(** A coordinate lies strictly between the grid points before and after
    the grid point of its fraction. *)
Lemma fraction_cell (x : f64) :
  is_finite x = true -> valid x = true ->
  (- inject_Z L <= to_Q x <= inject_Z L - quantum (2 * L))%Q ->
  let a := mapTo32Bits (div (sub x (of_Z (- L))) (of_Z (2 * L))) in
  (grid L (a - 1) < to_Q x < grid L (a + 1))%Q.
Proof.
  intros Hf Hv [Hlo Hhi] a.
  assert (Hq : (0 < quantum (2 * L))%Q) by (apply quantum_pos; lia).
  pose proof (mapTo32Bits_range (div (sub x (of_Z (- L))) (of_Z (2 * L)))) as Ha.
  fold a in Ha. unfold is_uint32 in Ha.
  split.
  - destruct (Z.eq_dec a 0) as [E|Hne].
    + rewrite E. pose proof (grid_step L (-1) 1) as H. change (-1 + 1) with 0 in H.
      rewrite grid_bottom in H. change (inject_Z 1) with 1%Q in H.
      change (0 - 1) with (-1). lra.
    + destruct (Qlt_le_dec (grid L (a - 1)) (to_Q x)) as [Hlt|Hge]; [exact Hlt|exfalso].
      assert (HD : 0 <= a - 1 < 2 ^ 32) by lia.
      destruct (unmap_regular L HL (a - 1) HD) as (Hgf & Hgv & Hgq).
      set (g := add (mul (div (of_Z (a - 1)) two32) (of_Z (2 * L))) (of_Z (- L))) in *.
      pose proof (fraction_of_grid L g (a - 1) HL HD Hgf Hgv Hgq) as Hmap.
      assert (Hup : (to_Q g <= inject_Z L - quantum (2 * L))%Q).
      { rewrite Hgq, <- grid_last. apply grid_le; lia. }
      pose proof (fraction_bits_le L HL x g Hf Hv Hlo Hgf Hgv Hup ltac:(rewrite Hgq; exact Hge)).
      fold a in H. lia.
  - destruct (Z.eq_dec (a + 1) (2 ^ 32)) as [E|Hne].
    + rewrite E, grid_top. lra.
    + destruct (Qlt_le_dec (to_Q x) (grid L (a + 1))) as [Hlt|Hge]; [exact Hlt|exfalso].
      assert (HD : 0 <= a + 1 < 2 ^ 32) by lia.
      destruct (unmap_regular L HL (a + 1) HD) as (Hgf & Hgv & Hgq).
      set (g := add (mul (div (of_Z (a + 1)) two32) (of_Z (2 * L))) (of_Z (- L))) in *.
      pose proof (fraction_of_grid L g (a + 1) HL HD Hgf Hgv Hgq) as Hmap.
      assert (Hglo : (- inject_Z L <= to_Q g)%Q).
      { rewrite Hgq. apply grid_range; lia. }
      pose proof (fraction_bits_le L HL g x Hgf Hgv Hglo Hf Hv Hhi ltac:(rewrite Hgq; exact Hge)).
      fold a in H. lia.
Qed.

(** Two coordinates whose fractions agree above bit [s] are less than
    [2^s + 1] steps apart. *)
Lemma same_block_close (x1 x2 : f64) (s : Z) :
  is_finite x1 = true -> valid x1 = true ->
  (- inject_Z L <= to_Q x1 <= inject_Z L - quantum (2 * L))%Q ->
  is_finite x2 = true -> valid x2 = true ->
  (- inject_Z L <= to_Q x2 <= inject_Z L - quantum (2 * L))%Q ->
  0 <= s ->
  mapTo32Bits (div (sub x1 (of_Z (- L))) (of_Z (2 * L))) / 2 ^ s
  = mapTo32Bits (div (sub x2 (of_Z (- L))) (of_Z (2 * L))) / 2 ^ s ->
  (Qabs (to_Q x1 - to_Q x2) < inject_Z (2 ^ s + 1) * quantum (2 * L))%Q.
Proof.
  intros Hf1 Hv1 Hr1 Hf2 Hv2 Hr2 Hs E.
  pose proof (fraction_cell x1 Hf1 Hv1 Hr1) as H1.
  pose proof (fraction_cell x2 Hf2 Hv2 Hr2) as H2. cbn zeta in H1, H2.
  set (a1 := mapTo32Bits (div (sub x1 (of_Z (- L))) (of_Z (2 * L)))) in *.
  set (a2 := mapTo32Bits (div (sub x2 (of_Z (- L))) (of_Z (2 * L)))) in *.
  assert (Hp : 0 < 2 ^ s) by (apply Z.pow_pos_nonneg; lia).
  set (c := a1 / 2 ^ s) in *.
  assert (B1 : 2 ^ s * c <= a1 < 2 ^ s * c + 2 ^ s).
  { unfold c. pose proof (Z.div_mod a1 (2 ^ s) ltac:(lia)).
    pose proof (Z.mod_pos_bound a1 (2 ^ s) Hp). lia. }
  assert (B2 : 2 ^ s * c <= a2 < 2 ^ s * c + 2 ^ s).
  { rewrite E. pose proof (Z.div_mod a2 (2 ^ s) ltac:(lia)).
    pose proof (Z.mod_pos_bound a2 (2 ^ s) Hp). lia. }
  assert (HLpos : 0 < L) by lia.
  pose proof (grid_le L (2 ^ s * c - 1) (a1 - 1) HLpos ltac:(lia)) as G1.
  pose proof (grid_le L (2 ^ s * c - 1) (a2 - 1) HLpos ltac:(lia)) as G2.
  pose proof (grid_le L (a1 + 1) (2 ^ s * c - 1 + (2 ^ s + 1)) HLpos ltac:(lia)) as G3.
  pose proof (grid_le L (a2 + 1) (2 ^ s * c - 1 + (2 ^ s + 1)) HLpos ltac:(lia)) as G4.
  pose proof (grid_step L (2 ^ s * c - 1) (2 ^ s + 1)) as GS.
  apply Qabs_case; intros _; lra.
Qed.

End Cell.

Lemma geohashInt_eq (lat lng : f64) :
  geohashInt lat lng
  = interleave32Bits (mapTo32Bits (div (sub lat minLat) latSpan))
                     (mapTo32Bits (div (sub lng minLong) longSpan)).
Proof. reflexivity. Qed.

(** The fractions of two points whose hashes share [k] characters. *)
Lemma prefix_cells (lat1 lng1 lat2 lng2 : f64) (k : nat) :
  (k <= 12)%nat ->
  substring 0 k (chunks_string 12 (geohashInt lat1 lng1))
  = substring 0 k (chunks_string 12 (geohashInt lat2 lng2)) ->
  (0 <= 32 - 5 * Z.of_nat k / 2
   /\ mapTo32Bits (div (sub lat1 minLat) latSpan) / 2 ^ (32 - 5 * Z.of_nat k / 2)
      = mapTo32Bits (div (sub lat2 minLat) latSpan) / 2 ^ (32 - 5 * Z.of_nat k / 2))
  /\ (0 <= 32 - (5 * Z.of_nat k + 1) / 2
      /\ mapTo32Bits (div (sub lng1 minLong) longSpan) / 2 ^ (32 - (5 * Z.of_nat k + 1) / 2)
         = mapTo32Bits (div (sub lng2 minLong) longSpan) / 2 ^ (32 - (5 * Z.of_nat k + 1) / 2)).
Proof.
  intros Hk Hpre. rewrite !geohashInt_eq in Hpre.
  apply prefix_fractions; try apply mapTo32Bits_range; assumption.
Qed.

Lemma latitude_block (lat1 lat2 : f64) (s : Z) :
  is_finite lat1 = true -> valid lat1 = true ->
  (- (90) <= to_Q lat1 <= 90 - quantum 180)%Q ->
  is_finite lat2 = true -> valid lat2 = true ->
  (- (90) <= to_Q lat2 <= 90 - quantum 180)%Q ->
  0 <= s ->
  mapTo32Bits (div (sub lat1 minLat) latSpan) / 2 ^ s
  = mapTo32Bits (div (sub lat2 minLat) latSpan) / 2 ^ s ->
  (Qabs (to_Q lat1 - to_Q lat2) < inject_Z (2 ^ s + 1) * quantum 180)%Q.
Proof. apply (same_block_close 90 H90). Qed.

Lemma longitude_block (lng1 lng2 : f64) (s : Z) :
  is_finite lng1 = true -> valid lng1 = true ->
  (- (180) <= to_Q lng1 <= 180 - quantum 360)%Q ->
  is_finite lng2 = true -> valid lng2 = true ->
  (- (180) <= to_Q lng2 <= 180 - quantum 360)%Q ->
  0 <= s ->
  mapTo32Bits (div (sub lng1 minLong) longSpan) / 2 ^ s
  = mapTo32Bits (div (sub lng2 minLong) longSpan) / 2 ^ s ->
  (Qabs (to_Q lng1 - to_Q lng2) < inject_Z (2 ^ s + 1) * quantum 360)%Q.
Proof. apply (same_block_close 180 H180). Qed.

End PrefixFacts.
Import PrefixFacts.

(** X22: the first [k] characters of the strings written by
    [uint64ToBase32] for two keys are the same exactly when the top [5k]
    bits of the keys are the same, for every [k] up to 12. *)
Theorem X22_prefix_top_bits (v w : Z) (k : nat) :
  is_uint64 v -> is_uint64 w -> (k <= 12)%nat ->
  exists s t, uint64ToBase32 v = Some s /\ uint64ToBase32 w = Some t
              /\ (substring 0 k s = substring 0 k t
                  <-> v / 2 ^ (64 - 5 * Z.of_nat k) = w / 2 ^ (64 - 5 * Z.of_nat k)).
Proof.
  intros Hv Hw Hk. exists (chunks_string 12 v), (chunks_string 12 w).
  split; [apply uint64ToBase32_spec, Hv|]. split; [apply uint64ToBase32_spec, Hw|].
  rewrite !substring_chunks by exact Hk. apply chunks_eq; assumption.
Qed.

Lemma X22_witness :
  exists s t, uint64ToBase32 (2 ^ 63) = Some s /\ uint64ToBase32 (2 ^ 63 + 2 ^ 40) = Some t
              /\ (substring 0 4 s = substring 0 4 t
                  <-> 2 ^ 63 / 2 ^ (64 - 5 * Z.of_nat 4)
                      = (2 ^ 63 + 2 ^ 40) / 2 ^ (64 - 5 * Z.of_nat 4)).
Proof.
  apply (X22_prefix_top_bits (2 ^ 63) (2 ^ 63 + 2 ^ 40) 4);
    [split; [discriminate|reflexivity]|split; [discriminate|reflexivity]|lia].
Defined.

(** X23: two points whose hashes share their first [k] characters are
    close. *)
(** X23: two points whose hashes share their first [k] characters are
    close: for valid finite coordinates with latitudes in
    [-90, 90 - 180/2^32] and longitudes in [-180, 180 - 360/2^32], the
    latitudes differ by less than [2^(32 - n) + 1] steps of [180 / 2^32],
    where [n] is [5k / 2] rounded down, and the longitudes by less than
    [2^(32 - m) + 1] steps of [360 / 2^32], where [m] is [5k / 2] rounded
    up: [k] characters hold [n] bits of the latitude and [m] bits of the
    longitude. *)
Theorem X23_common_prefix_close (lat1 lng1 lat2 lng2 : f64) (k : nat) (s1 s2 : string) :
  is_finite lat1 = true -> valid lat1 = true -> is_finite lng1 = true -> valid lng1 = true ->
  is_finite lat2 = true -> valid lat2 = true -> is_finite lng2 = true -> valid lng2 = true ->
  (- (90) <= to_Q lat1 <= 90 - quantum 180)%Q -> (- (180) <= to_Q lng1 <= 180 - quantum 360)%Q ->
  (- (90) <= to_Q lat2 <= 90 - quantum 180)%Q -> (- (180) <= to_Q lng2 <= 180 - quantum 360)%Q ->
  (k <= 12)%nat ->
  Encode lat1 lng1 = Some s1 -> Encode lat2 lng2 = Some s2 ->
  substring 0 k s1 = substring 0 k s2 ->
  (Qabs (to_Q lat1 - to_Q lat2)
   < inject_Z (2 ^ (32 - 5 * Z.of_nat k / 2) + 1) * quantum 180)%Q
  /\ (Qabs (to_Q lng1 - to_Q lng2)
      < inject_Z (2 ^ (32 - (5 * Z.of_nat k + 1) / 2) + 1) * quantum 360)%Q.
Proof.
  intros Hfa1 Hva1 Hfb1 Hvb1 Hfa2 Hva2 Hfb2 Hvb2 Ha1 Hb1 Ha2 Hb2 Hk He1 He2 Hpre.
  rewrite Encode_result in He1, He2.
  assert (E1 : chunks_string 12 (geohashInt lat1 lng1) = s1) by congruence.
  assert (E2 : chunks_string 12 (geohashInt lat2 lng2) = s2) by congruence.
  rewrite <- E1, <- E2 in Hpre.
  destruct (prefix_cells lat1 lng1 lat2 lng2 k Hk Hpre) as [[S1 Hlat] [S2 Hlng]].
  split.
  - exact (latitude_block lat1 lat2 _ Hfa1 Hva1 Ha1 Hfa2 Hva2 Ha2 S1 Hlat).
  - exact (longitude_block lng1 lng2 _ Hfb1 Hvb1 Hb1 Hfb2 Hvb2 Hb2 S2 Hlng).
Qed.

Lemma X23_witness :
  (Qabs (to_Q lat_hanoi - to_Q (of_decimal 210279 4))
   < inject_Z (2 ^ (32 - 5 * Z.of_nat 5 / 2) + 1) * quantum 180)%Q
  /\ (Qabs (to_Q lng_hanoi - to_Q (of_decimal 1058343 4))
      < inject_Z (2 ^ (32 - (5 * Z.of_nat 5 + 1) / 2) + 1) * quantum 360)%Q.
Proof.
  apply (X23_common_prefix_close lat_hanoi lng_hanoi (of_decimal 210279 4)
           (of_decimal 1058343 4) 5 "w7er87fpgd52" "w7er8k40mutv");
    [reflexivity|reflexivity|reflexivity|reflexivity
    |reflexivity|reflexivity|reflexivity|reflexivity
    |split; vm_compute; intros H; discriminate H
    |split; vm_compute; intros H; discriminate H
    |split; vm_compute; intros H; discriminate H
    |split; vm_compute; intros H; discriminate H
    |lia|vm_compute; reflexivity|vm_compute; reflexivity|reflexivity].
Defined.

(** ** The format of coordinates *)

(** X20: [ParseCoordinate] fails with the format error exactly when its
    argument does not hold exactly one comma; with one comma, the text
    before it is read as the latitude and the text after it as the
    longitude, and the pair read is returned when both pass the range
    tests. *)
Theorem X20_one_comma
    (E : Type) (TrimSpace : string -> string) (ParseFloat : string -> f64 * option E) :
  let parse := ParseCoordinate E TrimSpace ParseFloat in
  (forall coords,
     snd (parse coords) = Some FormatError <-> count_byte "," coords <> 1%nat)
  /\ (forall a b,
        count_byte "," a = O -> count_byte "," b = O ->
        forall lat lng,
          ParseFloat (TrimSpace a) = (lat, None) ->
          ParseFloat (TrimSpace b) = (lng, None) ->
          ltb lat minLat || ltb maxLat lat = false ->
          ltb lng minLong || ltb maxLong lng = false ->
          parse (a ++ String "," b)%string = (lat, lng, None)).
Proof.
  intros parse. split.
  - intros coords. unfold parse, ParseCoordinate.
    pose proof (split_acc_length "," coords EmptyString) as Hlen. fold (Split coords ",") in Hlen.
    destruct (Split coords ",") as [|x [|y [|z l]]]; cbn [List.length] in Hlen.
    1, 2, 4: cbn [snd]; split; [intros _; lia|reflexivity].
    split; [|intros Hne; exfalso; lia].
    destruct (ParseFloat (TrimSpace x)) as [lat [e|]]; [discriminate|].
    destruct (ParseFloat (TrimSpace y)) as [lng [e|]]; [discriminate|].
    destruct (_ || _); [discriminate|]. destruct (_ || _); discriminate.
  - intros a b Ha Hb lat lng Hlat Hlng Hr1 Hr2. unfold parse, ParseCoordinate, Split.
    rewrite split_acc_first by exact Ha. rewrite split_acc_none by exact Hb.
    cbn [append]. rewrite Hlat, Hlng, Hr1, Hr2. reflexivity.
Qed.

(** ** The ends of the estimated length *)

(** X21: on a positive radius [EstimateLengthRequired] returns 12 exactly
    when 29 doublings leave the radius below 20037.73, that is for a radius
    below [20037.73 / 2^29], and returns 1 exactly when 4 doublings reach
    20037.73, that is for a radius of at least [20037.73 / 16]. *)
Theorem X21_estimate_saturation (m : positive) (e : Z) :
  let r := S754_finite false m e in
  valid r = true ->
  exists l,
    (forall fuel, (1090 <= fuel)%nat -> EstimateLengthRequired fuel r = Some l)
    /\ (l = 12 <-> (times_pow2 (to_Q r) 29 < to_Q mercatorMax)%Q)
    /\ (l = 1 <-> (to_Q mercatorMax <= times_pow2 (to_Q r) 4)%Q).
Proof.
  intros r Hv. destruct (estimate_positive m e Hv) as (steps & Hres & Hbelow & Habove).
  fold r in Hres, Hbelow, Habove.
  exists (clamp (Z.quot (2 * Z.of_nat steps) 5)). split; [exact Hres|].
  assert (Hquot : 5 * Z.quot (2 * Z.of_nat steps) 5 <= 2 * Z.of_nat steps
                  < 5 * Z.quot (2 * Z.of_nat steps) 5 + 5).
  { pose proof (Z.quot_rem' (2 * Z.of_nat steps) 5) as Hqr.
    pose proof (Z.rem_bound_pos (2 * Z.of_nat steps) 5 ltac:(lia) ltac:(lia)). lia. }
  set (k := Z.quot (2 * Z.of_nat steps) 5) in *.
  assert (H12 : clamp k = 12 <-> (30 <= steps)%nat).
  { unfold clamp, maxLength. destruct (Z.ltb_spec k 1); [cbn; split; intros; lia|].
    destruct (Z.ltb_spec 12 k); split; intros; lia. }
  assert (H1 : clamp k = 1 <-> (steps <= 4)%nat).
  { unfold clamp, maxLength. destruct (Z.ltb_spec k 1); [cbn; split; intros; lia|].
    destruct (Z.ltb_spec 12 k); split; intros; lia. }
  split.
  - rewrite H12. split.
    + intros Hs. apply Hbelow. lia.
    + intros Hlt. destruct (Nat.le_gt_cases 30 steps) as [Hc|Hc]; [exact Hc|exfalso].
      pose proof (positive_times m e steps 29 ltac:(lia)). fold r in H. lra.
  - rewrite H1. split.
    + intros Hs. eapply Qle_trans; [exact Habove|]. apply (positive_times m e). exact Hs.
    + intros Hge. destruct (Nat.le_gt_cases steps 4) as [Hc|Hc]; [exact Hc|exfalso].
      specialize (Hbelow 4%nat Hc). lra.
Qed.

Lemma X21_witness :
  exists l,
    (forall fuel, (1090 <= fuel)%nat -> EstimateLengthRequired fuel (of_Z 1) = Some l)
    /\ (l = 12 <-> (times_pow2 (to_Q (of_Z 1)) 29 < to_Q mercatorMax)%Q)
    /\ (l = 1 <-> (to_Q mercatorMax <= times_pow2 (to_Q (of_Z 1)) 4)%Q).
Proof. apply (X21_estimate_saturation 4503599627370496 (- 52)). reflexivity. Defined.
